(** * atbu.mp_pipeline: the framed pipe channel and the pipeline controller

    A shallow embedding of [src/atbu/mp_pipeline/mp_pipeline.py].

    Python objects with identity (work items, futures, pipe connections)
    live in stores indexed by object identifiers; the methods of
    [PipeConnectionIO] and [MultiprocessingPipeline] are computations in a
    state-and-exception monad over those stores.  A computation either
    returns, raises (keeping the mutations made so far) or blocks. *)

From stdpp Require Import base option list gmap strings fin_maps sorting
  relations.
From Stdlib Require Import ZArith Lia.
From Stdlib.Strings Require Import Byte.

Local Open Scope Z_scope.

(** ** Exceptions *)

(** The exception classes of [atbu.mp_pipeline.exception] and
    [atbu.common.exception] that the module raises, together with the
    built-in ones it meets.  Only the class matters to the code. *)
Inductive exc : Type :=
  | InvalidFunctionArgument
  | InvalidStateError
  | InvalidPipeConnectionMessage
  | PipeConnectionAlreadyEof
  | PipelineResultIsNotPipelineWorkItem
  | PipelineLastStageError
  | NotImplementedError
  | EOFError
  | OSError
  | BrokenPipeError
  | IndexError
  | AttributeError
  | FutureInvalidStateError
  | ExecutorRuntimeError
  | UserException (msg : string).

#[global] Instance exc_eq_dec : EqDecision exc.
Proof. solve_decision. Defined.

(** The error kinds of the specification (section 7). *)
Inductive error_kind : Type :=
  | InvalidArgument
  | InvalidState
  | MalformedFrame
  | AlreadyClosed
  | PeerClosed
  | ResultNotAWorkItem
  | LastStagePaired
  | OtherError.

#[global] Instance error_kind_eq_dec : EqDecision error_kind.
Proof. solve_decision. Defined.

(** Modelled from the spec: the table of section 7 that names the error
    kinds; the exception classes themselves are declared in
    [exception.py], which the module only imports. *)
Definition kind_of (e : exc) : error_kind :=
  match e with
  | InvalidFunctionArgument => InvalidArgument
  | InvalidStateError => InvalidState
  | InvalidPipeConnectionMessage => MalformedFrame
  | PipeConnectionAlreadyEof => AlreadyClosed
  | EOFError => PeerClosed
  | PipelineResultIsNotPipelineWorkItem => ResultNotAWorkItem
  | PipelineLastStageError => LastStagePaired
  | _ => OtherError
  end.

(** ** The state-and-exception monad *)

Inductive outcome (A : Type) : Type :=
  | Returns (a : A)
  | Raises (e : exc)
  | Blocks.
Arguments Returns {A} a.
Arguments Raises {A} e.
Arguments Blocks {A}.

Definition M (S A : Type) : Type := S → outcome A * S.

#[global] Instance M_ret {S} : MRet (M S) := λ A a s, (Returns a, s).

#[global] Instance M_bind {S} : MBind (M S) := λ A B k m s,
  match m s with
  | (Returns a, s') => k a s'
  | (Raises e, s') => (Raises e, s')
  | (Blocks, s') => (Blocks, s')
  end.

Definition raise {S A} (e : exc) : M S A := λ s, (Raises e, s).
Definition block {S A} : M S A := λ s, (Blocks, s).
Definition gets {S A} (f : S → A) : M S A := λ s, (Returns (f s), s).
Definition modify {S} (f : S → S) : M S unit := λ s, (Returns tt, f s).

(** [try: m except Exception as ex: h ex] *)
Definition try_except {S A} (m : M S A) (h : exc → M S A) : M S A :=
  λ s, match m s with
       | (Raises e, s') => h e s'
       | r => r
       end.

(** [if b: m] *)
Definition when {S} (b : bool) (m : M S unit) : M S unit :=
  if b then m else mret tt.

(** ** Python values *)

Inductive pyval : Type :=
  | PyNone
  | PyStr (s : string)
  | PyBytes (b : list byte)
  | PyByteArray (b : list byte)
  | PyInt (z : Z)
  | PyOpaque (tag : nat).

#[global] Instance byte_eq_dec : EqDecision byte.
Proof. intros a b. destruct (Byte.byte_eq_dec a b); [left | right]; done. Defined.

#[global] Instance pyval_eq_dec : EqDecision pyval.
Proof. solve_decision. Defined.

(** [isinstance(v, (bytes, bytearray))] *)
Definition is_bytes_like (v : pyval) : bool :=
  match v with
  | PyBytes _ | PyByteArray _ => true
  | _ => false
  end.

(** [isinstance(v, str)] *)
Definition is_str (v : pyval) : bool :=
  match v with
  | PyStr _ => true
  | _ => false
  end.

(** [len(v)] for a bytes-like value. *)
Definition py_len (v : pyval) : Z :=
  match v with
  | PyBytes b | PyByteArray b => Z.of_nat (length b)
  | _ => 0
  end.

Definition is_none (v : pyval) : bool :=
  match v with
  | PyNone => true
  | _ => false
  end.

(** ** Logging verbosity *)

(** [get_verbosity_level()] of [mp_global] and the effective level of the
    root logger are read from the environment. *)
Record log_env : Type := {
  verbosity_level : Z;
  effective_level : Z;
}.

Definition logging_DEBUG : Z := 10.

Definition _is_very_verbose_logging (env : log_env) : bool :=
  (2 <=? verbosity_level env) && (logging_DEBUG <=? effective_level env).

(** ** Pipe messages *)

Definition PIPE_CONN_MSG_CMD_DATA : string := "data".
Definition PIPE_CONN_MSG_CMD_DATA_FINAL : string := "data-final".
Definition _PIPE_CONN_MSG_DATA_CMDS : list string :=
  [PIPE_CONN_MSG_CMD_DATA; PIPE_CONN_MSG_CMD_DATA_FINAL].

(** The attributes [cmd] and [data] of a [PipeConnectionMessage] are plain
    Python attributes: the receiving side re-checks their types. *)
Record PipeConnectionMessage : Type := {
  cmd : pyval;
  data : pyval;
}.

(** [PipeConnectionMessage.__init__] *)
Definition PipeConnectionMessage_init (c d : pyval)
  : exc + PipeConnectionMessage :=
  let d := if is_none d then PyBytes [] else d in
  if negb (is_bytes_like d) then inl InvalidFunctionArgument
  else inr {| cmd := c; data := d |}.

(** What travels through a pipe: any picklable object. *)
Inductive wire_obj : Type :=
  | WMessage (m : PipeConnectionMessage)
  | WOther (v : pyval).

(** [msg.cmd == tag] *)
Definition cmd_is (v : pyval) (tag : string) : bool :=
  match v with
  | PyStr s => bool_decide (s = tag)
  | _ => false
  end.

(** [msg.cmd in _PIPE_CONN_MSG_DATA_CMDS] *)
Definition cmd_in_data_cmds (v : pyval) : bool :=
  existsb (cmd_is v) _PIPE_CONN_MSG_DATA_CMDS.

(** ** The pipe and its two connections *)

(** The one-way pipe made by [multiprocessing.Pipe(duplex=False)] and its
    two [Connection] handles.  This is the interpreter's library, modelled
    as documented: a closed handle raises [OSError], sending to a closed
    reader raises [BrokenPipeError], receiving from an empty pipe whose
    writer is closed raises [EOFError] and blocks otherwise. *)
Inductive conn_end : Type := ReadEnd | WriteEnd.

#[global] Instance conn_end_eq_dec : EqDecision conn_end.
Proof. solve_decision. Defined.

Record Pipe : Type := {
  in_flight : list wire_obj;
  r_closed : bool;
  w_closed : bool;
  r_fileno : Z;
  w_fileno : Z;
}.

Definition Connection_closed (e : conn_end) (p : Pipe) : bool :=
  match e with
  | ReadEnd => r_closed p
  | WriteEnd => w_closed p
  end.

(** The file number of a handle while it is open. *)
Definition Connection_fileno (e : conn_end) (p : Pipe) : Z :=
  match e with
  | ReadEnd => r_fileno p
  | WriteEnd => w_fileno p
  end.

(** [Connection.fileno()]: a closed handle has no file number. *)
Definition Connection_fileno_call (e : conn_end) : M Pipe Z :=
  λ p,
    if Connection_closed e p then (Raises OSError, p)
    else (Returns (Connection_fileno e p), p).

Definition Connection_send (e : conn_end) (o : wire_obj) : M Pipe unit :=
  λ p,
    if Connection_closed e p then (Raises OSError, p)
    else match e with
         | ReadEnd => (Raises OSError, p)
         | WriteEnd =>
             if r_closed p then (Raises BrokenPipeError, p)
             else (Returns tt,
                   {| in_flight := in_flight p ++ [o];
                      r_closed := r_closed p; w_closed := w_closed p;
                      r_fileno := r_fileno p; w_fileno := w_fileno p |})
         end.

Definition Connection_recv (e : conn_end) : M Pipe wire_obj :=
  λ p,
    if Connection_closed e p then (Raises OSError, p)
    else match e with
         | WriteEnd => (Raises OSError, p)
         | ReadEnd =>
             match in_flight p with
             | o :: rest =>
                 (Returns o,
                  {| in_flight := rest;
                     r_closed := r_closed p; w_closed := w_closed p;
                     r_fileno := r_fileno p; w_fileno := w_fileno p |})
             | [] => if w_closed p then (Raises EOFError, p) else (Blocks, p)
             end
         end.

Definition Connection_close (e : conn_end) : M Pipe unit :=
  λ p,
    (Returns tt,
     match e with
     | ReadEnd =>
         {| in_flight := in_flight p; r_closed := true;
            w_closed := w_closed p;
            r_fileno := r_fileno p; w_fileno := w_fileno p |}
     | WriteEnd =>
         {| in_flight := in_flight p; r_closed := r_closed p;
            w_closed := true;
            r_fileno := r_fileno p; w_fileno := w_fileno p |}
     end).

(** [multiprocessing.connection.Pipe(duplex=False)] *)
Definition new_pipe (rfd wfd : Z) : Pipe :=
  {| in_flight := []; r_closed := false; w_closed := false;
     r_fileno := rfd; w_fileno := wfd |}.

(** ** PipeConnectionIO *)

Module PipeConnectionIO.

(** The attributes of a [PipeConnectionIO] instance; [c] names the
    connection the instance wraps. *)
Record t : Type := {
  c : conn_end;
  is_write : bool;
  _num_bytes : Z;
  _cached_fileno : Z;
  _eof : bool;
}.

(** An endpoint together with the pipe its connection belongs to. *)
Record chan : Type := {
  self : t;
  pipe : Pipe;
}.

Definition set_eof (b : bool) (x : t) : t :=
  {| c := c x; is_write := is_write x; _num_bytes := _num_bytes x;
     _cached_fileno := _cached_fileno x; _eof := b |}.

Definition set_num_bytes (n : Z) (x : t) : t :=
  {| c := c x; is_write := is_write x; _num_bytes := n;
     _cached_fileno := _cached_fileno x; _eof := _eof x |}.

Definition on_self (f : t → t) : M chan unit :=
  modify (λ s, {| self := f (self s); pipe := pipe s |}).

(** Run an operation of the underlying connection. *)
Definition on_conn {A} (op : conn_end → M Pipe A) : M chan A :=
  λ s, let '(r, p) := op (c (self s)) (pipe s) in
       (r, {| self := self s; pipe := p |}).

(** [PipeConnectionIO.__init__], for a connection that is open, as the
    ones of a new pipe are: [fileno()] returns. *)
Definition init (conn : conn_end) (is_w : bool) (p : Pipe) : chan :=
  {| self := {| c := conn; is_write := is_w; _num_bytes := 0;
                _cached_fileno := Connection_fileno conn p;
                _eof := false |};
     pipe := p |}.

(** [create_reader_writer_pair]: the consumer end first, the producer
    end second, over one pipe. *)
Definition create_reader_writer_pair (rfd wfd : Z) : t * t * Pipe :=
  let p := new_pipe rfd wfd in
  (self (init ReadEnd false p), self (init WriteEnd true p), p).

Definition reset_num_bytes : M chan unit := on_self (set_num_bytes 0).

Definition eof : M chan bool := gets (λ s, _eof (self s)).
Definition num_bytes : M chan Z := gets (λ s, _num_bytes (self s)).
Definition tell : M chan Z := num_bytes.
Definition fileno : M chan Z := on_conn Connection_fileno_call.

(** [send_message]; the [except] clause logs and re-raises. *)
Definition send_message (msg : wire_obj) : M chan unit :=
  is_eof ← eof;
  if is_eof : bool then raise PipeConnectionAlreadyEof
  else match msg with
       | WOther _ => raise InvalidFunctionArgument
       | WMessage m =>
           if is_none (cmd m) || negb (is_str (cmd m))
           then raise InvalidFunctionArgument
           else
             let size :=
               if negb (is_none (data m)) && is_bytes_like (data m)
               then py_len (data m) else -1 in
             on_conn (λ e, Connection_send e msg);;
             when (cmd_is (cmd m) PIPE_CONN_MSG_CMD_DATA_FINAL)
                  (on_self (set_eof true));;
             when (negb (size =? -1))
                  (on_self (λ x, set_num_bytes (_num_bytes x + size) x))
       end.

(** [recv_message]; both [except] clauses re-raise. *)
Definition recv_message : M chan PipeConnectionMessage :=
  msg ← on_conn Connection_recv;
  match msg with
  | WOther _ => raise InvalidPipeConnectionMessage
  | WMessage m =>
      if is_none (cmd m) then raise InvalidPipeConnectionMessage
      else if negb (is_str (cmd m)) then raise InvalidPipeConnectionMessage
      else
        when (cmd_is (cmd m) PIPE_CONN_MSG_CMD_DATA_FINAL)
             (on_self (set_eof true));;
        when (negb (is_none (data m)) && is_bytes_like (data m))
             (on_self (λ x, set_num_bytes (_num_bytes x + py_len (data m)) x));;
        mret m
  end.

(** [_write] *)
Definition _write (tag : string) (buf : pyval) : M chan Z :=
  w ← gets (λ s, is_write (self s));
  if negb w then raise NotImplementedError
  else match PipeConnectionMessage_init (PyStr tag) buf with
       | inl e => raise e
       | inr msg => send_message (WMessage msg);; mret (py_len buf)
       end.

(** [_validate_write_buf] *)
Definition _validate_write_buf (buf : pyval) : M chan unit :=
  if is_none buf then raise InvalidFunctionArgument
  else if negb (is_bytes_like buf) then raise InvalidFunctionArgument
  else mret tt.

(** [write_eof] *)
Definition write_eof (buf : pyval) : M chan Z :=
  is_eof ← eof;
  if is_eof : bool then raise PipeConnectionAlreadyEof
  else _validate_write_buf buf;;
       _write PIPE_CONN_MSG_CMD_DATA_FINAL buf.

(** [write] *)
Definition write (buf : pyval) : M chan Z :=
  _validate_write_buf buf;;
  if py_len buf =? 0 then mret 0
  else _write PIPE_CONN_MSG_CMD_DATA buf.

(** [read]; [size] is the optional argument, [PyNone] when omitted. *)
Definition read (size : pyval) : M chan pyval :=
  w ← gets (λ s, is_write (self s));
  if w : bool then raise NotImplementedError
  else if negb (is_none size) then raise InvalidPipeConnectionMessage
  else
    is_eof ← eof;
    if is_eof : bool then mret (PyBytes [])
    else
      try_except
        (msg ← recv_message;
         if negb (is_str (cmd msg)) then raise InvalidPipeConnectionMessage
         else if negb (cmd_in_data_cmds (cmd msg))
         then raise InvalidPipeConnectionMessage
         else if negb (is_bytes_like (data msg))
         then raise InvalidPipeConnectionMessage
         else mret (data msg))
        (λ ex, match ex with
               | EOFError => mret (PyBytes [])
               | _ => raise ex
               end).

(** [close]: the call on the connection sits inside the verbosity
    test, as in the source. *)
Definition close (env : log_env) : M chan unit :=
  if _is_very_verbose_logging env
  then on_conn Connection_close
  else mret tt.

(** The [closed] property. *)
Definition closed : M chan bool :=
  gets (λ s, Connection_closed (c (self s)) (pipe s)).

Definition seekable : M chan bool := mret false.
Definition seek (offset whence : Z) : M chan Z := raise NotImplementedError.

End PipeConnectionIO.

(** ** Work items *)

(** The instance attributes of a [PipelineWorkItem]; [user_attrs] is the
    rest of the instance dictionary (what a stage or the caller added).
    The failure list is kept by value in each instance; two references to
    one instance share it through the instance store. *)
Record PipelineWorkItem : Type := {
  _cur_stage : Z;
  user_obj : pyval;
  user_kwargs : option (gmap string pyval);
  exceptions : option (list exc);
  pipe_conn : option nat;
  _auto_copy_attr : bool;
  user_attrs : gmap string pyval;
}.

(** [PipelineWorkItem.__init__] *)
Definition PipelineWorkItem_init (obj : pyval) (auto_copy_attr : bool)
    (kwargs : gmap string pyval) : PipelineWorkItem :=
  {| _cur_stage := 0; user_obj := obj; user_kwargs := Some kwargs;
     exceptions := None; pipe_conn := None;
     _auto_copy_attr := auto_copy_attr; user_attrs := ∅ |}.

#[global] Instance PipelineWorkItem_inhabited : Inhabited PipelineWorkItem :=
  populate (PipelineWorkItem_init PyNone true ∅).

Definition set_cur_stage (n : Z) (w : PipelineWorkItem) : PipelineWorkItem :=
  {| _cur_stage := n; user_obj := user_obj w; user_kwargs := user_kwargs w;
     exceptions := exceptions w; pipe_conn := pipe_conn w;
     _auto_copy_attr := _auto_copy_attr w; user_attrs := user_attrs w |}.

Definition set_user_obj (v : pyval) (w : PipelineWorkItem) : PipelineWorkItem :=
  {| _cur_stage := _cur_stage w; user_obj := v; user_kwargs := user_kwargs w;
     exceptions := exceptions w; pipe_conn := pipe_conn w;
     _auto_copy_attr := _auto_copy_attr w; user_attrs := user_attrs w |}.

Definition set_exceptions (l : option (list exc)) (w : PipelineWorkItem)
  : PipelineWorkItem :=
  {| _cur_stage := _cur_stage w; user_obj := user_obj w;
     user_kwargs := user_kwargs w;
     exceptions := l; pipe_conn := pipe_conn w;
     _auto_copy_attr := _auto_copy_attr w; user_attrs := user_attrs w |}.

Definition set_pipe_conn (c : option nat) (w : PipelineWorkItem)
  : PipelineWorkItem :=
  {| _cur_stage := _cur_stage w; user_obj := user_obj w;
     user_kwargs := user_kwargs w;
     exceptions := exceptions w; pipe_conn := c;
     _auto_copy_attr := _auto_copy_attr w; user_attrs := user_attrs w |}.

Definition set_user_attrs (a : gmap string pyval) (w : PipelineWorkItem)
  : PipelineWorkItem :=
  {| _cur_stage := _cur_stage w; user_obj := user_obj w;
     user_kwargs := user_kwargs w;
     exceptions := exceptions w; pipe_conn := pipe_conn w;
     _auto_copy_attr := _auto_copy_attr w; user_attrs := a |}.

(** The [is_failed] property. *)
Definition is_failed (w : PipelineWorkItem) : bool :=
  match exceptions w with
  | Some (_ :: _) => true
  | _ => false
  end.

(** [increment_stage] *)
Definition increment_stage (w : PipelineWorkItem) : PipelineWorkItem :=
  set_cur_stage (_cur_stage w + 1) w.

(** [append_exception] *)
Definition append_exception (ex : exc) (w : PipelineWorkItem)
  : PipelineWorkItem :=
  set_exceptions (Some (default [] (exceptions w) ++ [ex])) w.

(** ** Stages *)

Inductive pred_result : Type :=
  | PredReturns (b : bool)
  | PredRaises (e : exc).

(** The class of a stage decides its [is_subprocess] property. *)
Inductive stage_class : Type :=
  | PipelineStage_base
  | SubprocessPipelineStage
  | ThreadPipelineStage.

(** A stage: its class, the two callables given at construction (the
    worker is opaque: it runs inside an executor), the stage keyword
    arguments and the value of the [is_pipe_with_next_stage] property,
    which a derived class overrides. *)
Record PipelineStage : Type := {
  stage_cls : stage_class;
  fn_determiner : option (PipelineWorkItem → pred_result);
  fn_worker : option nat;
  stage_kwargs : gmap string pyval;
  is_pipe_with_next_stage : bool;
}.

(** The [is_subprocess] property. *)
Definition is_subprocess (s : PipelineStage) : exc + bool :=
  match stage_cls s with
  | PipelineStage_base => inl NotImplementedError
  | SubprocessPipelineStage => inr true
  | ThreadPipelineStage => inr false
  end.

(** [PipelineStage.is_for_stage] *)
Definition is_for_stage (s : PipelineStage) (pwi : PipelineWorkItem)
  : pred_result :=
  match fn_determiner s with
  | None => PredRaises InvalidStateError
  | Some f => f pwi
  end.

(** ** Python containers *)

(** A [dict] keeps its keys in insertion order. *)
Section dict.
Context {K V : Type} `{EqDecision K}.

Fixpoint dict_get (k : K) (d : list (K * V)) : option V :=
  match d with
  | [] => None
  | (k', v) :: d' => if decide (k' = k) then Some v else dict_get k d'
  end.

Fixpoint dict_set (k : K) (v : V) (d : list (K * V)) : list (K * V) :=
  match d with
  | [] => [(k, v)]
  | (k', v') :: d' =>
      if decide (k' = k) then (k, v) :: d' else (k', v') :: dict_set k v d'
  end.

Fixpoint dict_del (k : K) (d : list (K * V)) : list (K * V) :=
  match d with
  | [] => []
  | (k', v') :: d' =>
      if decide (k' = k) then dict_del k d' else (k', v') :: dict_del k d'
  end.

Definition dict_values (d : list (K * V)) : list V := d.*2.
End dict.

(** [l[i]] for a list and a Python integer. *)
Definition py_index {A} (l : list A) (i : Z) : option A :=
  let n := Z.of_nat (length l) in
  if (0 <=? i) && (i <? n) then l !! Z.to_nat i
  else if (- n <=? i) && (i <? 0) then l !! Z.to_nat (n + i)
  else None.

(** Adding to a set of object references, kept in insertion order. *)
Definition set_add (x : nat) (l : list nat) : list nat :=
  if bool_decide (x ∈ l) then l else l ++ [x].

(** ** Futures, executors, contexts *)

Inductive fut_value : Type :=
  | ResWorkItem (w : nat)
  | ResValue (v : pyval).

Inductive Future : Type :=
  | FutPending
  | FutResult (r : fut_value)
  | FutException (e : exc).

(** What an executor was asked to run. *)
Inductive task : Type :=
  | TaskPlWorker
  | TaskStageWork (stage : PipelineStage) (stage_wi_copy : nat)
      (kwargs : gmap string pyval).

Record Executor : Type := {
  max_workers : option Z;
  exec_shutdown : bool;
  exec_tasks : list (nat * task);
}.

Definition Executor_init (mw : option Z) : Executor :=
  {| max_workers := mw; exec_shutdown := false; exec_tasks := [] |}.

(** [_WorkItemStageRunCtx] *)
Record _WorkItemStageRunCtx : Type := {
  ctx_cur_stage : Z;
  ctx_fut : nat;
  ctx_wi : nat;
}.

#[global] Instance _WorkItemStageRunCtx_eq_dec : EqDecision _WorkItemStageRunCtx.
Proof. solve_decision. Defined.

Record Anomaly : Type := {
  anomaly_exception : exc;
  anomaly_message : string;
}.

(** Where the controller thread stands: at the top of an iteration of
    [_pl_worker], inside the wait of an iteration, or gone. *)
Inductive pl_pc : Type := PcTop | PcWaiting | PcExited.

(** ** The pipeline and the objects it refers to *)

(** The first fields are the stores of the objects the pipeline holds
    references to: work items, futures and the pipe connections of the
    controller's process, with the calls made to [Connection.close] and to
    the stage determiners in the order they happened.  The fields whose
    names start with an underscore, [was_graceful_shutdown] and
    [anomalies] are the attributes of [MultiprocessingPipeline]; a key or
    queue entry [None] is Python's [None].  [pl_worker_pc] is the position
    of the controller thread. *)
Record pl_state : Type := {
  heap : gmap nat PipelineWorkItem;
  futures : gmap nat Future;
  conn_closed : gmap nat bool;
  conn_close_calls : list nat;
  asked : list (nat * Z * pred_result);
  _stages : list PipelineStage;
  _max_simultaneous_work_items : option Z;
  _is_shutdown : bool;
  _wi_to_wifut : list (option nat * nat);
  _thread_exec : Executor;
  _pl_worker_future : option nat;
  _input_queue_fut : option nat;
  _pl_input_queue : list (option nat);
  _process_exec : Executor;
  _process_exec2 : Executor;
  _plfut_to_wi : gmap nat nat;
  _running_wi_contexts : list (nat * list _WorkItemStageRunCtx);
  _fut_to_pipe_conn : gmap nat nat;
  was_graceful_shutdown : bool;
  anomalies : list Anomaly;
  pl_worker_pc : pl_pc;
}.

Definition upd_heap (f : gmap nat PipelineWorkItem →
    gmap nat PipelineWorkItem) (st : pl_state)
  : pl_state :=
  {| heap := f (heap st); futures := futures st;
     conn_closed := conn_closed st; conn_close_calls := conn_close_calls st;
     asked := asked st; _stages := _stages st;
     _max_simultaneous_work_items := _max_simultaneous_work_items st;
     _is_shutdown := _is_shutdown st; _wi_to_wifut := _wi_to_wifut st;
     _thread_exec := _thread_exec st;
     _pl_worker_future := _pl_worker_future st;
     _input_queue_fut := _input_queue_fut st;
     _pl_input_queue := _pl_input_queue st;
     _process_exec := _process_exec st; _process_exec2 := _process_exec2 st;
     _plfut_to_wi := _plfut_to_wi st;
     _running_wi_contexts := _running_wi_contexts st;
     _fut_to_pipe_conn := _fut_to_pipe_conn st;
     was_graceful_shutdown := was_graceful_shutdown st;
     anomalies := anomalies st; pl_worker_pc := pl_worker_pc st |}.

Definition upd_futures (f : gmap nat Future → gmap nat Future) (st : pl_state)
  : pl_state :=
  {| heap := heap st; futures := f (futures st);
     conn_closed := conn_closed st; conn_close_calls := conn_close_calls st;
     asked := asked st; _stages := _stages st;
     _max_simultaneous_work_items := _max_simultaneous_work_items st;
     _is_shutdown := _is_shutdown st; _wi_to_wifut := _wi_to_wifut st;
     _thread_exec := _thread_exec st;
     _pl_worker_future := _pl_worker_future st;
     _input_queue_fut := _input_queue_fut st;
     _pl_input_queue := _pl_input_queue st;
     _process_exec := _process_exec st; _process_exec2 := _process_exec2 st;
     _plfut_to_wi := _plfut_to_wi st;
     _running_wi_contexts := _running_wi_contexts st;
     _fut_to_pipe_conn := _fut_to_pipe_conn st;
     was_graceful_shutdown := was_graceful_shutdown st;
     anomalies := anomalies st; pl_worker_pc := pl_worker_pc st |}.

Definition upd_conn_closed (f : gmap nat bool → gmap nat bool) (st : pl_state)
  : pl_state :=
  {| heap := heap st; futures := futures st;
     conn_closed := f (conn_closed st);
     conn_close_calls := conn_close_calls st; asked := asked st;
     _stages := _stages st;
     _max_simultaneous_work_items := _max_simultaneous_work_items st;
     _is_shutdown := _is_shutdown st; _wi_to_wifut := _wi_to_wifut st;
     _thread_exec := _thread_exec st;
     _pl_worker_future := _pl_worker_future st;
     _input_queue_fut := _input_queue_fut st;
     _pl_input_queue := _pl_input_queue st;
     _process_exec := _process_exec st; _process_exec2 := _process_exec2 st;
     _plfut_to_wi := _plfut_to_wi st;
     _running_wi_contexts := _running_wi_contexts st;
     _fut_to_pipe_conn := _fut_to_pipe_conn st;
     was_graceful_shutdown := was_graceful_shutdown st;
     anomalies := anomalies st; pl_worker_pc := pl_worker_pc st |}.

Definition upd_conn_close_calls (f : list nat → list nat) (st : pl_state)
  : pl_state :=
  {| heap := heap st; futures := futures st; conn_closed := conn_closed st;
     conn_close_calls := f (conn_close_calls st); asked := asked st;
     _stages := _stages st;
     _max_simultaneous_work_items := _max_simultaneous_work_items st;
     _is_shutdown := _is_shutdown st; _wi_to_wifut := _wi_to_wifut st;
     _thread_exec := _thread_exec st;
     _pl_worker_future := _pl_worker_future st;
     _input_queue_fut := _input_queue_fut st;
     _pl_input_queue := _pl_input_queue st;
     _process_exec := _process_exec st; _process_exec2 := _process_exec2 st;
     _plfut_to_wi := _plfut_to_wi st;
     _running_wi_contexts := _running_wi_contexts st;
     _fut_to_pipe_conn := _fut_to_pipe_conn st;
     was_graceful_shutdown := was_graceful_shutdown st;
     anomalies := anomalies st; pl_worker_pc := pl_worker_pc st |}.

Definition upd_asked (f : list (nat * Z * pred_result) →
    list (nat * Z * pred_result)) (st : pl_state)
  : pl_state :=
  {| heap := heap st; futures := futures st; conn_closed := conn_closed st;
     conn_close_calls := conn_close_calls st; asked := f (asked st);
     _stages := _stages st;
     _max_simultaneous_work_items := _max_simultaneous_work_items st;
     _is_shutdown := _is_shutdown st; _wi_to_wifut := _wi_to_wifut st;
     _thread_exec := _thread_exec st;
     _pl_worker_future := _pl_worker_future st;
     _input_queue_fut := _input_queue_fut st;
     _pl_input_queue := _pl_input_queue st;
     _process_exec := _process_exec st; _process_exec2 := _process_exec2 st;
     _plfut_to_wi := _plfut_to_wi st;
     _running_wi_contexts := _running_wi_contexts st;
     _fut_to_pipe_conn := _fut_to_pipe_conn st;
     was_graceful_shutdown := was_graceful_shutdown st;
     anomalies := anomalies st; pl_worker_pc := pl_worker_pc st |}.

Definition upd_stages (f : list PipelineStage →
    list PipelineStage) (st : pl_state)
  : pl_state :=
  {| heap := heap st; futures := futures st; conn_closed := conn_closed st;
     conn_close_calls := conn_close_calls st; asked := asked st;
     _stages := f (_stages st);
     _max_simultaneous_work_items := _max_simultaneous_work_items st;
     _is_shutdown := _is_shutdown st; _wi_to_wifut := _wi_to_wifut st;
     _thread_exec := _thread_exec st;
     _pl_worker_future := _pl_worker_future st;
     _input_queue_fut := _input_queue_fut st;
     _pl_input_queue := _pl_input_queue st;
     _process_exec := _process_exec st; _process_exec2 := _process_exec2 st;
     _plfut_to_wi := _plfut_to_wi st;
     _running_wi_contexts := _running_wi_contexts st;
     _fut_to_pipe_conn := _fut_to_pipe_conn st;
     was_graceful_shutdown := was_graceful_shutdown st;
     anomalies := anomalies st; pl_worker_pc := pl_worker_pc st |}.

Definition upd_wi_to_wifut (f : list (option nat * nat) →
    list (option nat * nat)) (st : pl_state)
  : pl_state :=
  {| heap := heap st; futures := futures st; conn_closed := conn_closed st;
     conn_close_calls := conn_close_calls st; asked := asked st;
     _stages := _stages st;
     _max_simultaneous_work_items := _max_simultaneous_work_items st;
     _is_shutdown := _is_shutdown st; _wi_to_wifut := f (_wi_to_wifut st);
     _thread_exec := _thread_exec st;
     _pl_worker_future := _pl_worker_future st;
     _input_queue_fut := _input_queue_fut st;
     _pl_input_queue := _pl_input_queue st;
     _process_exec := _process_exec st; _process_exec2 := _process_exec2 st;
     _plfut_to_wi := _plfut_to_wi st;
     _running_wi_contexts := _running_wi_contexts st;
     _fut_to_pipe_conn := _fut_to_pipe_conn st;
     was_graceful_shutdown := was_graceful_shutdown st;
     anomalies := anomalies st; pl_worker_pc := pl_worker_pc st |}.

Definition upd_thread_exec (f : Executor → Executor) (st : pl_state)
  : pl_state :=
  {| heap := heap st; futures := futures st; conn_closed := conn_closed st;
     conn_close_calls := conn_close_calls st; asked := asked st;
     _stages := _stages st;
     _max_simultaneous_work_items := _max_simultaneous_work_items st;
     _is_shutdown := _is_shutdown st; _wi_to_wifut := _wi_to_wifut st;
     _thread_exec := f (_thread_exec st);
     _pl_worker_future := _pl_worker_future st;
     _input_queue_fut := _input_queue_fut st;
     _pl_input_queue := _pl_input_queue st;
     _process_exec := _process_exec st; _process_exec2 := _process_exec2 st;
     _plfut_to_wi := _plfut_to_wi st;
     _running_wi_contexts := _running_wi_contexts st;
     _fut_to_pipe_conn := _fut_to_pipe_conn st;
     was_graceful_shutdown := was_graceful_shutdown st;
     anomalies := anomalies st; pl_worker_pc := pl_worker_pc st |}.

Definition upd_pl_worker_future (f : option nat → option nat) (st : pl_state)
  : pl_state :=
  {| heap := heap st; futures := futures st; conn_closed := conn_closed st;
     conn_close_calls := conn_close_calls st; asked := asked st;
     _stages := _stages st;
     _max_simultaneous_work_items := _max_simultaneous_work_items st;
     _is_shutdown := _is_shutdown st; _wi_to_wifut := _wi_to_wifut st;
     _thread_exec := _thread_exec st;
     _pl_worker_future := f (_pl_worker_future st);
     _input_queue_fut := _input_queue_fut st;
     _pl_input_queue := _pl_input_queue st;
     _process_exec := _process_exec st; _process_exec2 := _process_exec2 st;
     _plfut_to_wi := _plfut_to_wi st;
     _running_wi_contexts := _running_wi_contexts st;
     _fut_to_pipe_conn := _fut_to_pipe_conn st;
     was_graceful_shutdown := was_graceful_shutdown st;
     anomalies := anomalies st; pl_worker_pc := pl_worker_pc st |}.

Definition upd_input_queue_fut (f : option nat → option nat) (st : pl_state)
  : pl_state :=
  {| heap := heap st; futures := futures st; conn_closed := conn_closed st;
     conn_close_calls := conn_close_calls st; asked := asked st;
     _stages := _stages st;
     _max_simultaneous_work_items := _max_simultaneous_work_items st;
     _is_shutdown := _is_shutdown st; _wi_to_wifut := _wi_to_wifut st;
     _thread_exec := _thread_exec st;
     _pl_worker_future := _pl_worker_future st;
     _input_queue_fut := f (_input_queue_fut st);
     _pl_input_queue := _pl_input_queue st;
     _process_exec := _process_exec st; _process_exec2 := _process_exec2 st;
     _plfut_to_wi := _plfut_to_wi st;
     _running_wi_contexts := _running_wi_contexts st;
     _fut_to_pipe_conn := _fut_to_pipe_conn st;
     was_graceful_shutdown := was_graceful_shutdown st;
     anomalies := anomalies st; pl_worker_pc := pl_worker_pc st |}.

Definition upd_pl_input_queue (f : list (option nat) →
    list (option nat)) (st : pl_state)
  : pl_state :=
  {| heap := heap st; futures := futures st; conn_closed := conn_closed st;
     conn_close_calls := conn_close_calls st; asked := asked st;
     _stages := _stages st;
     _max_simultaneous_work_items := _max_simultaneous_work_items st;
     _is_shutdown := _is_shutdown st; _wi_to_wifut := _wi_to_wifut st;
     _thread_exec := _thread_exec st;
     _pl_worker_future := _pl_worker_future st;
     _input_queue_fut := _input_queue_fut st;
     _pl_input_queue := f (_pl_input_queue st);
     _process_exec := _process_exec st; _process_exec2 := _process_exec2 st;
     _plfut_to_wi := _plfut_to_wi st;
     _running_wi_contexts := _running_wi_contexts st;
     _fut_to_pipe_conn := _fut_to_pipe_conn st;
     was_graceful_shutdown := was_graceful_shutdown st;
     anomalies := anomalies st; pl_worker_pc := pl_worker_pc st |}.

Definition upd_process_exec (f : Executor → Executor) (st : pl_state)
  : pl_state :=
  {| heap := heap st; futures := futures st; conn_closed := conn_closed st;
     conn_close_calls := conn_close_calls st; asked := asked st;
     _stages := _stages st;
     _max_simultaneous_work_items := _max_simultaneous_work_items st;
     _is_shutdown := _is_shutdown st; _wi_to_wifut := _wi_to_wifut st;
     _thread_exec := _thread_exec st;
     _pl_worker_future := _pl_worker_future st;
     _input_queue_fut := _input_queue_fut st;
     _pl_input_queue := _pl_input_queue st;
     _process_exec := f (_process_exec st);
     _process_exec2 := _process_exec2 st; _plfut_to_wi := _plfut_to_wi st;
     _running_wi_contexts := _running_wi_contexts st;
     _fut_to_pipe_conn := _fut_to_pipe_conn st;
     was_graceful_shutdown := was_graceful_shutdown st;
     anomalies := anomalies st; pl_worker_pc := pl_worker_pc st |}.

Definition upd_process_exec2 (f : Executor → Executor) (st : pl_state)
  : pl_state :=
  {| heap := heap st; futures := futures st; conn_closed := conn_closed st;
     conn_close_calls := conn_close_calls st; asked := asked st;
     _stages := _stages st;
     _max_simultaneous_work_items := _max_simultaneous_work_items st;
     _is_shutdown := _is_shutdown st; _wi_to_wifut := _wi_to_wifut st;
     _thread_exec := _thread_exec st;
     _pl_worker_future := _pl_worker_future st;
     _input_queue_fut := _input_queue_fut st;
     _pl_input_queue := _pl_input_queue st;
     _process_exec := _process_exec st;
     _process_exec2 := f (_process_exec2 st);
     _plfut_to_wi := _plfut_to_wi st;
     _running_wi_contexts := _running_wi_contexts st;
     _fut_to_pipe_conn := _fut_to_pipe_conn st;
     was_graceful_shutdown := was_graceful_shutdown st;
     anomalies := anomalies st; pl_worker_pc := pl_worker_pc st |}.

Definition upd_plfut_to_wi (f : gmap nat nat → gmap nat nat) (st : pl_state)
  : pl_state :=
  {| heap := heap st; futures := futures st; conn_closed := conn_closed st;
     conn_close_calls := conn_close_calls st; asked := asked st;
     _stages := _stages st;
     _max_simultaneous_work_items := _max_simultaneous_work_items st;
     _is_shutdown := _is_shutdown st; _wi_to_wifut := _wi_to_wifut st;
     _thread_exec := _thread_exec st;
     _pl_worker_future := _pl_worker_future st;
     _input_queue_fut := _input_queue_fut st;
     _pl_input_queue := _pl_input_queue st;
     _process_exec := _process_exec st; _process_exec2 := _process_exec2 st;
     _plfut_to_wi := f (_plfut_to_wi st);
     _running_wi_contexts := _running_wi_contexts st;
     _fut_to_pipe_conn := _fut_to_pipe_conn st;
     was_graceful_shutdown := was_graceful_shutdown st;
     anomalies := anomalies st; pl_worker_pc := pl_worker_pc st |}.

Definition upd_running_wi_contexts (f : list (nat * list _WorkItemStageRunCtx) →
    list (nat * list _WorkItemStageRunCtx)) (st : pl_state)
  : pl_state :=
  {| heap := heap st; futures := futures st; conn_closed := conn_closed st;
     conn_close_calls := conn_close_calls st; asked := asked st;
     _stages := _stages st;
     _max_simultaneous_work_items := _max_simultaneous_work_items st;
     _is_shutdown := _is_shutdown st; _wi_to_wifut := _wi_to_wifut st;
     _thread_exec := _thread_exec st;
     _pl_worker_future := _pl_worker_future st;
     _input_queue_fut := _input_queue_fut st;
     _pl_input_queue := _pl_input_queue st;
     _process_exec := _process_exec st; _process_exec2 := _process_exec2 st;
     _plfut_to_wi := _plfut_to_wi st;
     _running_wi_contexts := f (_running_wi_contexts st);
     _fut_to_pipe_conn := _fut_to_pipe_conn st;
     was_graceful_shutdown := was_graceful_shutdown st;
     anomalies := anomalies st; pl_worker_pc := pl_worker_pc st |}.

Definition upd_fut_to_pipe_conn (f : gmap nat nat →
    gmap nat nat) (st : pl_state)
  : pl_state :=
  {| heap := heap st; futures := futures st; conn_closed := conn_closed st;
     conn_close_calls := conn_close_calls st; asked := asked st;
     _stages := _stages st;
     _max_simultaneous_work_items := _max_simultaneous_work_items st;
     _is_shutdown := _is_shutdown st; _wi_to_wifut := _wi_to_wifut st;
     _thread_exec := _thread_exec st;
     _pl_worker_future := _pl_worker_future st;
     _input_queue_fut := _input_queue_fut st;
     _pl_input_queue := _pl_input_queue st;
     _process_exec := _process_exec st; _process_exec2 := _process_exec2 st;
     _plfut_to_wi := _plfut_to_wi st;
     _running_wi_contexts := _running_wi_contexts st;
     _fut_to_pipe_conn := f (_fut_to_pipe_conn st);
     was_graceful_shutdown := was_graceful_shutdown st;
     anomalies := anomalies st; pl_worker_pc := pl_worker_pc st |}.

Definition upd_was_graceful_shutdown (f : bool → bool) (st : pl_state)
  : pl_state :=
  {| heap := heap st; futures := futures st; conn_closed := conn_closed st;
     conn_close_calls := conn_close_calls st; asked := asked st;
     _stages := _stages st;
     _max_simultaneous_work_items := _max_simultaneous_work_items st;
     _is_shutdown := _is_shutdown st; _wi_to_wifut := _wi_to_wifut st;
     _thread_exec := _thread_exec st;
     _pl_worker_future := _pl_worker_future st;
     _input_queue_fut := _input_queue_fut st;
     _pl_input_queue := _pl_input_queue st;
     _process_exec := _process_exec st; _process_exec2 := _process_exec2 st;
     _plfut_to_wi := _plfut_to_wi st;
     _running_wi_contexts := _running_wi_contexts st;
     _fut_to_pipe_conn := _fut_to_pipe_conn st;
     was_graceful_shutdown := f (was_graceful_shutdown st);
     anomalies := anomalies st; pl_worker_pc := pl_worker_pc st |}.

Definition upd_anomalies (f : list Anomaly → list Anomaly) (st : pl_state)
  : pl_state :=
  {| heap := heap st; futures := futures st; conn_closed := conn_closed st;
     conn_close_calls := conn_close_calls st; asked := asked st;
     _stages := _stages st;
     _max_simultaneous_work_items := _max_simultaneous_work_items st;
     _is_shutdown := _is_shutdown st; _wi_to_wifut := _wi_to_wifut st;
     _thread_exec := _thread_exec st;
     _pl_worker_future := _pl_worker_future st;
     _input_queue_fut := _input_queue_fut st;
     _pl_input_queue := _pl_input_queue st;
     _process_exec := _process_exec st; _process_exec2 := _process_exec2 st;
     _plfut_to_wi := _plfut_to_wi st;
     _running_wi_contexts := _running_wi_contexts st;
     _fut_to_pipe_conn := _fut_to_pipe_conn st;
     was_graceful_shutdown := was_graceful_shutdown st;
     anomalies := f (anomalies st); pl_worker_pc := pl_worker_pc st |}.

Definition upd_pl_worker_pc (f : pl_pc → pl_pc) (st : pl_state)
  : pl_state :=
  {| heap := heap st; futures := futures st; conn_closed := conn_closed st;
     conn_close_calls := conn_close_calls st; asked := asked st;
     _stages := _stages st;
     _max_simultaneous_work_items := _max_simultaneous_work_items st;
     _is_shutdown := _is_shutdown st; _wi_to_wifut := _wi_to_wifut st;
     _thread_exec := _thread_exec st;
     _pl_worker_future := _pl_worker_future st;
     _input_queue_fut := _input_queue_fut st;
     _pl_input_queue := _pl_input_queue st;
     _process_exec := _process_exec st; _process_exec2 := _process_exec2 st;
     _plfut_to_wi := _plfut_to_wi st;
     _running_wi_contexts := _running_wi_contexts st;
     _fut_to_pipe_conn := _fut_to_pipe_conn st;
     was_graceful_shutdown := was_graceful_shutdown st;
     anomalies := anomalies st; pl_worker_pc := f (pl_worker_pc st) |}.


Abbreviation PL := (M pl_state).

(** *** Object stores *)

(** [Future()] *)
Definition new_future : PL nat :=
  λ st, let f := fresh (dom (futures st)) in
        (Returns f, upd_futures (insert f FutPending) st).

Definition fut_is_done (st : pl_state) (f : nat) : bool :=
  match futures st !! f with
  | Some (FutResult _) | Some (FutException _) => true
  | _ => false
  end.

(** [Future.done] *)
Definition Future_done (f : nat) : PL bool := gets (λ st, fut_is_done st f).

(** [Future.set_result] and [Future.set_exception] refuse a future that
    is already done. *)
Definition Future_set_result (f : nat) (r : fut_value) : PL unit :=
  d ← Future_done f;
  if d : bool then raise FutureInvalidStateError
  else modify (upd_futures (insert f (FutResult r))).

Definition Future_set_exception (f : nat) (e : exc) : PL unit :=
  d ← Future_done f;
  if d : bool then raise FutureInvalidStateError
  else modify (upd_futures (insert f (FutException e))).

(** [Future.exception] and [Future.result] wait for the future. *)
Definition Future_exception (f : nat) : PL (option exc) :=
  λ st, match futures st !! f with
        | Some (FutResult _) => (Returns None, st)
        | Some (FutException e) => (Returns (Some e), st)
        | _ => (Blocks, st)
        end.

Definition Future_result (f : nat) : PL fut_value :=
  λ st, match futures st !! f with
        | Some (FutResult r) => (Returns r, st)
        | Some (FutException e) => (Raises e, st)
        | _ => (Blocks, st)
        end.

(** A new [PipelineWorkItem] instance. *)
Definition new_work_item (w : PipelineWorkItem) : PL nat :=
  λ st, let i := fresh (dom (heap st)) in
        (Returns i, upd_heap (insert i w) st).

(** Reading and assigning the attributes of the instance behind the
    reference [wi].  A reference held by the controller always has its
    instance; the lookup is total so that both are defined on every
    state. *)
Definition wi_get (wi : nat) : PL PipelineWorkItem :=
  gets (λ st, heap st !!! wi).

Definition wi_update (wi : nat) (f : PipelineWorkItem → PipelineWorkItem)
  : PL unit :=
  modify (upd_heap (λ h, <[wi:=f (h !!! wi)]> h)).

(** [multiprocessing.Pipe(duplex=False)]: the reading connection first. *)
Definition new_pipe_connections : PL (nat * nat) :=
  λ st, let r := fresh (dom (conn_closed st)) in
        let w := fresh ({[r]} ∪ dom (conn_closed st)) in
        (Returns (r, w),
         upd_conn_closed (λ m, <[w:=false]> (<[r:=false]> m)) st).

(** [Connection.close] in the controller's process. *)
Definition conn_close (c : nat) : PL unit :=
  modify (λ st, upd_conn_close_calls (λ l, l ++ [c])
                  (upd_conn_closed (insert c true) st)).

(** *** Executors *)

Inductive pool : Type := ThreadExec | ProcessExec | ProcessExec2.

Definition pool_get (p : pool) (st : pl_state) : Executor :=
  match p with
  | ThreadExec => _thread_exec st
  | ProcessExec => _process_exec st
  | ProcessExec2 => _process_exec2 st
  end.

Definition pool_upd (p : pool) (f : Executor → Executor) : pl_state → pl_state :=
  match p with
  | ThreadExec => upd_thread_exec f
  | ProcessExec => upd_process_exec f
  | ProcessExec2 => upd_process_exec2 f
  end.

Definition add_task (f : nat) (t : task) (e : Executor) : Executor :=
  {| max_workers := max_workers e; exec_shutdown := exec_shutdown e;
     exec_tasks := exec_tasks e ++ [(f, t)] |}.

(** [Executor.submit]: a pending future for the task, unless the
    executor was shut down. *)
Definition Executor_submit (p : pool) (t : task) : PL nat :=
  e ← gets (pool_get p);
  if exec_shutdown e then raise ExecutorRuntimeError
  else f ← new_future;
       modify (pool_upd p (add_task f t));;
       mret f.

(** [Executor.shutdown] *)
Definition Executor_shutdown (p : pool) : PL unit :=
  modify (pool_upd p (λ e, {| max_workers := max_workers e;
                              exec_shutdown := true;
                              exec_tasks := exec_tasks e |})).

(** *** PipelineWorkItem.stage_complete *)

(** [self] and [wi] are references: the controller passes the same
    instance for both when the stage's future failed. *)
Definition stage_complete (self : nat) (stage_num : Z) (wi : nat)
    (ex : option exc) : PL unit :=
  match ex with
  | Some e => wi_update self (append_exception e)
  | None => mret tt
  end;;
  r ← wi_get wi;
  when (is_failed r)
    (wi_update self
       (λ s, if exceptions s is None then set_exceptions (Some []) s else s);;
     r ← wi_get wi;
     wi_update self
       (λ s, set_exceptions
               (Some (default [] (exceptions s) ++ default [] (exceptions r)))
               s));;
  r ← wi_get wi;
  wi_update self (set_user_obj (user_obj r));;
  s ← wi_get self;
  when (_auto_copy_attr s)
    (r ← wi_get wi;
     wi_update self (λ s, set_user_attrs (user_attrs r ∪ user_attrs s) s)).

(** *** MultiprocessingPipeline *)

(** [MultiprocessingPipeline.__init__], with no object around yet. *)
Definition MultiprocessingPipeline_init (stages : list PipelineStage)
    (max_simultaneous_work_items : option Z) : pl_state :=
  let max_workers_each :=
    match max_simultaneous_work_items with
    | Some n => if n =? 0 then None else Some (n + 2)
    | None => None
    end in
  {| heap := ∅; futures := ∅; conn_closed := ∅; conn_close_calls := [];
     asked := [];
     _stages := stages;
     _max_simultaneous_work_items := max_simultaneous_work_items;
     _is_shutdown := false;
     _wi_to_wifut := [];
     _thread_exec := Executor_init None;
     _pl_worker_future := None;
     _input_queue_fut := None;
     _pl_input_queue := [];
     _process_exec := Executor_init max_workers_each;
     _process_exec2 := Executor_init max_workers_each;
     _plfut_to_wi := ∅;
     _running_wi_contexts := [];
     _fut_to_pipe_conn := ∅;
     was_graceful_shutdown := false;
     anomalies := [];
     pl_worker_pc := PcTop |}.

(** [add_stage] *)
Definition add_stage (stage : PipelineStage) : PL unit :=
  modify (upd_stages (λ l, l ++ [stage])).

(** The [num_stages] property. *)
Definition num_stages : PL Z := gets (λ st, Z.of_nat (length (_stages st))).

(** [_start] *)
Definition _start : PL unit :=
  sd ← gets _is_shutdown;
  if sd : bool then raise InvalidFunctionArgument
  else
    wf ← gets _pl_worker_future;
    match wf with
    | Some _ => mret tt
    | None =>
        f ← Executor_submit ThreadExec TaskPlWorker;
        modify (upd_pl_worker_future (λ _, Some f))
    end.

(** [_fail_all_pending]: the loop over [_wi_to_wifut.items()]. *)
Fixpoint fail_all_pending_items (ex : exc) (items : list (option nat * nat))
  : PL unit :=
  match items with
  | [] => mret tt
  | (wi, wifut) :: rest =>
      d ← Future_done wifut;
      if d : bool then fail_all_pending_items ex rest
      else match wi with
           | None => raise AttributeError
           | Some w =>
               wi_update w (append_exception ex);;
               Future_set_exception wifut ex;;
               fail_all_pending_items ex rest
           end
  end.

Definition _fail_all_pending (ex : exc) : PL unit :=
  items ← gets _wi_to_wifut;
  fail_all_pending_items ex items.

(** [_is_wi_still_running] *)
Definition _is_wi_still_running (wi : nat) : PL bool :=
  gets (λ st, match dict_get wi (_running_wi_contexts st) with
              | None => false
              | Some wi_contexts => if wi_contexts is [] then false else true
              end).

(** [_track_running_pipeline_work] *)
Definition _track_running_pipeline_work (cur_stage : Z) (fut wi : nat)
  : PL unit :=
  known ← gets (λ st, _plfut_to_wi st !! fut);
  if known is Some _ then raise InvalidStateError
  else
    modify (upd_plfut_to_wi (insert fut wi));;
    modify (upd_running_wi_contexts
              (λ d, if dict_get wi d is None then dict_set wi [] d else d));;
    modify (upd_running_wi_contexts
              (λ d, dict_set wi
                      (default [] (dict_get wi d) ++
                       [{| ctx_cur_stage := cur_stage; ctx_fut := fut;
                           ctx_wi := wi |}]) d)).

(** The first element equal to [x] removed, as [list.remove] does. *)
Fixpoint py_list_remove {A} `{EqDecision A} (x : A) (l : list A) : list A :=
  match l with
  | [] => []
  | y :: l' => if decide (y = x) then l' else y :: py_list_remove x l'
  end.

(** The value of the loop variable [c] when the loop
    [for c in list(wi_contexts): if c.fut == fut: ...; break] ends, and
    whether it ended on the [break]. *)
Fixpoint ctx_loop (fut : nat) (l : list _WorkItemStageRunCtx)
    (c : option _WorkItemStageRunCtx) : option _WorkItemStageRunCtx * bool :=
  match l with
  | [] => (c, false)
  | x :: l' =>
      if bool_decide (ctx_fut x = fut) then (Some x, true)
      else ctx_loop fut l' (Some x)
  end.

(** [_get_completed_work_item_info] *)
Definition _get_completed_work_item_info (fut : nat)
  : PL (nat * _WorkItemStageRunCtx) :=
  wi ← gets (λ st, _plfut_to_wi st !! fut);
  when (if wi is Some _ then true else false)
       (modify (upd_plfut_to_wi (delete fut)));;
  wi_contexts ← gets (λ st, if wi is Some w
                            then dict_get w (_running_wi_contexts st)
                            else None);
  match wi, wi_contexts with
  | Some w, Some ctxs =>
      let '(c, found) := ctx_loop fut ctxs None in
      let ctxs' :=
        match c, found with
        | Some x, true => py_list_remove x ctxs
        | _, _ => ctxs
        end in
      modify (upd_running_wi_contexts (dict_set w ctxs'));;
      when (if ctxs' is [] then true else false)
           (modify (upd_running_wi_contexts (dict_del w)));;
      match c with
      | None => raise InvalidStateError
      | Some x => mret (w, x)
      end
  | _, _ => raise InvalidStateError
  end.

(** [_get_queued_wi] *)
Definition _get_queued_wi : PL (option nat * bool) :=
  q ← gets _pl_input_queue;
  match q with
  | [] => mret (None, false)
  | wi :: rest =>
      modify (upd_pl_input_queue (λ _, rest));;
      mret (wi, if wi is None then true else false)
  end.

(** [_handle_completed_fut] *)
Definition _handle_completed_fut (done_fut : nat) : PL (option nat * bool) :=
  tracked ← gets (λ st, _plfut_to_wi st !! done_fut);
  if tracked is Some _ then
    '(wi, ctx) ← _get_completed_work_item_info done_fut;
    ex ← Future_exception done_fut;
    match ex with
    | Some e => stage_complete wi (ctx_cur_stage ctx) wi (Some e)
    | None =>
        wi_from_sp ← Future_result done_fut;
        match wi_from_sp with
        | ResValue _ =>
            stage_complete wi (ctx_cur_stage ctx) wi
              (Some PipelineResultIsNotPipelineWorkItem)
        | ResWorkItem r => stage_complete wi (ctx_cur_stage ctx) r None
        end
    end;;
    mret (Some wi, false)
  else
    iq ← gets _input_queue_fut;
    if bool_decide (iq = Some done_fut) then _get_queued_wi
    else
      modify (upd_anomalies
                (λ l, l ++ [{| anomaly_exception := InvalidStateError;
                               anomaly_message :=
                                 "Expected Future for pending pipeline activity or input queue, but the Future matched neither." |}]));;
      _get_queued_wi.

(** [_cleanup_pipe_connections] *)
Definition _cleanup_pipe_connections (done_fut : nat) : PL unit :=
  conn ← gets (λ st, _fut_to_pipe_conn st !! done_fut);
  match conn with
  | Some c => conn_close c;; modify (upd_fut_to_pipe_conn (delete done_fut))
  | None => mret tt
  end.

(** [for x in l: body x] *)
Fixpoint for_each {S A} (l : list A) (body : A → M S unit) : M S unit :=
  match l with
  | [] => mret tt
  | x :: l' => body x;; for_each l' body
  end.

(** [_get_all_wi_futs]: the loop over [_running_wi_contexts.values()]. *)
Fixpoint get_all_wi_futs_loop (values : list (list _WorkItemStageRunCtx))
    (done_futs pending_futs : list nat) : PL (list nat * list nat) :=
  match values with
  | [] => mret (done_futs, pending_futs)
  | wi_contexts :: rest =>
      let ctx_futs := ctx_fut <$> wi_contexts in
      ctx_done_futs ← gets (λ st, List.filter (fut_is_done st) ctx_futs);
      let ctx_pending_futs :=
        List.filter (λ f, negb (bool_decide (f ∈ ctx_done_futs))) ctx_futs in
      for_each ctx_done_futs _cleanup_pipe_connections;;
      if ctx_pending_futs is [] then
        get_all_wi_futs_loop rest (done_futs ++ ctx_futs) pending_futs
      else
        get_all_wi_futs_loop rest done_futs (pending_futs ++ ctx_pending_futs)
  end.

Definition _get_all_wi_futs : PL (list nat * list nat) :=
  values ← gets (λ st, dict_values (_running_wi_contexts st));
  get_all_wi_futs_loop values [] [].

(** [_set_wi_to_finished] *)
Definition _set_wi_to_finished (wi : nat) : PL unit :=
  running ← _is_wi_still_running wi;
  if running : bool then raise InvalidStateError
  else
    fut ← gets (λ st, dict_get (Some wi) (_wi_to_wifut st));
    match fut with
    | None => raise InvalidStateError
    | Some fut =>
        modify (upd_wi_to_wifut (dict_del (Some wi)));;
        Future_set_result fut (ResWorkItem wi)
    end.

(** [_submit_to_stage] *)
Definition _submit_to_stage (stage : PipelineStage) (wi : nat)
    (pipe_conn : option nat) (use_second_pool : bool) : PL nat :=
  w ← wi_get wi;
  stage_wi_copy ← new_work_item (set_pipe_conn pipe_conn w);
  let kwargs :=
    match user_kwargs w with
    | Some user => user ∪ stage_kwargs stage
    | None => stage_kwargs stage
    end in
  fut ← match is_subprocess stage with
        | inl e => raise e
        | inr true =>
            if use_second_pool
            then Executor_submit ProcessExec2
                   (TaskStageWork stage stage_wi_copy kwargs)
            else Executor_submit ProcessExec
                   (TaskStageWork stage stage_wi_copy kwargs)
        | inr false =>
            Executor_submit ThreadExec
              (TaskStageWork stage stage_wi_copy kwargs)
        end;
  w ← wi_get wi;
  _track_running_pipeline_work (_cur_stage w) fut wi;;
  mret fut.

(** [self._stages[i]] *)
Definition stage_at (i : Z) : PL PipelineStage :=
  stages ← gets _stages;
  match py_index stages i with
  | Some stage => mret stage
  | None => raise IndexError
  end.

(** [_is_stage_for_work_item]; the call of the determiner is recorded. *)
Definition _is_stage_for_work_item (wi : nat) (stage_num : option Z)
  : PL bool :=
  w ← wi_get wi;
  let stage_num := default (_cur_stage w) stage_num in
  next_stage ← stage_at stage_num;
  let answer := is_for_stage next_stage w in
  modify (upd_asked (λ l, l ++ [(wi, stage_num, answer)]));;
  match answer with
  | PredReturns b => mret b
  | PredRaises ex => wi_update wi (append_exception ex);; mret false
  end.

(** [if wi.is_failed: wi.cur_stage = self.num_stages] *)
Definition end_if_failed (wi : nat) : PL unit :=
  w ← wi_get wi;
  when (is_failed w) (n ← num_stages; wi_update wi (set_cur_stage n)).

(** [_try_submit_to_stage] *)
Definition _try_submit_to_stage (wi : nat) : PL bool :=
  wanted ← _is_stage_for_work_item wi None;
  if negb wanted then end_if_failed wi;; mret false
  else
    w ← wi_get wi;
    stage ← stage_at (_cur_stage w);
    _submit_to_stage stage wi None false;;
    wi_update wi increment_stage;;
    mret true.

(** [_try_submit_to_dual_stage_with_pipe] *)
Definition _try_submit_to_dual_stage_with_pipe (wi : nat) : PL bool :=
  w ← wi_get wi;
  n ← num_stages;
  if _cur_stage w =? n - 1 then raise PipelineLastStageError
  else
    wanted ← _is_stage_for_work_item wi (Some (_cur_stage w));
    if negb wanted then end_if_failed wi;; mret false
    else
      w ← wi_get wi;
      wanted ← _is_stage_for_work_item wi (Some (_cur_stage w + 1));
      if negb wanted then end_if_failed wi;; mret false
      else
        '(conn_r, conn_w) ← new_pipe_connections;
        w ← wi_get wi;
        next_stage ← stage_at (_cur_stage w);
        fut_w ← _submit_to_stage next_stage wi (Some conn_w) false;
        wi_update wi increment_stage;;
        w ← wi_get wi;
        next_stage ← stage_at (_cur_stage w);
        fut_r ← _submit_to_stage next_stage wi (Some conn_r) true;
        wi_update wi increment_stage;;
        modify (upd_fut_to_pipe_conn (insert fut_w conn_w));;
        modify (upd_fut_to_pipe_conn (insert fut_r conn_r));;
        mret true.

(** The [while wi.cur_stage < self.num_stages] loop of
    [_handle_stages_for_wi]; every turn that does not leave the loop
    moves the item one stage on, so [fuel] bounds the turns. *)
Fixpoint handle_stages_loop (fuel : nat) (wi : nat) : PL unit :=
  match fuel with
  | O => block
  | S fuel =>
      w ← wi_get wi;
      n ← num_stages;
      if negb (_cur_stage w <? n) then mret tt
      else
        next_stage ← stage_at (_cur_stage w);
        submitted ←
          (if is_pipe_with_next_stage next_stage
           then _try_submit_to_dual_stage_with_pipe wi
           else _try_submit_to_stage wi);
        if submitted : bool then mret tt
        else
          w ← wi_get wi;
          if is_failed w then mret tt
          else wi_update wi increment_stage;; handle_stages_loop fuel wi
  end.

(** [_handle_stages_for_wi] *)
Definition _handle_stages_for_wi (wi : nat) : PL unit :=
  w ← wi_get wi;
  n ← num_stages;
  if (_cur_stage w <? 0) || (n <? _cur_stage w) then
    wi_update wi (append_exception InvalidStateError);;
    wi_update wi (set_cur_stage n);;
    _set_wi_to_finished wi
  else
    handle_stages_loop (S (Z.to_nat (n - _cur_stage w))) wi;;
    running ← _is_wi_still_running wi;
    w ← wi_get wi;
    when (negb running && negb (_cur_stage w <? n)) (_set_wi_to_finished wi).

(** [_renew_input_queue_future] *)
Definition _renew_input_queue_future : PL unit :=
  f ← new_future;
  modify (upd_input_queue_fut (λ _, Some f));;
  q ← gets _pl_input_queue;
  when (if q is [] then false else true)
       (Future_set_result f (ResValue (PyInt (Z.of_nat (length q))))).

(** [_internal_submit] *)
Definition _internal_submit (work_item : option nat) : PL nat :=
  _start;;
  wi_fut ← new_future;
  modify (upd_wi_to_wifut (dict_set work_item wi_fut));;
  modify (upd_pl_input_queue (λ q, q ++ [work_item]));;
  q ← gets _pl_input_queue;
  iq ← gets _input_queue_fut;
  match iq with
  | Some f =>
      d ← Future_done f;
      when ((if q is [] then false else true) && negb d)
           (Future_set_result f (ResValue (PyInt (Z.of_nat (length q)))))
  | None => mret tt
  end;;
  mret wi_fut.

(** [submit] *)
Definition submit (work_item : option nat) : PL nat :=
  match work_item with
  | None => raise InvalidFunctionArgument
  | Some _ =>
      known ← gets (λ st, dict_get work_item (_wi_to_wifut st));
      if known is Some _ then raise InvalidFunctionArgument
      else _internal_submit work_item
  end.

(** *** The controller thread *)

(** The futures the controller may act on now: what [_get_all_wi_futs]
    reports as done, and the input queue future when it is done.  At the
    top of an iteration the input queue future is renewed first. *)
Definition collect_done_futs (renew : bool) : PL (list nat * list nat) :=
  '(done_futs, pending_futs) ← _get_all_wi_futs;
  when renew _renew_input_queue_future;;
  iq ← gets _input_queue_fut;
  match iq with
  | Some f =>
      d ← Future_done f;
      mret (if d : bool then done_futs ++ [f] else done_futs, pending_futs)
  | None => raise AttributeError
  end.

(** [for done_fut in done_futs] of [_pl_worker]. *)
Fixpoint handle_done_futs (done_futs : list nat)
    (wi_needing_attention : list nat) (is_shutdown : bool)
  : PL (list nat * bool) :=
  match done_futs with
  | [] => mret (wi_needing_attention, is_shutdown)
  | done_fut :: rest =>
      '(wi, is_sd) ← _handle_completed_fut done_fut;
      handle_done_futs rest
        (if wi is Some w then set_add w wi_needing_attention
         else wi_needing_attention)
        (is_shutdown || is_sd)
  end.

(** [for wi in wi_needing_attention] of [_pl_worker]. *)
Definition attend (wi : nat) : PL unit :=
  is_wi_still_running ← _is_wi_still_running wi;
  if is_wi_still_running : bool then mret tt
  else
    w ← wi_get wi;
    if is_failed w then _set_wi_to_finished wi
    else _handle_stages_for_wi wi.

(** One iteration of the [while not is_shutdown] loop of [_pl_worker];
    its result is [is_shutdown].  When nothing is done the thread waits
    in [concurrent.futures.wait] and the iteration resumes from there. *)
Definition pl_worker_iteration : PL bool :=
  pc ← gets pl_worker_pc;
  '(done_futs, pending_futs) ←
     collect_done_futs (if pc is PcTop then true else false);
  if done_futs is [] then
    modify (upd_pl_worker_pc (λ _, PcWaiting));; block
  else
    modify (upd_pl_worker_pc (λ _, PcTop));;
    '(wi_needing_attention, is_shutdown) ← handle_done_futs done_futs [] false;
    if is_shutdown : bool then mret true
    else for_each wi_needing_attention attend;; mret false.

Fixpoint pl_worker_loop (fuel : nat) : PL unit :=
  match fuel with
  | O => block
  | S fuel =>
      is_shutdown ← pl_worker_iteration;
      if is_shutdown : bool then mret tt else pl_worker_loop fuel
  end.

(** [_pl_worker] *)
Definition _pl_worker (fuel : nat) : PL unit :=
  try_except (pl_worker_loop fuel)
             (λ ex, _fail_all_pending ex;; raise ex);;
  modify (upd_was_graceful_shutdown (λ _, true)).

(** The controller thread runs [_pl_worker] until it waits or ends; the
    thread pool then settles [_pl_worker_future]. *)
Definition run_pl_worker (fuel : nat) : pl_state → pl_state :=
  λ st,
    match pl_worker_pc st, _pl_worker_future st with
    | PcExited, _ | _, None => st
    | _, Some f =>
        match _pl_worker fuel st with
        | (Returns _, st') =>
            upd_pl_worker_pc (λ _, PcExited)
              (upd_futures (insert f (FutResult (ResValue PyNone))) st')
        | (Raises e, st') =>
            upd_pl_worker_pc (λ _, PcExited)
              (upd_futures (insert f (FutException e)) st')
        | (Blocks, st') => st'
        end
    end.

(** [shutdown]; between the sentinel and the executors the caller waits
    for the controller thread in [_pl_worker_future.result()]. *)
Definition shutdown (fuel : nat) : PL unit :=
  wf ← gets _pl_worker_future;
  match wf with
  | None => mret tt
  | Some f =>
      tracked ← gets _wi_to_wifut;
      if tracked is _ :: _ then block
      else
        _internal_submit None;;
        modify (run_pl_worker fuel);;
        Future_result f;;
        modify (upd_pl_worker_future (λ _, None));;
        Executor_shutdown ProcessExec;;
        Executor_shutdown ThreadExec
  end.

(** *** The callers and the workers *)

(** A stage worker ends by raising [ex]. *)
Definition worker_raises (fut : nat) (ex : exc) : pl_state → pl_state :=
  upd_futures (insert fut (FutException ex)).

(** A stage worker ends by returning a work item (the one it was given,
    or what the pool unpickled), or any other object. *)
Definition worker_returns_item (fut : nat) (result : PipelineWorkItem)
  : pl_state → pl_state :=
  λ st, let i := fresh (dom (heap st)) in
        upd_futures (insert fut (FutResult (ResWorkItem i)))
          (upd_heap (insert i result) st).

Definition worker_returns_other (fut : nat) (v : pyval)
  : pl_state → pl_state :=
  upd_futures (insert fut (FutResult (ResValue v))).

(** The state a computation leaves, and what it returned. *)
Definition exec {S A} (m : M S A) (s : S) : S := (m s).2.
Definition eval {S A} (m : M S A) (s : S) : outcome A := (m s).1.

(** ** Notions used to state the facts *)

(** The futures of all the stage executions the controller tracks, in
    the order [_get_all_wi_futs] meets them. *)
Definition tracked_futs (st : pl_state) : list nat :=
  concat ((λ l : list _WorkItemStageRunCtx, ctx_fut <$> l)
            <$> dict_values (_running_wi_contexts st)).

(** What one work item contributes to the two lists of
    [_get_all_wi_futs]. *)
Definition settled_of (st : pl_state) (wi_contexts : list _WorkItemStageRunCtx)
  : list nat :=
  let futs := ctx_fut <$> wi_contexts in
  if forallb (fut_is_done st) futs then futs else [].

Definition pending_of (st : pl_state) (wi_contexts : list _WorkItemStageRunCtx)
  : list nat :=
  let futs := ctx_fut <$> wi_contexts in
  if forallb (fut_is_done st) futs then []
  else List.filter (λ f, negb (fut_is_done st f)) futs.

(** The connections that cleaning up after the futures [futs], in that
    order, closes, given the table of connections per future. *)
Fixpoint closes_of (table : gmap nat nat) (futs : list nat) : list nat :=
  match futs with
  | [] => []
  | f :: futs' =>
      match table !! f with
      | Some c => c :: closes_of (delete f table) futs'
      | None => closes_of table futs'
      end
  end.

(** A computation that leaves the part [proj] of the state as it was,
    whatever its outcome. *)
Definition keeps {A B} (proj : pl_state → B) (m : PL A) : Prop :=
  ∀ st, proj (m st).2 = proj st.

(** No recorded call of a determiner for [wi] raised. *)
Definition no_raise (wi : nat) (calls : list (nat * Z * pred_result)) : Prop :=
  ∀ k e, (wi, k, PredRaises e) ∉ calls.

(** The state in which a walk over the stages leaves the pipeline when
    it only called determiners, the item [wi] ending as [w']. *)
Definition walked (st : pl_state) (wi : nat) (w' : PipelineWorkItem)
    (calls : list (nat * Z * pred_result)) : pl_state :=
  upd_asked (λ _, asked st ++ calls)
    (upd_heap (λ _, <[wi:=w']> (heap st)) st).

(** How an attempt to submit [wi], or a walk over the stages, ended: a
    determiner raised [e], which is the last call recorded; or every
    determiner called refused; or something else happened, after calls
    that did not raise. *)
Inductive attempt (st : pl_state) (wi : nat) (w : PipelineWorkItem)
    (r : outcome bool * pl_state) : Prop :=
  | attempt_raised (calls : list (nat * Z * pred_result)) (k : Z) (e : exc) :
      no_raise wi calls →
      r = (Returns false,
           walked st wi
             (set_cur_stage (Z.of_nat (length (_stages st)))
                (append_exception e w))
             (calls ++ [(wi, k, PredRaises e)])) →
      attempt st wi w r
  | attempt_refused (calls : list (nat * Z * pred_result)) :
      no_raise wi calls →
      r = (Returns false,
           walked st wi
             (if is_failed w
              then set_cur_stage (Z.of_nat (length (_stages st))) w else w)
             calls) →
      attempt st wi w r
  | attempt_other (calls : list (nat * Z * pred_result)) :
      no_raise wi calls →
      r.1 ≠ Returns false →
      asked r.2 = asked st ++ calls →
      attempt st wi w r.

(** How the walk of [_handle_stages_for_wi] over the stages ended: on a
    determiner that raised [e], the item failed and moved past the last
    stage and nothing else changed; or after calls that did not raise. *)
Inductive walk_end (st : pl_state) (wi : nat) (w : PipelineWorkItem)
    (r : outcome unit * pl_state) : Prop :=
  | walk_raised (calls : list (nat * Z * pred_result)) (k : Z) (e : exc) :
      no_raise wi calls →
      r = (Returns tt,
           walked st wi
             (set_cur_stage (Z.of_nat (length (_stages st)))
                (append_exception e w))
             (calls ++ [(wi, k, PredRaises e)])) →
      walk_end st wi w r
  | walk_other (calls : list (nat * Z * pred_result)) :
      no_raise wi calls →
      asked r.2 = asked st ++ calls →
      walk_end st wi w r.

(** How [_handle_stages_for_wi] ended: after a walk that ended on a
    determiner that raised, by completing the future [uf] of the caller
    and dropping the item from the submitted items; or after calls that
    did not raise. *)
Inductive stages_end (st : pl_state) (wi uf : nat) (w : PipelineWorkItem)
    (r : outcome unit * pl_state) : Prop :=
  | stages_raised (calls : list (nat * Z * pred_result)) (k : Z) (e : exc) :
      no_raise wi calls →
      r = (Returns tt,
           upd_futures (insert uf (FutResult (ResWorkItem wi)))
             (upd_wi_to_wifut (dict_del (Some wi))
                (walked st wi
                   (set_cur_stage (Z.of_nat (length (_stages st)))
                      (append_exception e w))
                   (calls ++ [(wi, k, PredRaises e)])))) →
      stages_end st wi uf w r
  | stages_other (calls : list (nat * Z * pred_result)) :
      no_raise wi calls →
      asked r.2 = asked st ++ calls →
      stages_end st wi uf w r.

(** *** The bookkeeping of the outstanding executions *)

(** The futures in the contexts of a table of running work items. *)
Definition futs_of (d : list (nat * list _WorkItemStageRunCtx)) : list nat :=
  concat ((λ l : list _WorkItemStageRunCtx, ctx_fut <$> l) <$> d.*2).

Definition stage_lt (a b : _WorkItemStageRunCtx) : Prop :=
  ctx_cur_stage a < ctx_cur_stage b.

(** The table of running work items [d] and the table of futures [m]
    agree: [d] has each work item once; the future of every context is
    recorded in [m] for the work item of the context; no future has two
    contexts; the contexts of a work item are in the order of their
    stage indices. *)
Definition ctx_ok (d : list (nat * list _WorkItemStageRunCtx))
    (m : gmap nat nat) : Prop :=
  NoDup d.*1 ∧
  (∀ w ctxs c, (w, ctxs) ∈ d → c ∈ ctxs → m !! ctx_fut c = Some w) ∧
  NoDup (futs_of d) ∧
  (∀ w ctxs, (w, ctxs) ∈ d → StronglySorted stage_lt ctxs).

Definition contexts_ok (st : pl_state) : Prop :=
  ctx_ok (_running_wi_contexts st) (_plfut_to_wi st).

(** The two tables [contexts_ok] is about. *)
Definition ctx_tables (st : pl_state)
  : list (nat * list _WorkItemStageRunCtx) * gmap nat nat :=
  (_running_wi_contexts st, _plfut_to_wi st).

(** The contexts of the executions outstanding for [wi]. *)
Definition contexts_of (wi : nat) (st : pl_state) : list _WorkItemStageRunCtx :=
  default [] (dict_get wi (_running_wi_contexts st)).

(** The stages of the executions outstanding for [wi] stand in [R] to the
    stage the item is at. *)
Definition staged (R : Z → Z → Prop) (wi : nat) (st : pl_state) : Prop :=
  contexts_ok st ∧
  Forall (λ c, R (ctx_cur_stage c) (_cur_stage (heap st !!! wi)))
         (contexts_of wi st).

(** What [staged] is about. *)
Definition stage_view (wi : nat) (st : pl_state)
  : list (nat * list _WorkItemStageRunCtx) * gmap nat nat * Z :=
  (ctx_tables st, _cur_stage (heap st !!! wi)).

(** No execution is outstanding for [wi]. *)
Definition idle (wi : nat) (st : pl_state) : Prop :=
  contexts_ok st ∧ contexts_of wi st = [].

(** The table of pipe connections [t] and the connections that exist
    [cl] agree: every connection of the table exists, and the table names
    it for one future only. *)
Definition conn_ok (t : gmap nat nat) (cl : gmap nat bool) : Prop :=
  (∀ f c, t !! f = Some c → is_Some (cl !! c)) ∧
  (∀ f f' c, t !! f = Some c → t !! f' = Some c → f = f').

Definition conns_ok (st : pl_state) : Prop :=
  conn_ok (_fut_to_pipe_conn st) (conn_closed st).

(** What [conns_ok] is about. *)
Definition conn_view (st : pl_state) : gmap nat nat * gmap nat bool :=
  (_fut_to_pipe_conn st, conn_closed st).

(** The two connections of a pair exist and the table does not name
    them yet. *)
Definition pair_fresh (r w : nat) (t : gmap nat nat) (cl : gmap nat bool)
  : Prop :=
  conn_ok t cl ∧ r ≠ w ∧ is_Some (cl !! r) ∧ is_Some (cl !! w) ∧
  (∀ f, t !! f ≠ Some r) ∧ (∀ f, t !! f ≠ Some w).

(** A triple for the computations of the controller: from a state that
    satisfies [P], the computation leaves a state that satisfies [Q a] when
    it returns [a], and [E] when it raises or blocks. *)
Definition hoare {A} (P : pl_state → Prop) (m : PL A)
    (Q : A → pl_state → Prop) (E : pl_state → Prop) : Prop :=
  ∀ st, P st →
    match m st with
    | (Returns a, st') => Q a st'
    | (_, st') => E st'
    end.

(** The states a pipeline goes through: its construction; the caller
    adds a stage, creates a work item, submits an existing work item, or
    shuts the pipeline down; a worker settles a future; the controller
    thread runs. *)
Inductive reachable : pl_state → Prop :=
  | reach_init (stages : list PipelineStage) (n : option Z) :
      reachable (MultiprocessingPipeline_init stages n)
  | reach_add_stage (st : pl_state) (stage : PipelineStage) :
      reachable st → reachable (exec (add_stage stage) st)
  | reach_new_work_item (st : pl_state) (w : PipelineWorkItem) :
      reachable st → reachable (exec (new_work_item w) st)
  | reach_submit (st : pl_state) (wi : option nat) :
      reachable st → reachable (exec (submit wi) st)
  | reach_shutdown (st : pl_state) (fuel : nat) :
      reachable st → reachable (exec (shutdown fuel) st)
  | reach_worker_raises (st : pl_state) (fut : nat) (ex : exc) :
      reachable st → reachable (worker_raises fut ex st)
  | reach_worker_returns_item (st : pl_state) (fut : nat)
        (w : PipelineWorkItem) :
      reachable st → reachable (worker_returns_item fut w st)
  | reach_worker_returns_other (st : pl_state) (fut : nat) (v : pyval) :
      reachable st → reachable (worker_returns_other fut v st)
  | reach_controller (st : pl_state) (fuel : nat) :
      reachable st → reachable (run_pl_worker fuel st).

(** ** Sample endpoints *)

Module Samples.
Import PipeConnectionIO.

(** The two ends of a fresh pair, each with the pipe. *)
Definition consumer0 : chan :=
  let '(r, _, p) := create_reader_writer_pair 3 4 in
  {| self := r; pipe := p |}.

Definition producer0 : chan :=
  let '(_, w, p) := create_reader_writer_pair 3 4 in
  {| self := w; pipe := p |}.

(** A frame with a custom tag and a payload of three bytes. *)
Definition ctl3 : PipeConnectionMessage :=
  {| cmd := PyStr "ctl"; data := PyBytes [x01; x02; x03] |}.

(** The consumer end once [ctl3] is in the pipe. *)
Definition consumer_ctl3 : chan :=
  {| self := self consumer0;
     pipe := pipe (exec (send_message (WMessage ctl3)) producer0) |}.

Definition quiet : log_env := {| verbosity_level := 0; effective_level := 30 |}.
Definition chatty : log_env := {| verbosity_level := 2; effective_level := 10 |}.
End Samples.

(** ** Sample pipelines *)

(** In the pipelines below the submitted work item is object [0], the
    future of the controller thread is [0], the future given to the
    caller is [1], and the stage executions get the futures [3] and [4];
    the facts that use them check these numbers. *)
Module Scenarios.

Definition always : PipelineWorkItem → pred_result := λ _, PredReturns true.
Definition boom : exc := UserException "boom".
Definition faulty : PipelineWorkItem → pred_result := λ _, PredRaises boom.

Definition thread_stage : PipelineStage :=
  {| stage_cls := ThreadPipelineStage; fn_determiner := Some always;
     fn_worker := Some 0%nat; stage_kwargs := ∅;
     is_pipe_with_next_stage := false |}.

Definition subprocess_stage (pipe_with_next : bool) : PipelineStage :=
  {| stage_cls := SubprocessPipelineStage; fn_determiner := Some always;
     fn_worker := Some 0%nat; stage_kwargs := ∅;
     is_pipe_with_next_stage := pipe_with_next |}.

Definition faulty_stage : PipelineStage :=
  {| stage_cls := ThreadPipelineStage; fn_determiner := Some faulty;
     fn_worker := Some 0%nat; stage_kwargs := ∅;
     is_pipe_with_next_stage := false |}.

Definition item_x : PipelineWorkItem :=
  PipelineWorkItem_init (PyStr "x") true ∅.

(** A new pipeline to which a new work item was submitted. *)
Definition submitted (stages : list PipelineStage) : pl_state :=
  exec (wi ← new_work_item item_x; submit (Some wi))
       (MultiprocessingPipeline_init stages None).

(** The same once the controller thread has run until it waits. *)
Definition started (stages : list PipelineStage) : pl_state :=
  run_pl_worker 8 (submitted stages).

(** The same when the controller has taken the item from the input
    queue and is about to advance it. *)
Definition queued (stages : list PipelineStage) : pl_state :=
  exec (collect_done_futs true ≫= λ '(done_futs, _),
        handle_done_futs done_futs [] false)
       (submitted stages).

(** S3, before the controller reacts: one thread stage, whose worker
    has raised [boom]. *)
Definition S3_failed : pl_state :=
  worker_raises 3 boom (started [thread_stage]).

(** S3, after the controller has reacted. *)
Definition S3 : pl_state := run_pl_worker 8 S3_failed.

(** S1: one thread stage whose worker returns the item; the controller
    has finalized the item. *)
Definition S1 : pl_state :=
  run_pl_worker 8 (worker_returns_item 3 item_x (started [thread_stage])).

(** A paired run of two subprocess stages in which the upstream worker
    has returned while the downstream one still runs, before the
    controller looks. *)
Definition S4_upstream_done : pl_state :=
  worker_returns_item 3 item_x
    (started [subprocess_stage true; subprocess_stage false]).

Definition S4_contexts : list _WorkItemStageRunCtx :=
  [{| ctx_cur_stage := 0; ctx_fut := 3; ctx_wi := 0 |};
   {| ctx_cur_stage := 1; ctx_fut := 4; ctx_wi := 0 |}].

(** S6: a pipeline whose only stage asks for a pipe. *)
Definition S6 : pl_state := started [subprocess_stage true].
End Scenarios.

(** * Further notions *)

(** ** Using a channel *)

Module ChannelUse.
Import PipeConnectionIO.

(** The endpoint [x] over the pipe as [s] left it: the other side of the
    channel takes over. *)
Definition hand_over (s : chan) (x : t) : chan :=
  {| self := x; pipe := pipe s |}.

(** [for buf in bufs: write(buf)], with what the calls returned. *)
Fixpoint write_all (bufs : list pyval) : M chan (list Z) :=
  match bufs with
  | [] => mret []
  | buf :: rest => n ← write buf; ns ← write_all rest; mret (n :: ns)
  end.

(** [n] calls of [read()], with what they returned. *)
Fixpoint read_all (n : nat) : M chan (list pyval) :=
  match n with
  | O => mret []
  | S n => buf ← read PyNone; bufs ← read_all n; mret (buf :: bufs)
  end.

(** The [DATA] frame that carries [buf]. *)
Definition data_frame (buf : pyval) : wire_obj :=
  WMessage {| cmd := PyStr PIPE_CONN_MSG_CMD_DATA; data := buf |}.

(** The frames [read] accepts: a message with one of the two data tags
    and a bytes-like payload. *)
Definition is_data_frame (o : wire_obj) : bool :=
  match o with
  | WMessage m => cmd_in_data_cmds (cmd m) && is_bytes_like (data m)
  | WOther _ => false
  end.

(** The number of bytes in a sequence of buffers. *)
Definition total_len (bufs : list pyval) : Z :=
  foldr (λ buf n, py_len buf + n) 0 bufs.

(** A pipe with other objects in flight. *)
Definition set_in_flight (q : list wire_obj) (p : Pipe) : Pipe :=
  {| in_flight := q; r_closed := r_closed p; w_closed := w_closed p;
     r_fileno := r_fileno p; w_fileno := w_fileno p |}.

(** The calls a user makes on an endpoint. *)
Inductive chan_op : Type :=
  | OpSendMessage (o : wire_obj)
  | OpRecvMessage
  | OpWrite (buf : pyval)
  | OpWriteEof (buf : pyval)
  | OpRead (size : pyval)
  | OpClose (env : log_env)
  | OpResetNumBytes.

(** The state a call leaves, whatever its outcome. *)
Definition run_op (s : chan) (o : chan_op) : chan :=
  match o with
  | OpSendMessage o => exec (send_message o) s
  | OpRecvMessage => exec recv_message s
  | OpWrite buf => exec (write buf) s
  | OpWriteEof buf => exec (write_eof buf) s
  | OpRead size => exec (read size) s
  | OpClose env => exec (close env) s
  | OpResetNumBytes => exec reset_num_bytes s
  end.

Definition is_reset (o : chan_op) : bool :=
  match o with
  | OpResetNumBytes => true
  | _ => false
  end.

(** From [s] to [s'] the endpoint kept its connection, its direction
    and its cached file number, its end-of-stream flag was not cleared
    and its byte counter did not decrease. *)
Definition stepped (s s' : chan) : Prop :=
  c (self s') = c (self s) ∧
  is_write (self s') = is_write (self s) ∧
  _cached_fileno (self s') = _cached_fileno (self s) ∧
  (_eof (self s) = true → _eof (self s') = true) ∧
  _num_bytes (self s) <= _num_bytes (self s').

Definition steps {A} (m : M chan A) : Prop := ∀ s, stepped s (m s).2.

(** A producer and a consumer endpoint over an open pipe, none at end of
    stream. *)
Record open_pair (w r : t) (p : Pipe) : Prop := {
  pair_w_write : is_write w = true;
  pair_w_conn : c w = WriteEnd;
  pair_w_eof : _eof w = false;
  pair_r_write : is_write r = false;
  pair_r_conn : c r = ReadEnd;
  pair_r_eof : _eof r = false;
  pair_r_open : r_closed p = false;
  pair_w_open : w_closed p = false;
}.
End ChannelUse.

(** ** Further scenarios *)

(** A failed work item that carries an attribute. *)
Definition item_y : PipelineWorkItem :=
  set_user_attrs (<["note":=PyInt 7]> ∅)
    (append_exception Scenarios.boom
       (PipelineWorkItem_init (PyStr "y") true ∅)).

(** A pipeline without stages in which the caller has created two work
    items, [item_x] and [item_y]. *)
Definition two_items : pl_state :=
  exec (new_work_item Scenarios.item_x;; new_work_item item_y)
       (MultiprocessingPipeline_init [] None).

(** *** The elementary changes of the state *)

(** Every change a call makes to the state of the pipeline is one of
    these: a call of one of the methods that change the tables, or one
    assignment, with the state it is made in. *)
Inductive leaf : pl_state → pl_state → Prop :=
  | leaf_wi_update st wi f : leaf st (exec (wi_update wi f) st)
  | leaf_new_work_item st w : leaf st (exec (new_work_item w) st)
  | leaf_set_exception st f e : leaf st (exec (Future_set_exception f e) st)
  | leaf_internal_submit st k : leaf st (exec (_internal_submit k) st)
  | leaf_get_queued_wi st : leaf st (exec _get_queued_wi st)
  | leaf_renew st : leaf st (exec _renew_input_queue_future st)
  | leaf_submit_to_stage st stage wi pc second :
      leaf st (exec (_submit_to_stage stage wi pc second) st)
  | leaf_untrack st fut :
      leaf st (exec (_get_completed_work_item_info fut) st)
  | leaf_finish st wi : leaf st (exec (_set_wi_to_finished wi) st)
  | leaf_new_pipe st : leaf st (exec new_pipe_connections st)
  | leaf_conn_insert st f c : leaf st (upd_fut_to_pipe_conn (insert f c) st)
  | leaf_cleanup st fut : leaf st (exec (_cleanup_pipe_connections fut) st)
  | leaf_executor_shutdown st p :
      p ≠ ProcessExec2 → leaf st (exec (Executor_shutdown p) st)
  | leaf_worker_future_none st : leaf st (upd_pl_worker_future (λ _, None) st)
  | leaf_asked st x : leaf st (upd_asked (λ l, l ++ [x]) st)
  | leaf_anomaly st a : leaf st (upd_anomalies (λ l, l ++ [a]) st)
  | leaf_graceful st : leaf st (upd_was_graceful_shutdown (λ _, true) st)
  | leaf_pc st pc : leaf st (upd_pl_worker_pc (λ _, pc) st)
  | leaf_add_stage st stage : leaf st (exec (add_stage stage) st).

(** A change of the state: one made by a call, or a future settled by an
    executor. *)
Inductive change : pl_state → pl_state → Prop :=
  | change_leaf st st' : leaf st st' → change st st'
  | change_settled st f v :
      v ≠ FutPending → change st (upd_futures (insert f v) st).

(** The states the pipeline goes through, the ones inside a call
    included. *)
Inductive visited : pl_state → Prop :=
  | visited_init stages n : visited (MultiprocessingPipeline_init stages n)
  | visited_change st st' : visited st → change st st' → visited st'.

(** What no call assigns after the construction: the flag
    [_is_shutdown], the limit given at construction, and whether the
    second process pool was shut down. *)
Definition frozen (st : pl_state) : bool * option Z * bool :=
  (_is_shutdown st, _max_simultaneous_work_items st,
   exec_shutdown (_process_exec2 st)).

(** A computation whose changes are elementary changes. *)
Definition moves {A} (m : PL A) : Prop := ∀ st, rtc leaf st (m st).2.

(** The table of running work items [d] has no work item twice and no
    empty list, every context is listed under its own work item, and
    every future of the table of futures [m] is the future of a context
    of the work item it is recorded for. *)
Definition tables_tight (d : list (nat * list _WorkItemStageRunCtx))
    (m : gmap nat nat) : Prop :=
  NoDup d.*1 ∧
  (∀ w ctxs, (w, ctxs) ∈ d → ctxs ≠ [] ∧ Forall (λ c, ctx_wi c = w) ctxs) ∧
  (∀ f w, m !! f = Some w →
          ∃ ctxs c, (w, ctxs) ∈ d ∧ c ∈ ctxs ∧ ctx_fut c = f).

(** From [st] to [st'] no future was dropped and no settled future was
    changed. *)
Definition futures_grow (st st' : pl_state) : Prop :=
  dom (futures st) ⊆ dom (futures st') ∧
  ∀ f v, futures st !! f = Some v → v ≠ FutPending →
         futures st' !! f = Some v.

(** A computation that leaves the state related by [R] to the one it
    started in, whatever its outcome. *)
Definition pres (R : relation pl_state) {A} (m : PL A) : Prop :=
  ∀ st, R st (m st).2.

(** The future of the input queue, once there is one, is a future that
    was created. *)
Definition iq_valid (st : pl_state) : Prop :=
  ∀ f, _input_queue_fut st = Some f → f ∈ dom (futures st).

(** The calls of the determiners of the stages [k], ..., [k + n - 1] for
    [wi], each of which returned [False]. *)
Definition refusals (wi : nat) (k : Z) (n : nat)
  : list (nat * Z * pred_result) :=
  (λ j, (wi, j, PredReturns false)) <$> seqZ k (Z.of_nat n).

(** A stage whose determiner refuses every work item. *)
Definition never : PipelineWorkItem → pred_result := λ _, PredReturns false.

Definition refusing_stage : PipelineStage :=
  {| stage_cls := ThreadPipelineStage; fn_determiner := Some never;
     fn_worker := Some 0%nat; stage_kwargs := ∅;
     is_pipe_with_next_stage := false |}.

(** Every future that is tracked was created. *)
Definition tracked_exist (st : pl_state) : Prop :=
  dom (_plfut_to_wi st) ⊆ dom (futures st).

(** The pool [_submit_to_stage] takes for a stage. *)
Definition pool_for (stage : PipelineStage) (use_second_pool : bool)
  : option pool :=
  match is_subprocess stage with
  | inl _ => None
  | inr true => Some (if use_second_pool then ProcessExec2 else ProcessExec)
  | inr false => Some ThreadExec
  end.

(** The keyword arguments [_submit_to_stage] passes to the worker. *)
Definition kwargs_for (stage : PipelineStage) (w : PipelineWorkItem)
  : gmap string pyval :=
  match user_kwargs w with
  | Some user => user ∪ stage_kwargs stage
  | None => stage_kwargs stage
  end.

(** The calls of determiners [_handle_stages_for_wi] makes for the item
    [w] at the stage [j] when that stage passes the item on without
    taking it: its determiner returns [False]; or the stage asks for a
    pipe, its determiner returns [True] and the determiner of the next
    stage returns [False].  [None] when the stage does not pass the item
    on. *)
Definition pass_calls (stages : list PipelineStage) (wi : nat)
    (w : PipelineWorkItem) (j : Z) : option (list (nat * Z * pred_result)) :=
  match py_index stages j with
  | Some stage =>
      match is_for_stage stage (set_cur_stage j w) with
      | PredReturns false => Some [(wi, j, PredReturns false)]
      | PredReturns true =>
          if is_pipe_with_next_stage stage then
            match py_index stages (j + 1) with
            | Some next =>
                match is_for_stage next (set_cur_stage j w) with
                | PredReturns false =>
                    Some [(wi, j, PredReturns true);
                          (wi, j + 1, PredReturns false)]
                | _ => None
                end
            | None => None
            end
          else None
      | PredRaises _ => None
      end
  | None => None
  end.

(** The calls of a walk over the stages [k], ..., [k + m - 1] that each
    pass the item on. *)
Fixpoint passed (stages : list PipelineStage) (wi : nat)
    (w : PipelineWorkItem) (k : Z) (m : nat)
  : option (list (nat * Z * pred_result)) :=
  match m with
  | O => Some []
  | S m =>
      match pass_calls stages wi w k, passed stages wi w (k + 1) m with
      | Some c, Some cs => Some (c ++ cs)
      | _, _ => None
      end
  end.

(** A pipeline whose first stage refuses every item and whose last stage
    asks for a pipe, and one whose two stages both ask for a pipe. *)
Definition skip_then_pair : list PipelineStage :=
  [refusing_stage; Scenarios.subprocess_stage true].

Definition pair_twice : list PipelineStage :=
  [Scenarios.subprocess_stage true; Scenarios.subprocess_stage true].

(** * Facts *)

Ltac munfold :=
  unfold when, try_except, eval, exec, mbind, M_bind, mret, M_ret, gets,
    modify, raise, block in *.

Module ChannelFacts.
Import PipeConnectionIO.

Ltac chan_unfold :=
  unfold read, write, write_eof, _write, _validate_write_buf, send_message,
    recv_message, close, closed, tell, num_bytes, eof, on_conn, on_self,
    Connection_send, Connection_recv, Connection_close in *;
  munfold.

(** What [send_message] does to the counter when it returns. *)
Lemma send_message_counter (s : chan) (m : PipeConnectionMessage) :
  eval (send_message (WMessage m)) s = Returns tt →
  is_bytes_like (data m) = true →
  eval tell (exec (send_message (WMessage m)) s)
    = Returns (_num_bytes (self s) + py_len (data m)).
Proof.
  destruct s as [[ce w nb fd e] p], m as [cm d].
  chan_unfold; cbn.
  destruct e; cbn; [discriminate|].
  destruct (is_none cm || negb (is_str cm)); cbn; [discriminate|].
  destruct (Connection_closed ce p); cbn; [discriminate|].
  destruct ce; cbn; [discriminate|].
  destruct (r_closed p); cbn; [discriminate|].
  intros _ Hd.
  destruct d; try discriminate; cbn;
    destruct (cmd_is cm PIPE_CONN_MSG_CMD_DATA_FINAL); cbn;
    match goal with
    | |- context [negb (?x =? -1)] =>
        replace (negb (x =? -1)) with true
          by (symmetry; apply negb_true_iff, Z.eqb_neq; lia)
    end; reflexivity.
Qed.

(** What [recv_message] does to the counter when it returns. *)
Lemma recv_message_counter (s : chan) (m : PipeConnectionMessage) :
  eval recv_message s = Returns m →
  is_bytes_like (data m) = true →
  eval tell (exec recv_message s)
    = Returns (_num_bytes (self s) + py_len (data m)).
Proof.
  destruct s as [[ce w nb fd e] p].
  chan_unfold; cbn.
  destruct (Connection_closed ce p); cbn; [discriminate|].
  destruct ce; cbn; [|discriminate].
  destruct (in_flight p) as [|[[cm d]|v] rest]; cbn.
  { destruct (w_closed p); discriminate. }
  2: discriminate.
  destruct (is_none cm); cbn; [discriminate|].
  destruct (is_str cm); cbn; [|discriminate].
  destruct (cmd_is cm PIPE_CONN_MSG_CMD_DATA_FINAL); cbn;
    destruct d; cbn; intros [= <-]; cbn; try discriminate; reflexivity.
Qed.

(** An operation that does not return leaves the counter alone. *)
Lemma send_message_failed (s : chan) (o : wire_obj) :
  eval (send_message o) s ≠ Returns tt →
  self (exec (send_message o) s) = self s.
Proof.
  destruct s as [[ce w nb fd e] p].
  chan_unfold; cbn.
  destruct e; cbn; [done|].
  destruct o as [[cm d]|v]; cbn; [|done].
  destruct (is_none cm || negb (is_str cm)); cbn; [done|].
  destruct (Connection_closed ce p); cbn; [done|].
  destruct ce; cbn; [done|].
  destruct (r_closed p); cbn; [done|].
  destruct (cmd_is cm PIPE_CONN_MSG_CMD_DATA_FINAL); cbn;
    match goal with
    | |- context [if ?b then _ else _] => destruct b; cbn; done
    end.
Qed.

Lemma write_eof_latches (s s' : chan) (buf : pyval) (n : Z) :
  write_eof buf s = (Returns n, s') →
  is_write (self s') = true ∧ _eof (self s') = true.
Proof.
  destruct s as [[ce w nb fd e] p].
  chan_unfold; cbn.
  destruct e; cbn; [discriminate|].
  destruct (is_none buf) eqn:Hn; cbn; [discriminate|].
  destruct (is_bytes_like buf) eqn:Hb; cbn; [|discriminate].
  destruct w; cbn; [|discriminate].
  unfold PipeConnectionMessage_init. rewrite Hn, Hb; cbn.
  destruct (Connection_closed ce p); cbn; [discriminate|].
  destruct ce; cbn; [discriminate|].
  destruct (r_closed p); cbn; [discriminate|].
  rewrite Hn, Hb; cbn.
  destruct (negb (py_len buf =? -1)); cbn;
    intros H; inversion H; subst; done.
Qed.

(** C2 (amended): the byte counter advances by [len(payload)] on every
    frame that [send_message] sends or [recv_message] receives whose
    payload is bytes, whatever its tag: [DATA], [DATA_FINAL] and custom
    tags alike. *)
Theorem counter_advances_on_every_frame (s : chan)
    (m : PipeConnectionMessage) (n : Z) :
  is_bytes_like (data m) = true →
  eval tell s = Returns n →
  (eval (send_message (WMessage m)) s = Returns tt →
   eval tell (exec (send_message (WMessage m)) s)
     = Returns (n + py_len (data m))) ∧
  (eval recv_message s = Returns m →
   eval tell (exec recv_message s) = Returns (n + py_len (data m))).
Proof.
  intros Hd [= <-]. split; intros Hr.
  - by apply send_message_counter.
  - by apply recv_message_counter.
Qed.

Lemma counter_advances_on_every_frame_witness :
  is_bytes_like (data Samples.ctl3) = true ∧
  eval tell Samples.producer0 = Returns 0 ∧
  eval (send_message (WMessage Samples.ctl3)) Samples.producer0 = Returns tt ∧
  eval tell (exec (send_message (WMessage Samples.ctl3)) Samples.producer0)
    = Returns 3.
Proof.
  split; [reflexivity|]. split; [reflexivity|]. split; [reflexivity|].
  exact (proj1 (counter_advances_on_every_frame Samples.producer0
                  Samples.ctl3 0 eq_refl eq_refl) eq_refl).
Defined.

(** C2 (as stated, refuted): a frame with the custom tag ["ctl"] and
    three bytes of payload moves [tell()] from 0 to 3, on the sending
    and on the receiving endpoint. *)
Lemma custom_tag_frame_moves_tell :
  cmd_in_data_cmds (cmd Samples.ctl3) = false ∧
  eval (send_message (WMessage Samples.ctl3)) Samples.producer0 = Returns tt ∧
  eval tell (exec (send_message (WMessage Samples.ctl3)) Samples.producer0)
    ≠ eval tell Samples.producer0 ∧
  eval recv_message Samples.consumer_ctl3 = Returns Samples.ctl3 ∧
  eval tell (exec recv_message Samples.consumer_ctl3)
    ≠ eval tell Samples.consumer_ctl3.
Proof. repeat split; try reflexivity; vm_compute; discriminate. Qed.

(** C5 (amended): [read] with a size that is not [None] on a consumer
    endpoint raises [InvalidPipeConnectionMessage], the exception of the
    MalformedFrame kind, and touches nothing. *)
Theorem read_with_size_is_malformed_frame (s : chan) (size : pyval) :
  is_write (self s) = false →
  size ≠ PyNone →
  read size s = (Raises InvalidPipeConnectionMessage, s) ∧
  kind_of InvalidPipeConnectionMessage = MalformedFrame.
Proof.
  intros Hw Hs. split; [|reflexivity].
  chan_unfold. rewrite Hw. destruct size; cbn; congruence.
Qed.

Lemma read_with_size_is_malformed_frame_witness :
  read (PyInt 4) Samples.consumer0
    = (Raises InvalidPipeConnectionMessage, Samples.consumer0).
Proof.
  apply (read_with_size_is_malformed_frame Samples.consumer0 (PyInt 4));
    [reflexivity | discriminate].
Defined.

(** C5 (as stated, refuted): [read(4)] on a fresh consumer endpoint does
    not raise an exception of the InvalidArgument kind. *)
Lemma read_with_size_not_invalid_argument :
  ¬ ∃ e, eval (read (PyInt 4)) Samples.consumer0 = Raises e ∧
         kind_of e = InvalidArgument.
Proof. intros (e & [= <-] & Hk). discriminate Hk. Qed.

(** C9: [close] returns; it closes the underlying connection when
    very-verbose logging is on, and leaves the endpoint and its
    connection as they were (so [closed] stays false) when it is off. *)
Theorem close_closes_only_when_very_verbose (env : log_env) (s : chan) :
  eval (close env) s = Returns tt ∧
  if _is_very_verbose_logging env
  then eval closed (exec (close env) s) = Returns true
  else exec (close env) s = s ∧
       eval closed (exec (close env) s) = eval closed s.
Proof.
  destruct s as [[ce w nb fd e] p].
  chan_unfold. destruct (_is_very_verbose_logging env); cbn; [|done].
  destruct ce; done.
Qed.

(** C10: a zero-length [write] returns 0 and changes nothing, sending
    no frame, in every state; so after a [write_eof] that returned, an
    empty [write] still returns 0 while a non-empty one raises
    [PipeConnectionAlreadyEof]. *)
Theorem empty_write_precedes_eof_check (s s' : chan) (buf : pyval) (n : Z)
    (b : list byte) :
  write_eof buf s = (Returns n, s') →
  b ≠ [] →
  (∀ t, write (PyBytes []) t = (Returns 0, t)) ∧
  _eof (self s') = true ∧
  write (PyBytes []) s' = (Returns 0, s') ∧
  write (PyBytes b) s' = (Raises PipeConnectionAlreadyEof, s').
Proof.
  intros [Hw He]%write_eof_latches Hb.
  split; [done|]. split; [done|]. split; [done|].
  destruct s' as [[ce w nb fd e] p]; cbn in *; subst.
  chan_unfold; cbn. destruct b; [done|]. reflexivity.
Qed.

Lemma empty_write_precedes_eof_check_witness :
  let s' := exec (write_eof (PyBytes [x68; x69])) Samples.producer0 in
  write_eof (PyBytes [x68; x69]) Samples.producer0 = (Returns 2, s') ∧
  write (PyBytes []) s' = (Returns 0, s') ∧
  write (PyBytes [x21]) s' = (Raises PipeConnectionAlreadyEof, s').
Proof.
  split; [reflexivity|].
  apply (empty_write_precedes_eof_check Samples.producer0 _
           (PyBytes [x68; x69]) 2 [x21]); [reflexivity | discriminate].
Defined.
End ChannelFacts.

Module ControllerFacts.
Import Scenarios.

(** *** Running the primitives *)

Lemma run_bind {S A B} (m : M S A) (k : A → M S B) (s : S) :
  (m ≫= k) s = match m s with
               | (Returns a, s') => k a s'
               | (Raises e, s') => (Raises e, s')
               | (Blocks, s') => (Blocks, s')
               end.
Proof. reflexivity. Qed.

Lemma run_ret {S A} (a : A) (s : S) : mret (M:=M S) a s = (Returns a, s).
Proof. reflexivity. Qed.

Lemma run_wi_get (st : pl_state) (wi : nat) (w : PipelineWorkItem) :
  heap st !! wi = Some w → wi_get wi st = (Returns w, st).
Proof.
  intros H. unfold wi_get, gets. by rewrite (lookup_total_correct _ _ _ H).
Qed.

Lemma run_wi_update (st : pl_state) (wi : nat) (w : PipelineWorkItem)
    (f : PipelineWorkItem → PipelineWorkItem) :
  heap st !! wi = Some w →
  wi_update wi f st = (Returns tt, upd_heap (λ _, <[wi:=f w]> (heap st)) st).
Proof.
  intros H. unfold wi_update, modify, upd_heap. cbn.
  by rewrite (lookup_total_correct _ _ _ H).
Qed.

Lemma heap_upd_lookup (st : pl_state) (m : gmap nat PipelineWorkItem) (wi : nat) (w : PipelineWorkItem) :
  heap (upd_heap (λ _, <[wi:=w]> m) st) !! wi = Some w.
Proof. cbn. apply lookup_insert_eq. Qed.

Lemma is_failed_append (e : exc) (w : PipelineWorkItem) :
  is_failed (append_exception e w) = true.
Proof. unfold is_failed; cbn. by destruct (exceptions w) as [[|]|]. Qed.

Lemma upd_heap_twice (m1 m2 : gmap nat PipelineWorkItem) (st : pl_state) :
  upd_heap (λ _, m2) (upd_heap (λ _, m1) st) = upd_heap (λ _, m2) st.
Proof. reflexivity. Qed.

Ltac st_simpl :=
  cbn [heap futures conn_closed conn_close_calls asked _stages
       _max_simultaneous_work_items _is_shutdown _wi_to_wifut _thread_exec
       _pl_worker_future _input_queue_fut _pl_input_queue _process_exec
       _process_exec2 _plfut_to_wi _running_wi_contexts _fut_to_pipe_conn
       was_graceful_shutdown anomalies pl_worker_pc
       upd_heap upd_futures upd_conn_closed upd_conn_close_calls upd_asked
       upd_stages upd_wi_to_wifut upd_thread_exec upd_pl_worker_future
       upd_input_queue_fut upd_pl_input_queue upd_process_exec
       upd_process_exec2 upd_plfut_to_wi upd_running_wi_contexts
       upd_fut_to_pipe_conn upd_was_graceful_shutdown upd_anomalies
       upd_pl_worker_pc fst snd
       mret M_ret gets modify raise block when] in *.

Ltac heap_side := st_simpl; first [eassumption | apply lookup_insert_eq].

Ltac run_prim :=
  first [ erewrite run_wi_get by heap_side
        | erewrite run_wi_update by heap_side ];
  st_simpl; rewrite ?upd_heap_twice, ?insert_insert_eq.

Ltac run_step := first [rewrite run_bind; run_prim | run_prim].

(** Unfold the state-reading primitives at the head of a computation. *)
Ltac run_gets :=
  rewrite ?run_bind; unfold gets, modify, raise, when; rewrite ?run_ret;
  st_simpl.

Lemma stage_complete_self_error (st : pl_state) (wi : nat)
    (w : PipelineWorkItem) (stage_num : Z) (e : exc) :
  heap st !! wi = Some w →
  let l := default [] (exceptions w) ++ [e] in
  stage_complete wi stage_num wi (Some e) st
    = (Returns tt,
       upd_heap (λ _, <[wi:=set_exceptions (Some (l ++ l)) w]> (heap st)) st).
Proof.
  intros H l. unfold stage_complete.
  do 2 run_step. rewrite is_failed_append. unfold when.
  rewrite run_bind. repeat run_step.
  destruct w as [cs uo uk exs pc ac ua]; cbn. destruct ac.
  - repeat run_step. cbn. rewrite (map_union_idemp ua). reflexivity.
  - reflexivity.
Qed.

Lemma dict_get_del {K V} `{EqDecision K} (k : K) (d : list (K * V)) :
  dict_get k (dict_del k d) = None.
Proof.
  induction d as [|[k' v] d IH]; [done|]. cbn.
  destruct (decide (k' = k)) as [->|Hne]; [done|].
  cbn. by rewrite decide_False.
Qed.

Ltac run := rewrite run_bind; st_simpl.

Lemma get_completed_single (st : pl_state) (fut wi : nat)
    (ctx : _WorkItemStageRunCtx) :
  _plfut_to_wi st !! fut = Some wi →
  dict_get wi (_running_wi_contexts st) = Some [ctx] →
  ctx_fut ctx = fut →
  _get_completed_work_item_info fut st
    = (Returns (wi, ctx),
       upd_running_wi_contexts (λ d, dict_del wi (dict_set wi [] d))
         (upd_plfut_to_wi (delete fut) st)).
Proof.
  intros Hf Hc Hx. unfold _get_completed_work_item_info.
  run. rewrite Hf. run. run.
  rewrite Hc.
  unfold ctx_loop. rewrite bool_decide_eq_true_2 by done.
  run. cbn [py_list_remove]. rewrite decide_True by done.
  run. reflexivity.
Qed.

Lemma is_failed_doubled (w : PipelineWorkItem) (e : exc) :
  let l := default [] (exceptions w) ++ [e] in
  is_failed (set_exceptions (Some (l ++ l)) w) = true.
Proof. unfold is_failed; cbn. by destruct (exceptions w) as [[|]|]. Qed.

(** What the controller does with a stage future that failed, when it
    is the only one outstanding for its work item. *)
Lemma handle_failed_single (st : pl_state) (fut wi : nat)
    (ctx : _WorkItemStageRunCtx) (w : PipelineWorkItem) (e : exc) :
  _plfut_to_wi st !! fut = Some wi →
  dict_get wi (_running_wi_contexts st) = Some [ctx] →
  ctx_fut ctx = fut →
  futures st !! fut = Some (FutException e) →
  heap st !! wi = Some w →
  let l := default [] (exceptions w) ++ [e] in
  _handle_completed_fut fut st
    = (Returns (Some wi, false),
       upd_heap (λ _, <[wi:=set_exceptions (Some (l ++ l)) w]> (heap st))
         (upd_running_wi_contexts (λ d, dict_del wi (dict_set wi [] d))
            (upd_plfut_to_wi (delete fut) st))).
Proof.
  intros Hf Hc Hx He Hw l. unfold _handle_completed_fut.
  run. rewrite Hf. run.
  rewrite (get_completed_single _ _ _ _ Hf Hc Hx).
  run. unfold Future_exception; st_simpl. rewrite He.
  run. erewrite stage_complete_self_error by (st_simpl; eassumption).
  reflexivity.
Qed.

(** Once the failed item has nothing outstanding, [attend] completes
    the caller's future with the item itself. *)
Lemma attend_failed (st : pl_state) (wi uf : nat) (w : PipelineWorkItem) :
  dict_get wi (_running_wi_contexts st) = None →
  heap st !! wi = Some w →
  is_failed w = true →
  dict_get (Some wi) (_wi_to_wifut st) = Some uf →
  futures st !! uf = Some FutPending →
  attend wi st
    = (Returns tt,
       upd_futures (insert uf (FutResult (ResWorkItem wi)))
         (upd_wi_to_wifut (dict_del (Some wi)) st)).
Proof.
  intros Hr Hw Hf Hu Hp. unfold attend, _is_wi_still_running.
  run. rewrite Hr. run_step. rewrite Hf.
  unfold _set_wi_to_finished, _is_wi_still_running.
  run. rewrite Hr. run. rewrite Hu. run.
  unfold Future_set_result, Future_done. run. unfold fut_is_done.
  st_simpl. rewrite Hp. reflexivity.
Qed.

(** *** The partition of the tracked futures *)

Lemma run_cleanup (st : pl_state) (f : nat) :
  _cleanup_pipe_connections f st
    = (Returns tt,
       match _fut_to_pipe_conn st !! f with
       | Some c =>
           upd_fut_to_pipe_conn (delete f)
             (upd_conn_close_calls (λ l, l ++ [c])
                (upd_conn_closed (insert c true) st))
       | None => st
       end).
Proof.
  unfold _cleanup_pipe_connections. run.
  destruct (_fut_to_pipe_conn st !! f); [|reflexivity].
  unfold conn_close. run. reflexivity.
Qed.

Lemma run_for_each_cleanup (futs : list nat) (st : pl_state) :
  ∃ st', for_each futs _cleanup_pipe_connections st = (Returns tt, st') ∧
    conn_close_calls st'
      = conn_close_calls st ++ closes_of (_fut_to_pipe_conn st) futs ∧
    _fut_to_pipe_conn st' = foldl (λ m f, delete f m) (_fut_to_pipe_conn st) futs ∧
    (∀ c, conn_closed st' !! c
          = if bool_decide (c ∈ closes_of (_fut_to_pipe_conn st) futs)
            then Some true else conn_closed st !! c) ∧
    futures st' = futures st ∧
    _running_wi_contexts st' = _running_wi_contexts st.
Proof.
  revert st. induction futs as [|f futs IH]; intros st.
  - exists st. cbn [for_each closes_of foldl]. rewrite app_nil_r.
    repeat split; done.
  - cbn [for_each closes_of foldl]. rewrite run_bind, run_cleanup.
    destruct (_fut_to_pipe_conn st !! f) as [c|] eqn:Hf.
    + match goal with |- context [for_each futs _ ?s] =>
        destruct (IH s) as (st' & Hrun & Hcalls & Htab & Hcl & Hfu & Hru) end.
      exists st'. split; [exact Hrun|]. st_simpl.
      split; [by rewrite Hcalls, <- app_assoc|]. split; [done|].
      split; [|done]. intros c'. rewrite Hcl.
      destruct (decide (c' = c)) as [->|Hne].
      * rewrite (bool_decide_eq_true_2 (c ∈ c :: _)) by set_solver.
        case_bool_decide; [done|]. by rewrite lookup_insert_eq.
      * rewrite lookup_insert_ne by done.
        repeat case_bool_decide; set_solver.
    + rewrite delete_id by done. apply IH.
Qed.

Lemma for_each_app {S A} (l1 l2 : list A) (body : A → M S unit) (s : S) :
  for_each (l1 ++ l2) body s
    = (for_each l1 body ≫= λ _, for_each l2 body) s.
Proof.
  revert s. induction l1 as [|x l1 IH]; intros s; cbn [for_each app].
  - reflexivity.
  - rewrite !run_bind. destruct (body x s) as [[| |] s']; auto.
Qed.

Lemma fut_is_done_ext (st st' : pl_state) (f : nat) :
  futures st' = futures st → fut_is_done st' f = fut_is_done st f.
Proof. intros H. unfold fut_is_done. by rewrite H. Qed.

Lemma forallb_pointwise {A} (p q : A → bool) (l : list A) :
  (∀ x, p x = q x) → forallb p l = forallb q l.
Proof. intros H. induction l as [|x l IH]; cbn; [done|]. by rewrite H, IH. Qed.

Lemma settled_of_ext (st st' : pl_state) (l : list _WorkItemStageRunCtx) :
  futures st' = futures st → settled_of st' l = settled_of st l.
Proof.
  intros H. unfold settled_of.
  by rewrite (forallb_pointwise _ _ _ (λ f, fut_is_done_ext st st' f H)).
Qed.

Lemma pending_of_ext (st st' : pl_state) (l : list _WorkItemStageRunCtx) :
  futures st' = futures st → pending_of st' l = pending_of st l.
Proof.
  intros H. unfold pending_of.
  rewrite (forallb_pointwise _ _ _ (λ f, fut_is_done_ext st st' f H)).
  destruct (forallb _ _); [done|].
  apply List.filter_ext. intros f. by rewrite (fut_is_done_ext st st' f H).
Qed.

Lemma pending_as_filter (p : nat → bool) (l : list nat) :
  List.filter (λ f, negb (bool_decide (f ∈ List.filter p l))) l
    = List.filter (λ f, negb (p f)) l.
Proof.
  apply List.filter_ext_in. intros f Hf. f_equal.
  destruct (p f) eqn:Hp.
  - apply bool_decide_eq_true_2, list_elem_of_In, List.filter_In. done.
  - apply bool_decide_eq_false_2.
    intros [_ H]%list_elem_of_In%List.filter_In. congruence.
Qed.

Lemma filter_negb_nil (p : nat → bool) (l : list nat) :
  forallb p l = (if List.filter (λ f, negb (p f)) l is [] then true else false).
Proof.
  induction l as [|x l IH]; [done|]. cbn.
  destruct (p x); cbn; [exact IH | done].
Qed.

(** [_get_all_wi_futs] always returns; what it returns and what it
    closes are the following. *)
Lemma run_get_all_wi_futs_loop (values : list (list _WorkItemStageRunCtx))
    (done_futs pending_futs : list nat) (st : pl_state) :
  ∃ st',
    get_all_wi_futs_loop values done_futs pending_futs st
      = (Returns (done_futs ++ concat (settled_of st <$> values),
                  pending_futs ++ concat (pending_of st <$> values)), st') ∧
    for_each (List.filter (fut_is_done st)
                (concat ((λ l : list _WorkItemStageRunCtx, ctx_fut <$> l)
                           <$> values)))
      _cleanup_pipe_connections st = (Returns tt, st').
Proof.
  revert done_futs pending_futs st.
  induction values as [|ctxs values IH]; intros done_futs pending_futs st.
  - exists st. cbn. by rewrite !app_nil_r.
  - cbn [get_all_wi_futs_loop fmap list_fmap concat].
    rewrite List.filter_app, for_each_app.
    rewrite run_bind. unfold gets at 1. 
    destruct (run_for_each_cleanup
                (List.filter (fut_is_done st) (ctx_fut <$> ctxs)) st)
      as (st1 & Hrun & _ & _ & _ & Hfut & _).
    rewrite !run_bind, Hrun. rewrite pending_as_filter.
    pose proof (filter_negb_nil (fut_is_done st) (ctx_fut <$> ctxs)) as Hall.
    unfold settled_of at 1, pending_of at 1. cbn zeta. rewrite Hall.
    assert (settled_of st1 <$> values = settled_of st <$> values) as Hs.
    { apply list_fmap_ext. intros _ l _. by apply settled_of_ext. }
    assert (pending_of st1 <$> values = pending_of st <$> values) as Hpd.
    { apply list_fmap_ext. intros _ l _. by apply pending_of_ext. }
    assert (∀ l, List.filter (fut_is_done st1) l
                 = List.filter (fut_is_done st) l) as Hfl.
    { intros l. apply List.filter_ext. intros f. by apply fut_is_done_ext. }
    destruct (List.filter (λ f, negb (fut_is_done st f)) (ctx_fut <$> ctxs))
      as [|f0 rest] eqn:Hp.
    + destruct (IH (done_futs ++ (ctx_fut <$> ctxs)) pending_futs st1)
        as (st' & Hloop & Hfe).
      exists st'. rewrite Hloop, Hs, Hpd. rewrite Hfl in Hfe.
      split; [|exact Hfe]. by rewrite <- !app_assoc.
    + destruct (IH done_futs (pending_futs ++ f0 :: rest) st1)
        as (st' & Hloop & Hfe).
      exists st'. rewrite Hloop, Hs, Hpd. rewrite Hfl in Hfe.
      split; [|exact Hfe]. by rewrite <- !app_assoc.
Qed.

Lemma run_get_all_wi_futs (st : pl_state) :
  ∃ st',
    _get_all_wi_futs st
      = (Returns (concat (settled_of st <$> (_running_wi_contexts st).*2),
                  concat (pending_of st <$> (_running_wi_contexts st).*2)),
         st') ∧
    for_each (List.filter (fut_is_done st) (tracked_futs st))
      _cleanup_pipe_connections st = (Returns tt, st').
Proof.
  unfold _get_all_wi_futs. rewrite run_bind. unfold gets at 1.
  destruct (run_get_all_wi_futs_loop
              (dict_values (_running_wi_contexts st)) [] [] st)
    as (st' & Hloop & Hfe).
  exists st'. rewrite Hloop. split; [reflexivity | exact Hfe].
Qed.

Lemma settled_of_tracked (st : pl_state)
    (values : list (list _WorkItemStageRunCtx)) (f : nat) :
  f ∈ concat (settled_of st <$> values) →
  f ∈ concat ((λ l : list _WorkItemStageRunCtx, ctx_fut <$> l) <$> values).
Proof.
  induction values as [|l values IH]; cbn [fmap list_fmap concat]; [done|].
  rewrite !elem_of_app. intros [H|H]; [left | right; auto].
  unfold settled_of in H. destruct (forallb _ _); [done | set_solver].
Qed.

Lemma forallb_done (st : pl_state) (ctxs : list _WorkItemStageRunCtx) :
  forallb (fut_is_done st) (ctx_fut <$> ctxs) = true ↔
  Forall (λ c, fut_is_done st (ctx_fut c) = true) ctxs.
Proof.
  induction ctxs as [|c ctxs IH]; cbn.
  - split; [constructor | done].
  - rewrite andb_true_iff, IH, Forall_cons. done.
Qed.

(** What [_get_all_wi_futs] returns, seen from one work item: none of
    its handles when one of them is pending, all of them together and in
    the order of its contexts when all are done. *)
Lemma get_all_wi_futs_of_item (st : pl_state) (wi : nat)
    (ctxs : list _WorkItemStageRunCtx) :
  (wi, ctxs) ∈ _running_wi_contexts st →
  NoDup (tracked_futs st) →
  ∃ done_futs pending_futs,
    eval _get_all_wi_futs st = Returns (done_futs, pending_futs) ∧
    (Exists (λ c, fut_is_done st (ctx_fut c) = false) ctxs →
     Forall (λ c, ctx_fut c ∉ done_futs) ctxs) ∧
    (Forall (λ c, fut_is_done st (ctx_fut c) = true) ctxs →
     ∃ pre post, done_futs = pre ++ (ctx_fut <$> ctxs) ++ post).
Proof.
  intros Hin Hnd.
  destruct (run_get_all_wi_futs st) as (st' & Hrun & _).
  eexists _, _. unfold eval. rewrite Hrun. split; [reflexivity|].
  apply list_elem_of_split in Hin as (r1 & r2 & Hr).
  unfold tracked_futs, dict_values in Hnd. rewrite Hr in Hnd |- *.
  rewrite !fmap_app, !fmap_cons, !concat_app in Hnd |- *.
  cbn [snd concat] in Hnd |- *.
  apply NoDup_app in Hnd as (_ & Hd1 & Hnd).
  apply NoDup_app in Hnd as (_ & Hd2 & _).
  split.
  - intros Hex. apply Forall_forall. intros c Hc.
    assert (forallb (fut_is_done st) (ctx_fut <$> ctxs) = false) as Hall.
    { apply not_true_is_false. intros Hall%forallb_done.
      apply Exists_exists in Hex as (c' & Hc' & Hp).
      rewrite Forall_forall in Hall. specialize (Hall c' Hc'). congruence. }
    assert (settled_of st ctxs = []) as ->.
    { unfold settled_of. by rewrite Hall. }
    cbn [app]. rewrite elem_of_app. intros [H|H]; apply settled_of_tracked in H.
    + apply (Hd1 _ H). apply elem_of_app. left.
      apply list_elem_of_fmap. eauto.
    + apply (Hd2 (ctx_fut c)); [|exact H].
      apply list_elem_of_fmap. eauto.
  - intros Hall%forallb_done.
    assert (settled_of st ctxs = ctx_fut <$> ctxs) as ->.
    { unfold settled_of. by rewrite Hall. }
    by eexists _, _.
Qed.

(** *** Closing the pipe connections *)

Lemma foldl_delete_lookup (m : gmap nat nat) (futs : list nat) (f : nat) :
  foldl (λ m f, delete f m) m futs !! f
    = if bool_decide (f ∈ futs) then None else m !! f.
Proof.
  revert m. induction futs as [|g futs IH]; intros m; cbn [foldl].
  - by rewrite bool_decide_eq_false_2 by set_solver.
  - rewrite IH. destruct (decide (f = g)) as [->|Hne].
    + rewrite (bool_decide_eq_true_2 (g ∈ g :: futs)) by set_solver.
      case_bool_decide; [done|]. apply lookup_delete_eq.
    + rewrite lookup_delete_ne by done.
      case_bool_decide as H1; case_bool_decide as H2; set_solver.
Qed.

Lemma closes_of_elem (m : gmap nat nat) (futs : list nat) (c : nat) :
  c ∈ closes_of m futs → ∃ f, f ∈ futs ∧ m !! f = Some c.
Proof.
  revert m. induction futs as [|g futs IH]; intros m; cbn [closes_of].
  - set_solver.
  - destruct (m !! g) as [c'|] eqn:Hg.
    + intros [->|H]%elem_of_cons.
      * exists g. split; [set_solver | done].
      * apply IH in H as (f & Hf & Hm).
        exists f. split; [set_solver|].
        destruct (decide (g = f)) as [->|Hne].
        -- by rewrite lookup_delete_eq in Hm.
        -- by rewrite lookup_delete_ne in Hm.
    + intros (f & Hf & Hm)%IH. exists f. split; [set_solver | done].
Qed.

Lemma closes_of_once (m : gmap nat nat) (futs : list nat) (f c : nat) :
  m !! f = Some c →
  (∀ f', m !! f' = Some c → f' = f) →
  f ∈ futs →
  ∃ l1 l2, closes_of m futs = l1 ++ (c :: l2) ∧ (c ∉ l1) ∧ c ∉ l2.
Proof.
  revert m. induction futs as [|g futs IH]; intros m Hf Hu Hin.
  { by apply elem_of_nil in Hin. }
  cbn [closes_of]. destruct (decide (g = f)) as [->|Hne].
  - rewrite Hf. exists [], (closes_of (delete f m) futs).
    split; [done|]. split; [set_solver|].
    intros (f' & _ & Hm)%closes_of_elem.
    destruct (decide (f = f')) as [<-|Hne].
    + by rewrite lookup_delete_eq in Hm.
    + rewrite lookup_delete_ne in Hm by done. apply Hu in Hm. done.
  - assert (f ∈ futs) as Hin' by set_solver.
    destruct (m !! g) as [c'|] eqn:Hg.
    + assert (c' ≠ c) as Hc by (intros ->; by apply Hu in Hg).
      destruct (IH (delete g m)) as (l1 & l2 & -> & H1 & H2); [| |done|].
      * by rewrite lookup_delete_ne.
      * intros f' Hm. destruct (decide (g = f')) as [->|Hne'].
        -- by rewrite lookup_delete_eq in Hm.
        -- rewrite lookup_delete_ne in Hm by done. by apply Hu.
      * exists (c' :: l1), l2. split; [done|]. split; [set_solver | done].
    + by apply IH.
Qed.

(** What a pass of [_get_all_wi_futs] closes, seen from one entry of the
    table of pipe connections that alone names its endpoint. *)
Lemma get_all_wi_futs_closes (st : pl_state) (f c : nat) :
  _fut_to_pipe_conn st !! f = Some c →
  (∀ f', _fut_to_pipe_conn st !! f' = Some c → f' = f) →
  ∃ closes,
    eval _get_all_wi_futs st ≠ Blocks ∧
    conn_close_calls (exec _get_all_wi_futs st)
      = conn_close_calls st ++ closes ∧
    (∀ c', (∀ f', _fut_to_pipe_conn st !! f' ≠ Some c') → c' ∉ closes) ∧
    if bool_decide (f ∈ tracked_futs st) && fut_is_done st f
    then (∃ l1 l2, closes = l1 ++ (c :: l2) ∧ (c ∉ l1) ∧ c ∉ l2) ∧
         conn_closed (exec _get_all_wi_futs st) !! c = Some true ∧
         ∀ f', _fut_to_pipe_conn (exec _get_all_wi_futs st) !! f' ≠ Some c
    else (c ∉ closes) ∧
         _fut_to_pipe_conn (exec _get_all_wi_futs st) !! f = Some c.
Proof.
  intros Hf Hu.
  destruct (run_get_all_wi_futs st) as (st' & Hrun & Hfe).
  destruct (run_for_each_cleanup
              (List.filter (fut_is_done st) (tracked_futs st)) st)
    as (st'' & Hfe' & Hcalls & Htab & Hcl & _).
  rewrite Hfe in Hfe'. injection Hfe' as <-.
  unfold eval, exec. rewrite Hrun. cbn [fst snd].
  eexists. split; [done|]. split; [exact Hcalls|]. split.
  { intros c' Hnone (f' & _ & Hm)%closes_of_elem. by apply (Hnone f'). }
  assert (f ∈ List.filter (fut_is_done st) (tracked_futs st) ↔
          f ∈ tracked_futs st ∧ fut_is_done st f = true) as Hmem.
  { by rewrite !list_elem_of_In, List.filter_In. }
  destruct (bool_decide (f ∈ tracked_futs st) && fut_is_done st f) eqn:Hb.
  - apply andb_true_iff in Hb as [Ht%bool_decide_eq_true Hd].
    assert (f ∈ List.filter (fut_is_done st) (tracked_futs st)) as Hin
      by (apply Hmem; done).
    destruct (closes_of_once _ _ _ _ Hf Hu Hin) as (l1 & l2 & Hcs & H1 & H2).
    split; [by exists l1, l2|]. split.
    + rewrite Hcl, bool_decide_eq_true_2; [done|]. rewrite Hcs. set_solver.
    + intros f'. rewrite Htab, foldl_delete_lookup.
      case_bool_decide as Hin'; [done|].
      intros Hm. apply Hu in Hm as ->. done.
  - assert (f ∉ List.filter (fut_is_done st) (tracked_futs st)) as Hnin.
    { rewrite Hmem. intros [Ht Hd]. 
      by rewrite bool_decide_eq_true_2, Hd in Hb. }
    split.
    + intros (f' & Hin' & Hm)%closes_of_elem. apply Hu in Hm as ->. done.
    + rewrite Htab, foldl_delete_lookup. by rewrite bool_decide_eq_false_2.
Qed.

(** *** Computations that leave a part of the state alone *)

Lemma keeps_ret {A B} (proj : pl_state → B) (a : A) : keeps proj (mret a).
Proof. done. Qed.

Lemma keeps_raise {A B} (proj : pl_state → B) (e : exc) :
  keeps proj (raise e : PL A).
Proof. done. Qed.

Lemma keeps_block {A B} (proj : pl_state → B) : keeps proj (block : PL A).
Proof. done. Qed.

Lemma keeps_gets {A B} (proj : pl_state → B) (f : pl_state → A) :
  keeps proj (gets f).
Proof. done. Qed.

Lemma keeps_modify {B} (proj : pl_state → B) (f : pl_state → pl_state) :
  (∀ st, proj (f st) = proj st) → keeps proj (modify f).
Proof. intros H st. apply H. Qed.

Lemma keeps_bind {A A' B} (proj : pl_state → B) (m : PL A) (k : A → PL A') :
  keeps proj m → (∀ a, keeps proj (k a)) → keeps proj (m ≫= k).
Proof.
  intros Hm Hk st. rewrite run_bind. specialize (Hm st).
  destruct (m st) as [[a|e|] st']; cbn [snd] in *; [|done..].
  by rewrite Hk.
Qed.

Lemma keeps_when {B} (proj : pl_state → B) (b : bool) (m : PL unit) :
  keeps proj m → keeps proj (when b m).
Proof. destruct b; [done | intros _; apply keeps_ret]. Qed.

Ltac keeps_tac :=
  repeat first
    [ apply keeps_ret | apply keeps_raise | apply keeps_block
    | apply keeps_gets
    | apply keeps_modify; intros ?; reflexivity
    | apply keeps_when
    | apply keeps_bind; [|intros ?]
    | match goal with
      | |- keeps _ (match ?x with _ => _ end) => destruct x
      | |- keeps _ (let '(_, _) := ?x in _) => destruct x
      end ].

Lemma keeps_asked_new_future : keeps asked new_future.
Proof. done. Qed.

Lemma keeps_asked_submit (p : pool) (t : task) :
  keeps asked (Executor_submit p t).
Proof.
  unfold Executor_submit. keeps_tac;
    first [ apply keeps_asked_new_future
          | apply keeps_modify; intros st; by destruct p ].
Qed.

Lemma keeps_asked_wi_update (wi : nat) (f : PipelineWorkItem → PipelineWorkItem) :
  keeps asked (wi_update wi f).
Proof. done. Qed.

Lemma keeps_asked_track (cs : Z) (fut wi : nat) :
  keeps asked (_track_running_pipeline_work cs fut wi).
Proof. unfold _track_running_pipeline_work. keeps_tac. Qed.

Lemma keeps_asked_stage_at (i : Z) : keeps asked (stage_at i).
Proof. unfold stage_at. keeps_tac. Qed.

Lemma keeps_asked_submit_to_stage (stage : PipelineStage) (wi : nat)
    (pc : option nat) (second : bool) :
  keeps asked (_submit_to_stage stage wi pc second).
Proof.
  unfold _submit_to_stage, wi_get. keeps_tac;
    first [ apply keeps_asked_submit | apply keeps_asked_track | done ].
Qed.

(** *** Asking the stages *)

Lemma run_is_stage_for_work_item (st : pl_state) (wi : nat)
    (w : PipelineWorkItem) (stage_num : option Z) :
  heap st !! wi = Some w →
  let k := default (_cur_stage w) stage_num in
  _is_stage_for_work_item wi stage_num st
    = match py_index (_stages st) k with
      | None => (Raises IndexError, st)
      | Some stage =>
          match is_for_stage stage w with
          | PredReturns b =>
              (Returns b, walked st wi w [(wi, k, PredReturns b)])
          | PredRaises ex =>
              (Returns false,
               walked st wi (append_exception ex w) [(wi, k, PredRaises ex)])
          end
      end.
Proof.
  intros Hw k. unfold _is_stage_for_work_item, stage_at.
  run_step. fold k. run. run. 
  destruct (py_index (_stages st) k) as [stage|]; [|reflexivity].
  st_simpl. run. destruct (is_for_stage stage w) as [b|ex].
  - st_simpl. unfold walked. rewrite (insert_id _ _ _ Hw).
    by destruct st.
  - run_step. reflexivity.
Qed.

Lemma run_end_if_failed (st : pl_state) (wi : nat) (w : PipelineWorkItem) :
  heap st !! wi = Some w →
  end_if_failed wi st
    = (Returns tt,
       upd_heap (λ _, <[wi:=if is_failed w
                            then set_cur_stage (Z.of_nat (length (_stages st))) w
                            else w]> (heap st)) st).
Proof.
  intros Hw. unfold end_if_failed, num_stages. run_step.
  destruct (is_failed w); st_simpl.
  - run. run_step. reflexivity.
  - rewrite (insert_id _ _ _ Hw). by destruct st.
Qed.

Lemma no_raise_nil (wi : nat) : no_raise wi [].
Proof. intros k e. apply not_elem_of_nil. Qed.

Lemma no_raise_returns (wi : nat) (k : Z) (b : bool)
    (calls : list (nat * Z * pred_result)) :
  no_raise wi calls → no_raise wi ((wi, k, PredReturns b) :: calls).
Proof. intros H k' e [?|?]%elem_of_cons; [done | by eapply H]. Qed.

Lemma walked_lookup (st : pl_state) (wi : nat) (w : PipelineWorkItem)
    (calls : list (nat * Z * pred_result)) :
  heap (walked st wi w calls) !! wi = Some w.
Proof. apply lookup_insert_eq. Qed.

Lemma walked_walked (st : pl_state) (wi : nat) (w1 w2 : PipelineWorkItem)
    (calls1 calls2 : list (nat * Z * pred_result)) :
  walked (walked st wi w1 calls1) wi w2 calls2
    = walked st wi w2 (calls1 ++ calls2).
Proof.
  unfold walked. st_simpl. by rewrite insert_insert_eq, app_assoc.
Qed.

Lemma walked_update (st : pl_state) (wi : nat) (w1 w2 : PipelineWorkItem)
    (calls : list (nat * Z * pred_result)) :
  upd_heap (λ _, <[wi:=w2]> (heap (walked st wi w1 calls)))
    (walked st wi w1 calls)
    = walked st wi w2 calls.
Proof. unfold walked. st_simpl. by rewrite insert_insert_eq. Qed.

Lemma walked_stages (st : pl_state) (wi : nat) (w : PipelineWorkItem)
    (calls : list (nat * Z * pred_result)) :
  _stages (walked st wi w calls) = _stages st.
Proof. reflexivity. Qed.

Lemma try_submit_to_stage_attempt (st : pl_state) (wi : nat)
    (w : PipelineWorkItem) :
  heap st !! wi = Some w →
  attempt st wi w (_try_submit_to_stage wi st).
Proof.
  intros Hw. unfold _try_submit_to_stage.
  rewrite run_bind, (run_is_stage_for_work_item _ _ _ _ Hw). cbn [default].
  destruct (py_index (_stages st) (_cur_stage w)) as [stage|].
  2: { apply (attempt_other _ _ _ _ []);
         [apply no_raise_nil | done | by rewrite app_nil_r]. }
  destruct (is_for_stage stage w) as [[|]|ex]; cbn [negb].
  - (* accepted *)
    apply (attempt_other _ _ _ _ [(wi, _cur_stage w, PredReturns true)]).
    + apply no_raise_returns, no_raise_nil.
    + rewrite run_bind, (run_wi_get _ _ _ (walked_lookup _ _ _ _)).
      rewrite run_bind. destruct (stage_at _ _) as [[s'| |] st1]; [|done..].
      rewrite run_bind.
      destruct (_submit_to_stage _ _ _ _ _) as [[f| |] st2]; [|done..].
      rewrite run_bind. by destruct (wi_update _ _ _) as [[| |] st3].
    + set (st0 := walked st wi w _).
      change (asked st ++ _) with (asked st0).
      apply (keeps_bind asked); [done|]. intros w'.
      apply keeps_bind; [apply keeps_asked_stage_at|]. intros s'.
      apply keeps_bind; [apply keeps_asked_submit_to_stage|]. intros f.
      apply keeps_bind; [done|]. done.
  - (* refused *)
    apply (attempt_refused _ _ _ _ [(wi, _cur_stage w, PredReturns false)]).
    + apply no_raise_returns, no_raise_nil.
    + rewrite run_bind, (run_end_if_failed _ _ _ (walked_lookup _ _ _ _)).
      by rewrite walked_update, walked_stages.
  - (* raised *)
    apply (attempt_raised _ _ _ _ [] (_cur_stage w) ex); [apply no_raise_nil|].
    rewrite run_bind, (run_end_if_failed _ _ _ (walked_lookup _ _ _ _)).
    by rewrite walked_update, walked_stages, is_failed_append.
Qed.

Lemma bind_not_false {A} (m : PL A) (k : A → PL bool) (st : pl_state) :
  (∀ a st', (k a st').1 ≠ Returns false) →
  ((m ≫= k) st).1 ≠ Returns false.
Proof.
  intros H. rewrite run_bind. destruct (m st) as [[a| |] st']; [apply H|done..].
Qed.

Lemma keeps_asked_new_pipe : keeps asked new_pipe_connections.
Proof. done. Qed.

Lemma try_submit_to_dual_attempt (st : pl_state) (wi : nat)
    (w : PipelineWorkItem) :
  heap st !! wi = Some w →
  attempt st wi w (_try_submit_to_dual_stage_with_pipe wi st).
Proof.
  intros Hw. unfold _try_submit_to_dual_stage_with_pipe, num_stages.
  run_step. run.
  destruct (_cur_stage w =? _) eqn:Hlast.
  { apply (attempt_other _ _ _ _ []);
      [apply no_raise_nil | done | by rewrite app_nil_r]. }
  rewrite run_bind, (run_is_stage_for_work_item _ _ _ _ Hw). cbn [default from_option id].
  destruct (py_index (_stages st) (_cur_stage w)) as [stage|].
  2: { apply (attempt_other _ _ _ _ []);
         [apply no_raise_nil | done | by rewrite app_nil_r]. }
  set (c1 := (wi, _cur_stage w, is_for_stage stage w)).
  destruct (is_for_stage stage w) as [[|]|ex] eqn:Ha; cbn [negb].
  - (* the first stage accepts *)
    run_step.
    rewrite run_bind,
      (run_is_stage_for_work_item _ _ _ _ (walked_lookup _ _ _ _)).
    cbn [default from_option id]. rewrite walked_stages.
    destruct (py_index (_stages st) (_cur_stage w + 1)) as [stage2|].
    2: { apply (attempt_other _ _ _ _ [c1]);
           [apply no_raise_returns, no_raise_nil | done | done]. }
    set (c2 := (wi, _cur_stage w + 1, is_for_stage stage2 w)).
    destruct (is_for_stage stage2 w) as [[|]|ex] eqn:Ha2; cbn [negb].
    + (* both accept *)
      rewrite walked_walked.
      apply (attempt_other _ _ _ _ [c1; c2]).
      * apply no_raise_returns, no_raise_returns, no_raise_nil.
      * repeat (apply bind_not_false; intros ? ?). 
        destruct a; repeat (apply bind_not_false; intros ? ?). done.
      * set (st0 := walked st wi w _).
        change (asked st ++ _) with (asked st0).
        apply (keeps_bind asked); [apply keeps_asked_new_pipe|].
        intros [conn_r conn_w]. unfold wi_get.
        keeps_tac;
          first [ apply keeps_asked_stage_at
                | apply keeps_asked_submit_to_stage | done ].
    + (* the second stage refuses *)
      rewrite walked_walked.
      apply (attempt_refused _ _ _ _ [c1; c2]).
      * apply no_raise_returns, no_raise_returns, no_raise_nil.
      * rewrite run_bind, (run_end_if_failed _ _ _ (walked_lookup _ _ _ _)).
        by rewrite walked_update, walked_stages.
    + (* the second stage raises *)
      rewrite walked_walked.
      apply (attempt_raised _ _ _ _ [c1] (_cur_stage w + 1) ex).
      * apply no_raise_returns, no_raise_nil.
      * rewrite run_bind, (run_end_if_failed _ _ _ (walked_lookup _ _ _ _)).
        by rewrite walked_update, walked_stages, is_failed_append.
  - (* the first stage refuses *)
    apply (attempt_refused _ _ _ _ [c1]).
    + apply no_raise_returns, no_raise_nil.
    + rewrite run_bind, (run_end_if_failed _ _ _ (walked_lookup _ _ _ _)).
      by rewrite walked_update, walked_stages.
  - (* the first stage raises *)
    apply (attempt_raised _ _ _ _ [] (_cur_stage w) ex); [apply no_raise_nil|].
    rewrite run_bind, (run_end_if_failed _ _ _ (walked_lookup _ _ _ _)).
    by rewrite walked_update, walked_stages, is_failed_append.
Qed.

Lemma bind_keeps_after {A A' B} (proj : pl_state → B) (m : PL A)
    (k : A → PL A') (st : pl_state) :
  (∀ a, keeps proj (k a)) → proj ((m ≫= k) st).2 = proj (m st).2.
Proof.
  intros Hk. rewrite run_bind.
  destruct (m st) as [[a| |] st']; [apply Hk | done..].
Qed.

Lemma no_raise_app (wi : nat) (c1 c2 : list (nat * Z * pred_result)) :
  no_raise wi c1 → no_raise wi c2 → no_raise wi (c1 ++ c2).
Proof. intros H1 H2 k e [?|?]%elem_of_app; [by eapply H1 | by eapply H2]. Qed.

Lemma set_cur_stage_append_increment (n : Z) (e : exc) (w : PipelineWorkItem) :
  set_cur_stage n (append_exception e (increment_stage w))
    = set_cur_stage n (append_exception e w).
Proof. reflexivity. Qed.

Lemma is_failed_set_cur_stage (n : Z) (w : PipelineWorkItem) :
  is_failed (set_cur_stage n w) = is_failed w.
Proof. reflexivity. Qed.

Lemma is_failed_set_cur_stage_append (n : Z) (e : exc) (w : PipelineWorkItem) :
  is_failed (set_cur_stage n (append_exception e w)) = true.
Proof. by rewrite is_failed_set_cur_stage, is_failed_append. Qed.

Lemma walk_nothing (st : pl_state) (wi : nat) (w : PipelineWorkItem)
    (o : outcome unit) :
  walk_end st wi w (o, st).
Proof.
  apply (walk_other _ _ _ _ []); [apply no_raise_nil | by rewrite app_nil_r].
Qed.

Lemma handle_stages_loop_spec (fuel : nat) (wi : nat) (st : pl_state)
    (w : PipelineWorkItem) :
  heap st !! wi = Some w →
  walk_end st wi w (handle_stages_loop fuel wi st).
Proof.
  revert st w. induction fuel as [|fuel IH]; intros st w Hw.
  { apply walk_nothing. }
  cbn [handle_stages_loop]. unfold num_stages. run_step. run.
  destruct (negb (_cur_stage w <? _)); [apply walk_nothing|].
  unfold stage_at. run. run.
  destruct (py_index (_stages st) (_cur_stage w)) as [next_stage|];
    [|apply walk_nothing].
  st_simpl. rewrite run_bind.
  assert (attempt st wi w
            ((if is_pipe_with_next_stage next_stage
              then _try_submit_to_dual_stage_with_pipe wi
              else _try_submit_to_stage wi) st)) as Hatt.
  { destruct (is_pipe_with_next_stage next_stage);
      [by apply try_submit_to_dual_attempt
      | by apply try_submit_to_stage_attempt]. }
  destruct Hatt as [calls k e Hnr -> | calls Hnr -> | calls Hnr Hne Hasked].
  - (* a determiner raised *)
    apply (walk_raised _ _ _ _ calls k e); [done|].
    rewrite run_bind, (run_wi_get _ _ _ (walked_lookup _ _ _ _)).
    by rewrite is_failed_set_cur_stage, is_failed_append.
  - (* refused *)
    rewrite run_bind, (run_wi_get _ _ _ (walked_lookup _ _ _ _)).
    destruct (is_failed w) eqn:Hf.
    + apply (walk_other _ _ _ _ calls); [done|].
      by rewrite is_failed_set_cur_stage, Hf.
    + rewrite Hf. rewrite run_bind.
      rewrite (run_wi_update _ _ _ _ (walked_lookup _ _ _ _)), walked_update.
      destruct (IH (walked st wi (increment_stage w) calls)
                  (increment_stage w) (walked_lookup _ _ _ _))
        as [calls' k e Hnr' -> | calls' Hnr' Ha].
      * apply (walk_raised _ _ _ _ (calls ++ calls') k e);
          [by apply no_raise_app|].
        by rewrite walked_walked, walked_stages,
             set_cur_stage_append_increment, app_assoc.
      * apply (walk_other _ _ _ _ (calls ++ calls'));
          [by apply no_raise_app|].
        rewrite Ha. unfold walked. st_simpl. by rewrite app_assoc.
  - (* accepted, or the attempt failed *)
    apply (walk_other _ _ _ _ calls); [done|].
    destruct ((if is_pipe_with_next_stage next_stage
               then _try_submit_to_dual_stage_with_pipe wi
               else _try_submit_to_stage wi) st) as [[[|]|e|] st1];
      cbn [fst snd] in *; done.
Qed.

Lemma keeps_asked_set_wi_to_finished (wi : nat) :
  keeps asked (_set_wi_to_finished wi).
Proof.
  unfold _set_wi_to_finished, _is_wi_still_running, Future_set_result,
    Future_done.
  keeps_tac.
Qed.

Lemma run_set_wi_to_finished (st : pl_state) (wi uf : nat) :
  eval (_is_wi_still_running wi) st = Returns false →
  dict_get (Some wi) (_wi_to_wifut st) = Some uf →
  futures st !! uf = Some FutPending →
  _set_wi_to_finished wi st
    = (Returns tt,
       upd_futures (insert uf (FutResult (ResWorkItem wi)))
         (upd_wi_to_wifut (dict_del (Some wi)) st)).
Proof.
  intros Hr Hu Hp. unfold _set_wi_to_finished.
  rewrite run_bind. unfold eval in Hr.
  destruct (_is_wi_still_running wi st) as [o st1] eqn:Hrun.
  assert (st1 = st) as -> by (unfold _is_wi_still_running, gets in Hrun; congruence).
  cbn [fst] in Hr. subst o.
  run. rewrite Hu. run.
  unfold Future_set_result, Future_done. run. unfold fut_is_done.
  st_simpl. by rewrite Hp.
Qed.

Lemma handle_stages_for_wi_spec (st : pl_state) (wi uf : nat)
    (w : PipelineWorkItem) :
  heap st !! wi = Some w →
  eval (_is_wi_still_running wi) st = Returns false →
  dict_get (Some wi) (_wi_to_wifut st) = Some uf →
  futures st !! uf = Some FutPending →
  stages_end st wi uf w (_handle_stages_for_wi wi st).
Proof.
  intros Hw Hrun Hu Hp.
  unfold _handle_stages_for_wi, num_stages. run_step. run.
  destruct ((_cur_stage w <? 0) || _) eqn:Hrange.
  - (* the stage index is out of range: no determiner is called *)
    apply (stages_other _ _ _ _ _ []); [apply no_raise_nil|].
    rewrite app_nil_r.
    apply (keeps_bind asked); [done|]. intros _.
    apply keeps_bind; [done|]. intros _.
    apply keeps_asked_set_wi_to_finished.
  - rewrite run_bind.
    destruct (handle_stages_loop_spec
                (S (Z.to_nat (Z.of_nat (length (_stages st)) - _cur_stage w)))
                wi st w Hw) as [calls k e Hnr -> | calls Hnr Ha].
    + (* the walk ended on a determiner that raised *)
      apply (stages_raised _ _ _ _ _ calls k e); [done|].
      unfold _is_wi_still_running at 1. run.
      unfold eval, _is_wi_still_running, gets in Hrun. cbn [fst] in Hrun.
      injection Hrun as Hrun.
      change (_running_wi_contexts (walked _ _ _ _))
        with (_running_wi_contexts st).
      rewrite Hrun.
      rewrite run_bind, (run_wi_get _ _ _ (walked_lookup _ _ _ _)).
      cbn [_cur_stage set_cur_stage negb andb].
      rewrite Z.ltb_irrefl. cbn [negb when].
      apply run_set_wi_to_finished; [|exact Hu|exact Hp].
      unfold eval, _is_wi_still_running, gets. cbn [fst].
      change (_running_wi_contexts (walked _ _ _ _))
        with (_running_wi_contexts st).
      by rewrite Hrun.
    + (* no determiner raised *)
      apply (stages_other _ _ _ _ _ calls); [done|].
      destruct (handle_stages_loop _ wi st) as [[[]|e|] st1];
        cbn [snd] in Ha; [|by rewrite <- Ha..].
      rewrite <- Ha. clear Ha. revert st1.
      match goal with |- ∀ s, asked (?m s).2 = asked s =>
        change (keeps asked m) end.
      unfold _is_wi_still_running, wi_get.
      keeps_tac; apply keeps_asked_set_wi_to_finished.
Qed.

(** C7: when a determiner raises while [_handle_stages_for_wi] asks the
    stages about an item, the exception is appended to the item's
    failures, the item is failed with its stage index at [num_stages],
    it is finalized (its entry leaves the submitted-items table and the
    caller's future is completed), and the call submits nothing to any
    executor and tracks no execution. *)
Theorem raising_determiner_fails_and_finalizes (st : pl_state) (wi uf : nat)
    (w : PipelineWorkItem) (k : Z) (e : exc) :
  heap st !! wi = Some w →
  eval (_is_wi_still_running wi) st = Returns false →
  dict_get (Some wi) (_wi_to_wifut st) = Some uf →
  futures st !! uf = Some FutPending →
  (wi, k, PredRaises e)
    ∈ drop (length (asked st)) (asked (exec (_handle_stages_for_wi wi) st)) →
  let st' := exec (_handle_stages_for_wi wi) st in
  let w' := set_cur_stage (Z.of_nat (length (_stages st)))
              (append_exception e w) in
  eval (_handle_stages_for_wi wi) st = Returns tt ∧
  heap st' = <[wi:=w']> (heap st) ∧
  exceptions w' = Some (default [] (exceptions w) ++ [e]) ∧
  is_failed w' = true ∧
  _cur_stage w' = Z.of_nat (length (_stages st')) ∧
  _wi_to_wifut st' = dict_del (Some wi) (_wi_to_wifut st) ∧
  futures st' = <[uf:=FutResult (ResWorkItem wi)]> (futures st) ∧
  _thread_exec st' = _thread_exec st ∧
  _process_exec st' = _process_exec st ∧
  _process_exec2 st' = _process_exec2 st ∧
  _plfut_to_wi st' = _plfut_to_wi st ∧
  _running_wi_contexts st' = _running_wi_contexts st.
Proof.
  intros Hw Hrun Hu Hp. unfold exec, eval.
  destruct (handle_stages_for_wi_spec st wi uf w Hw Hrun Hu Hp)
    as [calls k' e' Hnr -> | calls Hnr ->].
  - cbn [fst snd]. unfold walked. st_simpl. rewrite drop_app_length.
    intros [Hin|Hin%list_elem_of_singleton]%elem_of_app.
    { by apply Hnr in Hin. }
    injection Hin as -> ->.
    repeat split; try done. apply is_failed_set_cur_stage_append.
  - rewrite drop_app_length. intros Hin. by apply Hnr in Hin.
Qed.

(** *** A last stage that asks for a pipe *)

Lemma py_index_last {A} (l : list A) (x : A) :
  last l = Some x → py_index l (Z.of_nat (length l) - 1) = Some x.
Proof.
  intros Hl. unfold py_index.
  assert (0 < length l)%nat as Hpos by (destruct l; [done | cbn; lia]).
  rewrite (proj2 (Z.leb_le _ _)) by lia.
  rewrite (proj2 (Z.ltb_lt _ _)) by lia. cbn [andb].
  rewrite last_lookup in Hl.
  by replace (Z.to_nat (Z.of_nat (length l) - 1)) with (pred (length l)) by lia.
Qed.

Lemma fail_all_pending_items_spec (ex : exc)
    (items : list (option nat * nat)) (st : pl_state) :
  NoDup items.*1 →
  NoDup items.*2 →
  (∀ f, (None, f) ∈ items → fut_is_done st f = true) →
  ∃ st',
    fail_all_pending_items ex items st = (Returns tt, st') ∧
    (∀ wi, Some wi ∉ items.*1 → heap st' !! wi = heap st !! wi) ∧
    (∀ f, f ∉ items.*2 → futures st' !! f = futures st !! f) ∧
    (∀ wi uf w,
       (Some wi, uf) ∈ items →
       futures st !! uf = Some FutPending →
       heap st !! wi = Some w →
       heap st' !! wi = Some (append_exception ex w) ∧
       futures st' !! uf = Some (FutException ex)).
Proof.
  revert st. induction items as [|[k f] items IH]; intros st Hk Hv Hnone.
  { exists st. split; [done|]. split; [done|]. split; [done|].
    intros wi uf w Hin. by apply elem_of_nil in Hin. }
  cbn [fmap list_fmap fst snd] in Hk, Hv.
  apply NoDup_cons in Hk as [Hk1 Hk], Hv as [Hv1 Hv].
  cbn [fail_all_pending_items]. unfold Future_done at 1. run.
  destruct (fut_is_done st f) eqn:Hd.
  - destruct (IH st Hk Hv) as (st' & Hrun & Hh & Hf & Hboth).
    { intros f' Hin. apply Hnone. by right. }
    exists st'. split; [done|]. split; [|split].
    + intros wi Hwi. apply Hh. set_solver.
    + intros f' Hf'. apply Hf. set_solver.
    + intros wi uf w [[= <- <-]|Hin]%elem_of_cons Hp Hw.
      * unfold fut_is_done in Hd. by rewrite Hp in Hd.
      * by apply Hboth.
  - destruct k as [w0|].
    2: { rewrite Hnone in Hd; [done | by left]. }
    unfold wi_update at 1, Future_set_exception, Future_done. run. run. run.
    change (fut_is_done (upd_heap _ st) f) with (fut_is_done st f).
    rewrite Hd. st_simpl.
    set (st1 := upd_futures _ _).
    destruct (IH st1 Hk Hv) as (st' & Hrun & Hh & Hf & Hboth).
    { intros f' Hin. rewrite <- (Hnone f') by (by right).
      unfold fut_is_done, st1. st_simpl. rewrite lookup_insert_ne; [done|].
      intros <-. apply Hv1. apply list_elem_of_fmap. by exists (None, f). }
    exists st'. split; [done|]. split; [|split].
    + intros wi Hwi. rewrite Hh by set_solver.
      unfold st1. st_simpl. apply lookup_insert_ne. set_solver.
    + intros f' Hf'. rewrite Hf by set_solver.
      unfold st1. st_simpl. apply lookup_insert_ne. set_solver.
    + intros wi uf w [[= <- <-]|Hin]%elem_of_cons Hp Hw.
      * rewrite Hh by done. rewrite Hf by done.
        unfold st1. st_simpl.
        rewrite lookup_insert_eq, (lookup_total_correct _ _ _ Hw).
        by rewrite lookup_insert_eq.
      * assert (wi ≠ w0) as Hne1.
        { intros ->. apply Hk1. apply list_elem_of_fmap.
          by exists (Some w0, uf). }
        assert (uf ≠ f) as Hne2.
        { intros ->. apply Hv1. apply list_elem_of_fmap.
          by exists (Some wi, f). }
        apply Hboth; [done| |]; unfold st1; st_simpl.
        -- by rewrite lookup_insert_ne.
        -- by rewrite lookup_insert_ne.
Qed.

Lemma dict_get_elem {K V} `{EqDecision K} (k : K) (v : V) (d : list (K * V)) :
  dict_get k d = Some v → (k, v) ∈ d.
Proof.
  induction d as [|[k' v'] d IH]; [done|]. cbn.
  destruct (decide (k' = k)) as [->|Hne].
  - intros [= ->]. by left.
  - intros H. right. by apply IH.
Qed.

(** *** The claims about the controller *)

(** C1 (amended): when the future of the only outstanding execution
    of an item is done with an exception, [_handle_completed_fut] makes
    the item failed with that exception in its failure list, which
    otherwise holds what it held before; then, nothing being
    outstanding, the controller finalizes the item by completing the
    caller's future with the item as its result, so that [result()]
    returns the failed item. *)
Theorem failed_stage_fails_and_finalizes_item (st : pl_state)
    (fut wi uf : nat) (ctx : _WorkItemStageRunCtx) (w : PipelineWorkItem)
    (e : exc) :
  _plfut_to_wi st !! fut = Some wi →
  dict_get wi (_running_wi_contexts st) = Some [ctx] →
  ctx_fut ctx = fut →
  futures st !! fut = Some (FutException e) →
  heap st !! wi = Some w →
  dict_get (Some wi) (_wi_to_wifut st) = Some uf →
  futures st !! uf = Some FutPending →
  ∃ st1 st2 w' l,
    _handle_completed_fut fut st = (Returns (Some wi, false), st1) ∧
    heap st1 !! wi = Some w' ∧
    is_failed w' = true ∧
    exceptions w' = Some l ∧
    e ∈ l ∧
    (∀ x, x ∈ l → x ∈ default [] (exceptions w) ∨ x = e) ∧
    attend wi st1 = (Returns tt, st2) ∧
    heap st2 !! wi = Some w' ∧
    dict_get (Some wi) (_wi_to_wifut st2) = None ∧
    Future_result uf st2 = (Returns (ResWorkItem wi), st2).
Proof.
  intros Hf Hc Hx He Hw Hu Hp.
  pose proof (handle_failed_single _ _ _ _ _ _ Hf Hc Hx He Hw) as Hrun.
  cbn zeta in Hrun.
  set (l := default [] (exceptions w) ++ [e]) in *.
  set (w' := set_exceptions (Some (l ++ l)) w) in *.
  set (st1 := upd_heap _ _) in Hrun.
  assert (heap st1 !! wi = Some w') as Hw1 by apply lookup_insert_eq.
  assert (is_failed w' = true) as Hfail by apply is_failed_doubled.
  assert (attend wi st1
            = (Returns tt,
               upd_futures (insert uf (FutResult (ResWorkItem wi)))
                 (upd_wi_to_wifut (dict_del (Some wi)) st1))) as Hatt.
  { apply (attend_failed _ _ _ w'); try done.
    unfold st1. st_simpl. apply dict_get_del. }
  eexists st1, _, w', (l ++ l).
  split; [exact Hrun|]. split; [exact Hw1|]. split; [exact Hfail|].
  split; [reflexivity|]. split; [unfold l; set_solver|].
  split; [unfold l; set_solver|]. split; [exact Hatt|].
  split; [exact Hw1|]. split; [st_simpl; apply dict_get_del|].
  unfold Future_result. st_simpl. by rewrite lookup_insert_eq.
Qed.

Lemma failed_stage_fails_and_finalizes_item_witness :
  ∃ st1 st2,
    _handle_completed_fut 3 S3_failed = (Returns (Some 0%nat, false), st1) ∧
    attend 0 st1 = (Returns tt, st2) ∧
    Future_result 1 st2 = (Returns (ResWorkItem 0), st2).
Proof.
  destruct (failed_stage_fails_and_finalizes_item S3_failed 3 0 1
              {| ctx_cur_stage := 0; ctx_fut := 3; ctx_wi := 0 |}
              (set_cur_stage 1 item_x) boom)
    as (st1 & st2 & w' & l & H1 & _ & _ & _ & _ & _ & H2 & _ & _ & H3);
    [vm_compute; reflexivity..|].
  exists st1, st2. auto.
Defined.

(** C1 (as stated, refuted): in scenario S3 the failure list of the
    finalized item holds the worker's exception twice, and [result()]
    on the caller's future returns the item instead of raising. *)
Lemma S3_failure_listed_twice :
  exceptions (heap S3 !!! 0%nat) = Some [boom; boom] ∧
  length (default [] (exceptions (heap S3 !!! 0%nat))) ≠ 1%nat ∧
  eval (Future_result 1) S3 = Returns (ResWorkItem 0) ∧
  ¬ ∃ e, eval (Future_result 1) S3 = Raises e.
Proof.
  split; [vm_compute; reflexivity|]. split; [vm_compute; lia|].
  split; [vm_compute; reflexivity|].
  intros (e & He). vm_compute in He. discriminate He.
Qed.

(** C3 (the code departs from it): after scenario S1 the caller calls
    [shutdown], which returns with the thread pool and the primary
    process pool shut down, the secondary process pool still running,
    and the sentinel's entry left in the submitted-items table. *)
Lemma shutdown_leaves_secondary_pool_and_sentinel :
  _wi_to_wifut S1 = [] ∧
  eval (shutdown 8) S1 = Returns tt ∧
  exec_shutdown (_thread_exec (exec (shutdown 8) S1)) = true ∧
  exec_shutdown (_process_exec (exec (shutdown 8) S1)) = true ∧
  exec_shutdown (_process_exec2 (exec (shutdown 8) S1)) = false ∧
  _wi_to_wifut (exec (shutdown 8) S1) = [(None, 6%nat)].
Proof. repeat split; vm_compute; reflexivity. Qed.

(** C4 (as stated, refuted): in a paired run whose upstream worker has
    returned while the downstream handle [4] is pending, the pass of
    [_get_all_wi_futs] settles nothing and yet closes the upstream
    endpoint [1]. *)
Lemma upstream_endpoint_closed_while_partner_pending :
  _fut_to_pipe_conn S4_upstream_done !! 3%nat = Some 1%nat ∧
  _fut_to_pipe_conn S4_upstream_done !! 4%nat = Some 0%nat ∧
  dict_get 0%nat (_running_wi_contexts S4_upstream_done) = Some S4_contexts ∧
  fut_is_done S4_upstream_done 4 = false ∧
  eval _get_all_wi_futs S4_upstream_done = Returns ([], [4%nat]) ∧
  conn_close_calls S4_upstream_done = [] ∧
  conn_close_calls (exec _get_all_wi_futs S4_upstream_done) = [1%nat] ∧
  conn_closed (exec _get_all_wi_futs S4_upstream_done) !! 1%nat = Some true ∧
  fut_is_done (exec _get_all_wi_futs S4_upstream_done) 4 = false.
Proof. repeat split; vm_compute; reflexivity. Qed.

Lemma raising_determiner_fails_and_finalizes_witness :
  heap (queued [faulty_stage]) !! 0%nat = Some item_x ∧
  dict_get (Some 0%nat) (_wi_to_wifut (queued [faulty_stage])) = Some 1%nat ∧
  (0%nat, 0, PredRaises boom)
    ∈ asked (exec (_handle_stages_for_wi 0) (queued [faulty_stage])) ∧
  eval (_handle_stages_for_wi 0) (queued [faulty_stage]) = Returns tt ∧
  futures (exec (_handle_stages_for_wi 0) (queued [faulty_stage]))
    = <[1%nat:=FutResult (ResWorkItem 0)]> (futures (queued [faulty_stage])).
Proof.
  split; [vm_compute; reflexivity|]. split; [vm_compute; reflexivity|].
  assert (asked (exec (_handle_stages_for_wi 0) (queued [faulty_stage]))
            = [(0%nat, 0, PredRaises boom)]) as Hasked
    by (vm_compute; reflexivity).
  split; [rewrite Hasked; by left|].
  destruct (raising_determiner_fails_and_finalizes (queued [faulty_stage])
              0 1 item_x 0 boom)
    as (Hev & _ & _ & _ & _ & _ & Hfut & _).
  - vm_compute; reflexivity.
  - vm_compute; reflexivity.
  - vm_compute; reflexivity.
  - vm_compute; reflexivity.
  - rewrite Hasked.
    replace (length (asked (queued [faulty_stage]))) with 0%nat
      by (vm_compute; reflexivity).
    by left.
  - split; [exact Hev | exact Hfut].
Defined.

(** *** Dictionaries *)

Section dict_facts.
Context {V : Type}.
Implicit Types (d : list (nat * V)) (k : nat) (v : V).

Lemma dict_get_None d k : k ∉ d.*1 → dict_get k d = None.
Proof.
  induction d as [|[k' v'] d IH]; [done|]. cbn. intros Hk.
  rewrite decide_False by set_solver. apply IH. set_solver.
Qed.

Lemma dict_split d k :
  ((k ∉ d.*1) ∧ dict_get k d = None) ∨
  (∃ d1 v d2, d = d1 ++ (k, v) :: d2 ∧ (k ∉ d1.*1) ∧ dict_get k d = Some v).
Proof.
  induction d as [|[k' v'] d IH].
  { left. split; [apply not_elem_of_nil | done]. }
  cbn. destruct (decide (k' = k)) as [->|Hne].
  - right. exists [], v', d. split; [done|]. split; [apply not_elem_of_nil | done].
  - destruct IH as [[Hk Hg]|(d1 & v & d2 & -> & Hk & Hg)].
    + left. split; [set_solver | done].
    + right. exists ((k', v') :: d1), v, d2. split; [done|]. split; [set_solver | done].
Qed.

Lemma dict_set_fresh d k v : k ∉ d.*1 → dict_set k v d = d ++ [(k, v)].
Proof.
  induction d as [|[k' v'] d IH]; [done|]. cbn. intros Hk.
  rewrite decide_False by set_solver. f_equal. apply IH. set_solver.
Qed.

Lemma dict_set_app d1 d2 k v v' :
  k ∉ d1.*1 → dict_set k v' (d1 ++ (k, v) :: d2) = d1 ++ (k, v') :: d2.
Proof.
  induction d1 as [|[k1 v1] d1 IH]; cbn; intros Hk.
  - by rewrite decide_True.
  - rewrite decide_False by set_solver. f_equal. apply IH. set_solver.
Qed.

Lemma dict_del_fresh d k : k ∉ d.*1 → dict_del k d = d.
Proof.
  induction d as [|[k' v'] d IH]; [done|]. cbn. intros Hk.
  rewrite decide_False by set_solver. f_equal. apply IH. set_solver.
Qed.

Lemma dict_del_app d1 d2 k v :
  k ∉ d1.*1 → k ∉ d2.*1 → dict_del k (d1 ++ (k, v) :: d2) = d1 ++ d2.
Proof.
  induction d1 as [|[k1 v1] d1 IH]; cbn; intros Hk1 Hk2.
  - rewrite decide_True by done. by apply dict_del_fresh.
  - rewrite decide_False by set_solver. f_equal. apply IH; set_solver.
Qed.

Lemma dict_get_app d1 d2 k v :
  k ∉ d1.*1 → dict_get k (d1 ++ (k, v) :: d2) = Some v.
Proof.
  induction d1 as [|[k1 v1] d1 IH]; cbn; intros Hk.
  - by rewrite decide_True.
  - rewrite decide_False by set_solver. apply IH. set_solver.
Qed.
End dict_facts.

(** *** The two tables of the outstanding executions *)

Lemma futs_of_app (d1 d2 : list (nat * list _WorkItemStageRunCtx)) :
  futs_of (d1 ++ d2) = futs_of d1 ++ futs_of d2.
Proof. unfold futs_of. by rewrite !fmap_app, concat_app. Qed.

Lemma futs_of_cons (k : nat) (v : list _WorkItemStageRunCtx)
    (d : list (nat * list _WorkItemStageRunCtx)) :
  futs_of ((k, v) :: d) = (ctx_fut <$> v) ++ futs_of d.
Proof. reflexivity. Qed.

Lemma futs_of_elem (d : list (nat * list _WorkItemStageRunCtx)) (f : nat) :
  f ∈ futs_of d ↔ ∃ w ctxs c, (w, ctxs) ∈ d ∧ c ∈ ctxs ∧ ctx_fut c = f.
Proof.
  induction d as [|[k v] d IH].
  - split; [by intros ?%elem_of_nil|]. by intros (? & ? & ? & ?%elem_of_nil & _).
  - rewrite futs_of_cons, elem_of_app, IH, list_elem_of_fmap. split.
    + intros [(c & -> & Hc)|(w & ctxs & c & Hin & Hc & Hf)].
      * exists k, v, c. split; [by left | done].
      * exists w, ctxs, c. split; [by right | done].
    + intros (w & ctxs & c & [[= -> ->]|Hin]%elem_of_cons & Hc & Hf).
      * left. by exists c.
      * right. by exists w, ctxs, c.
Qed.

Lemma ctx_ok_tracked_known (d : list (nat * list _WorkItemStageRunCtx))
    (m : gmap nat nat) (f : nat) :
  ctx_ok d m → f ∈ futs_of d → is_Some (m !! f).
Proof.
  intros (_ & H2 & _) (w & ctxs & c & Hin & Hc & <-)%futs_of_elem.
  rewrite (H2 _ _ _ Hin Hc). by eexists.
Qed.

(** Tracking a new future for [wi] keeps the tables in agreement when
    the stage of the new context is beyond those of the contexts that
    [wi] has. *)
Lemma ctx_ok_track (d : list (nat * list _WorkItemStageRunCtx))
    (m : gmap nat nat) (cs : Z) (fut wi : nat) :
  ctx_ok d m →
  m !! fut = None →
  Forall (λ c, ctx_cur_stage c < cs) (default [] (dict_get wi d)) →
  ctx_ok
    (dict_set wi
       (default [] (dict_get wi d) ++
        [{| ctx_cur_stage := cs; ctx_fut := fut; ctx_wi := wi |}]) d)
    (<[fut:=wi]> m).
Proof.
  intros Hok Hfut Hlt.
  assert (fut ∉ futs_of d) as Hfresh.
  { intros [x Hx]%(ctx_ok_tracked_known _ _ _ Hok). congruence. }
  destruct Hok as (H1 & H2 & H3 & H4).
  set (ctx := {| ctx_cur_stage := cs; ctx_fut := fut; ctx_wi := wi |}).
  assert (∀ w ctxs c, (w, ctxs) ∈ d → c ∈ ctxs →
            <[fut:=wi]> m !! ctx_fut c = Some w) as H2'.
  { intros w ctxs c Hin Hc. rewrite lookup_insert_ne; [by eapply H2|].
    intros Heq. apply Hfresh. apply futs_of_elem. by exists w, ctxs, c. }
  destruct (dict_split d wi) as [[Hk Hg]|(d1 & v & d2 & -> & Hk & Hg)].
  - rewrite Hg in *. cbn [default from_option app] in *.
    rewrite (dict_set_fresh _ _ _ Hk). split; [|split; [|split]].
    + rewrite fmap_app. cbn. apply NoDup_app. split; [done|].
      split; [|apply NoDup_singleton]. intros x Hx ->%list_elem_of_singleton. done.
    + intros w ctxs c [Hin|[= -> ->]%list_elem_of_singleton]%elem_of_app Hc.
      * by eapply H2'.
      * apply list_elem_of_singleton in Hc as ->. apply lookup_insert_eq.
    + rewrite futs_of_app. cbn. apply NoDup_app. split; [done|].
      split; [|apply NoDup_singleton]. intros x Hx ->%list_elem_of_singleton. done.
    + intros w ctxs [Hin|[= -> ->]%list_elem_of_singleton]%elem_of_app.
      * by eapply H4.
      * repeat constructor.
  - rewrite Hg in *. cbn [default from_option] in *.
    rewrite (dict_set_app _ _ _ _ _ Hk). split; [|split; [|split]].
    + by rewrite fmap_app in H1 |- *.
    + intros w ctxs c [Hin|[[= -> ->]|Hin]%elem_of_cons]%elem_of_app Hc.
      * eapply H2'; [|done]. apply elem_of_app. by left.
      * apply elem_of_app in Hc as [Hc| ->%list_elem_of_singleton].
        -- eapply (H2' wi v); [|done]. apply elem_of_app. right. by left.
        -- apply lookup_insert_eq.
      * eapply H2'; [|done]. apply elem_of_app. right. by right.
    + rewrite futs_of_app, futs_of_cons in H3, Hfresh |- *.
      rewrite fmap_app. cbn [fmap list_fmap ctx_fut ctx].
      apply NoDup_app in H3 as (Ha & Hb & Hc).
      apply NoDup_app in Hc as (Hc & Hd & He).
      apply NoDup_app. split; [done|]. split.
      * intros x Hx. specialize (Hb x Hx). set_solver.
      * apply NoDup_app. split; [|split; [|done]].
        -- apply NoDup_app. split; [done|]. split; [|apply NoDup_singleton].
           intros x Hx ->%list_elem_of_singleton. set_solver.
        -- intros x [Hx| ->%list_elem_of_singleton]%elem_of_app; [by apply Hd|].
           set_solver.
    + intros w ctxs [Hin|[[= -> ->]|Hin]%elem_of_cons]%elem_of_app.
      * eapply H4. apply elem_of_app. by left.
      * apply StronglySorted_app. split; [|split].
        -- intros a b Ha ->%list_elem_of_singleton.
           rewrite Forall_forall in Hlt. by apply Hlt.
        -- eapply (H4 wi). apply elem_of_app. right. by left.
        -- repeat constructor.
      * eapply H4. apply elem_of_app. right. by right.
Qed.

Lemma ctx_loop_spec (fut : nat) (ctxs : list _WorkItemStageRunCtx)
    (c0 : option _WorkItemStageRunCtx) :
  match ctx_loop fut ctxs c0 with
  | (Some x, true) =>
      ∃ l1 l2, ctxs = l1 ++ x :: l2 ∧ ctx_fut x = fut ∧
               Forall (λ c, ctx_fut c ≠ fut) l1
  | (None, true) => False
  | (_, false) => Forall (λ c, ctx_fut c ≠ fut) ctxs
  end.
Proof.
  revert c0. induction ctxs as [|x ctxs IH]; intros c0; cbn [ctx_loop].
  { destruct c0; constructor. }
  case_bool_decide as Hx.
  - exists [], ctxs. split; [done|]. split; [done | constructor].
  - specialize (IH (Some x)).
    destruct (ctx_loop fut ctxs (Some x)) as [[y|] [|]]; try done.
    + destruct IH as (l1 & l2 & -> & Hy & Hl1).
      exists (x :: l1), l2. split; [done|]. split; [done|]. by constructor.
    + by constructor.
    + by constructor.
Qed.

Lemma py_list_remove_app {A} `{EqDecision A} (x : A) (l1 l2 : list A) :
  x ∉ l1 → py_list_remove x (l1 ++ x :: l2) = l1 ++ l2.
Proof.
  induction l1 as [|y l1 IH]; cbn; intros Hx.
  - by rewrite decide_True.
  - rewrite decide_False by set_solver. f_equal. apply IH. set_solver.
Qed.

Lemma ctx_ok_delete_untracked (d : list (nat * list _WorkItemStageRunCtx))
    (m : gmap nat nat) (fut : nat) :
  ctx_ok d m → fut ∉ futs_of d → ctx_ok d (delete fut m).
Proof.
  intros (H1 & H2 & H3 & H4) Hfut. split; [done|]. split; [|done].
  intros w ctxs c Hin Hc. rewrite lookup_delete_ne; [by eapply H2|].
  intros Heq. apply Hfut. apply futs_of_elem. by exists w, ctxs, c.
Qed.

Lemma ctx_ok_shrink (d1 d2 : list (nat * list _WorkItemStageRunCtx))
    (w : nat) (l1 l2 : list _WorkItemStageRunCtx) (x : _WorkItemStageRunCtx)
    (m : gmap nat nat) :
  ctx_ok (d1 ++ (w, l1 ++ x :: l2) :: d2) m →
  ctx_ok (d1 ++ (w, l1 ++ l2) :: d2) (delete (ctx_fut x) m).
Proof.
  intros (H1 & H2 & H3 & H4).
  rewrite futs_of_app, futs_of_cons, fmap_app, fmap_cons in H3.
  apply NoDup_app in H3 as (Ha & Hb & Hc).
  apply NoDup_app in Hc as (Hc & Hd & He).
  apply NoDup_app in Hc as (Hc1 & Hc2 & Hc3).
  apply NoDup_cons in Hc3 as (Hx & Hc3).
  assert (NoDup (futs_of (d1 ++ (w, l1 ++ l2) :: d2))) as H3'.
  { rewrite futs_of_app, futs_of_cons, fmap_app.
    apply NoDup_app. split; [done|]. split.
    - intros f Hf. specialize (Hb f Hf). set_solver.
    - apply NoDup_app. split; [|split; [|done]].
      + apply NoDup_app. split; [done|]. split; [|done].
        intros f Hf. specialize (Hc2 f Hf). set_solver.
      + intros f Hf. apply Hd. set_solver. }
  assert (ctx_fut x ∉ futs_of (d1 ++ (w, l1 ++ l2) :: d2)) as Hfresh.
  { rewrite futs_of_app, futs_of_cons, fmap_app. rewrite !elem_of_app.
    intros [Hf|[[Hf|Hf]|Hf]].
    - apply (Hb _ Hf). set_solver.
    - apply (Hc2 _ Hf). set_solver.
    - done.
    - apply (Hd (ctx_fut x)); [set_solver | done]. }
  apply ctx_ok_delete_untracked; [|done].
  split; [by rewrite fmap_app in H1 |- *|]. split; [|split; [done|]].
  - intros w' ctxs c [Hin|[[= -> ->]|Hin]%elem_of_cons]%elem_of_app Hcin.
    + eapply H2; [|done]. apply elem_of_app. by left.
    + eapply (H2 w (l1 ++ x :: l2)); [apply elem_of_app; right; by left|].
      set_solver.
    + eapply H2; [|done]. apply elem_of_app. right. by right.
  - intros w' ctxs [Hin|[[= -> ->]|Hin]%elem_of_cons]%elem_of_app.
    + eapply H4. apply elem_of_app. by left.
    + assert (StronglySorted stage_lt (l1 ++ x :: l2)) as Hs.
      { eapply (H4 w). apply elem_of_app. right. by left. }
      apply StronglySorted_app in Hs as (Hs1 & Hs2 & Hs3).
      apply StronglySorted_cons in Hs3 as (_ & Hs3).
      apply StronglySorted_app. split; [|done].
      intros a b Ha' Hb'. apply Hs1; [done | by right].
    + eapply H4. apply elem_of_app. right. by right.
Qed.

Lemma ctx_ok_drop_empty (d1 d2 : list (nat * list _WorkItemStageRunCtx))
    (w : nat) (m : gmap nat nat) :
  ctx_ok (d1 ++ (w, []) :: d2) m → ctx_ok (d1 ++ d2) m.
Proof.
  intros (H1 & H2 & H3 & H4). split; [|split; [|split]].
  - rewrite fmap_app in H1 |- *. cbn in H1.
    apply NoDup_app in H1 as (Ha & Hb & Hc). apply NoDup_cons in Hc as (_ & Hc).
    apply NoDup_app. split; [done|]. split; [|done].
    intros k Hk. specialize (Hb k Hk). set_solver.
  - intros w' ctxs c Hin Hc. eapply (H2 w' ctxs); [|done]. set_solver.
  - rewrite futs_of_app, futs_of_cons in H3. by rewrite futs_of_app.
  - intros w' ctxs Hin. eapply (H4 w' ctxs). set_solver.
Qed.

(** *** Triples *)

Lemma hoare_bind {A B} (P : pl_state → Prop) (m : PL A) (k : A → PL B)
    (R : A → pl_state → Prop) (Q : B → pl_state → Prop)
    (E : pl_state → Prop) :
  hoare P m R E → (∀ a, hoare (R a) (k a) Q E) → hoare P (m ≫= k) Q E.
Proof.
  intros Hm Hk st HP. rewrite run_bind. specialize (Hm st HP).
  destruct (m st) as [[a|e|] st']; [by apply Hk | done..].
Qed.

Lemma hoare_conseq {A} (P P' : pl_state → Prop) (m : PL A)
    (Q Q' : A → pl_state → Prop) (E E' : pl_state → Prop) :
  hoare P m Q E →
  (∀ st, P' st → P st) → (∀ a st, Q a st → Q' a st) → (∀ st, E st → E' st) →
  hoare P' m Q' E'.
Proof.
  intros Hm HP HQ HE st HP'. specialize (Hm st (HP st HP')).
  destruct (m st) as [[a|e|] st']; auto.
Qed.

Lemma hoare_ret {A} (a : A) (Q : A → pl_state → Prop) (E : pl_state → Prop) :
  hoare (Q a) (mret a) Q E.
Proof. by intros st. Qed.

Lemma hoare_ret_pre {A} (a : A) (P : pl_state → Prop)
    (Q : A → pl_state → Prop) (E : pl_state → Prop) :
  (∀ st, P st → Q a st) → hoare P (mret a) Q E.
Proof. intros H st HP. by apply H. Qed.

Lemma hoare_raise {A} (e : exc) (Q : A → pl_state → Prop)
    (E : pl_state → Prop) :
  hoare E (raise e) Q E.
Proof. by intros st. Qed.

Lemma hoare_gets {A} (P : pl_state → Prop) (f : pl_state → A)
    (E : pl_state → Prop) :
  hoare P (gets f) (λ a st, P st ∧ a = f st) E.
Proof. by intros st. Qed.

(** A computation that keeps the part [proj] of the state keeps what
    holds of that part. *)
Lemma hoare_keeps {A B} (proj : pl_state → B) (P : B → Prop) (m : PL A) :
  keeps proj m →
  hoare (λ st, P (proj st)) m (λ _ st, P (proj st)) (λ st, P (proj st)).
Proof.
  intros Hk st HP. specialize (Hk st).
  destruct (m st) as [[a|e|] st']; cbn [snd] in Hk; by rewrite Hk.
Qed.

Ltac keeps_unfold :=
  unfold Executor_submit, Executor_shutdown, new_future, new_work_item,
    wi_update, wi_get, stage_at, new_pipe_connections,
    _is_stage_for_work_item, end_if_failed, num_stages, _set_wi_to_finished,
    _is_wi_still_running, stage_complete, _get_queued_wi,
    _cleanup_pipe_connections, conn_close, _renew_input_queue_future,
    _start, Future_set_result, Future_set_exception, Future_done,
    Future_exception, Future_result.

Lemma keeps_state {B} (proj : pl_state → B) {A}
    (f : pl_state → outcome A * pl_state) :
  (∀ st, proj (f st).2 = proj st) → keeps proj (f : PL A).
Proof. done. Qed.

(** For the computations built from the primitives without a loop. *)
Ltac keeps_auto :=
  keeps_unfold; keeps_tac;
  try (apply keeps_state; intros st; cbn;
       repeat match goal with
              | |- context [match ?x with _ => _ end] => destruct x
              end; reflexivity);
  try (apply keeps_modify; intros st;
       repeat match goal with
              | p : pool |- _ => destruct p
              end; reflexivity).

Lemma keeps_tables_submit (p : pool) (t : task) :
  keeps ctx_tables (Executor_submit p t).
Proof. keeps_auto. Qed.

Lemma keeps_tables_is_stage (wi : nat) (stage_num : option Z) :
  keeps ctx_tables (_is_stage_for_work_item wi stage_num).
Proof. keeps_auto. Qed.

Lemma keeps_tables_end_if_failed (wi : nat) :
  keeps ctx_tables (end_if_failed wi).
Proof. keeps_auto. Qed.

Lemma keeps_tables_set_wi_to_finished (wi : nat) :
  keeps ctx_tables (_set_wi_to_finished wi).
Proof. keeps_auto. Qed.

Lemma keeps_tables_stage_complete (self : nat) (n : Z) (wi : nat)
    (ex : option exc) :
  keeps ctx_tables (stage_complete self n wi ex).
Proof. keeps_auto. Qed.

Lemma keeps_tables_get_queued_wi : keeps ctx_tables _get_queued_wi.
Proof. keeps_auto. Qed.

Lemma keeps_tables_cleanup (fut : nat) :
  keeps ctx_tables (_cleanup_pipe_connections fut).
Proof. keeps_auto. Qed.

Lemma keeps_tables_renew : keeps ctx_tables _renew_input_queue_future.
Proof. keeps_auto. Qed.

Lemma keeps_tables_start : keeps ctx_tables _start.
Proof. keeps_auto. Qed.

Lemma keeps_for_each {A B} (proj : pl_state → B) (l : list A)
    (body : A → PL unit) :
  (∀ x, keeps proj (body x)) → keeps proj (for_each l body).
Proof.
  intros Hb. induction l as [|x l IH]; cbn [for_each]; [done|].
  apply keeps_bind; [apply Hb | by intros _].
Qed.

Lemma keeps_tables_get_all_wi_futs : keeps ctx_tables _get_all_wi_futs.
Proof.
  unfold _get_all_wi_futs. apply keeps_bind; [done|]. intros values.
  generalize (@nil nat) at 1. generalize (@nil nat).
  induction values as [|ctxs values IH]; intros p d;
    cbn [get_all_wi_futs_loop]; [done|].
  apply keeps_bind; [done|]. intros ctx_done_futs.
  apply keeps_bind.
  { apply keeps_for_each. apply keeps_tables_cleanup. }
  intros _. destruct (List.filter _ _); apply IH.
Qed.

Lemma keeps_tables_collect (renew : bool) :
  keeps ctx_tables (collect_done_futs renew).
Proof.
  unfold collect_done_futs.
  apply keeps_bind; [apply keeps_tables_get_all_wi_futs|]. intros [d p].
  apply keeps_bind; [apply keeps_when, keeps_tables_renew|]. intros _.
  keeps_auto.
Qed.

Lemma keeps_tables_fail_all_pending (ex : exc) :
  keeps ctx_tables (_fail_all_pending ex).
Proof.
  unfold _fail_all_pending. apply keeps_bind; [done|]. intros items.
  induction items as [|[wi f] items IH]; cbn [fail_all_pending_items]; [done|].
  apply keeps_bind; [done|]. intros [|]; [done|].
  destruct wi; [|done].
  apply keeps_bind; [done|]. intros _.
  apply keeps_bind; [keeps_auto | by intros _].
Qed.

Lemma keeps_tables_internal_submit (wi : option nat) :
  keeps ctx_tables (_internal_submit wi).
Proof.
  unfold _internal_submit.
  apply keeps_bind; [apply keeps_tables_start|]. intros _. keeps_auto.
Qed.

Lemma keeps_tables_submit_item (wi : option nat) :
  keeps ctx_tables (submit wi).
Proof.
  unfold submit. destruct wi; [|done].
  apply keeps_bind; [done|]. intros [|]; [done|].
  apply keeps_tables_internal_submit.
Qed.

(** *** The tables stay in agreement *)

Lemma contexts_ok_keeps {A} (m : PL A) :
  keeps ctx_tables m →
  hoare contexts_ok m (λ _, contexts_ok) contexts_ok.
Proof.
  intros Hk. apply (hoare_keeps ctx_tables (λ p, ctx_ok p.1 p.2) m Hk).
Qed.

Lemma dict_get_is_Some {V} (d : list (nat * V)) (k : nat) (v : V) :
  (k, v) ∈ d → is_Some (dict_get k d).
Proof.
  induction d as [|[k' v'] d IH]; [by intros ?%elem_of_nil|].
  cbn. intros [[= -> ->]|Hin]%elem_of_cons.
  - rewrite decide_True by done. by eexists.
  - destruct (decide (k' = k)); [by eexists | by apply IH].
Qed.

Lemma dict_unique {V} (d : list (nat * V)) (k : nat) (v1 v2 : V) :
  NoDup d.*1 → (k, v1) ∈ d → (k, v2) ∈ d → v1 = v2.
Proof.
  induction d as [|[k' v'] d IH]; [by intros _ ?%elem_of_nil|].
  cbn. intros [Hk Hd]%NoDup_cons.
  intros [[= -> ->]|H1]%elem_of_cons [[= ->]|H2]%elem_of_cons; try done.
  - exfalso. apply Hk. apply list_elem_of_fmap. by exists (k', v2).
  - subst. exfalso. apply Hk. apply list_elem_of_fmap. by exists (k', v1).
  - by apply IH.
Qed.

Lemma get_completed_contexts_ok (fut : nat) :
  hoare contexts_ok (_get_completed_work_item_info fut)
    (λ _, contexts_ok) contexts_ok.
Proof.
  intros st Hok. unfold _get_completed_work_item_info.
  run. destruct (_plfut_to_wi st !! fut) as [w|] eqn:Hf; run; run; [|done].
  destruct (dict_get w (_running_wi_contexts st)) as [ctxs|] eqn:Hg.
  2: { (* nothing is tracked for the work item *)
       unfold contexts_ok in *. st_simpl.
       apply ctx_ok_delete_untracked; [done|].
       intros (w' & ctxs & c & Hin & Hc & Hfc)%futs_of_elem.
       destruct Hok as (_ & H2 & _).
       rewrite <- Hfc, (H2 _ _ _ Hin Hc) in Hf. injection Hf as ->.
       apply dict_get_is_Some in Hin as [? Hin]. congruence. }
  destruct (dict_split (_running_wi_contexts st) w)
    as [[_ Hg']|(d1 & v & d2 & Hd & Hk & Hg')]; [congruence|].
  rewrite Hg in Hg'. injection Hg' as <-.
  assert (w ∉ d2.*1) as Hk2.
  { destruct Hok as (H1 & _). rewrite Hd, fmap_app in H1. cbn in H1.
    apply NoDup_app in H1 as (_ & _ & H1). by apply NoDup_cons in H1 as (? & _). }
  assert (contexts_ok
            (let ctxs' :=
               match ctx_loop fut ctxs None with
               | (Some x, true) => py_list_remove x ctxs
               | _ => ctxs
               end in
             let st1 := upd_running_wi_contexts (dict_set w ctxs')
                          (upd_plfut_to_wi (delete fut) st) in
             if ctxs' is [] then upd_running_wi_contexts (dict_del w) st1
             else st1)) as Hfinal.
  { unfold contexts_ok in *. pose proof (ctx_loop_spec fut ctxs None) as Hloop.
    assert (∀ ctxs',
              ctx_ok (d1 ++ (w, ctxs') :: d2) (delete fut (_plfut_to_wi st)) →
              ctx_ok
                (_running_wi_contexts
                   (if ctxs' is []
                    then upd_running_wi_contexts (dict_del w)
                           (upd_running_wi_contexts (dict_set w ctxs')
                              (upd_plfut_to_wi (delete fut) st))
                    else upd_running_wi_contexts (dict_set w ctxs')
                           (upd_plfut_to_wi (delete fut) st)))
                (_plfut_to_wi
                   (if ctxs' is []
                    then upd_running_wi_contexts (dict_del w)
                           (upd_running_wi_contexts (dict_set w ctxs')
                              (upd_plfut_to_wi (delete fut) st))
                    else upd_running_wi_contexts (dict_set w ctxs')
                           (upd_plfut_to_wi (delete fut) st)))) as Hcase.
    { intros ctxs' Hok'. destruct ctxs' as [|c ctxs']; st_simpl;
        rewrite Hd, (dict_set_app _ _ _ _ _ Hk).
      - rewrite (dict_del_app _ _ _ _ Hk Hk2). by eapply ctx_ok_drop_empty.
      - done. }
    rewrite Hd in Hok.
    destruct (ctx_loop fut ctxs None) as [[x|] [|]]; cbn zeta; apply Hcase.
    - destruct Hloop as (l1 & l2 & -> & <- & Hl1).
      rewrite py_list_remove_app.
      + by apply ctx_ok_shrink.
      + intros Hx. rewrite Forall_forall in Hl1. by apply (Hl1 x Hx).
    - apply ctx_ok_delete_untracked; [done|].
      intros (w' & ctxs' & c & Hin & Hc & Hfc)%futs_of_elem.
      destruct Hok as (H1 & H2 & _).
      pose proof (H2 _ _ _ Hin Hc) as Hm. rewrite Hfc, Hf in Hm.
      injection Hm as <-.
      assert (ctxs' = ctxs) as ->.
      { apply dict_get_elem in Hg. rewrite Hd in Hg.
        by eapply (dict_unique _ w). }
      rewrite Forall_forall in Hloop. by apply (Hloop c Hc).
    - done.
    - apply ctx_ok_delete_untracked; [done|].
      intros (w' & ctxs' & c & Hin & Hc & Hfc)%futs_of_elem.
      destruct Hok as (H1 & H2 & _).
      pose proof (H2 _ _ _ Hin Hc) as Hm. rewrite Hfc, Hf in Hm.
      injection Hm as <-.
      assert (ctxs' = ctxs) as ->.
      { apply dict_get_elem in Hg. rewrite Hd in Hg.
        by eapply (dict_unique _ w). }
      rewrite Forall_forall in Hloop. by apply (Hloop c Hc). }
  cbn zeta in Hfinal.
  destruct (ctx_loop fut ctxs None) as [c found]. run.
  destruct c as [x|], found; st_simpl;
    repeat match goal with
           | |- context [match ?l with [] => _ | _ :: _ => _ end] =>
               destruct l
           end; st_simpl; try run; exact Hfinal.
Qed.

Lemma handle_completed_fut_contexts_ok (done_fut : nat) :
  hoare contexts_ok (_handle_completed_fut done_fut)
    (λ _, contexts_ok) contexts_ok.
Proof.
  unfold _handle_completed_fut.
  eapply hoare_bind; [apply hoare_gets|]. intros tracked.
  eapply hoare_conseq with (P := contexts_ok) (Q := λ _, contexts_ok);
    [|by intros st [? ?]|done..].
  destruct tracked.
  - eapply hoare_bind; [apply get_completed_contexts_ok|]. intros [wi ctx].
    apply contexts_ok_keeps.
    apply keeps_bind; [keeps_auto|]. intros ex.
    apply keeps_bind; [|intros; apply keeps_ret]. destruct ex as [e|].
    + apply keeps_tables_stage_complete.
    + apply keeps_bind; [keeps_auto|]. intros [r|v];
        apply keeps_tables_stage_complete.
  - apply contexts_ok_keeps.
    apply keeps_bind; [done|]. intros iq. case_bool_decide.
    + apply keeps_tables_get_queued_wi.
    + apply keeps_bind; [by apply keeps_modify|]. intros _.
      apply keeps_tables_get_queued_wi.
Qed.

Lemma handle_done_futs_contexts_ok (done_futs attention : list nat)
    (is_shutdown : bool) :
  hoare contexts_ok (handle_done_futs done_futs attention is_shutdown)
    (λ _, contexts_ok) contexts_ok.
Proof.
  revert attention is_shutdown.
  induction done_futs as [|f done_futs IH]; intros attention is_shutdown;
    cbn [handle_done_futs].
  - by apply hoare_ret_pre.
  - eapply hoare_bind; [apply handle_completed_fut_contexts_ok|].
    intros [wi is_sd]. apply IH.
Qed.

Lemma dict_get_set {V} (d : list (nat * V)) (k : nat) (v : V) :
  dict_get k (dict_set k v d) = Some v.
Proof.
  induction d as [|[k' v'] d IH]; cbn.
  - by rewrite decide_True.
  - destruct (decide (k' = k)) as [->|Hne]; cbn.
    + by rewrite decide_True.
    + by rewrite decide_False.
Qed.

Lemma dict_set_set {V} (d : list (nat * V)) (k : nat) (v v' : V) :
  dict_set k v' (dict_set k v d) = dict_set k v' d.
Proof.
  induction d as [|[k1 v1] d IH]; cbn.
  - by rewrite decide_True.
  - destruct (decide (k1 = k)) as [->|Hne]; cbn.
    + by rewrite decide_True.
    + rewrite decide_False by done. by rewrite IH.
Qed.

(** The contexts of [wi] are all of stages before [n], or up to [n]. *)
Lemma track_contexts_ok (cs : Z) (fut wi : nat) :
  hoare
    (λ st, contexts_ok st ∧
           Forall (λ c, ctx_cur_stage c < cs) (contexts_of wi st))
    (_track_running_pipeline_work cs fut wi)
    (λ _ st, contexts_ok st ∧
             Forall (λ c, ctx_cur_stage c <= cs) (contexts_of wi st))
    contexts_ok.
Proof.
  intros st [Hok Hlt]. unfold _track_running_pipeline_work.
  run. destruct (_plfut_to_wi st !! fut) eqn:Hf; [done|].
  run. run.
  assert (∀ d : list (nat * list _WorkItemStageRunCtx),
            default [] (dict_get wi (if dict_get wi d is Some _ then d
                                     else dict_set wi [] d))
              = default [] (dict_get wi d)) as Hdef.
  { intros d. destruct (dict_get wi d) eqn:Hg; [by rewrite Hg|].
    by rewrite dict_get_set. }
  assert (∀ (d : list (nat * list _WorkItemStageRunCtx)) v,
            dict_set wi v (if dict_get wi d is Some _ then d
                           else dict_set wi [] d)
              = dict_set wi v d) as Hset.
  { intros d v. destruct (dict_get wi d); [done|]. apply dict_set_set. }
  unfold contexts_ok, contexts_of in *. st_simpl.
  rewrite Hdef, Hset, dict_get_set. split.
  - by apply ctx_ok_track.
  - cbn. apply Forall_app. split.
    + eapply Forall_impl; [exact Hlt|]. cbn. intros; lia.
    + repeat constructor. cbn. lia.
Qed.

Lemma hoare_bind_gets {A B} (P : pl_state → Prop) (f : pl_state → A)
    (k : A → PL B) (Q : B → pl_state → Prop) (E : pl_state → Prop) :
  (∀ st0, hoare (λ st, P st ∧ st = st0) (k (f st0)) Q E) →
  hoare P (gets f ≫= k) Q E.
Proof. intros Hk st HP. rewrite run_bind. st_simpl. by apply (Hk st). Qed.

Lemma hoare_bind_gets_any {A B} (P : pl_state → Prop) (f : pl_state → A)
    (k : A → PL B) (Q : B → pl_state → Prop) (E : pl_state → Prop) :
  (∀ a, hoare P (k a) Q E) → hoare P (gets f ≫= k) Q E.
Proof. intros Hk st HP. rewrite run_bind. st_simpl. by apply Hk. Qed.

Lemma hoare_weaken_exc {A} (P : pl_state → Prop) (m : PL A)
    (Q : A → pl_state → Prop) (E E' : pl_state → Prop) :
  hoare P m Q E → (∀ st, E st → E' st) → hoare P m Q E'.
Proof. intros Hm HE. by apply (hoare_conseq P P m Q Q E E'). Qed.

Lemma staged_keeps {A} (R : Z → Z → Prop) (wi : nat) (m : PL A) :
  keeps (stage_view wi) m →
  hoare (staged R wi) m (λ _, staged R wi) (staged R wi).
Proof.
  intros Hk.
  apply (hoare_keeps (stage_view wi)
           (λ p, ctx_ok p.1.1 p.1.2 ∧
                 Forall (λ c, R (ctx_cur_stage c) p.2)
                        (default [] (dict_get wi p.1.1))) m Hk).
Qed.

Lemma idle_keeps {A} (wi : nat) (m : PL A) :
  keeps ctx_tables m → hoare (idle wi) m (λ _, idle wi) (idle wi).
Proof.
  intros Hk.
  apply (hoare_keeps ctx_tables
           (λ p, ctx_ok p.1 p.2 ∧ default [] (dict_get wi p.1) = []) m Hk).
Qed.

Lemma keeps_view_new_work_item (wi : nat) (pc : option nat) :
  keeps (stage_view wi)
    (w ← wi_get wi; new_work_item (set_pipe_conn pc w)).
Proof.
  intros st. rewrite run_bind. unfold wi_get, new_work_item. st_simpl.
  unfold stage_view, ctx_tables. st_simpl. f_equal.
  destruct (decide (fresh (dom (heap st)) = wi)) as [->|Hne].
  - by rewrite lookup_total_insert_eq.
  - by rewrite lookup_total_insert_ne.
Qed.

Lemma keeps_view_submit (wi : nat) (p : pool) (t : task) :
  keeps (stage_view wi) (Executor_submit p t).
Proof. keeps_auto. Qed.

Lemma keeps_heap_track (cs : Z) (fut wi : nat) :
  keeps heap (_track_running_pipeline_work cs fut wi).
Proof. unfold _track_running_pipeline_work. keeps_tac. Qed.

Lemma track_staged (fut wi : nat) (st : pl_state) :
  staged Z.lt wi st →
  match _track_running_pipeline_work (_cur_stage (heap st !!! wi)) fut wi st
  with
  | (Returns _, st') => staged Z.le wi st'
  | (_, st') => contexts_ok st'
  end.
Proof.
  intros Hst.
  pose proof (track_contexts_ok (_cur_stage (heap st !!! wi)) fut wi st Hst)
    as Ht.
  pose proof (keeps_heap_track (_cur_stage (heap st !!! wi)) fut wi st) as Hh.
  destruct (_track_running_pipeline_work _ fut wi st) as [[[]|e|] st'];
    cbn [snd] in Hh; [|done..].
  unfold staged. by rewrite Hh.
Qed.

Lemma staged_contexts_ok (R : Z → Z → Prop) (wi : nat) (st : pl_state) :
  staged R wi st → contexts_ok st.
Proof. by intros [? _]. Qed.

Lemma idle_contexts_ok (wi : nat) (st : pl_state) :
  idle wi st → contexts_ok st.
Proof. by intros [? _]. Qed.

Lemma new_work_item_copy_staged (R : Z → Z → Prop) (wi : nat)
    (pc : option nat) (st0 : pl_state) :
  hoare (λ st, staged R wi st ∧ st = st0)
    (new_work_item (set_pipe_conn pc (heap st0 !!! wi)))
    (λ _, staged R wi) contexts_ok.
Proof.
  intros st [Hst ->].
  pose proof (keeps_view_new_work_item wi pc st0) as Hk.
  rewrite run_bind in Hk. unfold wi_get in Hk. st_simpl.
  destruct (new_work_item _ st0) as [[i|e|] st'] eqn:Hn; [|done..].
  cbn [snd] in Hk. unfold staged, contexts_ok, contexts_of in *.
  unfold stage_view, ctx_tables in Hk.
  injection Hk; intros E1 E2 E3. by rewrite E1, E2, E3.
Qed.

Lemma submit_to_stage_staged (stage : PipelineStage) (wi : nat)
    (pc : option nat) (second : bool) :
  hoare (staged Z.lt wi) (_submit_to_stage stage wi pc second)
    (λ _, staged Z.le wi) contexts_ok.
Proof.
  unfold _submit_to_stage, wi_get.
  apply hoare_bind_gets. intros st0.
  eapply hoare_bind; [apply new_work_item_copy_staged|]. intros copy.
  eapply hoare_bind with (R := λ _, staged Z.lt wi).
  - destruct (is_subprocess stage) as [e|[]]; [|destruct second|].
    + intros st Hst. by apply staged_contexts_ok in Hst.
    + eapply hoare_weaken_exc;
        [apply staged_keeps, keeps_view_submit|apply staged_contexts_ok].
    + eapply hoare_weaken_exc;
        [apply staged_keeps, keeps_view_submit|apply staged_contexts_ok].
    + eapply hoare_weaken_exc;
        [apply staged_keeps, keeps_view_submit|apply staged_contexts_ok].
  - intros fut st Hst. rewrite run_bind. st_simpl. rewrite run_bind.
    pose proof (track_staged fut wi st Hst) as Ht.
    by destruct (_track_running_pipeline_work _ fut wi st) as [[[]|e|] st'].
Qed.

(** The item moves one stage on. *)
Lemma increment_staged (wi : nat) :
  hoare (staged Z.le wi) (wi_update wi increment_stage)
    (λ _, staged Z.lt wi) contexts_ok.
Proof.
  intros st [Hok Hle]. unfold wi_update. st_simpl. split; [done|].
  unfold contexts_of in *. st_simpl. rewrite lookup_total_insert_eq.
  eapply Forall_impl; [exact Hle|]. cbn. intros c Hc.
  unfold increment_stage, set_cur_stage. cbn. lia.
Qed.

Lemma idle_staged (R : Z → Z → Prop) (wi : nat) (st : pl_state) :
  idle wi st → staged R wi st.
Proof. intros [Hok Hnil]. split; [done|]. rewrite Hnil. constructor. Qed.

Ltac idle_step lem :=
  eapply hoare_bind;
  [eapply hoare_weaken_exc; [apply idle_keeps, lem|apply idle_contexts_ok]|].

Ltac staged_step lem :=
  eapply hoare_bind;
  [eapply hoare_weaken_exc;
   [apply staged_keeps, lem|apply staged_contexts_ok]|].

Lemma keeps_tables_stage_at (i : Z) : keeps ctx_tables (stage_at i).
Proof. keeps_auto. Qed.

Lemma keeps_view_stage_at (wi : nat) (i : Z) :
  keeps (stage_view wi) (stage_at i).
Proof. keeps_auto. Qed.

Lemma keeps_tables_new_pipe : keeps ctx_tables new_pipe_connections.
Proof. keeps_auto. Qed.

Lemma end_if_failed_idle (wi : nat) :
  hoare (idle wi) (end_if_failed wi;; mret false)
    (λ b st, if b : bool then contexts_ok st else idle wi st) contexts_ok.
Proof.
  idle_step keeps_tables_end_if_failed. intros ?. by apply hoare_ret_pre.
Qed.

Lemma try_submit_to_stage_idle (wi : nat) :
  hoare (idle wi) (_try_submit_to_stage wi)
    (λ b st, if b : bool then contexts_ok st else idle wi st) contexts_ok.
Proof.
  unfold _try_submit_to_stage.
  idle_step (keeps_tables_is_stage wi None). intros [|]; cbn [negb].
  - unfold wi_get. apply hoare_bind_gets_any. intros w.
    idle_step (keeps_tables_stage_at (_cur_stage w)). intros stage.
    eapply hoare_bind with (R := λ _, staged Z.le wi).
    { eapply hoare_conseq; [apply submit_to_stage_staged| |done..].
      apply idle_staged. }
    intros fut.
    eapply hoare_bind; [apply increment_staged|]. intros ?.
    apply hoare_ret_pre. apply staged_contexts_ok.
  - apply end_if_failed_idle.
Qed.

Lemma try_submit_to_dual_idle (wi : nat) :
  hoare (idle wi) (_try_submit_to_dual_stage_with_pipe wi)
    (λ b st, if b : bool then contexts_ok st else idle wi st) contexts_ok.
Proof.
  unfold _try_submit_to_dual_stage_with_pipe, wi_get, num_stages.
  apply hoare_bind_gets_any. intros w.
  apply hoare_bind_gets_any. intros n.
  destruct (_cur_stage w =? n - 1).
  { intros st Hst. by apply idle_contexts_ok in Hst. }
  idle_step (keeps_tables_is_stage wi (Some (_cur_stage w))).
  intros [|]; cbn [negb]; [|apply end_if_failed_idle].
  apply hoare_bind_gets_any. intros w1.
  idle_step (keeps_tables_is_stage wi (Some (_cur_stage w1 + 1))).
  intros [|]; cbn [negb]; [|apply end_if_failed_idle].
  idle_step keeps_tables_new_pipe. intros [conn_r conn_w].
  apply hoare_bind_gets_any. intros w2.
  idle_step (keeps_tables_stage_at (_cur_stage w2)). intros stage1.
  eapply hoare_bind with (R := λ _, staged Z.le wi).
  { eapply hoare_conseq; [apply submit_to_stage_staged| |done..].
    apply idle_staged. }
  intros fut_w.
  eapply hoare_bind; [apply increment_staged|]. intros ?.
  apply hoare_bind_gets_any. intros w3.
  staged_step (keeps_view_stage_at wi (_cur_stage w3)). intros stage2.
  eapply hoare_bind; [apply submit_to_stage_staged|]. intros fut_r.
  eapply hoare_bind; [apply increment_staged|]. intros ?.
  eapply hoare_bind with (R := λ _, contexts_ok).
  { eapply hoare_conseq with (P := contexts_ok) (Q := λ _, contexts_ok);
      [|apply staged_contexts_ok|done..].
    apply contexts_ok_keeps. by apply keeps_modify. }
  intros ?.
  eapply hoare_bind; [apply contexts_ok_keeps; by apply keeps_modify|].
  intros ?. by apply hoare_ret_pre.
Qed.

Lemma keeps_tables_wi_update (wi : nat)
    (f : PipelineWorkItem → PipelineWorkItem) :
  keeps ctx_tables (wi_update wi f).
Proof. keeps_auto. Qed.

Lemma handle_stages_loop_contexts_ok (fuel : nat) (wi : nat) :
  hoare (idle wi) (handle_stages_loop fuel wi) (λ _, contexts_ok) contexts_ok.
Proof.
  induction fuel as [|fuel IH]; cbn [handle_stages_loop].
  { intros st Hst. by apply idle_contexts_ok in Hst. }
  unfold wi_get, num_stages.
  apply hoare_bind_gets_any. intros w.
  apply hoare_bind_gets_any. intros n.
  destruct (negb (_cur_stage w <? n)).
  { apply hoare_ret_pre. apply idle_contexts_ok. }
  idle_step (keeps_tables_stage_at (_cur_stage w)). intros stage.
  eapply hoare_bind with
    (R := λ b st, if b : bool then contexts_ok st else idle wi st).
  { destruct (is_pipe_with_next_stage stage);
      [apply try_submit_to_dual_idle|apply try_submit_to_stage_idle]. }
  intros [|]; [by apply hoare_ret_pre|].
  apply hoare_bind_gets_any. intros w'.
  destruct (is_failed w').
  { apply hoare_ret_pre. apply idle_contexts_ok. }
  idle_step (keeps_tables_wi_update wi increment_stage). intros ?.
  apply IH.
Qed.

Lemma handle_stages_for_wi_contexts_ok (wi : nat) :
  hoare (idle wi) (_handle_stages_for_wi wi) (λ _, contexts_ok) contexts_ok.
Proof.
  unfold _handle_stages_for_wi, wi_get, num_stages.
  apply hoare_bind_gets_any. intros w.
  apply hoare_bind_gets_any. intros n.
  destruct ((_cur_stage w <? 0) || (n <? _cur_stage w)).
  - eapply hoare_conseq with (P := contexts_ok) (Q := λ _, contexts_ok);
      [|apply idle_contexts_ok|done..].
    apply contexts_ok_keeps.
    apply keeps_bind; [apply keeps_tables_wi_update|]. intros ?.
    apply keeps_bind; [apply keeps_tables_wi_update|]. intros ?.
    apply keeps_tables_set_wi_to_finished.
  - eapply hoare_bind; [apply handle_stages_loop_contexts_ok|]. intros ?.
    apply contexts_ok_keeps.
    apply keeps_bind; [apply keeps_gets|]. intros running.
    apply keeps_bind; [apply keeps_gets|]. intros w'.
    apply keeps_when, keeps_tables_set_wi_to_finished.
Qed.

Lemma not_running_idle (wi : nat) (st : pl_state) :
  contexts_ok st →
  match dict_get wi (_running_wi_contexts st) with
  | None => false
  | Some wi_contexts => if wi_contexts is [] then false else true
  end = false →
  idle wi st.
Proof.
  intros Hok Hrun. split; [done|]. unfold contexts_of.
  by destruct (dict_get wi (_running_wi_contexts st)) as [[|c l]|].
Qed.

Lemma attend_contexts_ok (wi : nat) :
  hoare contexts_ok (attend wi) (λ _, contexts_ok) contexts_ok.
Proof.
  unfold attend, _is_wi_still_running.
  apply hoare_bind_gets. intros st0.
  destruct (match dict_get wi (_running_wi_contexts st0) with
            | None => false
            | Some wi_contexts => if wi_contexts is [] then false else true
            end) eqn:Hrun.
  { apply hoare_ret_pre. by intros st [? _]. }
  eapply hoare_conseq with (P := idle wi) (Q := λ _, contexts_ok);
    [|intros st [Hok ->]; by apply not_running_idle|done..].
  unfold wi_get. apply hoare_bind_gets_any. intros w.
  destruct (is_failed w).
  - eapply hoare_conseq with (P := contexts_ok) (Q := λ _, contexts_ok);
      [|apply idle_contexts_ok|done..].
    apply contexts_ok_keeps, keeps_tables_set_wi_to_finished.
  - apply handle_stages_for_wi_contexts_ok.
Qed.

Lemma for_each_attend_contexts_ok (l : list nat) :
  hoare contexts_ok (for_each l attend) (λ _, contexts_ok) contexts_ok.
Proof.
  induction l as [|wi l IH]; cbn [for_each].
  - by apply hoare_ret_pre.
  - eapply hoare_bind; [apply attend_contexts_ok|]. intros ?. apply IH.
Qed.

Lemma pl_worker_iteration_contexts_ok :
  hoare contexts_ok pl_worker_iteration (λ _, contexts_ok) contexts_ok.
Proof.
  unfold pl_worker_iteration.
  apply hoare_bind_gets_any. intros pc.
  eapply hoare_bind; [apply contexts_ok_keeps, keeps_tables_collect|].
  intros [[|f done_futs] pending_futs].
  - eapply hoare_bind; [apply contexts_ok_keeps; by apply keeps_modify|].
    intros ? st Hst. exact Hst.
  - eapply hoare_bind; [apply contexts_ok_keeps; by apply keeps_modify|].
    intros ?.
    eapply hoare_bind; [apply handle_done_futs_contexts_ok|].
    intros [attention [|]]; [by apply hoare_ret_pre|].
    eapply hoare_bind; [apply for_each_attend_contexts_ok|]. intros ?.
    by apply hoare_ret_pre.
Qed.

Lemma pl_worker_loop_contexts_ok (fuel : nat) :
  hoare contexts_ok (pl_worker_loop fuel) (λ _, contexts_ok) contexts_ok.
Proof.
  induction fuel as [|fuel IH]; cbn [pl_worker_loop].
  - by intros st Hst.
  - eapply hoare_bind; [apply pl_worker_iteration_contexts_ok|].
    intros [|]; [by apply hoare_ret_pre|apply IH].
Qed.

Lemma hoare_try_except {A} (P : pl_state → Prop) (m : PL A)
    (h : exc → PL A) (Q : A → pl_state → Prop) (E : pl_state → Prop) :
  hoare P m Q E → (∀ e, hoare E (h e) Q E) → hoare P (try_except m h) Q E.
Proof.
  intros Hm Hh st HP. unfold try_except. specialize (Hm st HP).
  destruct (m st) as [[a|e|] st']; [done| |done]. by apply Hh.
Qed.

Lemma pl_worker_contexts_ok (fuel : nat) :
  hoare contexts_ok (_pl_worker fuel) (λ _, contexts_ok) contexts_ok.
Proof.
  unfold _pl_worker.
  eapply hoare_bind with (R := λ _, contexts_ok).
  - apply hoare_try_except; [apply pl_worker_loop_contexts_ok|]. intros e.
    apply contexts_ok_keeps.
    apply keeps_bind; [apply keeps_tables_fail_all_pending|]. intros ?.
    apply keeps_raise.
  - intros ?. apply contexts_ok_keeps. by apply keeps_modify.
Qed.

Lemma run_pl_worker_contexts_ok (fuel : nat) (st : pl_state) :
  contexts_ok st → contexts_ok (run_pl_worker fuel st).
Proof.
  intros Hok. unfold run_pl_worker.
  pose proof (pl_worker_contexts_ok fuel st Hok) as Hw.
  destruct (pl_worker_pc st), (_pl_worker_future st) as [f|]; try done;
    by destruct (_pl_worker fuel st) as [[a|e|] st'].
Qed.

Lemma shutdown_contexts_ok (fuel : nat) :
  hoare contexts_ok (shutdown fuel) (λ _, contexts_ok) contexts_ok.
Proof.
  unfold shutdown.
  apply hoare_bind_gets_any. intros [f|]; [|by apply hoare_ret_pre].
  apply hoare_bind_gets_any. intros [|x tracked]; [|by intros st Hst].
  eapply hoare_bind;
    [apply contexts_ok_keeps, keeps_tables_internal_submit|]. intros ?.
  eapply hoare_bind with (R := λ _, contexts_ok).
  { intros st Hst. st_simpl. by apply run_pl_worker_contexts_ok. }
  intros ?. apply contexts_ok_keeps. keeps_auto.
Qed.

(** The tables of the controller are well formed in every state the
    pipeline reaches. *)
Lemma reachable_contexts_ok (st : pl_state) : reachable st → contexts_ok st.
Proof.
  assert (∀ {A} (m : PL A) s,
            hoare contexts_ok m (λ _, contexts_ok) contexts_ok →
            contexts_ok s → contexts_ok (exec m s)) as Hexec.
  { intros A m s Hm Hs. specialize (Hm s Hs). unfold exec.
    by destruct (m s) as [[a|e|] s']. }
  induction 1 as [stages n|st stage _ IH|st w _ IH|st wi _ IH|st fuel _ IH
                  |st fut ex _ IH|st fut w _ IH|st fut v _ IH|st fuel _ IH].
  - unfold contexts_ok, ctx_ok. cbn. split_and!; try constructor.
    + intros w ctxs c Hin. by apply elem_of_nil in Hin.
    + intros w ctxs Hin. by apply elem_of_nil in Hin.
  - apply Hexec; [|done]. apply contexts_ok_keeps. by apply keeps_modify.
  - apply Hexec; [|done]. apply contexts_ok_keeps. keeps_auto.
  - apply Hexec; [|done]. apply contexts_ok_keeps, keeps_tables_submit_item.
  - apply Hexec; [|done]. apply shutdown_contexts_ok.
  - exact IH.
  - exact IH.
  - exact IH.
  - by apply run_pl_worker_contexts_ok.
Qed.

Lemma exec_new_work_item_bind {A} (w : PipelineWorkItem) (k : nat → PL A)
    (st : pl_state) :
  exec (new_work_item w ≫= k) st
    = exec (k (fresh (dom (heap st)))) (exec (new_work_item w) st).
Proof. unfold exec. by rewrite run_bind. Qed.

Lemma submitted_reachable (stages : list PipelineStage) :
  reachable (submitted stages).
Proof.
  unfold submitted. rewrite exec_new_work_item_bind.
  apply reach_submit, reach_new_work_item, reach_init.
Qed.

Lemma started_reachable (stages : list PipelineStage) :
  reachable (started stages).
Proof. apply reach_controller, submitted_reachable. Qed.

(** C6: in every state the pipeline reaches, a work item that has a
    pending execution contributes none of its handles to the settled list
    of [_get_all_wi_futs], whichever of its handles are done; when all its
    handles are done they are all returned, together and in the order of
    its contexts, whose stage indices increase strictly. *)
Theorem item_settles_only_when_all_done (st : pl_state) (wi : nat)
    (ctxs : list _WorkItemStageRunCtx) :
  reachable st →
  (wi, ctxs) ∈ _running_wi_contexts st →
  ∃ done_futs pending_futs,
    eval _get_all_wi_futs st = Returns (done_futs, pending_futs) ∧
    (Exists (λ c, fut_is_done st (ctx_fut c) = false) ctxs →
     Forall (λ c, ctx_fut c ∉ done_futs) ctxs) ∧
    (Forall (λ c, fut_is_done st (ctx_fut c) = true) ctxs →
     (∃ pre post, done_futs = pre ++ (ctx_fut <$> ctxs) ++ post) ∧
     StronglySorted stage_lt ctxs).
Proof.
  intros (_ & _ & Hnd & Hsorted)%reachable_contexts_ok Hin.
  destruct (get_all_wi_futs_of_item st wi ctxs Hin Hnd)
    as (done_futs & pending_futs & Hev & Hnone & Hall).
  exists done_futs, pending_futs. split_and!; [done..|].
  intros Hdone. split; [by apply Hall|]. by eapply Hsorted.
Qed.

Lemma item_settles_only_when_all_done_witness :
  (0%nat, S4_contexts) ∈ _running_wi_contexts S4_upstream_done ∧
  Exists (λ c, fut_is_done S4_upstream_done (ctx_fut c) = false)
    S4_contexts ∧
  ∃ done_futs pending_futs,
    eval _get_all_wi_futs S4_upstream_done
      = Returns (done_futs, pending_futs) ∧
    Forall (λ c, ctx_fut c ∉ done_futs) S4_contexts.
Proof.
  assert (_running_wi_contexts S4_upstream_done = [(0%nat, S4_contexts)])
    as Hrun by (vm_compute; reflexivity).
  assert (Exists (λ c, fut_is_done S4_upstream_done (ctx_fut c) = false)
            S4_contexts) as Hex.
  { apply Exists_cons_tl, Exists_cons_hd. vm_compute; reflexivity. }
  split; [rewrite Hrun; by left|]. split; [exact Hex|].
  destruct (item_settles_only_when_all_done S4_upstream_done 0 S4_contexts)
    as (done_futs & pending_futs & Hev & Hnone & _).
  - apply reach_worker_returns_item, started_reachable.
  - rewrite Hrun. by left.
  - exists done_futs, pending_futs. auto.
Defined.

(** *** The table of pipe connections *)

Lemma conn_ok_pair (r w fr fw : nat) (t : gmap nat nat)
    (cl : gmap nat bool) :
  pair_fresh r w t cl → conn_ok (<[fr:=r]> (<[fw:=w]> t)) cl.
Proof.
  intros ((Hex & Hinj) & Hne & Hr & Hw & Hnr & Hnw). split.
  - intros f c. rewrite !lookup_insert_Some.
    intros [[-> <-]|[_ [[-> <-]|[_ Hf]]]]; [done..|]. by eapply Hex.
  - intros f f' c. rewrite !lookup_insert_Some.
    intros [[-> <-]|[? [[-> <-]|[? H1]]]] [[-> H2]|[? [[-> H2]|[? H2]]]];
      try done; try congruence;
      try (by destruct (Hnr _ H1)); try (by destruct (Hnr _ H2));
      try (by destruct (Hnw _ H1)); try (by destruct (Hnw _ H2)).
    by eapply Hinj.
Qed.

Lemma conn_ok_new_pair (t : gmap nat nat) (cl : gmap nat bool) :
  conn_ok t cl →
  pair_fresh (fresh (dom cl)) (fresh ({[fresh (dom cl)]} ∪ dom cl)) t
    (<[fresh ({[fresh (dom cl)]} ∪ dom cl):=false]>
       (<[fresh (dom cl):=false]> cl)).
Proof.
  intros [Hex Hinj].
  pose proof (is_fresh (dom cl)) as Hr.
  pose proof (is_fresh ({[fresh (dom cl)]} ∪ dom cl)) as Hw.
  set (r := fresh (dom cl)) in *.
  set (w := fresh ({[r]} ∪ dom cl)) in *.
  assert (r ≠ w) as Hne by set_solver.
  split_and!.
  - split; [|done]. intros f c Hf. apply Hex in Hf.
    rewrite !lookup_insert_is_Some'. auto.
  - done.
  - rewrite !lookup_insert_is_Some'. auto.
  - rewrite !lookup_insert_is_Some'. auto.
  - intros f Hf. apply Hex, elem_of_dom in Hf. done.
  - intros f Hf. apply Hex, elem_of_dom in Hf. set_solver.
Qed.

Lemma conn_ok_closed (t : gmap nat nat) (cl : gmap nat bool) (f c : nat) :
  conn_ok t cl → conn_ok (delete f t) (<[c:=true]> cl).
Proof.
  intros [Hex Hinj]. split.
  - intros f' c' [_ Hf]%lookup_delete_Some. apply Hex in Hf.
    rewrite lookup_insert_is_Some'. auto.
  - intros f1 f2 c' [_ H1]%lookup_delete_Some [_ H2]%lookup_delete_Some.
    by eapply Hinj.
Qed.

Lemma conns_ok_keeps {A} (m : PL A) :
  keeps conn_view m → hoare conns_ok m (λ _, conns_ok) conns_ok.
Proof.
  intros Hk. apply (hoare_keeps conn_view (λ p, conn_ok p.1 p.2) m Hk).
Qed.

Lemma cleanup_conns_ok (fut : nat) :
  hoare conns_ok (_cleanup_pipe_connections fut) (λ _, conns_ok) conns_ok.
Proof.
  intros st Hok. unfold _cleanup_pipe_connections. run.
  destruct (_fut_to_pipe_conn st !! fut) as [c|]; [|done].
  unfold conn_close. run. unfold conns_ok. st_simpl.
  by apply conn_ok_closed.
Qed.

Lemma new_pipe_conns_ok :
  hoare conns_ok new_pipe_connections
    (λ '(r, w) st, pair_fresh r w (_fut_to_pipe_conn st) (conn_closed st))
    conns_ok.
Proof.
  intros st Hok. unfold new_pipe_connections. st_simpl.
  by apply conn_ok_new_pair.
Qed.

Lemma keeps_conns_submit (p : pool) (t : task) :
  keeps conn_view (Executor_submit p t).
Proof. keeps_auto. Qed.

Lemma keeps_conns_wi_update (wi : nat)
    (f : PipelineWorkItem → PipelineWorkItem) :
  keeps conn_view (wi_update wi f).
Proof. keeps_auto. Qed.

Lemma keeps_conns_stage_at (i : Z) : keeps conn_view (stage_at i).
Proof. keeps_auto. Qed.

Lemma keeps_conns_is_stage (wi : nat) (stage_num : option Z) :
  keeps conn_view (_is_stage_for_work_item wi stage_num).
Proof. keeps_auto. Qed.

Lemma keeps_conns_end_if_failed (wi : nat) :
  keeps conn_view (end_if_failed wi).
Proof. keeps_auto. Qed.

Lemma keeps_conns_set_wi_to_finished (wi : nat) :
  keeps conn_view (_set_wi_to_finished wi).
Proof. keeps_auto. Qed.

Lemma keeps_conns_stage_complete (self : nat) (n : Z) (wi : nat)
    (ex : option exc) :
  keeps conn_view (stage_complete self n wi ex).
Proof. keeps_auto. Qed.

Lemma keeps_conns_get_queued_wi : keeps conn_view _get_queued_wi.
Proof. keeps_auto. Qed.

Lemma keeps_conns_renew : keeps conn_view _renew_input_queue_future.
Proof. keeps_auto. Qed.

Lemma keeps_conns_start : keeps conn_view _start.
Proof. keeps_auto. Qed.

Lemma keeps_conns_track (cs : Z) (fut wi : nat) :
  keeps conn_view (_track_running_pipeline_work cs fut wi).
Proof. unfold _track_running_pipeline_work. keeps_tac. Qed.

Lemma keeps_conns_get_completed (fut : nat) :
  keeps conn_view (_get_completed_work_item_info fut).
Proof. unfold _get_completed_work_item_info. keeps_auto. Qed.

Lemma keeps_conns_submit_to_stage (stage : PipelineStage) (wi : nat)
    (pc : option nat) (second : bool) :
  keeps conn_view (_submit_to_stage stage wi pc second).
Proof.
  unfold _submit_to_stage.
  apply keeps_bind; [keeps_auto|]. intros w.
  apply keeps_bind; [keeps_auto|]. intros copy.
  apply keeps_bind.
  { destruct (is_subprocess stage) as [e|[]]; [done|destruct second|];
      apply keeps_conns_submit. }
  intros fut. apply keeps_bind; [keeps_auto|]. intros w'.
  apply keeps_bind; [apply keeps_conns_track|by intros ?].
Qed.

Lemma keeps_conns_try_submit_to_stage (wi : nat) :
  keeps conn_view (_try_submit_to_stage wi).
Proof.
  unfold _try_submit_to_stage.
  apply keeps_bind; [apply keeps_conns_is_stage|]. intros [|]; cbn [negb].
  - apply keeps_bind; [keeps_auto|]. intros w.
    apply keeps_bind; [apply keeps_conns_stage_at|]. intros stage.
    apply keeps_bind; [apply keeps_conns_submit_to_stage|]. intros fut.
    apply keeps_bind; [apply keeps_conns_wi_update|by intros ?].
  - apply keeps_bind; [apply keeps_conns_end_if_failed|by intros ?].
Qed.

Lemma keeps_conns_handle_completed_fut (done_fut : nat) :
  keeps conn_view (_handle_completed_fut done_fut).
Proof.
  unfold _handle_completed_fut.
  apply keeps_bind; [done|]. intros [w|].
  - apply keeps_bind; [apply keeps_conns_get_completed|]. intros [wi ctx].
    apply keeps_bind; [keeps_auto|]. intros ex.
    apply keeps_bind; [|by intros ?]. destruct ex as [e|].
    + apply keeps_conns_stage_complete.
    + apply keeps_bind; [keeps_auto|]. intros [r|v];
        apply keeps_conns_stage_complete.
  - apply keeps_bind; [done|]. intros iq. case_bool_decide.
    + apply keeps_conns_get_queued_wi.
    + apply keeps_bind; [by apply keeps_modify|]. intros ?.
      apply keeps_conns_get_queued_wi.
Qed.

Lemma keeps_conns_handle_done_futs (done_futs attention : list nat)
    (is_shutdown : bool) :
  keeps conn_view (handle_done_futs done_futs attention is_shutdown).
Proof.
  revert attention is_shutdown.
  induction done_futs as [|f done_futs IH]; intros attention is_shutdown;
    cbn [handle_done_futs]; [done|].
  apply keeps_bind; [apply keeps_conns_handle_completed_fut|].
  intros [wi is_sd]. apply IH.
Qed.

Lemma keeps_conns_fail_all_pending (ex : exc) :
  keeps conn_view (_fail_all_pending ex).
Proof.
  unfold _fail_all_pending. apply keeps_bind; [done|]. intros items.
  induction items as [|[wi f] items IH]; cbn [fail_all_pending_items]; [done|].
  apply keeps_bind; [done|]. intros [|]; [done|].
  destruct wi; [|done].
  apply keeps_bind; [done|]. intros ?.
  apply keeps_bind; [keeps_auto | by intros ?].
Qed.

Lemma keeps_conns_internal_submit (wi : option nat) :
  keeps conn_view (_internal_submit wi).
Proof.
  unfold _internal_submit.
  apply keeps_bind; [apply keeps_conns_start|]. intros ?. keeps_auto.
Qed.

Lemma keeps_conns_submit_item (wi : option nat) :
  keeps conn_view (submit wi).
Proof.
  unfold submit. destruct wi; [|done].
  apply keeps_bind; [done|]. intros [|]; [done|].
  apply keeps_conns_internal_submit.
Qed.

Lemma hoare_for_each {A} (P : pl_state → Prop) (l : list A)
    (body : A → PL unit) :
  (∀ x, hoare P (body x) (λ _, P) P) → hoare P (for_each l body) (λ _, P) P.
Proof.
  intros Hb. induction l as [|x l IH]; cbn [for_each].
  - by apply hoare_ret_pre.
  - eapply hoare_bind; [apply Hb|]. intros ?. apply IH.
Qed.

Lemma get_all_wi_futs_conns_ok :
  hoare conns_ok _get_all_wi_futs (λ _, conns_ok) conns_ok.
Proof.
  unfold _get_all_wi_futs. apply hoare_bind_gets_any. intros values.
  generalize (@nil nat) at 1. generalize (@nil nat).
  induction values as [|ctxs values IH]; intros p d;
    cbn [get_all_wi_futs_loop]; [by apply hoare_ret_pre|].
  apply hoare_bind_gets_any. intros ctx_done_futs.
  eapply hoare_bind; [apply hoare_for_each, cleanup_conns_ok|]. intros ?.
  destruct (List.filter _ _); apply IH.
Qed.

Lemma collect_conns_ok (renew : bool) :
  hoare conns_ok (collect_done_futs renew) (λ _, conns_ok) conns_ok.
Proof.
  unfold collect_done_futs.
  eapply hoare_bind; [apply get_all_wi_futs_conns_ok|]. intros [d p].
  apply conns_ok_keeps.
  apply keeps_bind; [apply keeps_when, keeps_conns_renew|]. intros ?.
  keeps_auto.
Qed.

Ltac conns_step lem :=
  eapply hoare_bind; [apply conns_ok_keeps, lem|].

Lemma pair_fresh_conns_ok (r w : nat) (st : pl_state) :
  pair_fresh r w (_fut_to_pipe_conn st) (conn_closed st) → conns_ok st.
Proof. by intros [? _]. Qed.

Ltac pair_step r w lem :=
  eapply hoare_bind;
  [eapply hoare_weaken_exc;
   [apply (hoare_keeps conn_view (λ p, pair_fresh r w p.1 p.2)), lem
   |apply pair_fresh_conns_ok]|].

Lemma try_submit_to_dual_conns_ok (wi : nat) :
  hoare conns_ok (_try_submit_to_dual_stage_with_pipe wi)
    (λ _, conns_ok) conns_ok.
Proof.
  unfold _try_submit_to_dual_stage_with_pipe, wi_get, num_stages.
  apply hoare_bind_gets_any. intros w.
  apply hoare_bind_gets_any. intros n.
  destruct (_cur_stage w =? n - 1); [by intros st Hst|].
  conns_step (keeps_conns_is_stage wi (Some (_cur_stage w))).
  intros [|]; cbn [negb].
  2:{ conns_step keeps_conns_end_if_failed. intros ?. by apply hoare_ret_pre. }
  apply hoare_bind_gets_any. intros w1.
  conns_step (keeps_conns_is_stage wi (Some (_cur_stage w1 + 1))).
  intros [|]; cbn [negb].
  2:{ conns_step keeps_conns_end_if_failed. intros ?. by apply hoare_ret_pre. }
  eapply hoare_bind; [apply new_pipe_conns_ok|]. intros [conn_r conn_w].
  eapply hoare_conseq with
    (P := λ st, pair_fresh conn_r conn_w (_fut_to_pipe_conn st)
                  (conn_closed st))
    (Q := λ _, conns_ok) (E := conns_ok); [|done..].
  eapply hoare_bind with
    (R := λ _ st, pair_fresh conn_r conn_w (_fut_to_pipe_conn st)
                    (conn_closed st)).
  { intros st Hst. exact Hst. }
  intros w2.
  pair_step conn_r conn_w (keeps_conns_stage_at (_cur_stage w2)).
  intros stage1.
  pair_step conn_r conn_w
    (keeps_conns_submit_to_stage stage1 wi (Some conn_w) false).
  intros fut_w.
  pair_step conn_r conn_w (keeps_conns_wi_update wi increment_stage).
  intros ?.
  eapply hoare_bind with
    (R := λ _ st, pair_fresh conn_r conn_w (_fut_to_pipe_conn st)
                    (conn_closed st)).
  { intros st Hst. exact Hst. }
  intros w3.
  pair_step conn_r conn_w (keeps_conns_stage_at (_cur_stage w3)).
  intros stage2.
  pair_step conn_r conn_w
    (keeps_conns_submit_to_stage stage2 wi (Some conn_r) true).
  intros fut_r.
  pair_step conn_r conn_w (keeps_conns_wi_update wi increment_stage).
  intros ? st Hst. rewrite run_bind. st_simpl. rewrite run_bind. st_simpl.
  unfold conns_ok. st_simpl. by apply conn_ok_pair.
Qed.

Lemma handle_stages_loop_conns_ok (fuel : nat) (wi : nat) :
  hoare conns_ok (handle_stages_loop fuel wi) (λ _, conns_ok) conns_ok.
Proof.
  induction fuel as [|fuel IH]; cbn [handle_stages_loop]; [by intros st Hst|].
  unfold wi_get, num_stages.
  apply hoare_bind_gets_any. intros w.
  apply hoare_bind_gets_any. intros n.
  destruct (negb (_cur_stage w <? n)); [by apply hoare_ret_pre|].
  conns_step (keeps_conns_stage_at (_cur_stage w)). intros stage.
  eapply hoare_bind with (R := λ _, conns_ok).
  { destruct (is_pipe_with_next_stage stage);
      [apply try_submit_to_dual_conns_ok
      |apply conns_ok_keeps, keeps_conns_try_submit_to_stage]. }
  intros [|]; [by apply hoare_ret_pre|].
  apply hoare_bind_gets_any. intros w'.
  destruct (is_failed w'); [by apply hoare_ret_pre|].
  conns_step (keeps_conns_wi_update wi increment_stage). intros ?.
  apply IH.
Qed.

Lemma handle_stages_for_wi_conns_ok (wi : nat) :
  hoare conns_ok (_handle_stages_for_wi wi) (λ _, conns_ok) conns_ok.
Proof.
  unfold _handle_stages_for_wi, wi_get, num_stages.
  apply hoare_bind_gets_any. intros w.
  apply hoare_bind_gets_any. intros n.
  destruct ((_cur_stage w <? 0) || (n <? _cur_stage w)).
  - apply conns_ok_keeps.
    apply keeps_bind; [apply keeps_conns_wi_update|]. intros ?.
    apply keeps_bind; [apply keeps_conns_wi_update|]. intros ?.
    apply keeps_conns_set_wi_to_finished.
  - eapply hoare_bind; [apply handle_stages_loop_conns_ok|]. intros ?.
    apply conns_ok_keeps.
    apply keeps_bind; [apply keeps_gets|]. intros running.
    apply keeps_bind; [apply keeps_gets|]. intros w'.
    apply keeps_when, keeps_conns_set_wi_to_finished.
Qed.

Lemma attend_conns_ok (wi : nat) :
  hoare conns_ok (attend wi) (λ _, conns_ok) conns_ok.
Proof.
  unfold attend, _is_wi_still_running, wi_get.
  apply hoare_bind_gets_any. intros [|]; [by apply hoare_ret_pre|].
  apply hoare_bind_gets_any. intros w.
  destruct (is_failed w).
  - apply conns_ok_keeps, keeps_conns_set_wi_to_finished.
  - apply handle_stages_for_wi_conns_ok.
Qed.

Lemma pl_worker_iteration_conns_ok :
  hoare conns_ok pl_worker_iteration (λ _, conns_ok) conns_ok.
Proof.
  unfold pl_worker_iteration.
  apply hoare_bind_gets_any. intros pc.
  eapply hoare_bind; [apply collect_conns_ok|].
  intros [[|f done_futs] pending_futs].
  - conns_step (keeps_modify conn_view (upd_pl_worker_pc (λ _, PcWaiting))).
    { done. }
    intros ? st Hst. exact Hst.
  - conns_step (keeps_modify conn_view (upd_pl_worker_pc (λ _, PcTop))).
    { done. }
    intros ?.
    conns_step (keeps_conns_handle_done_futs (f :: done_futs) [] false).
    intros [attention [|]]; [by apply hoare_ret_pre|].
    eapply hoare_bind; [apply hoare_for_each, attend_conns_ok|]. intros ?.
    by apply hoare_ret_pre.
Qed.

Lemma pl_worker_loop_conns_ok (fuel : nat) :
  hoare conns_ok (pl_worker_loop fuel) (λ _, conns_ok) conns_ok.
Proof.
  induction fuel as [|fuel IH]; cbn [pl_worker_loop].
  - by intros st Hst.
  - eapply hoare_bind; [apply pl_worker_iteration_conns_ok|].
    intros [|]; [by apply hoare_ret_pre|apply IH].
Qed.

Lemma pl_worker_conns_ok (fuel : nat) :
  hoare conns_ok (_pl_worker fuel) (λ _, conns_ok) conns_ok.
Proof.
  unfold _pl_worker.
  eapply hoare_bind with (R := λ _, conns_ok).
  - apply hoare_try_except; [apply pl_worker_loop_conns_ok|]. intros e.
    apply conns_ok_keeps.
    apply keeps_bind; [apply keeps_conns_fail_all_pending|]. intros ?.
    apply keeps_raise.
  - intros ?. apply conns_ok_keeps. by apply keeps_modify.
Qed.

Lemma run_pl_worker_conns_ok (fuel : nat) (st : pl_state) :
  conns_ok st → conns_ok (run_pl_worker fuel st).
Proof.
  intros Hok. unfold run_pl_worker.
  pose proof (pl_worker_conns_ok fuel st Hok) as Hw.
  destruct (pl_worker_pc st), (_pl_worker_future st) as [f|]; try done;
    by destruct (_pl_worker fuel st) as [[a|e|] st'].
Qed.

Lemma shutdown_conns_ok (fuel : nat) :
  hoare conns_ok (shutdown fuel) (λ _, conns_ok) conns_ok.
Proof.
  unfold shutdown.
  apply hoare_bind_gets_any. intros [f|]; [|by apply hoare_ret_pre].
  apply hoare_bind_gets_any. intros [|x tracked]; [|by intros st Hst].
  conns_step (keeps_conns_internal_submit None). intros ?.
  eapply hoare_bind with (R := λ _, conns_ok).
  { intros st Hst. st_simpl. by apply run_pl_worker_conns_ok. }
  intros ?. apply conns_ok_keeps. keeps_auto.
Qed.

(** The table of pipe connections is well formed in every state the
    pipeline reaches. *)
Lemma reachable_conns_ok (st : pl_state) : reachable st → conns_ok st.
Proof.
  assert (∀ {A} (m : PL A) s,
            hoare conns_ok m (λ _, conns_ok) conns_ok →
            conns_ok s → conns_ok (exec m s)) as Hexec.
  { intros A m s Hm Hs. specialize (Hm s Hs). unfold exec.
    by destruct (m s) as [[a|e|] s']. }
  induction 1 as [stages n|st stage _ IH|st w _ IH|st wi _ IH|st fuel _ IH
                  |st fut ex _ IH|st fut w _ IH|st fut v _ IH|st fuel _ IH].
  - split; cbn; intros ??; by rewrite lookup_empty.
  - apply Hexec; [|done]. apply conns_ok_keeps. by apply keeps_modify.
  - apply Hexec; [|done]. apply conns_ok_keeps. keeps_auto.
  - apply Hexec; [|done]. apply conns_ok_keeps, keeps_conns_submit_item.
  - apply Hexec; [|done]. apply shutdown_conns_ok.
  - exact IH.
  - exact IH.
  - exact IH.
  - by apply run_pl_worker_conns_ok.
Qed.

(** C4 (amended): in every state the pipeline reaches, the controller
    closes the endpoint recorded for a handle in the pass of
    [_get_all_wi_futs] that first finds this handle done, whether or not
    the partner handle of the paired run is still pending: the endpoint is
    closed exactly once in that pass and its entry leaves the table; as
    long as the handle is pending, or once no entry names the endpoint, a
    pass does not close it. *)
Theorem endpoint_closed_once_own_handle_done (st : pl_state) (f c : nat) :
  reachable st →
  _fut_to_pipe_conn st !! f = Some c →
  ∃ closes,
    eval _get_all_wi_futs st ≠ Blocks ∧
    conn_close_calls (exec _get_all_wi_futs st)
      = conn_close_calls st ++ closes ∧
    (∀ c', (∀ f', _fut_to_pipe_conn st !! f' ≠ Some c') → c' ∉ closes) ∧
    if bool_decide (f ∈ tracked_futs st) && fut_is_done st f
    then (∃ l1 l2, closes = l1 ++ (c :: l2) ∧ (c ∉ l1) ∧ c ∉ l2) ∧
         conn_closed (exec _get_all_wi_futs st) !! c = Some true ∧
         ∀ f', _fut_to_pipe_conn (exec _get_all_wi_futs st) !! f' ≠ Some c
    else (c ∉ closes) ∧
         _fut_to_pipe_conn (exec _get_all_wi_futs st) !! f = Some c.
Proof.
  intros [_ Hinj]%reachable_conns_ok Hf.
  apply get_all_wi_futs_closes; [done|].
  intros f' Hf'. by eapply Hinj.
Qed.

Lemma endpoint_closed_once_own_handle_done_witness :
  _fut_to_pipe_conn S4_upstream_done !! 3%nat = Some 1%nat ∧
  fut_is_done S4_upstream_done 3 = true ∧
  fut_is_done S4_upstream_done 4 = false ∧
  ∃ closes,
    conn_close_calls (exec _get_all_wi_futs S4_upstream_done)
      = conn_close_calls S4_upstream_done ++ closes ∧
    ∃ l1 l2, closes = l1 ++ (1%nat :: l2) ∧ (1%nat ∉ l1) ∧ 1%nat ∉ l2.
Proof.
  split; [vm_compute; reflexivity|]. split; [vm_compute; reflexivity|].
  split; [vm_compute; reflexivity|].
  destruct (endpoint_closed_once_own_handle_done S4_upstream_done 3 1)
    as (closes & _ & Hc & _ & Hif).
  - apply reach_worker_returns_item, started_reachable.
  - vm_compute; reflexivity.
  - exists closes. split; [exact Hc|].
    replace (bool_decide (3%nat ∈ tracked_futs S4_upstream_done)
             && fut_is_done S4_upstream_done 3)
      with true in Hif by (vm_compute; reflexivity).
    apply Hif.
Defined.
End ControllerFacts.

(** * Further facts *)

Module ChannelLaws.
Import PipeConnectionIO ChannelUse ChannelFacts.

Ltac chan_unfold :=
  unfold read, write, write_eof, _write, _validate_write_buf, send_message,
    recv_message, close, closed, tell, num_bytes, eof, on_conn, on_self,
    reset_num_bytes, Connection_send, Connection_recv, Connection_close in *;
  munfold.

(** One [write] of a non-empty buffer on a producer. *)
Lemma write_run (w : t) (p : Pipe) (buf : pyval) :
  is_write w = true → c w = WriteEnd → _eof w = false →
  r_closed p = false → w_closed p = false →
  is_bytes_like buf = true → py_len buf ≠ 0 →
  write buf {| self := w; pipe := p |}
    = (Returns (py_len buf),
       {| self := set_num_bytes (_num_bytes w + py_len buf) w;
          pipe := {| in_flight := in_flight p ++ [data_frame buf];
                     r_closed := r_closed p; w_closed := w_closed p;
                     r_fileno := r_fileno p; w_fileno := w_fileno p |} |}).
Proof.
  destruct w as [ce iw nb fd e], p as [q rc wc rf wf]. cbn.
  intros -> -> -> -> -> Hb Hl.
  chan_unfold. unfold PipeConnectionMessage_init.
  destruct buf; try discriminate; cbn in *;
    (destruct (Z.of_nat (length b) =? 0) eqn:Hz;
     [apply Z.eqb_eq in Hz; lia|]); cbn;
    (destruct (Z.of_nat (length b) =? -1) eqn:Hm;
     [apply Z.eqb_eq in Hm; lia|]); reflexivity.
Qed.

(** What [read] does with the object at the head of the pipe. *)
Lemma read_head (r : t) (p : Pipe) (o : wire_obj) (rest : list wire_obj) :
  is_write r = false → c r = ReadEnd → _eof r = false →
  r_closed p = false → in_flight p = o :: rest →
  read PyNone {| self := r; pipe := p |}
    = (match o with
       | WMessage m =>
           if is_data_frame o then Returns (data m)
           else Raises InvalidPipeConnectionMessage
       | WOther _ => Raises InvalidPipeConnectionMessage
       end,
       {| self :=
            match o with
            | WMessage m =>
                if is_str (cmd m) then
                  set_num_bytes
                    (_num_bytes r +
                     (if is_bytes_like (data m) then py_len (data m) else 0))
                    (set_eof (cmd_is (cmd m) PIPE_CONN_MSG_CMD_DATA_FINAL) r)
                else r
            | WOther _ => r
            end;
          pipe := {| in_flight := rest;
                     r_closed := r_closed p; w_closed := w_closed p;
                     r_fileno := r_fileno p; w_fileno := w_fileno p |} |}).
Proof.
  destruct r as [ce iw nb fd e], p as [q rc wc rf wf]. cbn.
  intros -> -> -> -> ->.
  chan_unfold. cbn.
  destruct o as [[cm d]|v]; cbn; [|reflexivity].
  destruct cm as [|tag| | | |]; cbn; try reflexivity.
  unfold is_data_frame, cmd_in_data_cmds, _PIPE_CONN_MSG_DATA_CMDS, cmd_is.
  cbn.
  destruct (bool_decide (tag = PIPE_CONN_MSG_CMD_DATA_FINAL)) eqn:Hf;
    destruct (bool_decide (tag = PIPE_CONN_MSG_CMD_DATA)) eqn:Hd;
    destruct d; cbn; rewrite ?Hf, ?Hd; cbn; rewrite ?Z.add_0_r; reflexivity.
Qed.

Lemma write_all_run (bufs : list pyval) (w : t) (p : Pipe) :
  is_write w = true → c w = WriteEnd → _eof w = false →
  r_closed p = false → w_closed p = false →
  Forall (λ buf, is_bytes_like buf = true ∧ py_len buf ≠ 0) bufs →
  write_all bufs {| self := w; pipe := p |}
    = (Returns (py_len <$> bufs),
       {| self := set_num_bytes (_num_bytes w + total_len bufs) w;
          pipe := set_in_flight (in_flight p ++ (data_frame <$> bufs)) p |}).
Proof.
  intros Hw Hc He Hr Hwc Hall. revert w p Hw Hc He Hr Hwc.
  induction Hall as [|buf bufs [Hb Hl] _ IH]; intros w p Hw Hc He Hr Hwc.
  - destruct w, p. cbn. unfold set_num_bytes, set_in_flight. cbn.
    by rewrite Z.add_0_r, app_nil_r.
  - cbn [write_all]. rewrite ControllerFacts.run_bind.
    rewrite write_run by done. rewrite ControllerFacts.run_bind.
    rewrite IH by done. cbn.
    unfold set_num_bytes, set_in_flight. cbn.
    rewrite <- app_assoc. fold (total_len bufs).
    by rewrite (Z.add_assoc (_num_bytes w)).
Qed.

Lemma read_all_run (bufs : list pyval) (rest : list wire_obj) (r : t)
    (p : Pipe) :
  is_write r = false → c r = ReadEnd → _eof r = false →
  r_closed p = false →
  in_flight p = (data_frame <$> bufs) ++ rest →
  Forall (λ buf, is_bytes_like buf = true) bufs →
  read_all (length bufs) {| self := r; pipe := p |}
    = (Returns bufs,
       {| self := set_num_bytes (_num_bytes r + total_len bufs) r;
          pipe := set_in_flight rest p |}).
Proof.
  intros Hw Hc He Hr Hq Hall. revert r p Hw Hc He Hr Hq.
  induction Hall as [|buf bufs Hb _ IH]; intros r p Hw Hc He Hr Hq.
  - destruct r, p. cbn in *. subst. unfold set_num_bytes, set_in_flight. cbn.
    by rewrite Z.add_0_r.
  - cbn [read_all length]. rewrite ControllerFacts.run_bind.
    rewrite (read_head r p (data_frame buf) ((data_frame <$> bufs) ++ rest))
      by done.
    cbn [data_frame is_data_frame cmd data is_str].
    replace (cmd_in_data_cmds (PyStr PIPE_CONN_MSG_CMD_DATA)) with true
      by reflexivity.
    replace (cmd_is (PyStr PIPE_CONN_MSG_CMD_DATA)
               PIPE_CONN_MSG_CMD_DATA_FINAL) with false by reflexivity.
    rewrite Hb. cbn [andb]. rewrite ControllerFacts.run_bind.
    rewrite (IH _ _) by (destruct r; cbn in *; done).
    destruct r, p. cbn in *. subst.
    unfold set_num_bytes, set_in_flight. cbn. fold (total_len bufs).
    by rewrite Z.add_assoc.
Qed.

(** X1: what a producer writes, the consumer reads: after the producer
    endpoint of an open pipe wrote the non-empty buffers [bufs], each
    [write] returning the length of its buffer, as many calls of [read]
    on the consumer endpoint return the same buffers in the same order
    and empty the pipe; [tell()] has advanced by the total number of
    bytes on both endpoints. *)
Theorem written_buffers_are_read_in_order (w r : t) (p : Pipe)
    (bufs : list pyval) :
  open_pair w r p →
  in_flight p = [] →
  Forall (λ buf, is_bytes_like buf = true ∧ py_len buf ≠ 0) bufs →
  ∃ s1 s2,
    write_all bufs {| self := w; pipe := p |}
      = (Returns (py_len <$> bufs), s1) ∧
    read_all (length bufs) (hand_over s1 r) = (Returns bufs, s2) ∧
    in_flight (pipe s2) = [] ∧
    eval tell s1 = Returns (_num_bytes w + total_len bufs) ∧
    eval tell s2 = Returns (_num_bytes r + total_len bufs).
Proof.
  intros [] Hq Hall.
  eexists _, _. split; [by apply write_all_run|]. split.
  - unfold hand_over. cbn [pipe]. apply (read_all_run bufs []); try done.
    + cbn. by rewrite Hq, app_nil_r.
    + eapply Forall_impl; [exact Hall|]. by intros ? [? _].
  - done.
Qed.

Lemma written_buffers_are_read_in_order_witness :
  ∃ s1 s2,
    write_all [PyBytes [x68; x69]; PyByteArray [x21]] Samples.producer0
      = (Returns [2; 1], s1) ∧
    read_all 2 (hand_over s1 (self Samples.consumer0))
      = (Returns [PyBytes [x68; x69]; PyByteArray [x21]], s2) ∧
    in_flight (pipe s2) = [] ∧
    eval tell s1 = Returns 3 ∧
    eval tell s2 = Returns 3.
Proof.
  apply (written_buffers_are_read_in_order (self Samples.producer0)
           (self Samples.consumer0) (pipe Samples.producer0)
           [PyBytes [x68; x69]; PyByteArray [x21]]).
  - by split.
  - reflexivity.
  - repeat constructor; cbn; lia.
Defined.

(** One [write_eof] on a producer. *)
Lemma write_eof_run (w : t) (p : Pipe) (buf : pyval) :
  is_write w = true → c w = WriteEnd → _eof w = false →
  r_closed p = false → w_closed p = false →
  is_bytes_like buf = true →
  write_eof buf {| self := w; pipe := p |}
    = (Returns (py_len buf),
       {| self := set_num_bytes (_num_bytes w + py_len buf) (set_eof true w);
          pipe :=
            set_in_flight
              (in_flight p ++
               [WMessage {| cmd := PyStr PIPE_CONN_MSG_CMD_DATA_FINAL;
                            data := buf |}]) p |}).
Proof.
  destruct w as [ce iw nb fd e], p as [q rc wc rf wf]. cbn.
  intros -> -> -> -> -> Hb.
  chan_unfold. unfold PipeConnectionMessage_init.
  destruct buf; try discriminate; cbn in *;
    (destruct (Z.of_nat (length b) =? -1) eqn:Hm;
     [apply Z.eqb_eq in Hm; lia|]); reflexivity.
Qed.

(** [read] at end of stream. *)
Lemma read_at_eof (s : chan) :
  is_write (self s) = false → _eof (self s) = true →
  read PyNone s = (Returns (PyBytes []), s).
Proof.
  destruct s as [[ce iw nb fd e] p]. cbn. intros -> ->. reflexivity.
Qed.

(** X2: the buffer given to [write_eof] is the last one of the stream:
    the consumer reads it, after which both endpoints are at end of
    stream; and at end of stream every [read] returns the empty bytes
    without touching the endpoint or the pipe. *)
Theorem final_buffer_ends_the_stream (w r : t) (p : Pipe) (buf : pyval) :
  open_pair w r p →
  in_flight p = [] →
  is_bytes_like buf = true →
  ∃ s1 s2,
    write_eof buf {| self := w; pipe := p |} = (Returns (py_len buf), s1) ∧
    eval eof s1 = Returns true ∧
    read PyNone (hand_over s1 r) = (Returns buf, s2) ∧
    eval eof s2 = Returns true ∧
    in_flight (pipe s2) = [] ∧
    ∀ s, is_write (self s) = false → eval eof s = Returns true →
         read PyNone s = (Returns (PyBytes []), s).
Proof.
  intros [] Hq Hb.
  eexists _, _. split; [by apply write_eof_run|]. split; [done|].
  split; [|split; [|split]].
  - unfold hand_over. cbn [pipe set_in_flight].
    erewrite read_head; [| done.. | by rewrite Hq].
    cbn [is_data_frame cmd data is_str]. rewrite Hb.
    replace (cmd_in_data_cmds (PyStr PIPE_CONN_MSG_CMD_DATA_FINAL))
      with true by reflexivity.
    reflexivity.
  - reflexivity.
  - reflexivity.
  - intros s Hw [= He]. by apply read_at_eof.
Qed.

Lemma final_buffer_ends_the_stream_witness :
  ∃ s1 s2,
    write_eof (PyBytes [x68; x69]) Samples.producer0 = (Returns 2, s1) ∧
    eval eof s1 = Returns true ∧
    read PyNone (hand_over s1 (self Samples.consumer0))
      = (Returns (PyBytes [x68; x69]), s2) ∧
    eval eof s2 = Returns true ∧
    in_flight (pipe s2) = [] ∧
    ∀ s, is_write (self s) = false → eval eof s = Returns true →
         read PyNone s = (Returns (PyBytes []), s).
Proof.
  apply (final_buffer_ends_the_stream (self Samples.producer0)
           (self Samples.consumer0) (pipe Samples.producer0)
           (PyBytes [x68; x69])).
  - by split.
  - reflexivity.
  - reflexivity.
Defined.

(** X3: with nothing in flight, [read] on a consumer returns the empty
    bytes when the producer's connection is closed, without setting the
    end-of-stream flag, and waits while that connection is open. *)
Theorem read_on_an_empty_pipe (r : t) (p : Pipe) :
  is_write r = false → c r = ReadEnd → _eof r = false →
  r_closed p = false → in_flight p = [] →
  read PyNone {| self := r; pipe := p |}
    = (if w_closed p then Returns (PyBytes []) else Blocks,
       {| self := r; pipe := p |}).
Proof.
  destruct r as [ce iw nb fd e], p as [q rc wc rf wf]. cbn.
  intros -> -> -> -> ->. chan_unfold. cbn. by destruct wc.
Qed.

Lemma read_on_an_empty_pipe_witness :
  read PyNone Samples.consumer0 = (Blocks, Samples.consumer0) ∧
  read PyNone (exec (on_conn (λ _, Connection_close WriteEnd))
                 Samples.consumer0)
    = (Returns (PyBytes []),
       exec (on_conn (λ _, Connection_close WriteEnd)) Samples.consumer0).
Proof.
  split.
  - exact (read_on_an_empty_pipe (self Samples.consumer0)
             (pipe Samples.consumer0)
             eq_refl eq_refl eq_refl eq_refl eq_refl).
  - exact (read_on_an_empty_pipe (self Samples.consumer0)
             (pipe (exec (on_conn (λ _, Connection_close WriteEnd))
                      Samples.consumer0))
             eq_refl eq_refl eq_refl eq_refl eq_refl).
Defined.

(** X4: [read] takes the object at the head of the pipe whether it
    accepts it or not.  It returns the payload of a frame with a data tag
    and a bytes-like payload and raises [InvalidPipeConnectionMessage]
    for everything else; the rejected object is gone from the pipe, its
    payload was counted if it was a message with a string tag and a
    bytes-like payload, and a [DATA_FINAL] tag has set the end-of-stream
    flag. *)
Theorem read_consumes_what_it_rejects (r : t) (p : Pipe) (o : wire_obj)
    (rest : list wire_obj) :
  is_write r = false → c r = ReadEnd → _eof r = false →
  r_closed p = false → in_flight p = o :: rest →
  let s := {| self := r; pipe := p |} in
  let s' := exec (read PyNone) s in
  in_flight (pipe s') = rest ∧
  (is_data_frame o = false →
   eval (read PyNone) s = Raises InvalidPipeConnectionMessage) ∧
  ∀ m, o = WMessage m →
    (is_data_frame o = true → eval (read PyNone) s = Returns (data m)) ∧
    (is_str (cmd m) = true → is_bytes_like (data m) = true →
     eval tell s' = Returns (_num_bytes r + py_len (data m))) ∧
    (cmd_is (cmd m) PIPE_CONN_MSG_CMD_DATA_FINAL = true →
     eval eof s' = Returns true).
Proof.
  intros Hw Hc He Hr Hq s s'.
  pose proof (read_head r p o rest Hw Hc He Hr Hq) as Hrun.
  unfold s', s, eval, exec. rewrite Hrun. cbn [fst snd pipe in_flight self].
  split; [done|]. split.
  - intros Hbad. destruct o as [m|v]; [|done]. by rewrite Hbad.
  - intros m ->. split; [by intros ->|]. split.
    + intros Hs Hb. rewrite Hs, Hb. reflexivity.
    + intros Hf. destruct (cmd m); try discriminate. cbn [is_str].
      cbn in Hf. cbn. by rewrite Hf.
Qed.

Lemma read_consumes_what_it_rejects_witness :
  let s' := exec (read PyNone) Samples.consumer_ctl3 in
  in_flight (pipe s') = [] ∧
  eval (read PyNone) Samples.consumer_ctl3
    = Raises InvalidPipeConnectionMessage ∧
  eval tell s' = Returns 3.
Proof.
  destruct (read_consumes_what_it_rejects (self Samples.consumer_ctl3)
              (pipe Samples.consumer_ctl3) (WMessage Samples.ctl3) []
              eq_refl eq_refl eq_refl eq_refl eq_refl)
    as (Hq & Hbad & Hm).
  split; [exact Hq|]. split; [exact (Hbad eq_refl)|].
  exact (proj1 (proj2 (Hm Samples.ctl3 eq_refl)) eq_refl eq_refl).
Defined.

(** X5: a buffer that is not bytes or bytearray ([None] included) is
    refused with [InvalidFunctionArgument] by [write] in every state, and
    by [write_eof] unless the endpoint is at end of stream, which it
    reports first; nothing is sent and the endpoint is unchanged. *)
Theorem buffers_must_be_bytes (s : chan) (buf : pyval) :
  is_bytes_like buf = false →
  write buf s = (Raises InvalidFunctionArgument, s) ∧
  write_eof buf s
    = (Raises (if _eof (self s) then PipeConnectionAlreadyEof
               else InvalidFunctionArgument), s).
Proof.
  destruct s as [[ce iw nb fd e] p]. intros Hb.
  chan_unfold. cbn. rewrite Hb.
  destruct e, (is_none buf); done.
Qed.

Lemma buffers_must_be_bytes_witness :
  write (PyStr "hi") Samples.producer0
    = (Raises InvalidFunctionArgument, Samples.producer0) ∧
  write_eof PyNone Samples.producer0
    = (Raises InvalidFunctionArgument, Samples.producer0).
Proof.
  split.
  - exact (proj1 (buffers_must_be_bytes Samples.producer0 (PyStr "hi")
                    eq_refl)).
  - exact (proj2 (buffers_must_be_bytes Samples.producer0 PyNone eq_refl)).
Defined.

(** X6: an endpoint works in one direction: [read] on a producer and a
    [write] of a non-empty buffer on a consumer raise
    [NotImplementedError], whatever the state of the endpoint, and change
    nothing. *)
Theorem endpoints_are_one_way (s : chan) (size buf : pyval) :
  is_bytes_like buf = true → py_len buf ≠ 0 →
  if is_write (self s)
  then read size s = (Raises NotImplementedError, s)
  else write buf s = (Raises NotImplementedError, s).
Proof.
  destruct s as [[ce iw nb fd e] p]. intros Hb Hl. cbn.
  destruct iw; [reflexivity|].
  chan_unfold. cbn. rewrite Hb.
  destruct (is_none buf) eqn:Hn; [by destruct buf|]. cbn.
  destruct (py_len buf =? 0) eqn:Hz; [apply Z.eqb_eq in Hz; lia|].
  reflexivity.
Qed.

Lemma endpoints_are_one_way_witness :
  read PyNone Samples.producer0
    = (Raises NotImplementedError, Samples.producer0) ∧
  write (PyBytes [x21]) Samples.consumer0
    = (Raises NotImplementedError, Samples.consumer0).
Proof.
  split.
  - apply (endpoints_are_one_way Samples.producer0 PyNone (PyBytes [x21]));
      [reflexivity|discriminate].
  - apply (endpoints_are_one_way Samples.consumer0 PyNone (PyBytes [x21]));
      [reflexivity|discriminate].
Defined.

Lemma py_len_nonneg (v : pyval) : 0 <= py_len v.
Proof. destruct v; cbn; lia. Qed.

Ltac split_ifs :=
  repeat (cbn;
          match goal with
          | |- context [if ?b then _ else _] => destruct b eqn:?
          | |- context [match ?x with _ => _ end] => destruct x eqn:?
          end).

(** X7: sending is all or nothing: a [send_message], [write] or
    [write_eof] that does not return has sent nothing, counted nothing
    and left the end-of-stream flag alone, so that a final buffer whose
    sending failed can be sent again. *)
Theorem failed_send_changes_nothing (s : chan) :
  (∀ o, eval (send_message o) s = Returns tt ∨
        exec (send_message o) s = s) ∧
  (∀ buf, eval (write buf) s = Returns (py_len buf) ∨
          exec (write buf) s = s) ∧
  (∀ buf, eval (write_eof buf) s = Returns (py_len buf) ∧
          eval eof (exec (write_eof buf) s) = Returns true ∨
          exec (write_eof buf) s = s).
Proof.
  destruct s as [[ce iw nb fd e] p]. split; [|split].
  - intros o. chan_unfold. split_ifs; auto.
  - intros buf. chan_unfold. unfold PipeConnectionMessage_init.
    split_ifs;
      repeat match goal with
             | H : (_ =? _) = true |- _ => apply Z.eqb_eq in H
             end;
      first [by right | left; f_equal; cbn in *; lia | left; reflexivity].
  - intros buf. chan_unfold. unfold PipeConnectionMessage_init.
    split_ifs; first [by right | by left].
Qed.


Lemma stepped_refl (s : chan) : stepped s s.
Proof. unfold stepped. repeat split; [done|lia]. Qed.

Lemma stepped_trans (s1 s2 s3 : chan) :
  stepped s1 s2 → stepped s2 s3 → stepped s1 s3.
Proof.
  intros (? & ? & ? & ? & ?) (? & ? & ? & ? & ?).
  repeat split; try congruence; [auto | lia].
Qed.

Lemma steps_bind {A B} (m : M chan A) (k : A → M chan B) :
  steps m → (∀ a, steps (k a)) → steps (m ≫= k).
Proof.
  intros Hm Hk s. rewrite ControllerFacts.run_bind. specialize (Hm s).
  destruct (m s) as [[a|e|] s1]; [|done..].
  eapply stepped_trans; [exact Hm|apply Hk].
Qed.

Lemma steps_pure {A} (f : chan → outcome A) : steps (λ s, (f s, s)).
Proof. intros s. apply stepped_refl. Qed.

Lemma steps_on_conn {A} (op : conn_end → M Pipe A) : steps (on_conn op).
Proof.
  intros s. unfold on_conn, stepped. destruct (op _ _). cbn.
  repeat split; [done|lia].
Qed.

Lemma steps_on_self (f : t → t) :
  (∀ x, stepped {| self := x; pipe := new_pipe 0 0 |}
                {| self := f x; pipe := new_pipe 0 0 |}) →
  steps (on_self f).
Proof. intros Hf s. apply (Hf (self s)). Qed.

Lemma steps_when (b : bool) (m : M chan unit) :
  (b = true → steps m) → steps (when b m).
Proof.
  intros Hm. destruct b; [by apply Hm|]. apply (steps_pure (λ _, Returns tt)).
Qed.

Lemma steps_try_except {A} (m : M chan A) (h : exc → M chan A) :
  steps m → (∀ e, steps (h e)) → steps (try_except m h).
Proof.
  intros Hm Hh s. unfold try_except. specialize (Hm s).
  destruct (m s) as [[a|e|] s1]; [done| |done].
  eapply stepped_trans; [exact Hm|apply Hh].
Qed.

Ltac steps_with known :=
  repeat first
    [ known
    | apply (steps_pure (λ _, Returns _))
    | apply (steps_pure (λ _, Raises _))
    | apply (steps_pure (λ s, Returns (_ s)))
    | apply steps_on_conn
    | apply steps_when; intros ?
    | apply steps_try_except; [|intros ?]
    | apply steps_bind; [|intros ?]
    | match goal with
      | |- steps (if ?b then _ else _) => destruct b
      | |- steps (match ?x with _ => _ end) => destruct x
      end ].

Ltac steps_tac := steps_with fail.

Lemma steps_set_eof : steps (on_self (set_eof true)).
Proof.
  apply steps_on_self. intros x. unfold stepped. cbn.
  repeat split; try done; lia.
Qed.

Lemma steps_count (n : Z) :
  0 <= n → steps (on_self (λ x, set_num_bytes (_num_bytes x + n) x)).
Proof.
  intros Hn. apply steps_on_self. intros x. unfold stepped. cbn.
  repeat split; try done; lia.
Qed.

Lemma steps_send_message (o : wire_obj) : steps (send_message o).
Proof.
  unfold send_message, eof. steps_tac; try apply steps_set_eof.
  destruct (negb (is_none (data m)) && is_bytes_like (data m));
    [|discriminate].
  apply steps_count, py_len_nonneg.
Qed.

Lemma steps_recv_message : steps recv_message.
Proof.
  unfold recv_message. steps_tac; try apply steps_set_eof.
  apply steps_count, py_len_nonneg.
Qed.

Lemma steps_write (buf : pyval) : steps (write buf).
Proof.
  unfold write, _write, _validate_write_buf.
  steps_with ltac:(apply steps_send_message).
Qed.

Lemma steps_write_eof (buf : pyval) : steps (write_eof buf).
Proof.
  unfold write_eof, _write, _validate_write_buf, eof.
  steps_with ltac:(apply steps_send_message).
Qed.

Lemma steps_read (size : pyval) : steps (read size).
Proof. unfold read, eof. steps_with ltac:(apply steps_recv_message). Qed.

Lemma steps_close (env : log_env) : steps (close env).
Proof. unfold close. steps_tac. Qed.

Lemma run_op_step (s : chan) (o : chan_op) :
  is_reset o = false → stepped s (run_op s o).
Proof.
  destruct o; cbn [run_op is_reset]; [..|done]; intros _.
  - apply steps_send_message.
  - apply steps_recv_message.
  - apply steps_write.
  - apply steps_write_eof.
  - apply steps_read.
  - apply steps_close.
Qed.

(** X8: whatever calls other than [reset_num_bytes] are made on an
    endpoint, and however they end, its connection, its direction and
    its cached file number stay what they were, the end-of-stream flag is
    never cleared, and [tell()] never decreases. *)
Theorem endpoint_history (ops : list chan_op) (s : chan) :
  existsb is_reset ops = false →
  let s' := foldl run_op s ops in
  c (self s') = c (self s) ∧
  is_write (self s') = is_write (self s) ∧
  _cached_fileno (self s') = _cached_fileno (self s) ∧
  (eval eof s = Returns true → eval eof s' = Returns true) ∧
  ∃ n n', eval tell s = Returns n ∧ eval tell s' = Returns n' ∧ n <= n'.
Proof.
  intros Hops s'.
  assert (stepped s s') as (Hc & Hw & Hf & He & Hn).
  { unfold s'. clear s'. revert s Hops.
    induction ops as [|o ops IH]; intros s Hops; [apply stepped_refl|].
    cbn in Hops. apply orb_false_iff in Hops as [Ho Hops].
    cbn [foldl]. eapply stepped_trans; [by apply run_op_step|by apply IH]. }
  split; [done|]. split; [done|]. split; [done|]. split.
  - intros [= H]. cbn. by rewrite He.
  - by eexists _, _.
Qed.

Lemma endpoint_history_witness :
  let s' := foldl run_op Samples.producer0
              [OpWrite (PyBytes [x68; x69]); OpRead PyNone;
               OpWriteEof (PyBytes []); OpWrite (PyBytes [x21])] in
  is_write (self s') = true ∧
  ∃ n n', eval tell Samples.producer0 = Returns n ∧
          eval tell s' = Returns n' ∧ n <= n'.
Proof.
  destruct (endpoint_history
              [OpWrite (PyBytes [x68; x69]); OpRead PyNone;
               OpWriteEof (PyBytes []); OpWrite (PyBytes [x21])]
              Samples.producer0 eq_refl) as (_ & Hw & _ & _ & Hn).
  split; [exact Hw|exact Hn].
Defined.
End ChannelLaws.

Module ControllerLaws.
Import Scenarios ControllerFacts.

(** *** Work items *)

Lemma wi_get_total (st : pl_state) (wi : nat) :
  wi_get wi st = (Returns (heap st !!! wi), st).
Proof. reflexivity. Qed.

Lemma wi_update_total (st : pl_state) (wi : nat)
    (f : PipelineWorkItem → PipelineWorkItem) :
  wi_update wi f st
    = (Returns tt, upd_heap (λ _, <[wi:=f (heap st !!! wi)]> (heap st)) st).
Proof. reflexivity. Qed.

Ltac wi_simpl :=
  cbn [_cur_stage user_obj user_kwargs exceptions pipe_conn _auto_copy_attr
       user_attrs set_cur_stage set_user_obj set_exceptions set_pipe_conn
       set_user_attrs append_exception increment_stage] in *.

(** Run the reads and the assignments of attributes at the head of a
    computation. *)
Ltac heap_run :=
  st_simpl; wi_simpl;
  repeat (first [ rewrite run_bind | rewrite wi_get_total
                | rewrite wi_update_total | rewrite upd_heap_twice
                | rewrite insert_insert_eq
                | rewrite lookup_total_insert_eq
                | rewrite lookup_total_insert_ne by done ];
          st_simpl; wi_simpl).

(** The run of [stage_complete] for a stage that returned the work item
    [wi], another instance than [self], and what it leaves of [self]. *)
Lemma stage_complete_result (st : pl_state) (self wi : nat)
    (n : Z) (s r : PipelineWorkItem) :
  self ≠ wi →
  heap st !! self = Some s →
  heap st !! wi = Some r →
  ∃ s',
    stage_complete self n wi None st
      = (Returns tt, upd_heap (λ _, <[self:=s']> (heap st)) st) ∧
    _cur_stage s' = _cur_stage s ∧
    user_obj s' = user_obj r ∧
    exceptions s'
      = (if is_failed r
         then Some (default [] (exceptions s) ++ default [] (exceptions r))
         else exceptions s) ∧
    user_attrs s'
      = if _auto_copy_attr s then user_attrs r ∪ user_attrs s
        else user_attrs s.
Proof.
  intros Hne Hs Hr.
  apply lookup_total_correct in Hs, Hr.
  unfold stage_complete.
  heap_run; rewrite ?Hs, ?Hr;
    destruct (is_failed r) eqn:Hfail; heap_run; rewrite ?Hs, ?Hr;
    destruct s as [cs uo uk [exs|] pc [|] ua]; wi_simpl; heap_run;
    rewrite ?Hr;
    (eexists; split; [reflexivity|]; cbn; rewrite ?Hfail; try done).
Qed.

(** X9: [stage_complete] on an item [self] with the result [wi] of a
    stage, another instance: the stage index, the keyword arguments, the
    pipe connection and the auto-copy flag of [self] are never touched;
    [user_obj] is always taken from the result; the exception, if any,
    and then the failures of the result are appended to the failures of
    [self]; and the user attributes of the result are copied over those of
    [self] when [auto_copy_attr] is on, and not at all when it is off.
    The result instance is left as it was. *)
Theorem stage_complete_merges_the_result (st : pl_state) (self wi : nat)
    (n : Z) (ex : option exc) (s r : PipelineWorkItem) :
  self ≠ wi →
  heap st !! self = Some s →
  heap st !! wi = Some r →
  ∃ s',
    stage_complete self n wi ex st
      = (Returns tt, upd_heap (λ _, <[self:=s']> (heap st)) st) ∧
    _cur_stage s' = _cur_stage s ∧
    user_kwargs s' = user_kwargs s ∧
    pipe_conn s' = pipe_conn s ∧
    _auto_copy_attr s' = _auto_copy_attr s ∧
    user_obj s' = user_obj r ∧
    exceptions s'
      = (let own := if ex is Some e
                    then Some (default [] (exceptions s) ++ [e])
                    else exceptions s in
         if is_failed r
         then Some (default [] own ++ default [] (exceptions r))
         else own) ∧
    user_attrs s'
      = if _auto_copy_attr s then user_attrs r ∪ user_attrs s
        else user_attrs s.
Proof.
  intros Hne Hs Hr.
  apply lookup_total_correct in Hs, Hr.
  unfold stage_complete.
  destruct ex as [e|]; heap_run; rewrite ?Hs, ?Hr;
    destruct (is_failed r) eqn:Hfail; heap_run; rewrite ?Hs, ?Hr;
    destruct s as [cs uo uk [exs|] pc [|] ua]; wi_simpl; heap_run;
    rewrite ?Hr;
    (eexists; split; [reflexivity|]; cbn; rewrite ?Hfail; try done).
Qed.

Lemma stage_complete_merges_the_result_witness :
  ∃ s',
    stage_complete 0 0 1 None two_items
      = (Returns tt, upd_heap (λ _, <[0%nat:=s']> (heap two_items)) two_items) ∧
    user_obj s' = PyStr "y" ∧
    exceptions s' = Some [boom] ∧
    user_attrs s' = <["note":=PyInt 7]> ∅.
Proof.
  destruct (stage_complete_merges_the_result two_items 0 1 0 None
              item_x item_y)
    as (s' & Hrun & _ & _ & _ & _ & Hobj & Hexc & Hattrs).
  - done.
  - vm_compute; reflexivity.
  - vm_compute; reflexivity.
  - exists s'. split; [exact Hrun|]. split; [exact Hobj|].
    split; [exact Hexc|].
    rewrite Hattrs. cbn. apply map_union_empty.
Defined.

(** *** Submitting *)

(** X10: [submit] refuses [None], and refuses a work item that is in the
    pipeline already, with [InvalidFunctionArgument]; the pipeline is
    left as it was: the controller is not started, nothing is queued and
    the future registered for the item stays. *)
Theorem submit_refuses_none_and_duplicates (st : pl_state) (wi fut : nat) :
  dict_get (Some wi) (_wi_to_wifut st) = Some fut →
  submit None st = (Raises InvalidFunctionArgument, st) ∧
  submit (Some wi) st = (Raises InvalidFunctionArgument, st).
Proof.
  intros Hin. split; [reflexivity|].
  unfold submit. run. by rewrite Hin.
Qed.

Lemma submit_refuses_none_and_duplicates_witness :
  submit (Some 0%nat) (submitted [thread_stage])
    = (Raises InvalidFunctionArgument, submitted [thread_stage]).
Proof.
  apply (submit_refuses_none_and_duplicates (submitted [thread_stage]) 0 1).
  vm_compute; reflexivity.
Defined.

(** *** Finalizing *)

(** X11: an item is finalized at most once: [_set_wi_to_finished]
    completes the caller's future with the item and forgets the item, so
    that a second call raises [InvalidStateError] and leaves the future
    as it is; and while an execution of the item is tracked the call
    raises [InvalidStateError] and changes nothing. *)
Theorem finalized_at_most_once (st : pl_state) (wi uf : nat) :
  dict_get (Some wi) (_wi_to_wifut st) = Some uf →
  futures st !! uf = Some FutPending →
  if eval (_is_wi_still_running wi) st is Returns false then
    ∃ st',
      _set_wi_to_finished wi st = (Returns tt, st') ∧
      futures st' !! uf = Some (FutResult (ResWorkItem wi)) ∧
      dict_get (Some wi) (_wi_to_wifut st') = None ∧
      _set_wi_to_finished wi st' = (Raises InvalidStateError, st')
  else _set_wi_to_finished wi st = (Raises InvalidStateError, st).
Proof.
  intros Hu Hp.
  destruct (eval (_is_wi_still_running wi) st) as [[|]| |] eqn:Hrun;
    try (unfold _is_wi_still_running in Hrun; discriminate Hrun).
  - unfold _set_wi_to_finished, eval, _is_wi_still_running in *. run.
    injection Hrun as ->. reflexivity.
  - eexists. split; [by apply run_set_wi_to_finished|].
    st_simpl. split; [apply lookup_insert_eq|].
    split; [apply dict_get_del|].
    unfold _set_wi_to_finished, eval, _is_wi_still_running in *. run.
    injection Hrun as ->. run. by rewrite dict_get_del.
Qed.

Lemma finalized_at_most_once_witness :
  ∃ st',
    _set_wi_to_finished 0 (queued [thread_stage]) = (Returns tt, st') ∧
    futures st' !! 1%nat = Some (FutResult (ResWorkItem 0)) ∧
    dict_get (Some 0%nat) (_wi_to_wifut st') = None ∧
    _set_wi_to_finished 0 st' = (Raises InvalidStateError, st').
Proof.
  apply (finalized_at_most_once (queued [thread_stage]) 0 1);
    vm_compute; reflexivity.
Defined.

(** *** Tracking the executions *)

Lemma ctx_loop_found (fut : nat) (l1 l2 : list _WorkItemStageRunCtx)
    (x : _WorkItemStageRunCtx) (c0 : option _WorkItemStageRunCtx) :
  Forall (λ c, ctx_fut c ≠ fut) l1 → ctx_fut x = fut →
  ctx_loop fut (l1 ++ x :: l2) c0 = (Some x, true).
Proof.
  intros Hl1 Hx. revert c0.
  induction Hl1 as [|y l1 Hy _ IH]; intros c0; cbn [ctx_loop app].
  - by rewrite bool_decide_eq_true_2.
  - rewrite bool_decide_eq_false_2 by done. apply IH.
Qed.

(** Untracking the future of the context [x] of [wi]. *)
Lemma get_completed_run (st : pl_state) (fut wi : nat)
    (l1 l2 : list _WorkItemStageRunCtx) (x : _WorkItemStageRunCtx) :
  _plfut_to_wi st !! fut = Some wi →
  dict_get wi (_running_wi_contexts st) = Some (l1 ++ x :: l2) →
  ctx_fut x = fut →
  Forall (λ c, ctx_fut c ≠ fut) l1 →
  _get_completed_work_item_info fut st
    = (Returns (wi, x),
       upd_running_wi_contexts
         (λ _, match l1 ++ l2 with
               | [] => dict_del wi (dict_set wi [] (_running_wi_contexts st))
               | _ => dict_set wi (l1 ++ l2) (_running_wi_contexts st)
               end)
         (upd_plfut_to_wi (λ _, delete fut (_plfut_to_wi st)) st)).
Proof.
  intros Hf Hd Hx Hl1. unfold _get_completed_work_item_info.
  run. rewrite Hf. run. run. rewrite Hd.
  rewrite (ctx_loop_found fut l1 l2 x None Hl1 Hx).
  assert (x ∉ l1) as Hnin.
  { intros Hin. rewrite Forall_forall in Hl1. by apply (Hl1 x Hin). }
  rewrite (py_list_remove_app x l1 l2 Hnin).
  run. destruct (l1 ++ l2); run; reflexivity.
Qed.

Lemma running_ext (st : pl_state)
    (f : list (nat * list _WorkItemStageRunCtx) →
         list (nat * list _WorkItemStageRunCtx))
    (v : list (nat * list _WorkItemStageRunCtx)) :
  f (_running_wi_contexts st) = v →
  upd_running_wi_contexts f st = upd_running_wi_contexts (λ _, v) st.
Proof. by intros <-. Qed.

Lemma track_run (st : pl_state) (cs : Z) (fut wi : nat) :
  _plfut_to_wi st !! fut = None →
  _track_running_pipeline_work cs fut wi st
    = (Returns tt,
       upd_running_wi_contexts
         (λ _, dict_set wi
                 (contexts_of wi st ++
                  [{| ctx_cur_stage := cs; ctx_fut := fut; ctx_wi := wi |}])
                 (_running_wi_contexts st))
         (upd_plfut_to_wi (λ _, <[fut:=wi]> (_plfut_to_wi st)) st)).
Proof.
  intros Hfut. unfold _track_running_pipeline_work, contexts_of.
  run. rewrite Hfut. run. run. unfold modify.
  set (c := {| ctx_cur_stage := cs; ctx_fut := fut; ctx_wi := wi |}).
  transitivity
    (Returns tt,
     upd_running_wi_contexts
       (λ d, let d' := if dict_get wi d is Some _ then d
                       else dict_set wi [] d in
             dict_set wi (default [] (dict_get wi d') ++ [c]) d')
       (upd_plfut_to_wi (λ _, <[fut:=wi]> (_plfut_to_wi st)) st));
    [reflexivity|].
  f_equal. apply running_ext. st_simpl. cbv zeta.
  destruct (dict_get wi (_running_wi_contexts st)) eqn:Hg.
  - by rewrite Hg.
  - by rewrite dict_get_set, dict_set_set.
Qed.

Lemma track_then_complete (st : pl_state) (cs : Z) (fut wi : nat) :
  _plfut_to_wi st !! fut = None →
  Forall (λ x, ctx_fut x ≠ fut) (contexts_of wi st) →
  dict_get wi (_running_wi_contexts st) ≠ Some [] →
  let c := {| ctx_cur_stage := cs; ctx_fut := fut; ctx_wi := wi |} in
  ∃ st1 st2,
    _track_running_pipeline_work cs fut wi st = (Returns tt, st1) ∧
    _plfut_to_wi st1 !! fut = Some wi ∧
    contexts_of wi st1 = contexts_of wi st ++ [c] ∧
    _get_completed_work_item_info fut st1 = (Returns (wi, c), st2) ∧
    _plfut_to_wi st2 = _plfut_to_wi st ∧
    _running_wi_contexts st2 = _running_wi_contexts st.
Proof.
  intros Hfut Hold Hne c.
  eexists _, _. split; [by apply track_run|]. st_simpl.
  split; [apply lookup_insert_eq|].
  unfold contexts_of in *. st_simpl. rewrite dict_get_set.
  split; [done|]. split.
  { apply (get_completed_run _ fut wi
             (default [] (dict_get wi (_running_wi_contexts st))) [] c);
      st_simpl;
      [apply lookup_insert_eq|by rewrite dict_get_set|done|done]. }
  st_simpl. split; [by apply delete_insert_id|].
  rewrite app_nil_r, !dict_set_set.
  destruct (dict_split (_running_wi_contexts st) wi)
    as [[Hk Hg]|(da & old & db & Hd & Hk & Hg)]; rewrite Hg in *;
    cbn [default from_option id].
  - rewrite (dict_set_fresh _ _ _ Hk).
    rewrite (dict_del_app _ [] _ _ Hk) by apply not_elem_of_nil.
    apply app_nil_r.
  - destruct old as [|x old]; [done|]. rewrite Hd. by apply dict_set_app.
Qed.
End ControllerLaws.

Module Moves.
Import Scenarios ControllerFacts.

Lemma moves_ret {A} (a : A) : moves (mret a).
Proof. intros st. apply rtc_refl. Qed.

Lemma moves_raise {A} (e : exc) : moves (raise e : PL A).
Proof. intros st. apply rtc_refl. Qed.

Lemma moves_block {A} : moves (block : PL A).
Proof. intros st. apply rtc_refl. Qed.

Lemma moves_gets {A} (f : pl_state → A) : moves (gets f).
Proof. intros st. apply rtc_refl. Qed.

Lemma moves_bind {A B} (m : PL A) (k : A → PL B) :
  moves m → (∀ a, moves (k a)) → moves (m ≫= k).
Proof.
  intros Hm Hk st. rewrite run_bind. specialize (Hm st).
  destruct (m st) as [[a|e|] st']; cbn [snd] in *; [|done..].
  etrans; [exact Hm|apply Hk].
Qed.

Lemma moves_when (b : bool) (m : PL unit) : moves m → moves (when b m).
Proof. destruct b; [done | intros _; apply moves_ret]. Qed.

Lemma moves_try_except {A} (m : PL A) (h : exc → PL A) :
  moves m → (∀ e, moves (h e)) → moves (try_except m h).
Proof.
  intros Hm Hh st. unfold try_except. specialize (Hm st).
  destruct (m st) as [[a|e|] st']; cbn [snd] in *; [done| |done].
  etrans; [exact Hm|apply Hh].
Qed.

Lemma moves_leaf {A} (m : PL A) :
  (∀ st, leaf st (exec m st)) → moves m.
Proof. intros H st. apply rtc_once, H. Qed.

Lemma moves_modify (f : pl_state → pl_state) :
  (∀ st, leaf st (f st)) → moves (modify f).
Proof. intros H st. apply rtc_once, H. Qed.

Lemma moves_for_each {A} (l : list A) (body : A → PL unit) :
  (∀ x, moves (body x)) → moves (for_each l body).
Proof.
  intros Hb. induction l as [|x l IH]; cbn [for_each]; [apply moves_ret|].
  apply moves_bind; [apply Hb | by intros ?].
Qed.

Lemma moves_future_exception (f : nat) : moves (Future_exception f).
Proof.
  intros st. unfold Future_exception.
  destruct (futures st !! f) as [[]|]; apply rtc_refl.
Qed.

Lemma moves_future_result (f : nat) : moves (Future_result f).
Proof.
  intros st. unfold Future_result.
  destruct (futures st !! f) as [[]|]; apply rtc_refl.
Qed.

Ltac moves_with known :=
  repeat first
    [ known
    | apply moves_ret | apply moves_raise | apply moves_block
    | apply moves_gets
    | apply moves_future_exception | apply moves_future_result
    | apply moves_when
    | apply moves_bind; [|intros ?]
    | match goal with
      | |- moves (match ?x with _ => _ end) => destruct x
      | |- moves (let '(_, _) := ?x in _) => destruct x
      end ].

Ltac leaves :=
  first
    [ apply (moves_leaf (wi_update _ _)); intros; apply leaf_wi_update
    | apply (moves_leaf (new_work_item _)); intros; apply leaf_new_work_item
    | apply (moves_leaf (Future_set_exception _ _)); intros;
        apply leaf_set_exception
    | apply (moves_leaf (_internal_submit _)); intros;
        apply leaf_internal_submit
    | apply (moves_leaf _get_queued_wi); intros; apply leaf_get_queued_wi
    | apply (moves_leaf _renew_input_queue_future); intros; apply leaf_renew
    | apply (moves_leaf (_submit_to_stage _ _ _ _)); intros;
        apply leaf_submit_to_stage
    | apply (moves_leaf (_get_completed_work_item_info _)); intros;
        apply leaf_untrack
    | apply (moves_leaf (_set_wi_to_finished _)); intros; apply leaf_finish
    | apply (moves_leaf new_pipe_connections); intros; apply leaf_new_pipe
    | apply (moves_leaf (_cleanup_pipe_connections _)); intros;
        apply leaf_cleanup
    | apply (moves_leaf (add_stage _)); intros; apply leaf_add_stage
    | apply moves_modify; intros;
        first [ apply leaf_conn_insert | apply leaf_worker_future_none
              | apply leaf_asked | apply leaf_anomaly | apply leaf_graceful
              | apply leaf_pc ] ].

Ltac moves_tac := moves_with leaves.

Lemma moves_stage_complete (self : nat) (n : Z) (wi : nat)
    (ex : option exc) :
  moves (stage_complete self n wi ex).
Proof. unfold stage_complete, wi_get. moves_tac. Qed.

Lemma moves_fail_all_pending (ex : exc) : moves (_fail_all_pending ex).
Proof.
  unfold _fail_all_pending. apply moves_bind; [apply moves_gets|].
  intros items.
  induction items as [|[wi f] items IH]; cbn [fail_all_pending_items];
    unfold Future_done; moves_with ltac:(first [apply IH | leaves]).
Qed.

Lemma moves_handle_completed_fut (done_fut : nat) :
  moves (_handle_completed_fut done_fut).
Proof.
  unfold _handle_completed_fut.
  moves_with ltac:(first [apply moves_stage_complete | leaves]).
Qed.

Lemma moves_handle_done_futs (done_futs attention : list nat)
    (is_shutdown : bool) :
  moves (handle_done_futs done_futs attention is_shutdown).
Proof.
  revert attention is_shutdown.
  induction done_futs as [|f done_futs IH]; intros attention is_shutdown;
    cbn [handle_done_futs]; [apply moves_ret|].
  apply moves_bind; [apply moves_handle_completed_fut|].
  intros [wi is_sd]. apply IH.
Qed.

Lemma moves_get_all_wi_futs : moves _get_all_wi_futs.
Proof.
  unfold _get_all_wi_futs. apply moves_bind; [apply moves_gets|].
  intros values. generalize (@nil nat) at 1. generalize (@nil nat).
  induction values as [|ctxs values IH]; intros p d;
    cbn [get_all_wi_futs_loop]; [apply moves_ret|].
  apply moves_bind; [apply moves_gets|]. intros ctx_done_futs.
  apply moves_bind.
  { apply moves_for_each. intros fut. leaves. }
  intros ?. destruct (List.filter _ _); apply IH.
Qed.

Lemma moves_collect_done_futs (renew : bool) :
  moves (collect_done_futs renew).
Proof.
  unfold collect_done_futs, Future_done.
  moves_with ltac:(first [apply moves_get_all_wi_futs | leaves]).
Qed.

Lemma moves_is_stage (wi : nat) (stage_num : option Z) :
  moves (_is_stage_for_work_item wi stage_num).
Proof. unfold _is_stage_for_work_item, wi_get, stage_at. moves_tac. Qed.

Lemma moves_end_if_failed (wi : nat) : moves (end_if_failed wi).
Proof. unfold end_if_failed, wi_get, num_stages. moves_tac. Qed.

Lemma moves_try_submit_to_stage (wi : nat) :
  moves (_try_submit_to_stage wi).
Proof.
  unfold _try_submit_to_stage, wi_get, stage_at.
  moves_with ltac:(first [apply moves_is_stage | apply moves_end_if_failed
                         | leaves]).
Qed.

Lemma moves_try_submit_to_dual (wi : nat) :
  moves (_try_submit_to_dual_stage_with_pipe wi).
Proof.
  unfold _try_submit_to_dual_stage_with_pipe, wi_get, stage_at, num_stages.
  moves_with ltac:(first [apply moves_is_stage | apply moves_end_if_failed
                         | leaves]).
Qed.

Lemma moves_handle_stages_loop (fuel : nat) (wi : nat) :
  moves (handle_stages_loop fuel wi).
Proof.
  induction fuel as [|fuel IH]; cbn [handle_stages_loop];
    [apply moves_block|].
  unfold wi_get, stage_at, num_stages.
  moves_with ltac:(first [apply moves_try_submit_to_dual
                         | apply moves_try_submit_to_stage
                         | apply IH | leaves]).
Qed.

Lemma moves_handle_stages_for_wi (wi : nat) :
  moves (_handle_stages_for_wi wi).
Proof.
  unfold _handle_stages_for_wi, wi_get, num_stages, _is_wi_still_running.
  moves_with ltac:(first [apply moves_handle_stages_loop | leaves]).
Qed.

Lemma moves_attend (wi : nat) : moves (attend wi).
Proof.
  unfold attend, wi_get, _is_wi_still_running.
  moves_with ltac:(first [apply moves_handle_stages_for_wi | leaves]).
Qed.

Lemma moves_pl_worker_iteration : moves pl_worker_iteration.
Proof.
  unfold pl_worker_iteration.
  moves_with ltac:(first [apply moves_collect_done_futs
                         | apply moves_handle_done_futs
                         | apply moves_for_each; intros ?; apply moves_attend
                         | leaves]).
Qed.

Lemma moves_pl_worker_loop (fuel : nat) : moves (pl_worker_loop fuel).
Proof.
  induction fuel as [|fuel IH]; cbn [pl_worker_loop]; [apply moves_block|].
  moves_with ltac:(first [apply moves_pl_worker_iteration | apply IH]).
Qed.

Lemma moves_pl_worker (fuel : nat) : moves (_pl_worker fuel).
Proof.
  unfold _pl_worker.
  apply moves_bind; [|intros ?; leaves].
  apply moves_try_except; [apply moves_pl_worker_loop|]. intros e.
  apply moves_bind; [apply moves_fail_all_pending|intros ?; apply moves_raise].
Qed.

Lemma rtc_leaf_change (st st' : pl_state) :
  rtc leaf st st' → rtc change st st'.
Proof.
  induction 1 as [|st st1 st2 Hl _ IH]; [apply rtc_refl|].
  eapply rtc_l; [by apply change_leaf|exact IH].
Qed.

Lemma changes_run_pl_worker (fuel : nat) (st : pl_state) :
  rtc change st (run_pl_worker fuel st).
Proof.
  unfold run_pl_worker.
  pose proof (rtc_leaf_change _ _ (moves_pl_worker fuel st)) as Hw.
  destruct (pl_worker_pc st), (_pl_worker_future st) as [f|];
    try apply rtc_refl;
    destruct (_pl_worker fuel st) as [[a|e|] st']; cbn [snd] in Hw;
    try exact Hw;
    (etrans; [exact Hw|]);
    match goal with
    | |- rtc change ?s
           (upd_pl_worker_pc _ (upd_futures (insert ?f ?v) ?s)) =>
        apply (rtc_l _ _ (upd_futures (insert f v) s));
          [by apply change_settled | apply rtc_once, change_leaf, leaf_pc]
    end.
Qed.

Lemma changes_shutdown (fuel : nat) (st : pl_state) :
  rtc change st (exec (shutdown fuel) st).
Proof.
  unfold exec, shutdown. rewrite run_bind. st_simpl.
  destruct (_pl_worker_future st) as [f|]; [|apply rtc_refl].
  rewrite run_bind. st_simpl.
  destruct (_wi_to_wifut st) as [|x tracked]; [|apply rtc_refl].
  rewrite run_bind.
  pose proof (leaf_internal_submit st None) as H1. unfold exec in H1.
  destruct (_internal_submit None st) as [[a|e|] st1]; cbn [snd] in H1;
    [|by apply rtc_once, change_leaf..].
  eapply rtc_l; [by apply change_leaf|]. rewrite run_bind. st_simpl.
  etrans; [apply (changes_run_pl_worker fuel st1)|].
  apply rtc_leaf_change.
  assert (moves (Future_result f;;
                 modify (upd_pl_worker_future (λ _, None));;
                 Executor_shutdown ProcessExec;;
                 Executor_shutdown ThreadExec)) as Hrest.
  { apply moves_bind; [apply moves_future_result|]. intros ?.
    apply moves_bind; [leaves|]. intros ?.
    apply moves_bind; [|intros ?];
      apply (moves_leaf (Executor_shutdown _)); intros;
      by apply leaf_executor_shutdown. }
  apply Hrest.
Qed.

Lemma moves_submit (wi : option nat) : moves (submit wi).
Proof. unfold submit. moves_tac. Qed.

Lemma visited_rtc (st st' : pl_state) :
  visited st → rtc change st st' → visited st'.
Proof.
  intros Hv Hr. induction Hr as [|st st1 st2 Hl _ IH]; [done|].
  apply IH. by eapply visited_change.
Qed.

Lemma visited_moves {A} (m : PL A) (st : pl_state) :
  visited st → moves m → visited (exec m st).
Proof.
  intros Hv Hm. eapply visited_rtc; [exact Hv|]. apply rtc_leaf_change, Hm.
Qed.

(** The states after the calls of the interface are visited states. *)
Lemma reachable_visited (st : pl_state) : reachable st → visited st.
Proof.
  induction 1 as [stages n|st stage _ IH|st w _ IH|st wi _ IH|st fuel _ IH
                  |st fut ex _ IH|st fut w _ IH|st fut v _ IH|st fuel _ IH].
  - apply visited_init.
  - apply (visited_moves (add_stage stage)); [exact IH|].
    apply moves_leaf. intros s. apply leaf_add_stage.
  - apply (visited_moves (new_work_item w)); [exact IH|].
    apply moves_leaf. intros s. apply leaf_new_work_item.
  - apply visited_moves; [exact IH|apply moves_submit].
  - eapply visited_rtc; [exact IH|apply changes_shutdown].
  - eapply visited_change; [exact IH|by apply change_settled].
  - eapply visited_change; [|by apply (change_settled _ fut)].
    eapply visited_change; [exact IH|].
    apply change_leaf, (leaf_new_work_item _ w).
  - eapply visited_change; [exact IH|by apply change_settled].
  - eapply visited_rtc; [exact IH|apply changes_run_pl_worker].
Qed.

(** *** What is never assigned *)

Ltac keeps_ops :=
  unfold exec, _internal_submit, _submit_to_stage,
    _track_running_pipeline_work, _get_completed_work_item_info,
    add_stage;
  keeps_auto.

Lemma leaf_frozen (st st' : pl_state) : leaf st st' → frozen st' = frozen st.
Proof.
  destruct 1 as [| | | | | | | | | | | |st p Hp| | | | | |];
    try reflexivity;
    try match goal with
        | |- frozen (exec ?m ?st) = frozen ?st =>
            revert st; change (keeps frozen m)
        end;
    try (keeps_ops; fail).
  by destruct p.
Qed.

Lemma visited_frozen (st : pl_state) :
  visited st →
  _is_shutdown st = false ∧ exec_shutdown (_process_exec2 st) = false.
Proof.
  induction 1 as [stages n|st st' _ IH Hc]; [done|].
  destruct Hc as [s s' Hl|s f v Hv]; [|exact IH].
  apply leaf_frozen in Hl. unfold frozen in Hl.
  injection Hl as -> _ ->. exact IH.
Qed.

(** X13: nothing ever assigns [_is_shutdown] or shuts the second process
    pool down: in every state a pipeline reaches the flag is [False], so
    that [_start] never raises the [InvalidFunctionArgument] it has for a
    pipeline that was started and stopped, and the second pool still
    takes work, also after [shutdown]. *)
Theorem shutdown_flag_is_never_set (st : pl_state) :
  reachable st →
  _is_shutdown st = false ∧
  exec_shutdown (_process_exec2 st) = false ∧
  eval _start st ≠ Raises InvalidFunctionArgument.
Proof.
  intros [Hs He]%reachable_visited%visited_frozen.
  split; [done|]. split; [done|].
  unfold eval, _start, Executor_submit. rewrite run_bind. st_simpl.
  rewrite Hs. rewrite run_bind. st_simpl.
  destruct (_pl_worker_future st); [done|].
  rewrite !run_bind. st_simpl.
  destruct (exec_shutdown (pool_get ThreadExec st)); [done|].
  unfold new_future. rewrite !run_bind. st_simpl. done.
Qed.

Lemma shutdown_flag_is_never_set_witness :
  _is_shutdown (exec (shutdown 8) S1) = false ∧
  exec_shutdown (_process_exec2 (exec (shutdown 8) S1)) = false ∧
  eval _start (exec (shutdown 8) S1) ≠ Raises InvalidFunctionArgument.
Proof.
  apply (shutdown_flag_is_never_set (exec (shutdown 8) S1)).
  apply reach_shutdown, reach_controller, reach_worker_returns_item,
    started_reachable.
Defined.
End Moves.

Module Tables.
Import Scenarios ControllerFacts ControllerLaws Moves.

Section dict_more.
Context {V : Type}.
Implicit Types (d : list (nat * V)) (k : nat) (v : V).

Lemma dict_set_keys d k v :
  (dict_set k v d).*1 = if bool_decide (k ∈ d.*1) then d.*1 else d.*1 ++ [k].
Proof.
  induction d as [|[k' v'] d IH]; [done|]. cbn.
  destruct (decide (k' = k)) as [->|Hne]; cbn.
  - by rewrite bool_decide_eq_true_2 by set_solver.
  - rewrite IH. repeat case_bool_decide; set_solver.
Qed.

Lemma dict_set_NoDup d k v : NoDup d.*1 → NoDup (dict_set k v d).*1.
Proof.
  intros Hnd. rewrite dict_set_keys. case_bool_decide; [done|].
  apply NoDup_app. split; [done|]. split; [set_solver|].
  apply NoDup_singleton.
Qed.

Lemma elem_of_dict_del d k k' v' :
  (k', v') ∈ dict_del k d ↔ (k', v') ∈ d ∧ k' ≠ k.
Proof.
  induction d as [|[k1 v1] d IH]; cbn; [set_solver|].
  destruct (decide (k1 = k)) as [->|Hne]; set_solver.
Qed.

Lemma dict_del_NoDup d k : NoDup d.*1 → NoDup (dict_del k d).*1.
Proof.
  induction d as [|[k1 v1] d IH]; cbn; [done|].
  intros [Hk Hd]%NoDup_cons.
  destruct (decide (k1 = k)) as [->|Hne]; [by apply IH|].
  cbn. apply NoDup_cons. split; [|by apply IH].
  intros ((k2 & v2) & -> & Hin)%list_elem_of_fmap.
  apply elem_of_dict_del in Hin as [Hin _].
  apply Hk. apply list_elem_of_fmap. by exists (k2, v2).
Qed.

Lemma elem_of_dict_set_inv d k v k' v' :
  (k', v') ∈ dict_set k v d → (k', v') = (k, v) ∨ (k', v') ∈ d.
Proof.
  induction d as [|[k1 v1] d IH]; cbn; [set_solver|].
  destruct (decide (k1 = k)) as [->|Hne]; set_solver.
Qed.

Lemma elem_of_dict_set_other d k v k' v' :
  (k', v') ∈ d → k' ≠ k → (k', v') ∈ dict_set k v d.
Proof.
  induction d as [|[k1 v1] d IH]; cbn; [set_solver|].
  destruct (decide (k1 = k)) as [->|Hne]; set_solver.
Qed.

Lemma elem_of_dict_set_here d k v : (k, v) ∈ dict_set k v d.
Proof. apply dict_get_elem, dict_get_set. Qed.

Lemma dict_set_same d k v : dict_get k d = Some v → dict_set k v d = d.
Proof.
  induction d as [|[k1 v1] d IH]; cbn; [done|].
  destruct (decide (k1 = k)) as [->|Hne]; [by intros [= ->]|].
  intros H. by rewrite IH.
Qed.
End dict_more.

(** What [_get_completed_work_item_info] does to the two tables. *)
Lemma untrack_tables (st : pl_state) (fut : nat) :
  let st' := exec (_get_completed_work_item_info fut) st in
  match _plfut_to_wi st !! fut with
  | None => ctx_tables st' = ctx_tables st
  | Some w =>
      _plfut_to_wi st' = delete fut (_plfut_to_wi st) ∧
      match dict_get w (_running_wi_contexts st) with
      | None => _running_wi_contexts st' = _running_wi_contexts st
      | Some ctxs =>
          ∃ ctxs',
            (ctxs' = ctxs ∨
             ∃ l1 x l2, ctxs = l1 ++ x :: l2 ∧ ctx_fut x = fut ∧
                        ctxs' = l1 ++ l2) ∧
            _running_wi_contexts st'
              = match ctxs' with
                | [] => dict_del w
                          (dict_set w [] (_running_wi_contexts st))
                | _ => dict_set w ctxs' (_running_wi_contexts st)
                end
      end
  end.
Proof.
  unfold exec, _get_completed_work_item_info.
  run. destruct (_plfut_to_wi st !! fut) as [w|] eqn:Hf; run; run; [|done].
  destruct (dict_get w (_running_wi_contexts st)) as [ctxs|] eqn:Hd;
    [|done].
  pose proof (ctx_loop_spec fut ctxs None) as Hloop.
  destruct (ctx_loop fut ctxs None) as [[x|] [|]]; [| |done|].
  - destruct Hloop as (l1 & l2 & -> & Hx & Hl1).
    assert (x ∉ l1) as Hnin.
    { intros Hin. rewrite Forall_forall in Hl1. by apply (Hl1 x Hin). }
    rewrite (py_list_remove_app x l1 l2 Hnin).
    run. split; [by destruct (l1 ++ l2); run|].
    exists (l1 ++ l2). split; [right; by exists l1, x, l2|].
    by destruct (l1 ++ l2); run.
  - run. split; [by destruct ctxs; run|].
    exists ctxs. split; [by left|]. by destruct ctxs; run.
  - run. split; [by destruct ctxs; run|].
    exists ctxs. split; [by left|]. by destruct ctxs; run.
Qed.

(** What [_submit_to_stage] does to the two tables. *)
Lemma submit_to_stage_tables (st : pl_state) (stage : PipelineStage)
    (wi : nat) (pc : option nat) (second : bool) :
  let st' := exec (_submit_to_stage stage wi pc second) st in
  ctx_tables st' = ctx_tables st ∨
  ∃ cs fut,
    _plfut_to_wi st !! fut = None ∧
    _plfut_to_wi st' = <[fut:=wi]> (_plfut_to_wi st) ∧
    _running_wi_contexts st'
      = dict_set wi
          (contexts_of wi st ++
           [{| ctx_cur_stage := cs; ctx_fut := fut; ctx_wi := wi |}])
          (_running_wi_contexts st).
Proof.
  intros st'.
  set (G := λ s : pl_state,
         ctx_tables s = ctx_tables st ∨
         ∃ cs fut,
           _plfut_to_wi st !! fut = None ∧
           _plfut_to_wi s = <[fut:=wi]> (_plfut_to_wi st) ∧
           _running_wi_contexts s
             = dict_set wi
                 (contexts_of wi st ++
                  [{| ctx_cur_stage := cs; ctx_fut := fut; ctx_wi := wi |}])
                 (_running_wi_contexts st)).
  set (P0 := λ s : pl_state, ctx_tables s = ctx_tables st).
  assert (∀ {A} (m : PL A), keeps ctx_tables m →
            hoare P0 m (λ _, P0) G) as Hstep.
  { intros A m Hk. eapply hoare_weaken_exc;
      [apply (hoare_keeps ctx_tables (λ p, p = ctx_tables st) m Hk)|].
    intros s Hs. by left. }
  assert (hoare P0 (_submit_to_stage stage wi pc second) (λ _, G) G) as Hh.
  { unfold _submit_to_stage, wi_get.
    apply hoare_bind_gets_any. intros w.
    eapply hoare_bind; [apply Hstep; keeps_auto|]. intros copy.
    eapply hoare_bind with (R := λ _, P0).
    { destruct (is_subprocess stage) as [e|[]]; [|destruct second|];
        apply Hstep; keeps_auto. }
    intros fut. apply hoare_bind_gets_any. intros w'.
    intros s Hs. rewrite run_bind.
    unfold P0, ctx_tables in Hs. injection Hs as Hd Hm.
    destruct (_plfut_to_wi s !! fut) as [w0|] eqn:Hfut.
    - unfold _track_running_pipeline_work. run. rewrite Hfut.
      left. unfold ctx_tables. by rewrite Hd, Hm.
    - rewrite (track_run _ _ _ _ Hfut). st_simpl. right.
      exists (_cur_stage w'), fut. unfold contexts_of.
      by rewrite <- Hd, <- Hm. }
  specialize (Hh st eq_refl). unfold st', exec.
  by destruct (_submit_to_stage stage wi pc second st) as [[a|e|] s1].
Qed.

Lemma leaf_tables (st st' : pl_state) :
  leaf st st' →
  ctx_tables st' = ctx_tables st ∨
  (∃ stage wi pc second,
     st' = exec (_submit_to_stage stage wi pc second) st) ∨
  (∃ fut, st' = exec (_get_completed_work_item_info fut) st).
Proof.
  destruct 1 as [| | |st k| | |st stage wi pc second|st fut| | | | |st p Hp
                 | | | | | |];
    try (by left);
    try (left;
         match goal with
         | |- ctx_tables (exec ?m ?st) = ctx_tables ?st =>
             revert st; change (keeps ctx_tables m)
         end; keeps_ops; fail).
  - right. left. by exists stage, wi, pc, second.
  - right. right. by exists fut.
Qed.

Lemma tight_track (d : list (nat * list _WorkItemStageRunCtx))
    (m : gmap nat nat) (cs : Z) (fut wi : nat) :
  tables_tight d m →
  tables_tight
    (dict_set wi
       (default [] (dict_get wi d) ++
        [{| ctx_cur_stage := cs; ctx_fut := fut; ctx_wi := wi |}]) d)
    (<[fut:=wi]> m).
Proof.
  intros (Hnd & Hent & Hconv).
  set (c := {| ctx_cur_stage := cs; ctx_fut := fut; ctx_wi := wi |}).
  assert (Forall (λ c, ctx_wi c = wi) (default [] (dict_get wi d))) as Hold.
  { destruct (dict_get wi d) as [old|] eqn:Hg; [|constructor].
    apply dict_get_elem in Hg. by apply Hent in Hg as [_ ?]. }
  split; [by apply dict_set_NoDup|]. split.
  - intros w ctxs [[= -> ->]|Hin]%elem_of_dict_set_inv; [|by apply Hent].
    split; [by destruct (default [] (dict_get wi d))|].
    apply Forall_app. split; [done|]. by repeat constructor.
  - intros f w. destruct (decide (f = fut)) as [->|Hne].
    + rewrite lookup_insert_eq. intros [= <-].
      eexists _, c. split; [apply elem_of_dict_set_here|].
      split; [|done]. apply elem_of_app. right. by left.
    + rewrite lookup_insert_ne by done.
      intros (ctxs & c0 & Hin & Hc0 & Hf)%Hconv.
      destruct (decide (w = wi)) as [->|Hw].
      * eexists _, c0. split; [apply elem_of_dict_set_here|].
        split; [|done]. apply elem_of_app. left.
        destruct (dict_get wi d) as [old|] eqn:Hg.
        -- apply dict_get_elem in Hg.
           by rewrite (dict_unique d wi old ctxs Hnd Hg Hin).
        -- exfalso. apply dict_get_is_Some in Hin as [? Hs]. congruence.
      * exists ctxs, c0. split; [by apply elem_of_dict_set_other|done].
Qed.

Lemma elem_of_remove_middle {A} (l1 l2 : list A) (x y : A) :
  y ∈ l1 ++ x :: l2 → y ≠ x → y ∈ l1 ++ l2.
Proof. set_solver. Qed.

Lemma tight_untrack (st : pl_state) (fut : nat) :
  tables_tight (_running_wi_contexts st) (_plfut_to_wi st) →
  let st' := exec (_get_completed_work_item_info fut) st in
  tables_tight (_running_wi_contexts st') (_plfut_to_wi st').
Proof.
  intros Ht st'. pose proof (untrack_tables st fut) as Hu.
  fold st' in Hu. cbv zeta in Hu.
  destruct (_plfut_to_wi st !! fut) as [w|] eqn:Hf.
  2:{ unfold ctx_tables in Hu. injection Hu as -> ->. exact Ht. }
  destruct Ht as (Hnd & Hent & Hconv).
  destruct Hu as [Hm Hd]. rewrite Hm.
  assert (∀ f w', delete fut (_plfut_to_wi st) !! f = Some w' →
            f ≠ fut ∧ ∃ ctxs c, (w', ctxs) ∈ _running_wi_contexts st ∧
                                c ∈ ctxs ∧ ctx_fut c = f) as Hconv'.
  { intros f w' [Hne Hl]%lookup_delete_Some. split; [done|]. eauto. }
  destruct (dict_get w (_running_wi_contexts st)) as [ctxs|] eqn:Hg.
  2:{ rewrite Hd. split; [done|]. split; [done|].
      intros f w' Hl. by apply Hconv' in Hl as [_ ?]. }
  pose proof (dict_get_elem _ _ _ Hg) as Hin.
  destruct (Hent _ _ Hin) as [Hne Hwi].
  destruct Hd as (ctxs' & [->|(l1 & x & l2 & -> & Hx & ->)] & ->).
  { destruct ctxs as [|c0 ctxs]; [done|].
    rewrite (dict_set_same _ _ _ Hg). split; [done|]. split; [done|].
    intros f w' Hl. by apply Hconv' in Hl as [_ ?]. }
  assert (∀ f w', delete fut (_plfut_to_wi st) !! f = Some w' → w' = w →
            ∃ c, c ∈ l1 ++ l2 ∧ ctx_fut c = f) as Hsame.
  { intros f w' (Hnf & cs & c0 & Hin0 & Hc0 & Hf0)%Hconv' ->.
    rewrite (dict_unique _ w cs (l1 ++ x :: l2) Hnd Hin0 Hin) in Hc0.
    exists c0. split; [|done].
    eapply elem_of_remove_middle; [exact Hc0|]. congruence. }
  destruct (l1 ++ l2) as [|c1 rest] eqn:Hrest.
  - split; [by apply dict_del_NoDup, dict_set_NoDup|]. split.
    + intros w' cs [[[= -> ->]|Hi]%elem_of_dict_set_inv Hw]%elem_of_dict_del;
        [done|by apply Hent].
    + intros f w' Hl. destruct (decide (w' = w)) as [->|Hw].
      * destruct (Hsame f w Hl eq_refl) as (c & []%elem_of_nil & _).
      * apply Hconv' in Hl as (_ & cs & c0 & Hi & Hc0 & Hf0).
        exists cs, c0. split; [|done].
        apply elem_of_dict_del. split; [|done].
        by apply elem_of_dict_set_other.
  - split; [by apply dict_set_NoDup|]. split.
    + intros w' cs [[= -> ->]|Hi]%elem_of_dict_set_inv; [|by apply Hent].
      split; [done|]. rewrite <- Hrest.
      apply Forall_app in Hwi as [H1 [_ H2]%Forall_cons].
      by apply Forall_app.
    + intros f w' Hl. destruct (decide (w' = w)) as [->|Hw].
      * destruct (Hsame f w Hl eq_refl) as (c & Hc & Hfc).
        exists (c1 :: rest), c. split; [apply elem_of_dict_set_here|done].
      * apply Hconv' in Hl as (_ & cs & c0 & Hi & Hc0 & Hf0).
        exists cs, c0. split; [by apply elem_of_dict_set_other|done].
Qed.

Lemma visited_tables_tight (st : pl_state) :
  visited st → tables_tight (_running_wi_contexts st) (_plfut_to_wi st).
Proof.
  induction 1 as [stages n|st st' _ IH Hc];
    [|destruct Hc as [s s' Hl|s f v Hv]; [|exact IH]].
  { split; [constructor|]. split.
    - by intros w ctxs ?%elem_of_nil.
    - intros f w Hf. cbn in Hf. by rewrite lookup_empty in Hf. }
  apply leaf_tables in Hl
    as [Hsame|[(stage & wi & pc & second & ->)|(fut & ->)]].
  - unfold ctx_tables in Hsame. injection Hsame as -> ->. exact IH.
  - destruct (submit_to_stage_tables s stage wi pc second)
      as [Hsame|(cs & fut & _ & -> & ->)].
    + unfold ctx_tables in Hsame. injection Hsame as -> ->. exact IH.
    + by apply tight_track.
  - by apply tight_untrack.
Qed.

(** X14: in every state a pipeline reaches, the table of running work
    items and the table of futures describe the same executions: no work
    item is listed twice or with an empty list, every context is listed
    under its own work item and its future is recorded for that work item,
    no future belongs to two contexts, and every recorded future is the
    future of a context; so [_is_wi_still_running] holds exactly of the
    work items of the table. *)
Theorem running_tables_agree (st : pl_state) :
  reachable st →
  NoDup (_running_wi_contexts st).*1 ∧
  NoDup (tracked_futs st) ∧
  (∀ w ctxs, (w, ctxs) ∈ _running_wi_contexts st →
     ctxs ≠ [] ∧
     ∀ c, c ∈ ctxs → ctx_wi c = w ∧ _plfut_to_wi st !! ctx_fut c = Some w) ∧
  (∀ f w, _plfut_to_wi st !! f = Some w →
     ∃ ctxs c, (w, ctxs) ∈ _running_wi_contexts st ∧ c ∈ ctxs ∧
               ctx_fut c = f) ∧
  ∀ wi, eval (_is_wi_still_running wi) st
          = Returns (bool_decide (wi ∈ (_running_wi_contexts st).*1)).
Proof.
  intros Hr.
  destruct (reachable_contexts_ok st Hr) as (Hnd & Hfwd & Hfuts & _).
  destruct (visited_tables_tight st (reachable_visited st Hr))
    as (_ & Hent & Hconv).
  split; [done|]. split; [done|]. split; [|split; [done|]].
  - intros w ctxs Hin. destruct (Hent w ctxs Hin) as [Hne Hwi].
    split; [done|]. intros c Hc. split; [|by eapply Hfwd].
    rewrite Forall_forall in Hwi. by apply Hwi.
  - intros wi. unfold eval, _is_wi_still_running. st_simpl. f_equal.
    destruct (dict_get wi (_running_wi_contexts st)) as [ctxs|] eqn:Hg.
    + apply dict_get_elem in Hg.
      rewrite bool_decide_eq_true_2
        by (apply list_elem_of_fmap; by exists (wi, ctxs)).
      destruct (Hent wi ctxs Hg) as [Hne _]. by destruct ctxs.
    + rewrite bool_decide_eq_false_2; [done|].
      intros ((w' & ctxs) & -> & Hin)%list_elem_of_fmap.
      cbn in Hg. apply dict_get_is_Some in Hin as [? Hs]. congruence.
Qed.

Lemma running_tables_agree_witness :
  NoDup (tracked_futs S4_upstream_done) ∧
  eval (_is_wi_still_running 0) S4_upstream_done = Returns true.
Proof.
  destruct (running_tables_agree S4_upstream_done)
    as (_ & Hnd & _ & _ & Hrun).
  - apply reach_worker_returns_item, started_reachable.
  - split; [exact Hnd|]. rewrite Hrun. reflexivity.
Defined.

(** X12: tracking and completion are inverse: in a state a pipeline
    reaches, tracking an execution of [wi] under a future that is not
    tracked returns, after which the future is recorded for [wi] and the
    new context is the last one of [wi]; and untracking that future right
    away returns [wi] and that same context and restores the two tables
    exactly, the entry of a work item with nothing else running included. *)
Theorem tracking_is_undone_by_completion (st : pl_state) (cs : Z)
    (fut wi : nat) :
  reachable st →
  _plfut_to_wi st !! fut = None →
  let c := {| ctx_cur_stage := cs; ctx_fut := fut; ctx_wi := wi |} in
  ∃ st1 st2,
    _track_running_pipeline_work cs fut wi st = (Returns tt, st1) ∧
    _plfut_to_wi st1 !! fut = Some wi ∧
    contexts_of wi st1 = contexts_of wi st ++ [c] ∧
    _get_completed_work_item_info fut st1 = (Returns (wi, c), st2) ∧
    _plfut_to_wi st2 = _plfut_to_wi st ∧
    _running_wi_contexts st2 = _running_wi_contexts st.
Proof.
  intros Hr Hfut.
  destruct (reachable_contexts_ok st Hr) as (Hnd & Hfwd & _ & _).
  destruct (visited_tables_tight st (reachable_visited st Hr))
    as (_ & Hent & _).
  apply track_then_complete; [done| |].
  - unfold contexts_of.
    destruct (dict_get wi (_running_wi_contexts st)) as [old|] eqn:Hg;
      [|constructor].
    apply dict_get_elem in Hg. apply Forall_forall. intros c0 Hc0 Heq.
    rewrite <- Heq, (Hfwd _ _ _ Hg Hc0) in Hfut. done.
  - intros Hg. apply dict_get_elem in Hg. by apply Hent in Hg as [? _].
Qed.

Lemma tracking_is_undone_by_completion_witness :
  ∃ st1 st2,
    _track_running_pipeline_work 1 9 0 (started [thread_stage])
      = (Returns tt, st1) ∧
    _plfut_to_wi st1 !! 9%nat = Some 0%nat ∧
    _get_completed_work_item_info 9 st1
      = (Returns (0%nat, {| ctx_cur_stage := 1; ctx_fut := 9; ctx_wi := 0 |}),
         st2) ∧
    _plfut_to_wi st2 = _plfut_to_wi (started [thread_stage]) ∧
    _running_wi_contexts st2 = _running_wi_contexts (started [thread_stage]).
Proof.
  destruct (tracking_is_undone_by_completion (started [thread_stage]) 1 9 0)
    as (st1 & st2 & H1 & H2 & _ & H3 & H4 & H5).
  - apply started_reachable.
  - vm_compute; reflexivity.
  - by exists st1, st2.
Defined.
End Tables.

Module Futures.
Import Scenarios ControllerFacts ControllerLaws Moves Tables.

Section pres.
Context (R : relation pl_state) `{!PreOrder R}.

Lemma pres_ret {A} (a : A) : pres R (mret a).
Proof. intros st. reflexivity. Qed.

Lemma pres_raise {A} (e : exc) : pres R (raise e : PL A).
Proof. intros st. reflexivity. Qed.

Lemma pres_gets {A} (f : pl_state → A) : pres R (gets f).
Proof. intros st. reflexivity. Qed.

Lemma pres_bind {A B} (m : PL A) (k : A → PL B) :
  pres R m → (∀ a, pres R (k a)) → pres R (m ≫= k).
Proof.
  intros Hm Hk st. rewrite run_bind. specialize (Hm st).
  destruct (m st) as [[a|e|] st']; cbn [snd] in *; [|done..].
  etrans; [exact Hm|apply Hk].
Qed.

Lemma pres_when (b : bool) (m : PL unit) : pres R m → pres R (when b m).
Proof. destruct b; [done | intros _; apply pres_ret]. Qed.
End pres.

#[local] Instance futures_grow_preorder : PreOrder futures_grow.
Proof.
  split.
  - intros st. by split.
  - intros s1 s2 s3 [Hd1 Hs1] [Hd2 Hs2]. split; [set_solver|].
    intros f v Hf Hv. apply Hs2; [|done]. by apply Hs1.
Qed.

Ltac pres_with known :=
  repeat first
    [ known
    | apply (pres_ret futures_grow) | apply (pres_raise futures_grow)
    | apply (pres_gets futures_grow)
    | apply (pres_when futures_grow)
    | apply (pres_bind futures_grow); [|intros ?]
    | match goal with
      | |- pres _ (match ?x with _ => _ end) => destruct x
      | |- pres _ (let '(_, _) := ?x in _) => destruct x
      end ].

(** A change that leaves the futures alone. *)
Lemma grow_same (f : pl_state → pl_state) :
  (∀ st, futures (f st) = futures st) → pres futures_grow (modify f).
Proof. intros Hf st. unfold modify. cbn [snd]. split; by rewrite Hf. Qed.

Lemma grow_new_future : pres futures_grow new_future.
Proof.
  intros st. unfold new_future, futures_grow. cbn [snd]. st_simpl.
  pose proof (is_fresh (dom (futures st))) as Hfresh.
  split; [set_solver|].
  intros f v Hf Hv. rewrite lookup_insert_ne; [done|].
  intros <-. apply Hfresh. apply elem_of_dom. by eexists.
Qed.

Lemma grow_settle (f : nat) (v : Future) (st : pl_state) :
  fut_is_done st f = false →
  futures_grow st (upd_futures (insert f v) st).
Proof.
  intros Hd. unfold futures_grow. st_simpl. split; [set_solver|].
  intros f' v' Hf Hv. rewrite lookup_insert_ne; [done|].
  intros <-. unfold fut_is_done in Hd. rewrite Hf in Hd. by destruct v'.
Qed.

Lemma grow_set_result (f : nat) (r : fut_value) :
  pres futures_grow (Future_set_result f r).
Proof.
  intros st. unfold Future_set_result, Future_done. run.
  destruct (fut_is_done st f) eqn:Hd; [reflexivity|]. by apply grow_settle.
Qed.

Lemma grow_set_exception (f : nat) (e : exc) :
  pres futures_grow (Future_set_exception f e).
Proof.
  intros st. unfold Future_set_exception, Future_done. run.
  destruct (fut_is_done st f) eqn:Hd; [reflexivity|]. by apply grow_settle.
Qed.

Ltac grow_prims :=
  first [ apply grow_new_future | apply grow_set_result
        | apply grow_set_exception
        | apply grow_same; intros ?;
            repeat match goal with p : pool |- _ => destruct p end;
            reflexivity ].

Ltac grow_tac := pres_with grow_prims.

Lemma grow_executor_submit (p : pool) (t : task) :
  pres futures_grow (Executor_submit p t).
Proof. unfold Executor_submit. grow_tac. Qed.

Lemma grow_internal_submit (k : option nat) :
  pres futures_grow (_internal_submit k).
Proof.
  unfold _internal_submit, _start, Future_done.
  pres_with ltac:(first [apply grow_executor_submit | grow_prims]).
Qed.

Lemma grow_track (cs : Z) (fut wi : nat) :
  pres futures_grow (_track_running_pipeline_work cs fut wi).
Proof. unfold _track_running_pipeline_work. grow_tac. Qed.

Lemma grow_submit_to_stage (stage : PipelineStage) (wi : nat)
    (pc : option nat) (second : bool) :
  pres futures_grow (_submit_to_stage stage wi pc second).
Proof.
  unfold _submit_to_stage, wi_get, new_work_item.
  pres_with ltac:(first [apply grow_executor_submit | apply grow_track
                        | grow_prims]).
Qed.

Lemma leaf_futures_grow (st st' : pl_state) :
  leaf st st' → futures_grow st st'.
Proof.
  destruct 1;
    try (unfold futures_grow; st_simpl; split; [done|by auto]);
    match goal with
    | |- futures_grow ?st (exec ?m ?st) =>
        revert st; change (pres futures_grow m)
    end.
  all: first
    [ apply grow_set_exception | apply grow_internal_submit
    | apply grow_submit_to_stage
    | intros ?; unfold futures_grow, new_work_item, new_pipe_connections;
      st_simpl; split; [done|by auto]
    | unfold wi_update, _get_queued_wi, _renew_input_queue_future,
        _get_completed_work_item_info, _set_wi_to_finished,
        _is_wi_still_running, _cleanup_pipe_connections, conn_close,
        Executor_shutdown, add_stage; grow_tac ].
Qed.

(** X15: a settled future is final: what [submit] and the controller
    thread do, however far the thread gets and however it ends, never
    drops a future and never changes the result or the exception of a
    future that is done; in particular the future of a caller is
    completed once. *)
Theorem settled_futures_are_final (st : pl_state) (f : nat) (v : Future)
    (fuel : nat) (wi : option nat) :
  futures st !! f = Some v →
  v ≠ FutPending →
  futures (exec (_pl_worker fuel) st) !! f = Some v ∧
  futures (exec (submit wi) st) !! f = Some v.
Proof.
  intros Hf Hv.
  assert (∀ s s', rtc leaf s s' → futures_grow s s') as Hrtc.
  { induction 1 as [|s1 s2 s3 Hl _ IH]; [reflexivity|].
    etrans; [by apply leaf_futures_grow|exact IH]. }
  split.
  - by apply (Hrtc st _ (moves_pl_worker fuel st)).
  - by apply (Hrtc st _ (moves_submit wi st)).
Qed.

Lemma settled_futures_are_final_witness :
  futures S3_failed !! 3%nat = Some (FutException boom) ∧
  futures (exec (_pl_worker 8) S3_failed) !! 3%nat
    = Some (FutException boom).
Proof.
  assert (H : futures S3_failed !! 3%nat = Some (FutException boom))
    by (vm_compute; reflexivity).
  split; [exact H|].
  exact (proj1 (settled_futures_are_final S3_failed 3 (FutException boom)
                  8 None H ltac:(discriminate))).
Defined.
End Futures.

Module Lifecycle.
Import Scenarios ControllerFacts ControllerLaws Moves Tables Futures.

Lemma leaf_iq_valid (st st' : pl_state) :
  leaf st st' → iq_valid st → iq_valid st'.
Proof.
  intros Hl Hv.
  pose proof (leaf_futures_grow _ _ Hl) as [Hd _].
  assert (_input_queue_fut st' = _input_queue_fut st ∨
          ∃ f, _input_queue_fut st' = Some f ∧ f ∈ dom (futures st'))
    as [Heq|(f & Hf & Hin)].
  { clear Hd Hv.
    destruct Hl;
      try (left; reflexivity);
      try (left;
           match goal with
           | |- _input_queue_fut (exec ?m ?st) = _input_queue_fut ?st =>
               revert st; change (keeps _input_queue_fut m)
           end; keeps_ops; fail).
    right. unfold exec, _renew_input_queue_future, new_future.
    repeat run.
    destruct (_pl_input_queue st); st_simpl.
    - eexists. split; [reflexivity|]. set_solver.
    - unfold Future_set_result, Future_done, fut_is_done.
      repeat run. rewrite lookup_insert_eq. st_simpl.
      eexists. split; [reflexivity|]. set_solver. }
  - intros f Hf. rewrite Heq in Hf. apply Hd, Hv, Hf.
  - intros f' Hf'. rewrite Hf in Hf'. by injection Hf' as <-.
Qed.

Lemma visited_iq_valid (st : pl_state) : visited st → iq_valid st.
Proof.
  induction 1 as [stages n|st st' _ IH Hc]; [done|].
  destruct Hc as [s s' Hl|s f v Hv]; [by eapply leaf_iq_valid|].
  intros f' Hf'. st_simpl. set_solver.
Qed.

(** *** Submitting *)

Lemma start_run (st : pl_state) :
  _is_shutdown st = false →
  (_pl_worker_future st = None → exec_shutdown (_thread_exec st) = false) →
  ∃ st1,
    _start st = (Returns tt, st1) ∧
    is_Some (_pl_worker_future st1) ∧
    (∀ f v, futures st !! f = Some v → futures st1 !! f = Some v) ∧
    _wi_to_wifut st1 = _wi_to_wifut st ∧
    _pl_input_queue st1 = _pl_input_queue st ∧
    _input_queue_fut st1 = _input_queue_fut st.
Proof.
  intros Hsd Hpool. unfold _start. run. rewrite Hsd. run.
  destruct (_pl_worker_future st) as [f|] eqn:Hwf.
  { exists st. by rewrite Hwf. }
  unfold Executor_submit, new_future. repeat run. st_simpl.
  change (pool_get ThreadExec st) with (_thread_exec st).
  rewrite Hpool by done. repeat run. cbn [pool_upd].
  eexists. split; [reflexivity|]. st_simpl. split; [by eexists|].
  split; [|done].
  intros f v Hf. rewrite lookup_insert_ne; [done|].
  intros <-. apply (is_fresh (dom (futures st))), elem_of_dom. by eexists.
Qed.

Lemma queue_not_empty {A} (q : list A) (x : A) :
  (if q ++ [x] is [] then false else true) = true.
Proof. by destruct q. Qed.

(** X17: [submit] of a work item that is not in the pipeline, on a
    pipeline whose controller runs or can be started, returns a future
    that is new and pending, registers it for the item, puts the item at
    the tail of the input queue, leaves a controller thread, and leaves
    the future of the input queue, when there is one, done, so that a
    controller that waits for it wakes up; the futures that were there
    keep their state but for that one. *)
Theorem submit_registers_and_queues (st : pl_state) (wi : nat) :
  reachable st →
  dict_get (Some wi) (_wi_to_wifut st) = None →
  (_pl_worker_future st = None → exec_shutdown (_thread_exec st) = false) →
  ∃ fut st',
    submit (Some wi) st = (Returns fut, st') ∧
    futures st !! fut = None ∧
    futures st' !! fut = Some FutPending ∧
    _wi_to_wifut st' = dict_set (Some wi) fut (_wi_to_wifut st) ∧
    _pl_input_queue st' = _pl_input_queue st ++ [Some wi] ∧
    is_Some (_pl_worker_future st') ∧
    (∀ iq, _input_queue_fut st' = Some iq → fut_is_done st' iq = true) ∧
    (∀ f v, futures st !! f = Some v →
            _input_queue_fut st ≠ Some f → futures st' !! f = Some v).
Proof.
  intros Hr Hnew Hpool.
  pose proof (visited_frozen _ (reachable_visited _ Hr)) as [Hsd _].
  pose proof (visited_iq_valid _ (reachable_visited _ Hr)) as Hiq.
  destruct (start_run st Hsd Hpool)
    as (st1 & Hstart & Hwf & Hfut & Hreg & Hq & Hiq1).
  unfold submit. run. rewrite Hnew.
  unfold _internal_submit. rewrite run_bind, Hstart. st_simpl.
  unfold new_future. repeat run. rewrite ?Hiq1, ?Hreg, ?Hq.
  set (fut := fresh (dom (futures st1))).
  assert (futures st1 !! fut = None) as Hfresh.
  { apply not_elem_of_dom, is_fresh. }
  assert (futures st !! fut = None) as Hfresh0.
  { destruct (futures st !! fut) as [v|] eqn:Hv; [|done].
    apply Hfut in Hv. congruence. }
  exists fut.
  destruct (_input_queue_fut st) as [iq|] eqn:Hiqf.
  - assert (iq ≠ fut) as Hne.
    { intros ->. specialize (Hiq fut Hiqf).
      apply elem_of_dom in Hiq as [v Hv]. congruence. }
    unfold Future_done. repeat run. rewrite queue_not_empty.
    unfold fut_is_done at 1. st_simpl.
    rewrite lookup_insert_ne by done.
    pose proof (Hiq iq Hiqf) as [v Hv]%elem_of_dom.
    rewrite (Hfut _ _ Hv).
    destruct v as [|r|e]; cbn [andb negb when];
      unfold Future_set_result, Future_done, fut_is_done;
      repeat run; rewrite ?lookup_insert_ne by done;
      rewrite ?(Hfut _ _ Hv); repeat run;
      (eexists; split; [reflexivity|]); st_simpl;
      rewrite ?Hiq1, ?Hreg, ?Hq;
      (split; [done|]); (split; [by simplify_map_eq|]);
      (split; [done|]); (split; [done|]); (split; [done|]);
      (split;
       [ intros iq' [= <-]; unfold fut_is_done; st_simpl;
         by simplify_map_eq
       | intros f v Hf Hnf;
         assert (f ≠ fut) by congruence;
         assert (f ≠ iq) by congruence;
         rewrite ?lookup_insert_ne by done; by apply Hfut ]).
  - repeat run. eexists. split; [reflexivity|]. st_simpl.
    rewrite ?Hiq1, ?Hreg, ?Hq.
    split; [done|]. split; [by simplify_map_eq|].
    do 3 (split; [done|]). split; [done|].
    intros f v Hf _. assert (f ≠ fut) by congruence.
    rewrite ?lookup_insert_ne by done. by apply Hfut.
Qed.

Lemma submit_registers_and_queues_witness :
  ∃ fut st',
    submit (Some 5%nat) (started [thread_stage]) = (Returns fut, st') ∧
    futures st' !! fut = Some FutPending ∧
    _pl_input_queue st' = [Some 5%nat].
Proof.
  destruct (submit_registers_and_queues (started [thread_stage]) 5)
    as (fut & st' & Hrun & _ & Hp & _ & Hq & _).
  - apply started_reachable.
  - vm_compute; reflexivity.
  - vm_compute; discriminate.
  - exists fut, st'. split; [exact Hrun|]. split; [exact Hp|].
    rewrite Hq. vm_compute; reflexivity.
Defined.

(** *** After [shutdown] *)

(** X16: a pipeline that was shut down cannot be used again, and says so
    with the error of the thread pool: after [shutdown] has returned on a
    started pipeline, [_start] raises the [RuntimeError] of
    [ThreadPoolExecutor.submit] and not the [InvalidFunctionArgument] it
    has for that case, [submit] raises it for every work item that is not
    in the pipeline and changes nothing, and a second [shutdown] returns
    at once. *)
Theorem no_restart_after_shutdown (st st' : pl_state) (fuel : nat)
    (f : nat) :
  reachable st →
  _pl_worker_future st = Some f →
  shutdown fuel st = (Returns tt, st') →
  _start st' = (Raises ExecutorRuntimeError, st') ∧
  (∀ wi, submit (Some wi) st'
         = (Raises (if dict_get (Some wi) (_wi_to_wifut st') is Some _
                    then InvalidFunctionArgument
                    else ExecutorRuntimeError), st')) ∧
  ∀ fuel', shutdown fuel' st' = (Returns tt, st').
Proof.
  intros Hr Hwf Hrun.
  assert (_is_shutdown st' = false) as Hsd.
  { apply (reach_shutdown _ fuel), reachable_visited, visited_frozen in Hr.
    unfold exec in Hr. rewrite Hrun in Hr. apply Hr. }
  assert (_pl_worker_future st' = None ∧
          exec_shutdown (_thread_exec st') = true) as [Hnone Hdown].
  { revert Hrun. unfold shutdown. run. rewrite Hwf. run.
    destruct (_wi_to_wifut st); [|done].
    rewrite run_bind.
    destruct (_internal_submit None st) as [[a|e|] st1]; [|done..].
    repeat run.
    destruct (Future_result f (run_pl_worker fuel st1)) as [[a'|e|] st2];
      [|done..].
    unfold Executor_shutdown. repeat run. by intros [= <-]. }
  assert (_start st' = (Raises ExecutorRuntimeError, st')) as Hstart.
  { unfold _start, Executor_submit. run. rewrite Hsd. run. rewrite Hnone.
    repeat run. st_simpl.
    change (pool_get ThreadExec st') with (_thread_exec st').
    by rewrite Hdown. }
  split; [exact Hstart|]. split.
  - intros wi. unfold submit. run.
    destruct (dict_get (Some wi) (_wi_to_wifut st')); [done|].
    unfold _internal_submit. by rewrite run_bind, Hstart.
  - intros fuel'. unfold shutdown. run. by rewrite Hnone.
Qed.

Lemma no_restart_after_shutdown_witness :
  submit (Some 0%nat) (exec (shutdown 8) S1)
    = (Raises ExecutorRuntimeError, exec (shutdown 8) S1).
Proof.
  destruct (no_restart_after_shutdown S1 (exec (shutdown 8) S1) 8 0)
    as (_ & Hsub & _).
  - apply reach_controller, reach_worker_returns_item, started_reachable.
  - vm_compute; reflexivity.
  - vm_compute; reflexivity.
  - rewrite (Hsub 0%nat). vm_compute; reflexivity.
Defined.
End Lifecycle.

Module Completion.
Import Scenarios ControllerFacts ControllerLaws Moves Tables Futures Lifecycle.

Lemma ctx_split (fut : nat) (ctxs : list _WorkItemStageRunCtx) :
  fut ∈ ctx_fut <$> ctxs →
  ∃ l1 x l2, ctxs = l1 ++ x :: l2 ∧ ctx_fut x = fut ∧
             Forall (λ c, ctx_fut c ≠ fut) l1.
Proof.
  induction ctxs as [|c ctxs IH]; [by intros ?%elem_of_nil|].
  destruct (decide (ctx_fut c = fut)) as [Hc|Hc].
  { intros _. by exists [], c, ctxs. }
  rewrite fmap_cons. intros [?|Hin]%elem_of_cons; [done|].
  destruct (IH Hin) as (l1 & x & l2 & -> & Hx & Hl1).
  exists (c :: l1), x, l2. split; [done|]. split; [done|].
  by constructor.
Qed.

Lemma contexts_of_untracked (st : pl_state) (wi fut : nat)
    (l : list _WorkItemStageRunCtx) (h : gmap nat PipelineWorkItem) :
  contexts_of wi
    (upd_heap (λ _, h)
       (upd_running_wi_contexts
          (λ _, match l with
                | [] => dict_del wi (dict_set wi [] (_running_wi_contexts st))
                | _ => dict_set wi l (_running_wi_contexts st)
                end)
          (upd_plfut_to_wi (λ _, delete fut (_plfut_to_wi st)) st))) = l.
Proof.
  unfold contexts_of. st_simpl. destruct l as [|c l].
  - by rewrite dict_get_del.
  - by rewrite dict_get_set.
Qed.

(** X18: when the worker of a stage has returned a work item, which is
    another instance than the one the controller holds,
    [_handle_completed_fut] stops tracking the execution and merges the
    returned instance into the item: the item takes its [user_obj], its
    failures and, when the item copies attributes, its attributes, and
    keeps its own stage index; the item is returned for attention, the
    controller goes on, and the future of the caller is not touched. *)
Theorem worker_result_is_merged_into_the_item (st : pl_state)
    (fut wi r : nat) (ctxs : list _WorkItemStageRunCtx)
    (w rw : PipelineWorkItem) :
  _plfut_to_wi st !! fut = Some wi →
  dict_get wi (_running_wi_contexts st) = Some ctxs →
  fut ∈ ctx_fut <$> ctxs →
  futures st !! fut = Some (FutResult (ResWorkItem r)) →
  r ≠ wi →
  heap st !! wi = Some w →
  heap st !! r = Some rw →
  ∃ w' st' l1 x l2,
    _handle_completed_fut fut st = (Returns (Some wi, false), st') ∧
    heap st' = <[wi:=w']> (heap st) ∧
    user_obj w' = user_obj rw ∧
    _cur_stage w' = _cur_stage w ∧
    exceptions w'
      = (if is_failed rw
         then Some (default [] (exceptions w) ++ default [] (exceptions rw))
         else exceptions w) ∧
    user_attrs w'
      = (if _auto_copy_attr w then user_attrs rw ∪ user_attrs w
         else user_attrs w) ∧
    _plfut_to_wi st' = delete fut (_plfut_to_wi st) ∧
    ctxs = l1 ++ x :: l2 ∧ ctx_fut x = fut ∧
    contexts_of wi st' = l1 ++ l2 ∧
    futures st' = futures st ∧
    _wi_to_wifut st' = _wi_to_wifut st.
Proof.
  intros Hf Hc Hin Hres Hne Hw Hrw.
  destruct (ctx_split fut ctxs Hin) as (l1 & x & l2 & -> & Hx & Hl1).
  unfold _handle_completed_fut. run. rewrite Hf. run.
  rewrite (get_completed_run st fut wi l1 l2 x Hf Hc Hx Hl1). run.
  unfold Future_exception. st_simpl. rewrite Hres. run.
  rewrite run_bind. unfold Future_result. st_simpl. rewrite Hres.
  match goal with
  | |- context [stage_complete wi ?n r None ?s] =>
      destruct (stage_complete_result s wi r n w rw)
        as (w' & Hrun & Hcs & Hobj & Hexc & Hattrs);
        [done..|]; rewrite Hrun
  end.
  st_simpl.
  eexists w', _, l1, x, l2. split; [reflexivity|]. st_simpl.
  split; [done|]. split; [done|]. split; [done|]. split; [done|].
  split; [done|]. split; [done|]. split; [done|]. split; [done|].
  split; [apply contexts_of_untracked|]. done.
Qed.

Lemma worker_result_is_merged_into_the_item_witness :
  ∃ w' st',
    _handle_completed_fut 3
      (worker_returns_item 3 item_y (started [thread_stage]))
      = (Returns (Some 0%nat, false), st') ∧
    heap st' !! 0%nat = Some w' ∧
    user_obj w' = PyStr "y" ∧
    _cur_stage w' = 1 ∧
    exceptions w' = Some [boom].
Proof.
  destruct (worker_result_is_merged_into_the_item
              (worker_returns_item 3 item_y (started [thread_stage]))
              3 0 2 [{| ctx_cur_stage := 0; ctx_fut := 3; ctx_wi := 0 |}]
              (increment_stage item_x) item_y)
    as (w' & st' & l1 & x & l2 & Hrun & Hheap & Hobj & Hcs & Hexc & _).
  - vm_compute; reflexivity.
  - vm_compute; reflexivity.
  - cbn. set_solver.
  - vm_compute; reflexivity.
  - done.
  - vm_compute; reflexivity.
  - vm_compute; reflexivity.
  - exists w', st'. split; [exact Hrun|].
    split; [rewrite Hheap; apply lookup_insert_eq|].
    split; [exact Hobj|]. split; [exact Hcs|]. exact Hexc.
Defined.

(** X19: when the worker of the only outstanding execution of an item
    has returned something that is not a work item,
    [_handle_completed_fut] fails the item with
    [PipelineResultIsNotPipelineWorkItem] and drops what the worker
    returned: the item keeps its [user_obj] and its stage index; the
    controller then finalizes the item, so that the future of the caller
    gives the failed item. *)
Theorem worker_result_must_be_a_work_item (st : pl_state) (fut wi uf : nat)
    (ctx : _WorkItemStageRunCtx) (w : PipelineWorkItem) (v : pyval) :
  _plfut_to_wi st !! fut = Some wi →
  dict_get wi (_running_wi_contexts st) = Some [ctx] →
  ctx_fut ctx = fut →
  futures st !! fut = Some (FutResult (ResValue v)) →
  heap st !! wi = Some w →
  dict_get (Some wi) (_wi_to_wifut st) = Some uf →
  futures st !! uf = Some FutPending →
  ∃ st1 st2 w',
    _handle_completed_fut fut st = (Returns (Some wi, false), st1) ∧
    heap st1 = <[wi:=w']> (heap st) ∧
    is_failed w' = true ∧
    (∀ e, e ∈ default [] (exceptions w') ↔
          e ∈ default [] (exceptions w) ∨
          e = PipelineResultIsNotPipelineWorkItem) ∧
    user_obj w' = user_obj w ∧
    _cur_stage w' = _cur_stage w ∧
    attend wi st1 = (Returns tt, st2) ∧
    heap st2 = heap st1 ∧
    dict_get (Some wi) (_wi_to_wifut st2) = None ∧
    Future_result uf st2 = (Returns (ResWorkItem wi), st2).
Proof.
  intros Hf Hc Hx Hres Hw Hu Hp.
  set (l := default [] (exceptions w) ++ [PipelineResultIsNotPipelineWorkItem]).
  set (w' := set_exceptions (Some (l ++ l)) w).
  set (st1 := upd_heap (λ _, <[wi:=w']> (heap st))
                (upd_running_wi_contexts (λ d, dict_del wi (dict_set wi [] d))
                   (upd_plfut_to_wi (delete fut) st))).
  assert (_handle_completed_fut fut st = (Returns (Some wi, false), st1))
    as Hrun.
  { unfold _handle_completed_fut. run. rewrite Hf. run.
    rewrite (get_completed_single _ _ _ _ Hf Hc Hx). run.
    unfold Future_exception. st_simpl. rewrite Hres. run.
    rewrite run_bind. unfold Future_result. st_simpl. rewrite Hres.
    erewrite stage_complete_self_error by (st_simpl; eassumption).
    reflexivity. }
  assert (is_failed w' = true) as Hfail by apply is_failed_doubled.
  assert (attend wi st1
            = (Returns tt,
               upd_futures (insert uf (FutResult (ResWorkItem wi)))
                 (upd_wi_to_wifut (dict_del (Some wi)) st1))) as Hatt.
  { apply (attend_failed _ _ _ w'); try done.
    - unfold st1. st_simpl. apply dict_get_del.
    - apply lookup_insert_eq. }
  eexists st1, _, w'. split; [exact Hrun|]. split; [done|].
  split; [exact Hfail|]. split.
  { intros e. unfold w', l. cbn. set_solver. }
  split; [done|]. split; [done|]. split; [exact Hatt|].
  split; [done|]. split; [st_simpl; apply dict_get_del|].
  unfold Future_result. st_simpl. by rewrite lookup_insert_eq.
Qed.

Lemma worker_result_must_be_a_work_item_witness :
  ∃ st1 st2,
    _handle_completed_fut 3
      (worker_returns_other 3 (PyInt 1) (started [thread_stage]))
      = (Returns (Some 0%nat, false), st1) ∧
    attend 0 st1 = (Returns tt, st2) ∧
    Future_result 1 st2 = (Returns (ResWorkItem 0), st2).
Proof.
  destruct (worker_result_must_be_a_work_item
              (worker_returns_other 3 (PyInt 1) (started [thread_stage]))
              3 0 1 {| ctx_cur_stage := 0; ctx_fut := 3; ctx_wi := 0 |}
              (increment_stage item_x) (PyInt 1))
    as (st1 & st2 & w' & Hrun & _ & _ & _ & _ & _ & Hatt & _ & _ & Hres).
  - vm_compute; reflexivity.
  - vm_compute; reflexivity.
  - reflexivity.
  - vm_compute; reflexivity.
  - vm_compute; reflexivity.
  - vm_compute; reflexivity.
  - vm_compute; reflexivity.
  - exists st1, st2. split; [exact Hrun|]. split; [exact Hatt|exact Hres].
Defined.

(** X20: in every state a pipeline reaches, untracking succeeds for
    every future that is tracked and gives the context of that very
    future: [_get_completed_work_item_info] returns the work item the
    future is recorded for with the context whose future it is, which is
    a context of that work item, and removes both; its two
    [InvalidStateError] and the loop variable left on another context do
    not occur.  For a future that is not tracked it raises
    [InvalidStateError] and changes nothing. *)
Theorem untracking_gives_the_context_of_the_future (st : pl_state)
    (fut : nat) :
  reachable st →
  (∀ wi, _plfut_to_wi st !! fut = Some wi →
     ∃ x l1 l2 st',
       _get_completed_work_item_info fut st = (Returns (wi, x), st') ∧
       ctx_fut x = fut ∧ ctx_wi x = wi ∧
       dict_get wi (_running_wi_contexts st) = Some (l1 ++ x :: l2) ∧
       contexts_of wi st' = l1 ++ l2 ∧
       _plfut_to_wi st' = delete fut (_plfut_to_wi st) ∧
       fut ∉ tracked_futs st') ∧
  (_plfut_to_wi st !! fut = None →
     _get_completed_work_item_info fut st = (Raises InvalidStateError, st)).
Proof.
  intros Hr. split.
  2:{ intros Hf. unfold _get_completed_work_item_info.
      run. rewrite Hf. by repeat run. }
  intros wi Hf.
  destruct (reachable_contexts_ok st Hr) as (Hnd & Hfwd & Hfuts & _).
  destruct (visited_tables_tight st (reachable_visited st Hr))
    as (_ & Hent & Hconv).
  destruct (Hconv fut wi Hf) as (ctxs & c & Hin & Hc & Hcf).
  assert (dict_get wi (_running_wi_contexts st) = Some ctxs) as Hg.
  { destruct (dict_get_is_Some _ _ _ Hin) as [ctxs' Hg].
    rewrite Hg. f_equal. apply dict_get_elem in Hg.
    by eapply dict_unique. }
  assert (fut ∈ ctx_fut <$> ctxs) as Hfin.
  { apply list_elem_of_fmap. by exists c. }
  destruct (ctx_split fut ctxs Hfin) as (l1 & x & l2 & -> & Hx & Hl1).
  destruct (Hent wi _ Hin) as [_ Hwi].
  exists x, l1, l2. eexists.
  split; [by apply get_completed_run|].
  split; [done|]. split.
  { rewrite Forall_forall in Hwi. apply Hwi. set_solver. }
  split; [done|].
  split; [apply (contexts_of_untracked st wi fut (l1 ++ l2) (heap st))|].
  split; [done|].
  pose proof (get_completed_contexts_ok fut st
                (reachable_contexts_ok st Hr)) as Hok.
  rewrite (get_completed_run st fut wi l1 l2 x Hf Hg Hx Hl1) in Hok.
  destruct Hok as (_ & Hfwd' & _).
  intros (w' & ctxs' & c' & Hin' & Hc' & Hf')%futs_of_elem.
  specialize (Hfwd' _ _ _ Hin' Hc'). rewrite Hf' in Hfwd'.
  st_simpl. by rewrite lookup_delete_eq in Hfwd'.
Qed.

Lemma untracking_gives_the_context_of_the_future_witness :
  ∃ x st',
    _get_completed_work_item_info 3 S4_upstream_done
      = (Returns (0%nat, x), st') ∧
    ctx_fut x = 3%nat ∧
    (3%nat ∉ tracked_futs st').
Proof.
  assert (reachable S4_upstream_done) as Hr
    by apply reach_worker_returns_item, started_reachable.
  assert (_plfut_to_wi S4_upstream_done !! 3%nat = Some 0%nat) as Hl
    by (vm_compute; reflexivity).
  destruct (untracking_gives_the_context_of_the_future
              S4_upstream_done 3 Hr) as [H _].
  destruct (H 0%nat Hl)
    as (x & l1 & l2 & st' & Hrun & Hx & _ & _ & _ & _ & Hnot).
  exists x, st'. split; [exact Hrun|]. split; [exact Hx|exact Hnot].
Defined.
End Completion.

Module Staging.
Import Scenarios ControllerFacts ControllerLaws Moves Tables Futures Lifecycle
  Completion.

(** X21: [_handle_stages_for_wi] on an item whose stage index is
    negative or beyond the number of stages asks no stage and submits
    nothing: it fails the item with [InvalidStateError], moves it to the
    end of the pipeline and finalizes it, so that the future of the
    caller gives the failed item. *)
Theorem stage_index_out_of_range_fails_the_item (st : pl_state)
    (wi uf : nat) (w : PipelineWorkItem) :
  heap st !! wi = Some w →
  _cur_stage w < 0 ∨ Z.of_nat (length (_stages st)) < _cur_stage w →
  eval (_is_wi_still_running wi) st = Returns false →
  dict_get (Some wi) (_wi_to_wifut st) = Some uf →
  futures st !! uf = Some FutPending →
  let w' := set_cur_stage (Z.of_nat (length (_stages st)))
              (append_exception InvalidStateError w) in
  _handle_stages_for_wi wi st
    = (Returns tt,
       upd_futures (insert uf (FutResult (ResWorkItem wi)))
         (upd_wi_to_wifut (dict_del (Some wi))
            (upd_heap (λ _, <[wi:=w']> (heap st)) st))) ∧
  is_failed w' = true.
Proof.
  intros Hw Hrange Hrun Hu Hp w'. split.
  2:{ apply is_failed_set_cur_stage_append. }
  unfold _handle_stages_for_wi, num_stages. run_step. run.
  replace ((_cur_stage w <? 0) || _) with true
    by (symmetry; apply orb_true_iff; lia).
  run_step. run_step.
  apply run_set_wi_to_finished; [|done..].
  revert Hrun. unfold eval, _is_wi_still_running. by st_simpl.
Qed.

Lemma stage_index_out_of_range_fails_the_item_witness :
  ∃ st',
    _handle_stages_for_wi 0
      (exec (wi_update 0 (set_cur_stage 5)) (queued [thread_stage]))
      = (Returns tt, st') ∧
    futures st' !! 1%nat = Some (FutResult (ResWorkItem 0)) ∧
    (exceptions <$> heap st' !! 0%nat) = Some (Some [InvalidStateError]).
Proof.
  destruct (stage_index_out_of_range_fails_the_item
              (exec (wi_update 0 (set_cur_stage 5)) (queued [thread_stage]))
              0 1 (set_cur_stage 5 item_x)) as [Hrun _].
  - vm_compute; reflexivity.
  - right. vm_compute; reflexivity.
  - vm_compute; reflexivity.
  - vm_compute; reflexivity.
  - vm_compute; reflexivity.
  - eexists. split; [exact Hrun|]. split; vm_compute; reflexivity.
Defined.
(** *** An item that no stage wants *)

Lemma walked_id (st : pl_state) (wi : nat) (w : PipelineWorkItem) :
  heap st !! wi = Some w → walked st wi w [] = st.
Proof.
  intros Hw. unfold walked. rewrite (insert_id _ _ _ Hw), app_nil_r.
  by destruct st.
Qed.

Lemma py_index_in_range {A} (l : list A) (k : Z) :
  0 ≤ k < Z.of_nat (length l) → is_Some (py_index l k).
Proof.
  intros Hk. unfold py_index.
  replace ((0 <=? k) && (k <? Z.of_nat (length l))) with true
    by (symmetry; apply andb_true_iff; lia).
  apply lookup_lt_is_Some. lia.
Qed.

Lemma py_index_elem {A} (l : list A) (k : Z) (x : A) :
  py_index l k = Some x → x ∈ l.
Proof.
  unfold py_index. repeat case_match; try done;
    apply list_elem_of_lookup_2.
Qed.

Lemma refusals_cons (wi : nat) (k : Z) (m : nat) :
  refusals wi k (S m) = (wi, k, PredReturns false) :: refusals wi (k + 1) m.
Proof.
  unfold refusals. rewrite Nat2Z.inj_succ, seqZ_cons by lia.
  rewrite fmap_cons. do 3 f_equal; lia.
Qed.

Lemma declined_turns (wi : nat) (w : PipelineWorkItem)
    (stages : list PipelineStage) (m : nat) :
  is_failed w = false →
  ∀ (fuel : nat) (k : Z) (st : pl_state),
    _stages st = stages →
    heap st !! wi = Some (set_cur_stage k w) →
    0 ≤ k →
    k + Z.of_nat m = Z.of_nat (length stages) →
    (m < fuel)%nat →
    (∀ j stage, k ≤ j → py_index stages j = Some stage →
       is_for_stage stage (set_cur_stage j w) = PredReturns false ∧
       (is_pipe_with_next_stage stage = true →
        j ≠ Z.of_nat (length stages) - 1)) →
    handle_stages_loop fuel wi st
      = (Returns tt,
         walked st wi (set_cur_stage (k + Z.of_nat m) w) (refusals wi k m)).
Proof.
  intros Hfail.
  induction m as [|m IH]; intros fuel k st Hst Hw Hk Hn Hfuel Hdecl;
    (destruct fuel as [|fuel]; [lia|]); cbn [handle_stages_loop];
    unfold num_stages; run_step; run; rewrite Hst;
    cbn [_cur_stage set_cur_stage].
  - replace (k <? Z.of_nat (length stages)) with false
      by (symmetry; apply Z.ltb_ge; lia).
    cbn [negb]. rewrite Z.add_0_r. unfold refusals. cbn.
    by rewrite walked_id.
  - replace (k <? Z.of_nat (length stages)) with true
      by (symmetry; apply Z.ltb_lt; lia).
    cbn [negb]. unfold stage_at. run. run. rewrite Hst.
    destruct (py_index_in_range stages k ltac:(lia)) as [stage Hstage].
    rewrite Hstage. st_simpl.
    destruct (Hdecl k stage ltac:(lia) Hstage) as [Hno Hlast].
    assert (is_failed (set_cur_stage k w) = false) as Hfail'
      by (by rewrite is_failed_set_cur_stage).
    set (call := (wi, k, PredReturns false)).
    assert ((if is_pipe_with_next_stage stage
             then _try_submit_to_dual_stage_with_pipe wi
             else _try_submit_to_stage wi) st
            = (Returns false, walked st wi (set_cur_stage k w) [call]))
      as Htry.
    { destruct (is_pipe_with_next_stage stage) eqn:Hpipe.
      - unfold _try_submit_to_dual_stage_with_pipe, num_stages.
        run_step. run. rewrite Hst. cbn [_cur_stage set_cur_stage].
        replace (k =? Z.of_nat (length stages) - 1) with false
          by (symmetry; apply Z.eqb_neq; by apply Hlast).
        rewrite run_bind, (run_is_stage_for_work_item _ _ _ _ Hw).
        cbn [default from_option id _cur_stage set_cur_stage]. rewrite Hst, Hstage, Hno.
        cbn [negb].
        rewrite run_bind, (run_end_if_failed _ _ _ (walked_lookup _ _ _ _)).
        by rewrite walked_update, Hfail'.
      - unfold _try_submit_to_stage.
        rewrite run_bind, (run_is_stage_for_work_item _ _ _ _ Hw).
        cbn [default from_option id _cur_stage set_cur_stage]. rewrite Hst, Hstage, Hno.
        cbn [negb].
        rewrite run_bind, (run_end_if_failed _ _ _ (walked_lookup _ _ _ _)).
        by rewrite walked_update, Hfail'. }
    rewrite run_bind, Htry.
    rewrite run_bind, (run_wi_get _ _ _ (walked_lookup _ _ _ _)).
    rewrite Hfail'.
    rewrite run_bind, (run_wi_update _ _ _ _ (walked_lookup _ _ _ _)).
    rewrite walked_update.
    change (increment_stage (set_cur_stage k w))
      with (set_cur_stage (k + 1) w).
    rewrite (IH fuel (k + 1)); [|done|apply walked_lookup|lia..|].
    + rewrite walked_walked, refusals_cons. do 3 f_equal. lia.
    + intros j stage' Hj. apply Hdecl. lia.
Qed.

(** X22: an item that no stage wants goes through the pipeline
    untouched: when the determiner of every stage from the stage of the
    item on returns [False], [_handle_stages_for_wi] asks each of them
    once, in order, submits nothing, leaves the item unfailed with its
    [user_obj], only moving it past the last stage, and finalizes it;
    this includes a pipeline that has no stage left for the item. *)
Theorem unwanted_item_is_finalized_untouched (st : pl_state) (wi uf : nat)
    (w : PipelineWorkItem) :
  heap st !! wi = Some w →
  is_failed w = false →
  0 ≤ _cur_stage w ≤ Z.of_nat (length (_stages st)) →
  (∀ j stage, _cur_stage w ≤ j → py_index (_stages st) j = Some stage →
     is_for_stage stage (set_cur_stage j w) = PredReturns false ∧
     (is_pipe_with_next_stage stage = true →
      j ≠ Z.of_nat (length (_stages st)) - 1)) →
  eval (_is_wi_still_running wi) st = Returns false →
  dict_get (Some wi) (_wi_to_wifut st) = Some uf →
  futures st !! uf = Some FutPending →
  let n := Z.of_nat (length (_stages st)) in
  _handle_stages_for_wi wi st
    = (Returns tt,
       upd_futures (insert uf (FutResult (ResWorkItem wi)))
         (upd_wi_to_wifut (dict_del (Some wi))
            (walked st wi (set_cur_stage n w)
               (refusals wi (_cur_stage w) (Z.to_nat (n - _cur_stage w)))))).
Proof.
  intros Hw Hfail Hrange Hdecl Hrun Hu Hp n.
  assert (set_cur_stage (_cur_stage w) w = w) as Hsame by (by destruct w).
  unfold _handle_stages_for_wi, num_stages. run_step. run. fold n.
  replace ((_cur_stage w <? 0) || (n <? _cur_stage w)) with false
    by (symmetry; apply orb_false_iff; lia).
  rewrite run_bind.
  rewrite (declined_turns wi w (_stages st) (Z.to_nat (n - _cur_stage w))
             Hfail _ (_cur_stage w) st); try done; try lia.
  2:{ by rewrite Hsame. }
  replace (_cur_stage w + Z.of_nat (Z.to_nat (n - _cur_stage w))) with n
    by lia.
  unfold eval, _is_wi_still_running in Hrun. revert Hrun. st_simpl.
  intros [= Hrun].
  unfold _is_wi_still_running at 1. run.
  change (_running_wi_contexts (walked _ _ _ _))
    with (_running_wi_contexts st).
  rewrite Hrun.
  rewrite run_bind, (run_wi_get _ _ _ (walked_lookup _ _ _ _)).
  cbn [_cur_stage set_cur_stage negb andb].
  change (length (_stages (walked _ _ _ _))) with (length (_stages st)).
  fold n. rewrite Z.ltb_irrefl. cbn [negb when].
  apply run_set_wi_to_finished; [|exact Hu|exact Hp].
  unfold eval, _is_wi_still_running, gets. cbn [fst].
  change (_running_wi_contexts (walked _ _ _ _))
    with (_running_wi_contexts st).
  by rewrite Hrun.
Qed.

Lemma unwanted_item_is_finalized_untouched_witness :
  ∃ st',
    _handle_stages_for_wi 0 (queued [refusing_stage; refusing_stage])
      = (Returns tt, st') ∧
    futures st' !! 1%nat = Some (FutResult (ResWorkItem 0)) ∧
    heap st' !! 0%nat = Some (set_cur_stage 2 item_x) ∧
    exec_tasks (_thread_exec st')
      = exec_tasks (_thread_exec (queued [refusing_stage; refusing_stage])).
Proof.
  eexists. split.
  - apply (unwanted_item_is_finalized_untouched
             (queued [refusing_stage; refusing_stage]) 0 1 item_x).
    + vm_compute; reflexivity.
    + reflexivity.
    + vm_compute. split; discriminate.
    + intros j stage _ Hin%py_index_elem.
      assert (_stages (queued [refusing_stage; refusing_stage])
              = [refusing_stage; refusing_stage]) as Hs
        by (vm_compute; reflexivity).
      rewrite Hs in Hin.
      assert (stage = refusing_stage) as -> by set_solver.
      split; [reflexivity|discriminate].
    + vm_compute; reflexivity.
    + vm_compute; reflexivity.
    + vm_compute; reflexivity.
  - split; [vm_compute; reflexivity|]. split; vm_compute; reflexivity.
Defined.
End Staging.

Module Submission.
Import Scenarios ControllerFacts ControllerLaws Moves Tables Futures Lifecycle
  Completion Staging.

Lemma executor_submit_run (p : pool) (t : task) (st : pl_state) :
  exec_shutdown (pool_get p st) = false →
  let fut := fresh (dom (futures st)) in
  Executor_submit p t st
    = (Returns fut,
       pool_upd p (add_task fut t) (upd_futures (insert fut FutPending) st)).
Proof.
  intros Hp fut. unfold Executor_submit, new_future. run. rewrite Hp.
  by repeat run.
Qed.

Lemma submit_to_stage_run (st : pl_state) (stage : PipelineStage)
    (wi : nat) (pc : option nat) (second : bool) (w : PipelineWorkItem)
    (p : pool) :
  heap st !! wi = Some w →
  pool_for stage second = Some p →
  exec_shutdown (pool_get p st) = false →
  tracked_exist st →
  let copy := fresh (dom (heap st)) in
  let fut := fresh (dom (futures st)) in
  let st2 :=
    pool_upd p
      (add_task fut (TaskStageWork stage copy (kwargs_for stage w)))
      (upd_futures (insert fut FutPending)
         (upd_heap (insert copy (set_pipe_conn pc w)) st)) in
  _submit_to_stage stage wi pc second st
    = (Returns fut,
       upd_running_wi_contexts
         (λ _, dict_set wi
                 (contexts_of wi st ++
                  [{| ctx_cur_stage := _cur_stage w; ctx_fut := fut;
                      ctx_wi := wi |}])
                 (_running_wi_contexts st))
         (upd_plfut_to_wi (λ _, <[fut:=wi]> (_plfut_to_wi st)) st2)).
Proof.
  intros Hw Hpool Hp Hex copy fut st2.
  assert (copy ≠ wi) as Hcopy.
  { intros Heq. apply (is_fresh (dom (heap st))). fold copy. rewrite Heq.
    apply elem_of_dom. by eexists. }
  assert (_plfut_to_wi st !! fut = None) as Hfut.
  { apply not_elem_of_dom. intros Hin. apply Hex in Hin.
    by apply (is_fresh (dom (futures st))). }
  unfold _submit_to_stage. run_step. unfold new_work_item. run. fold copy.
  rewrite run_bind.
  assert (match is_subprocess stage with
          | inl e => raise e
          | inr true =>
              if second
              then Executor_submit ProcessExec2
                     (TaskStageWork stage copy (kwargs_for stage w))
              else Executor_submit ProcessExec
                     (TaskStageWork stage copy (kwargs_for stage w))
          | inr false =>
              Executor_submit ThreadExec
                (TaskStageWork stage copy (kwargs_for stage w))
          end = Executor_submit p
                  (TaskStageWork stage copy (kwargs_for stage w))) as Hsub.
  { unfold pool_for in Hpool.
    destruct (is_subprocess stage) as [e|[|]]; [done|..];
      destruct second; by injection Hpool as <-. }
  unfold kwargs_for in Hsub. rewrite Hsub. fold (kwargs_for stage w).
  rewrite executor_submit_run by (by destruct p).
  st_simpl. fold fut. fold st2.
  assert (heap st2 !! wi = Some w) as Hw2.
  { unfold st2. destruct p; cbn [pool_upd]; st_simpl; by rewrite lookup_insert_ne. }
  assert (_plfut_to_wi st2 = _plfut_to_wi st) as Hm by (by destruct p).
  assert (_running_wi_contexts st2 = _running_wi_contexts st) as Hd
    by (by destruct p).
  rewrite run_bind, (run_wi_get _ _ _ Hw2).
  rewrite run_bind, track_run by (by rewrite Hm).
  unfold contexts_of. by rewrite Hm, Hd.
Qed.
(** *** The tracked futures exist *)

Lemma executor_submit_tracked_exist (p : pool) (t : task) :
  hoare tracked_exist (Executor_submit p t)
    (λ fut st, tracked_exist st ∧ fut ∈ dom (futures st)) tracked_exist.
Proof.
  intros st Hex. unfold Executor_submit, new_future. run.
  destruct (exec_shutdown (pool_get p st)); [done|]. repeat run.
  unfold tracked_exist in *. destruct p; cbn [pool_upd]; st_simpl;
    set_solver.
Qed.

Lemma submit_to_stage_tracked_exist (stage : PipelineStage) (wi : nat)
    (pc : option nat) (second : bool) :
  hoare tracked_exist (_submit_to_stage stage wi pc second)
    (λ _, tracked_exist) tracked_exist.
Proof.
  unfold _submit_to_stage, wi_get.
  apply hoare_bind_gets_any. intros w.
  eapply hoare_bind with (R := λ _, tracked_exist).
  { intros st Hex. by unfold new_work_item. }
  intros copy.
  eapply hoare_bind
    with (R := λ fut st, tracked_exist st ∧ fut ∈ dom (futures st)).
  { destruct (is_subprocess stage) as [e|[]]; [|destruct second|];
      first [apply executor_submit_tracked_exist | by intros st Hex]. }
  intros fut. apply hoare_bind_gets_any. intros w'.
  intros st [Hex Hin]. unfold _track_running_pipeline_work. run. run.
  destruct (_plfut_to_wi st !! fut); [done|]. repeat run.
  unfold tracked_exist in *. st_simpl. set_solver.
Qed.

Lemma leaf_tracked_exist (st st' : pl_state) :
  leaf st st' → tracked_exist st → tracked_exist st'.
Proof.
  intros Hl Hex.
  pose proof (leaf_futures_grow _ _ Hl) as [Hd _].
  destruct (leaf_tables _ _ Hl)
    as [Hsame|[(stage & wi & pc & second & ->)|(fut & ->)]].
  - unfold ctx_tables in Hsame. injection Hsame as _ Hm.
    unfold tracked_exist in *. rewrite Hm. set_solver.
  - pose proof (submit_to_stage_tracked_exist stage wi pc second st Hex)
      as Hh.
    unfold exec.
    destruct (_submit_to_stage stage wi pc second st) as [[a|e|] s1];
      exact Hh.
  - pose proof (untrack_tables st fut) as Hu. cbv zeta in Hu.
    unfold tracked_exist in *.
    destruct (_plfut_to_wi st !! fut) as [w|].
    + destruct Hu as [-> _]. set_solver.
    + unfold ctx_tables in Hu. injection Hu as _ ->. set_solver.
Qed.

Lemma visited_tracked_exist (st : pl_state) : visited st → tracked_exist st.
Proof.
  induction 1 as [stages n|st st' _ IH Hc].
  { unfold tracked_exist. cbn. set_solver. }
  destruct Hc as [s s' Hl|s f v Hv]; [by eapply leaf_tracked_exist|].
  unfold tracked_exist in *. st_simpl. set_solver.
Qed.
(** *** Submitting to one stage *)

Lemma walked_same (st : pl_state) (wi : nat) (w : PipelineWorkItem)
    (calls : list (nat * Z * pred_result)) :
  heap st !! wi = Some w →
  walked st wi w calls = upd_asked (λ _, asked st ++ calls) st.
Proof.
  intros Hw. unfold walked. rewrite (insert_id _ _ _ Hw). by destruct st.
Qed.

(** X23: when the determiner of the stage an item stands at accepts the
    item, [_try_submit_to_stage] submits a copy of the item, without a
    pipe connection, to the pool of the stage: the thread pool for a
    thread stage and the first process pool for a subprocess stage, with
    the keyword arguments of the stage overridden by those of the item;
    the new future is pending and tracked for the item with the index of
    the stage; and the item moves one stage on.  Nothing goes to another
    pool. *)
Theorem accepted_item_is_submitted_to_the_stage (st : pl_state) (wi : nat)
    (w : PipelineWorkItem) (stage : PipelineStage) (p : pool) :
  tracked_exist st →
  heap st !! wi = Some w →
  py_index (_stages st) (_cur_stage w) = Some stage →
  is_for_stage stage w = PredReturns true →
  pool_for stage false = Some p →
  exec_shutdown (pool_get p st) = false →
  ∃ fut copy st',
    _try_submit_to_stage wi st = (Returns true, st') ∧
    futures st !! fut = None ∧
    futures st' = <[fut:=FutPending]> (futures st) ∧
    heap st !! copy = None ∧
    heap st'
      = <[wi:=increment_stage w]>
          (<[copy:=set_pipe_conn None w]> (heap st)) ∧
    exec_tasks (pool_get p st')
      = exec_tasks (pool_get p st)
          ++ [(fut, TaskStageWork stage copy (kwargs_for stage w))] ∧
    (∀ p', p' ≠ p → pool_get p' st' = pool_get p' st) ∧
    _plfut_to_wi st' = <[fut:=wi]> (_plfut_to_wi st) ∧
    contexts_of wi st'
      = contexts_of wi st
          ++ [{| ctx_cur_stage := _cur_stage w; ctx_fut := fut;
                 ctx_wi := wi |}] ∧
    asked st' = asked st ++ [(wi, _cur_stage w, PredReturns true)].
Proof.
  intros Hex Hw Hstage Hyes Hpool Hp.
  unfold _try_submit_to_stage.
  rewrite run_bind, (run_is_stage_for_work_item _ _ _ _ Hw).
  cbn [default from_option id]. rewrite Hstage, Hyes. cbn [negb].
  rewrite (walked_same _ _ _ _ Hw).
  set (st0 := upd_asked _ st).
  assert (heap st0 !! wi = Some w) as Hw0 by done.
  rewrite run_bind, (run_wi_get _ _ _ Hw0).
  unfold stage_at. run. run.
  change (_stages st0) with (_stages st). rewrite Hstage. st_simpl.
  rewrite run_bind.
  pose proof (submit_to_stage_run st0 stage wi None false w p Hw0 Hpool)
    as Hsub.
  cbv zeta in Hsub. rewrite Hsub; [|by destruct p|done]. clear Hsub.
  assert (fresh (dom (heap st)) ≠ wi) as Hcopy.
  { intros Heq. apply (is_fresh (dom (heap st))). rewrite Heq.
    apply elem_of_dom. by eexists. }
  subst st0. st_simpl.
  rewrite run_bind. erewrite run_wi_update.
  2:{ destruct p; cbn [pool_upd]; st_simpl; by rewrite lookup_insert_ne. }
  st_simpl.
  exists (fresh (dom (futures st))), (fresh (dom (heap st))).
  eexists. split; [reflexivity|].
  split; [apply not_elem_of_dom, is_fresh|].
  split; [by destruct p|].
  split; [apply not_elem_of_dom, is_fresh|].
  split; [by destruct p|].
  split; [by destruct p|].
  split; [intros p' Hne; by destruct p, p'|].
  split; [by destruct p|].
  split; [|by destruct p].
  unfold contexts_of. destruct p; cbn [pool_upd]; st_simpl;
    by rewrite dict_get_set.
Qed.
Lemma accepted_item_is_submitted_to_the_stage_witness :
  ∃ st',
    _try_submit_to_stage 0 (submitted [subprocess_stage false])
      = (Returns true, st') ∧
    exec_tasks (_process_exec st')
      = [(2%nat, TaskStageWork (subprocess_stage false) 1 ∅)] ∧
    exec_tasks (_thread_exec st')
      = exec_tasks (_thread_exec (submitted [subprocess_stage false])) ∧
    _plfut_to_wi st' !! 2%nat = Some 0%nat.
Proof.
  destruct (accepted_item_is_submitted_to_the_stage
              (submitted [subprocess_stage false]) 0 item_x
              (subprocess_stage false) ProcessExec)
    as (fut & copy & st' & Hrun & _ & _ & _ & _ & Htasks & Hother & _).
  - apply visited_tracked_exist, reachable_visited, submitted_reachable.
  - vm_compute; reflexivity.
  - vm_compute; reflexivity.
  - reflexivity.
  - reflexivity.
  - vm_compute; reflexivity.
  - exists st'. split; [exact Hrun|].
    assert (st' = exec (_try_submit_to_stage 0)
                    (submitted [subprocess_stage false])) as ->
      by (unfold exec; by rewrite Hrun).
    split; [vm_compute; reflexivity|].
    split; vm_compute; reflexivity.
Defined.
(** *** Submitting to a pair of stages *)

Lemma run_stage_at (st : pl_state) (k : Z) (stage : PipelineStage) :
  py_index (_stages st) k = Some stage → stage_at k st = (Returns stage, st).
Proof. intros Hs. unfold stage_at. run. by rewrite Hs. Qed.

(** X24: when the stage an item stands at asks for a pipe with the next
    stage, is not the last stage, and both determiners accept the item,
    [_try_submit_to_dual_stage_with_pipe] creates one pair of
    connections and submits the item to both stages at once: a copy
    that holds the writing connection goes to the stage with the pool of
    that stage, a copy that holds the reading connection and stands one
    stage further goes to the next stage, with the second process pool
    when that is a subprocess stage; both futures are pending, tracked
    for the item in the order of the stages, and recorded with their
    connection; the item moves two stages on. *)
Theorem paired_stages_are_submitted_with_a_pipe (st : pl_state) (wi : nat)
    (w : PipelineWorkItem) (stage_w stage_r : PipelineStage)
    (p_w p_r : pool) :
  tracked_exist st →
  heap st !! wi = Some w →
  py_index (_stages st) (_cur_stage w) = Some stage_w →
  py_index (_stages st) (_cur_stage w + 1) = Some stage_r →
  _cur_stage w ≠ Z.of_nat (length (_stages st)) - 1 →
  is_for_stage stage_w w = PredReturns true →
  is_for_stage stage_r w = PredReturns true →
  pool_for stage_w false = Some p_w →
  pool_for stage_r true = Some p_r →
  exec_shutdown (pool_get p_w st) = false →
  exec_shutdown (pool_get p_r st) = false →
  ∃ conn_r conn_w fut_w fut_r copy_w copy_r st',
    _try_submit_to_dual_stage_with_pipe wi st = (Returns true, st') ∧
    conn_r ≠ conn_w ∧
    conn_closed st !! conn_r = None ∧
    conn_closed st !! conn_w = None ∧
    conn_closed st' = <[conn_w:=false]> (<[conn_r:=false]> (conn_closed st)) ∧
    fut_w ≠ fut_r ∧
    futures st !! fut_w = None ∧
    futures st !! fut_r = None ∧
    futures st'
      = <[fut_r:=FutPending]> (<[fut_w:=FutPending]> (futures st)) ∧
    heap st' !! copy_w = Some (set_pipe_conn (Some conn_w) w) ∧
    heap st' !! copy_r
      = Some (set_pipe_conn (Some conn_r) (increment_stage w)) ∧
    heap st' !! wi = Some (set_cur_stage (_cur_stage w + 2) w) ∧
    (fut_w, TaskStageWork stage_w copy_w (kwargs_for stage_w w))
      ∈ exec_tasks (pool_get p_w st') ∧
    (fut_r, TaskStageWork stage_r copy_r (kwargs_for stage_r w))
      ∈ exec_tasks (pool_get p_r st') ∧
    (∀ p, p ≠ p_w → p ≠ p_r → pool_get p st' = pool_get p st) ∧
    _fut_to_pipe_conn st'
      = <[fut_r:=conn_r]> (<[fut_w:=conn_w]> (_fut_to_pipe_conn st)) ∧
    _plfut_to_wi st' = <[fut_r:=wi]> (<[fut_w:=wi]> (_plfut_to_wi st)) ∧
    contexts_of wi st'
      = contexts_of wi st
          ++ [{| ctx_cur_stage := _cur_stage w; ctx_fut := fut_w;
                 ctx_wi := wi |};
              {| ctx_cur_stage := _cur_stage w + 1; ctx_fut := fut_r;
                 ctx_wi := wi |}].
Proof.
  intros Hex Hw Hsw Hsr Hlast Hyw Hyr Hpw Hpr Hdw Hdr.
  unfold _try_submit_to_dual_stage_with_pipe, num_stages.
  run_step. run.
  replace (_cur_stage w =? Z.of_nat (length (_stages st)) - 1) with false
    by (symmetry; by apply Z.eqb_neq).
  rewrite run_bind, (run_is_stage_for_work_item _ _ _ _ Hw).
  cbn [default from_option id]. rewrite Hsw, Hyw. cbn [negb].
  rewrite (walked_same _ _ _ _ Hw).
  set (st0 := upd_asked _ st).
  assert (heap st0 !! wi = Some w) as Hw0 by done.
  rewrite run_bind, (run_wi_get _ _ _ Hw0).
  rewrite run_bind, (run_is_stage_for_work_item _ _ _ _ Hw0).
  cbn [default from_option id].
  change (_stages st0) with (_stages st). rewrite Hsr, Hyr. cbn [negb].
  rewrite (walked_same _ _ _ _ Hw0).
  subst st0. st_simpl.
  unfold new_pipe_connections. run.
  set (conn_r := fresh (dom (conn_closed st))).
  set (conn_w := fresh ({[conn_r]} ∪ dom (conn_closed st))).
  set (s1 := upd_conn_closed _ _).
  assert (heap s1 !! wi = Some w) as Hw1 by done.
  rewrite run_bind, (run_wi_get _ _ _ Hw1).
  rewrite run_bind, (run_stage_at s1 _ stage_w Hsw).
  (* the stage that writes *)
  rewrite run_bind.
  pose proof (submit_to_stage_run s1 stage_w wi (Some conn_w) false w p_w
                Hw1 Hpw) as Hsub.
  cbv zeta in Hsub. rewrite Hsub; [|by destruct p_w|done]. clear Hsub.
  change (heap s1) with (heap st). change (futures s1) with (futures st).
  change (_plfut_to_wi s1) with (_plfut_to_wi st).
  change (_running_wi_contexts s1) with (_running_wi_contexts st).
  change (contexts_of wi s1) with (contexts_of wi st).
  set (copy_w := fresh (dom (heap st))).
  set (fut_w := fresh (dom (futures st))).
  set (c_w := {| ctx_cur_stage := _cur_stage w; ctx_fut := fut_w;
                 ctx_wi := wi |}).
  assert (copy_w ≠ wi) as Hcw.
  { intros Heq. apply (is_fresh (dom (heap st))). fold copy_w. rewrite Heq.
    apply elem_of_dom. by eexists. }
  set (s2 := upd_running_wi_contexts _ _).
  assert (heap s2 = <[copy_w:=set_pipe_conn (Some conn_w) w]> (heap st))
    as Hh2 by (by destruct p_w).
  assert (heap s2 !! wi = Some w) as Hw2
    by (by rewrite Hh2, lookup_insert_ne).
  rewrite run_bind, (run_wi_update _ _ _ _ Hw2).
  set (s3 := upd_heap _ s2).
  assert (heap s3 !! wi = Some (increment_stage w)) as Hw3
    by apply lookup_insert_eq.
  rewrite run_bind, (run_wi_get _ _ _ Hw3).
  assert (_stages s3 = _stages st) as Hst3 by (by destruct p_w).
  rewrite run_bind, (run_stage_at s3 _ stage_r)
    by (rewrite Hst3; exact Hsr).
  (* the stage that reads *)
  rewrite run_bind.
  assert (futures s3 = <[fut_w:=FutPending]> (futures st)) as Hf3
    by (by destruct p_w).
  assert (_plfut_to_wi s3 = <[fut_w:=wi]> (_plfut_to_wi st)) as Hm3
    by (by destruct p_w).
  assert (_running_wi_contexts s3
          = dict_set wi (contexts_of wi st ++ [c_w])
              (_running_wi_contexts st)) as Hd3
    by (by destruct p_w).
  assert (heap s3
          = <[wi:=increment_stage w]>
              (<[copy_w:=set_pipe_conn (Some conn_w) w]> (heap st)))
    as Hh3 by (unfold s3; st_simpl; by rewrite Hh2).
  assert (tracked_exist s3) as Hex3.
  { unfold tracked_exist in *. rewrite Hf3, Hm3. set_solver. }
  pose proof (submit_to_stage_run s3 stage_r wi (Some conn_r) true
                (increment_stage w) p_r Hw3 Hpr) as Hsub.
  cbv zeta in Hsub. rewrite Hsub; [|by destruct p_w, p_r|done]. clear Hsub.
  set (copy_r := fresh (dom (heap s3))).
  set (fut_r := fresh (dom (futures s3))).
  set (c_r := {| ctx_cur_stage := _cur_stage (increment_stage w);
                 ctx_fut := fut_r; ctx_wi := wi |}).
  assert (copy_r ≠ wi) as Hcr.
  { intros Heq. apply (is_fresh (dom (heap s3))). fold copy_r. rewrite Heq.
    apply elem_of_dom. by eexists. }
  assert (copy_r ≠ copy_w) as Hcrw.
  { intros Heq. apply (is_fresh (dom (heap s3))). fold copy_r.
    rewrite Heq, Hh3. set_solver. }
  assert (fut_r ≠ fut_w) as Hfrw.
  { intros Heq. apply (is_fresh (dom (futures s3))). fold fut_r.
    rewrite Heq, Hf3. set_solver. }
  assert (futures st !! fut_r = None) as Hfr.
  { apply not_elem_of_dom. intros Hin.
    apply (is_fresh (dom (futures s3))). fold fut_r. rewrite Hf3.
    set_solver. }
  set (s4 := upd_running_wi_contexts _ _).
  assert (heap s4
          = <[copy_r:=set_pipe_conn (Some conn_r) (increment_stage w)]>
              (heap s3)) as Hh4 by (by destruct p_r).
  assert (heap s4 !! wi = Some (increment_stage w)) as Hw4
    by (by rewrite Hh4, lookup_insert_ne).
  rewrite run_bind, (run_wi_update _ _ _ _ Hw4).
  rewrite !run_bind. cbn [modify mret M_ret fst snd].
  assert (futures s4 = <[fut_r:=FutPending]> (futures s3)) as Hf4
    by (by destruct p_r).
  assert (_plfut_to_wi s4 = <[fut_r:=wi]> (_plfut_to_wi s3)) as Hm4
    by (by destruct p_r).
  assert (contexts_of wi s4 = (contexts_of wi st ++ [c_w]) ++ [c_r]) as Hd4.
  { unfold contexts_of at 1.
    replace (_running_wi_contexts s4)
      with (dict_set wi (contexts_of wi s3 ++ [c_r])
              (_running_wi_contexts s3)) by (by destruct p_r).
    rewrite dict_get_set. cbn [default from_option id]. f_equal.
    unfold contexts_of at 1. by rewrite Hd3, dict_get_set. }
  assert (conn_closed s4
          = <[conn_w:=false]> (<[conn_r:=false]> (conn_closed st))) as Hc4
    by (by destruct p_w, p_r).
  assert (_fut_to_pipe_conn s4 = _fut_to_pipe_conn st) as Ht4
    by (by destruct p_w, p_r).
  exists conn_r, conn_w, fut_w, fut_r, copy_w, copy_r. eexists.
  split; [reflexivity|]. st_simpl.
  pose proof (is_fresh (dom (conn_closed st))) as Hfr1.
  pose proof (is_fresh ({[conn_r]} ∪ dom (conn_closed st))) as Hfr2.
  fold conn_r in Hfr1. fold conn_w in Hfr2.
  split; [set_solver|].
  split; [by apply not_elem_of_dom|].
  split; [apply not_elem_of_dom; set_solver|].
  split; [exact Hc4|].
  split; [done|].
  split; [apply not_elem_of_dom, is_fresh|].
  split; [exact Hfr|].
  split; [by rewrite Hf4, Hf3|].
  split.
  { rewrite lookup_insert_ne, Hh4, lookup_insert_ne, Hh3, lookup_insert_ne
      by done. apply lookup_insert_eq. }
  split.
  { rewrite lookup_insert_ne, Hh4 by done. apply lookup_insert_eq. }
  split.
  { rewrite lookup_insert_eq. f_equal. destruct w.
    unfold increment_stage, set_cur_stage; cbn. f_equal. lia. }
  split.
  { destruct p_w, p_r; cbn; set_solver. }
  split.
  { destruct p_w, p_r; cbn; set_solver. }
  split.
  { intros p Hp1 Hp2. by destruct p, p_w, p_r. }
  split; [by rewrite Ht4|].
  split; [by rewrite Hm4, Hm3|].
  unfold contexts_of in *. st_simpl. rewrite Hd4, <- app_assoc.
  reflexivity.
Qed.
Lemma paired_stages_are_submitted_with_a_pipe_witness :
  ∃ st',
    _try_submit_to_dual_stage_with_pipe 0
      (submitted [subprocess_stage true; subprocess_stage false])
      = (Returns true, st') ∧
    length (exec_tasks (_process_exec st')) = 1%nat ∧
    length (exec_tasks (_process_exec2 st')) = 1%nat ∧
    (_cur_stage <$> heap st' !! 0%nat) = Some 2.
Proof.
  destruct (paired_stages_are_submitted_with_a_pipe
              (submitted [subprocess_stage true; subprocess_stage false])
              0 item_x (subprocess_stage true) (subprocess_stage false)
              ProcessExec ProcessExec2)
    as (conn_r & conn_w & fut_w & fut_r & copy_w & copy_r & st' & Hrun & _).
  - apply visited_tracked_exist, reachable_visited, submitted_reachable.
  - vm_compute; reflexivity.
  - vm_compute; reflexivity.
  - vm_compute; reflexivity.
  - vm_compute; discriminate.
  - reflexivity.
  - reflexivity.
  - reflexivity.
  - reflexivity.
  - vm_compute; reflexivity.
  - vm_compute; reflexivity.
  - exists st'. split; [exact Hrun|].
    assert (st' = exec (_try_submit_to_dual_stage_with_pipe 0)
                    (submitted
                       [subprocess_stage true; subprocess_stage false]))
      as -> by (unfold exec; by rewrite Hrun).
    split; [vm_compute; reflexivity|].
    split; vm_compute; reflexivity.
Defined.
End Submission.

Module Pairing.
Import Scenarios ControllerFacts ControllerLaws Moves Tables Futures Lifecycle
  Completion Staging Submission.

(** A stage that passes the item on costs one turn of the loop. *)
Lemma passed_turns (wi : nat) (w : PipelineWorkItem)
    (stages : list PipelineStage) (m : nat) :
  is_failed w = false →
  ∀ (fuel : nat) (k : Z) (st : pl_state)
    (calls : list (nat * Z * pred_result)),
    _stages st = stages →
    heap st !! wi = Some (set_cur_stage k w) →
    0 ≤ k →
    k + Z.of_nat m ≤ Z.of_nat (length stages) - 1 →
    passed stages wi w k m = Some calls →
    handle_stages_loop (m + fuel) wi st
      = handle_stages_loop fuel wi
          (walked st wi (set_cur_stage (k + Z.of_nat m) w) calls).
Proof.
  intros Hfail.
  induction m as [|m IH]; intros fuel k st calls Hst Hw Hk Hn Hp.
  { injection Hp as <-. rewrite Z.add_0_r. by rewrite walked_id. }
  cbn [passed] in Hp.
  destruct (pass_calls stages wi w k) as [c|] eqn:Hc; [|done].
  destruct (passed stages wi w (k + 1) m) as [cs|] eqn:Hcs; [|done].
  injection Hp as <-.
  unfold pass_calls in Hc.
  destruct (py_index stages k) as [stage|] eqn:Hstage; [|done].
  change (S m + fuel)%nat with (S (m + fuel)).
  cbn [handle_stages_loop]. unfold num_stages. run_step. run. rewrite Hst.
  cbn [_cur_stage set_cur_stage].
  replace (k <? Z.of_nat (length stages)) with true
    by (symmetry; apply Z.ltb_lt; lia).
  cbn [negb]. unfold stage_at. run. run. rewrite Hst, Hstage. st_simpl.
  assert (is_failed (set_cur_stage k w) = false) as Hfail'
    by (by rewrite is_failed_set_cur_stage).
  assert ((if is_pipe_with_next_stage stage
           then _try_submit_to_dual_stage_with_pipe wi
           else _try_submit_to_stage wi) st
          = (Returns false, walked st wi (set_cur_stage k w) c)) as Htry.
  { destruct (is_for_stage stage (set_cur_stage k w)) as [[|]|e] eqn:Hyes;
      [| |done].
    - (* the stage accepts, the next one refuses *)
      destruct (is_pipe_with_next_stage stage) eqn:Hpipe; [|done].
      destruct (py_index stages (k + 1)) as [next|] eqn:Hnext; [|done].
      destruct (is_for_stage next (set_cur_stage k w)) as [[|]|e] eqn:Hno;
        try done.
      injection Hc as <-.
      unfold _try_submit_to_dual_stage_with_pipe, num_stages.
      run_step. run. rewrite Hst. cbn [_cur_stage set_cur_stage].
      replace (k =? Z.of_nat (length stages) - 1) with false
        by (symmetry; apply Z.eqb_neq; lia).
      rewrite run_bind, (run_is_stage_for_work_item _ _ _ _ Hw).
      cbn [default from_option id _cur_stage set_cur_stage].
      rewrite Hst, Hstage, Hyes. cbn [negb].
      rewrite run_bind, (run_wi_get _ _ _ (walked_lookup _ _ _ _)).
      rewrite run_bind,
        (run_is_stage_for_work_item _ _ _ _ (walked_lookup _ _ _ _)).
      cbn [default from_option id _cur_stage set_cur_stage].
      rewrite walked_stages, Hst, Hnext, Hno. cbn [negb].
      rewrite walked_walked.
      rewrite run_bind, (run_end_if_failed _ _ _ (walked_lookup _ _ _ _)).
      by rewrite walked_update, Hfail'.
    - (* the stage refuses *)
      injection Hc as <-.
      destruct (is_pipe_with_next_stage stage) eqn:Hpipe.
      + unfold _try_submit_to_dual_stage_with_pipe, num_stages.
        run_step. run. rewrite Hst. cbn [_cur_stage set_cur_stage].
        replace (k =? Z.of_nat (length stages) - 1) with false
          by (symmetry; apply Z.eqb_neq; lia).
        rewrite run_bind, (run_is_stage_for_work_item _ _ _ _ Hw).
        cbn [default from_option id _cur_stage set_cur_stage].
        rewrite Hst, Hstage, Hyes. cbn [negb].
        rewrite run_bind, (run_end_if_failed _ _ _ (walked_lookup _ _ _ _)).
        by rewrite walked_update, Hfail'.
      + unfold _try_submit_to_stage.
        rewrite run_bind, (run_is_stage_for_work_item _ _ _ _ Hw).
        cbn [default from_option id _cur_stage set_cur_stage].
        rewrite Hst, Hstage, Hyes. cbn [negb].
        rewrite run_bind, (run_end_if_failed _ _ _ (walked_lookup _ _ _ _)).
        by rewrite walked_update, Hfail'. }
  rewrite run_bind, Htry.
  rewrite run_bind, (run_wi_get _ _ _ (walked_lookup _ _ _ _)).
  rewrite Hfail'.
  rewrite run_bind, (run_wi_update _ _ _ _ (walked_lookup _ _ _ _)).
  rewrite walked_update.
  change (increment_stage (set_cur_stage k w))
    with (set_cur_stage (k + 1) w).
  rewrite (IH fuel (k + 1) _ cs); [|done|apply walked_lookup|lia..|done].
  rewrite walked_walked. do 3 f_equal. lia.
Qed.

(** The turn of the loop at a last stage that asks for a pipe. *)
Lemma last_stage_turn (fuel : nat) (st : pl_state) (wi : nat)
    (w : PipelineWorkItem) (stage : PipelineStage) :
  heap st !! wi = Some w →
  last (_stages st) = Some stage →
  is_pipe_with_next_stage stage = true →
  _cur_stage w = Z.of_nat (length (_stages st)) - 1 →
  handle_stages_loop (S fuel) wi st = (Raises PipelineLastStageError, st).
Proof.
  intros Hw Hl Hp Hc.
  assert (0 < length (_stages st))%nat as Hpos
    by (destruct (_stages st); [done | cbn; lia]).
  cbn [handle_stages_loop]. unfold num_stages. run_step. run.
  rewrite Hc. rewrite (proj2 (Z.ltb_lt _ _)) by lia. cbn [negb].
  unfold stage_at. run. run. rewrite (py_index_last _ _ Hl). st_simpl.
  rewrite Hp. rewrite run_bind.
  unfold _try_submit_to_dual_stage_with_pipe, num_stages. run_step. run.
  rewrite Hc, Z.eqb_refl. reflexivity.
Qed.

(** The walk that comes to stand at a last stage that asks for a pipe. *)
Lemma handle_stages_comes_to_last_stage (st : pl_state) (wi : nat)
    (w : PipelineWorkItem) (stage : PipelineStage)
    (calls : list (nat * Z * pred_result)) :
  heap st !! wi = Some w →
  is_failed w = false →
  0 ≤ _cur_stage w ≤ Z.of_nat (length (_stages st)) - 1 →
  last (_stages st) = Some stage →
  is_pipe_with_next_stage stage = true →
  passed (_stages st) wi w (_cur_stage w)
    (Z.to_nat (Z.of_nat (length (_stages st)) - 1 - _cur_stage w))
    = Some calls →
  _handle_stages_for_wi wi st
    = (Raises PipelineLastStageError,
       walked st wi
         (set_cur_stage (Z.of_nat (length (_stages st)) - 1) w) calls).
Proof.
  intros Hw Hfail Hrange Hl Hpipe Hp.
  set (n := Z.of_nat (length (_stages st))) in *.
  assert (set_cur_stage (_cur_stage w) w = w) as Hsame by (by destruct w).
  unfold _handle_stages_for_wi, num_stages. run_step. run. fold n.
  replace ((_cur_stage w <? 0) || (n <? _cur_stage w)) with false
    by (symmetry; apply orb_false_iff; lia).
  rewrite run_bind.
  replace (S (Z.to_nat (n - _cur_stage w)))
    with (Z.to_nat (n - 1 - _cur_stage w) + 2)%nat by lia.
  rewrite (passed_turns wi w (_stages st) _ Hfail 2 (_cur_stage w) st calls);
    [|done|by rewrite Hsame|lia|fold n; lia|done].
  replace (_cur_stage w + Z.of_nat (Z.to_nat (n - 1 - _cur_stage w)))
    with (n - 1) by lia.
  rewrite (last_stage_turn 1 (walked st wi (set_cur_stage (n - 1) w) calls)
             wi (set_cur_stage (n - 1) w) stage);
    [done|apply walked_lookup|done..].
Qed.
Lemma attend_comes_to_last_stage (st : pl_state) (wi : nat)
    (w : PipelineWorkItem) (stage : PipelineStage)
    (calls : list (nat * Z * pred_result)) :
  heap st !! wi = Some w →
  is_failed w = false →
  eval (_is_wi_still_running wi) st = Returns false →
  0 ≤ _cur_stage w ≤ Z.of_nat (length (_stages st)) - 1 →
  last (_stages st) = Some stage →
  is_pipe_with_next_stage stage = true →
  passed (_stages st) wi w (_cur_stage w)
    (Z.to_nat (Z.of_nat (length (_stages st)) - 1 - _cur_stage w))
    = Some calls →
  attend wi st
    = (Raises PipelineLastStageError,
       walked st wi
         (set_cur_stage (Z.of_nat (length (_stages st)) - 1) w) calls).
Proof.
  intros Hw Hfail Hrun Hrange Hl Hpipe Hp.
  unfold attend. rewrite run_bind.
  unfold eval in Hrun.
  destruct (_is_wi_still_running wi st) as [o st1] eqn:Hr.
  assert (st1 = st) as ->
    by (unfold _is_wi_still_running, gets in Hr; congruence).
  cbn [fst] in Hrun. subst o.
  rewrite run_bind, (run_wi_get _ _ _ Hw), Hfail.
  by apply (handle_stages_comes_to_last_stage st wi w stage calls).
Qed.

(** C8 (amended): in the iteration of [_pl_worker] in which the
    controller comes to an idle, unfailed item whose walk over the stages
    comes to stand at the last stage (the item stands there, or every
    stage before passes it on), and that stage asks for a pipe,
    [_handle_stages_for_wi] raises [PipelineLastStageError] at once: it
    has asked the stages it passed and nothing else, and has submitted
    nothing; the exception leaves the loop of [_pl_worker], whose handler
    appends it to the failures of the item and fails the future of the
    caller with it, so that [result()] raises it; [_pl_worker] ends with
    the exception, and so does the future of the controller thread. *)
Theorem last_stage_pairing_is_rejected (st s1 s2 s3 : pl_state)
    (fuel : nat) (wi uf : nat) (w : PipelineWorkItem)
    (stage : PipelineStage) (done_futs pending before after : list nat)
    (calls : list (nat * Z * pred_result)) :
  collect_done_futs (if pl_worker_pc st is PcTop then true else false) st
    = (Returns (done_futs, pending), s1) →
  done_futs ≠ [] →
  handle_done_futs done_futs [] false (upd_pl_worker_pc (λ _, PcTop) s1)
    = (Returns (before ++ wi :: after, false), s2) →
  for_each before attend s2 = (Returns tt, s3) →
  heap s3 !! wi = Some w →
  is_failed w = false →
  eval (_is_wi_still_running wi) s3 = Returns false →
  0 ≤ _cur_stage w ≤ Z.of_nat (length (_stages s3)) - 1 →
  last (_stages s3) = Some stage →
  is_pipe_with_next_stage stage = true →
  passed (_stages s3) wi w (_cur_stage w)
    (Z.to_nat (Z.of_nat (length (_stages s3)) - 1 - _cur_stage w))
    = Some calls →
  dict_get (Some wi) (_wi_to_wifut s3) = Some uf →
  futures s3 !! uf = Some FutPending →
  NoDup (_wi_to_wifut s3).*1 →
  NoDup (_wi_to_wifut s3).*2 →
  (∀ f, (None, f) ∈ _wi_to_wifut s3 → fut_is_done s3 f = true) →
  let w' := set_cur_stage (Z.of_nat (length (_stages s3)) - 1) w in
  kind_of PipelineLastStageError = LastStagePaired ∧
  _handle_stages_for_wi wi s3
    = (Raises PipelineLastStageError, walked s3 wi w' calls) ∧
  ∃ st',
    _pl_worker (S fuel) st = (Raises PipelineLastStageError, st') ∧
    heap st' !! wi = Some (append_exception PipelineLastStageError w') ∧
    is_failed (append_exception PipelineLastStageError w') = true ∧
    futures st' !! uf = Some (FutException PipelineLastStageError) ∧
    eval (Future_result uf) st' = Raises PipelineLastStageError ∧
    ∀ f, _pl_worker_future st = Some f → pl_worker_pc st ≠ PcExited →
         futures (run_pl_worker (S fuel) st) !! f
           = Some (FutException PipelineLastStageError).
Proof.
  intros Hcollect Hdone Hhandle Hbefore Hw Hfail Hrun Hrange Hl Hpipe Hp
    Hu Hpend Hk Hv Hnone w'.
  split; [reflexivity|].
  split; [by apply (handle_stages_comes_to_last_stage s3 wi w stage calls)|].
  pose proof (attend_comes_to_last_stage s3 wi w stage calls Hw Hfail Hrun
                Hrange Hl Hpipe Hp) as Hatt.
  fold w' in Hatt. set (s4 := walked s3 wi w' calls) in *.
  destruct (fail_all_pending_items_spec PipelineLastStageError
              (_wi_to_wifut s4) s4 Hk Hv Hnone)
    as (st' & Hfa & _ & _ & Hboth).
  destruct (Hboth wi uf w' (dict_get_elem _ _ _ Hu) Hpend
              (walked_lookup _ _ _ _)) as [Hh Hf].
  assert (_pl_worker (S fuel) st = (Raises PipelineLastStageError, st'))
    as Hworker.
  { unfold _pl_worker. rewrite run_bind. unfold try_except.
    cbn [pl_worker_loop]. rewrite run_bind.
    unfold pl_worker_iteration. run. rewrite run_bind, Hcollect.
    destruct done_futs as [|d ds]; [done|].
    run. rewrite run_bind, Hhandle.
    rewrite run_bind, for_each_app, run_bind, Hbefore.
    cbn [for_each]. rewrite run_bind, Hatt.
    unfold _fail_all_pending. rewrite run_bind. run. by rewrite Hfa. }
  exists st'. split; [exact Hworker|]. split; [exact Hh|].
  split; [apply is_failed_append|]. split; [exact Hf|].
  split; [unfold eval, Future_result; by rewrite Hf|].
  intros f Hwf Hpc. unfold run_pl_worker. rewrite Hwf, Hworker.
  destruct (pl_worker_pc st); [| |done]; st_simpl; apply lookup_insert_eq.
Qed.
Lemma last_stage_pairing_is_rejected_witness :
  ∃ st',
    _handle_stages_for_wi 0 (queued skip_then_pair)
      = (Raises PipelineLastStageError,
         walked (queued skip_then_pair) 0 (set_cur_stage 1 item_x)
           [(0%nat, 0, PredReturns false)]) ∧
    _pl_worker 8 (submitted skip_then_pair)
      = (Raises PipelineLastStageError, st') ∧
    heap st' !! 0%nat
      = Some (append_exception PipelineLastStageError
                (set_cur_stage 1 item_x)) ∧
    eval (Future_result 1) st' = Raises PipelineLastStageError ∧
    exceptions (heap S6 !!! 0%nat) = Some [PipelineLastStageError] ∧
    eval (Future_result 1) S6 = Raises PipelineLastStageError.
Proof.
  set (st := submitted skip_then_pair).
  set (s1 := exec (collect_done_futs true) st).
  set (s2 := exec (handle_done_futs [2%nat] [] false)
               (upd_pl_worker_pc (λ _, PcTop) s1)).
  assert (_wi_to_wifut s2 = [(Some 0%nat, 1%nat)]) as Htab
    by (vm_compute; reflexivity).
  destruct (last_stage_pairing_is_rejected st s1 s2 s2 7 0 1 item_x
              (subprocess_stage true) [2%nat] [] [] []
              [(0%nat, 0, PredReturns false)])
    as (_ & Hstages & st' & Hworker & Hheap & _ & _ & Hres & _).
  - vm_compute; reflexivity.
  - discriminate.
  - vm_compute; reflexivity.
  - reflexivity.
  - vm_compute; reflexivity.
  - reflexivity.
  - vm_compute; reflexivity.
  - vm_compute. split; discriminate.
  - vm_compute; reflexivity.
  - reflexivity.
  - vm_compute; reflexivity.
  - vm_compute; reflexivity.
  - vm_compute; reflexivity.
  - rewrite Htab. apply (bool_decide_unpack _). by vm_compute.
  - rewrite Htab. apply (bool_decide_unpack _). by vm_compute.
  - rewrite Htab. intros f [Hf|Hf]%elem_of_cons; [discriminate Hf|].
    by apply elem_of_nil in Hf.
  - exists st'. split; [|split; [exact Hworker|split; [|split]]].
    + assert (queued skip_then_pair = s2) as -> by (vm_compute; reflexivity).
      rewrite Hstages. vm_compute; reflexivity.
    + rewrite Hheap. vm_compute; reflexivity.
    + exact Hres.
    + split; vm_compute; reflexivity.
Defined.

(** C8 (as stated, refuted): in a pipeline of two stages that both ask
    for a pipe, the item reaches the final stage, which declares pairing,
    as the reading half of the pair that the first stage starts: the
    final stage is given the item on the second process pool and nothing
    raises [PipelineLastStageError]; when both workers have returned, the
    item is finalized unfailed and the future of the caller gives the
    item. *)
Lemma final_pairing_stage_takes_the_reader_half :
  last pair_twice = Some (subprocess_stage true) ∧
  is_pipe_with_next_stage (subprocess_stage true) = true ∧
  exec_tasks (_process_exec2 (started pair_twice))
    = [(4%nat, TaskStageWork (subprocess_stage true) 2 ∅)] ∧
  _plfut_to_wi (started pair_twice) !! 4%nat = Some 0%nat ∧
  pl_worker_pc (started pair_twice) = PcWaiting ∧
  let st' := run_pl_worker 8
               (worker_returns_item 4 item_x
                  (worker_returns_item 3 item_x (started pair_twice))) in
  eval (Future_result 1) st' = Returns (ResWorkItem 0) ∧
  (is_failed <$> heap st' !! 0%nat) = Some false ∧
  (_cur_stage <$> heap st' !! 0%nat) = Some 2 ∧
  _wi_to_wifut st' = [] ∧
  pl_worker_pc st' = PcWaiting.
Proof. repeat split; vm_compute; reflexivity. Qed.
End Pairing.
